(** * Castle: key codec, object streaming, version registry, transfers, mount

    A shallow embedding of the data-plane code of the castle kernel module
    (castle_objects.c, castle_versions.c, castle_transfer.c, castle_main.c)
    together with the properties its specification states about it.

    Conventions of the embedding:
    - a [uint32_t] is a [Z] in [0, 2^32) and every arithmetic operation of the
      source that can leave this range is followed by [wrap32];
    - a pointer that may be [NULL] is an [option];
    - [BUG()], [BUG_ON(c)] with [c] true, is the outcome [BUG];
    - [kmalloc]/[kzalloc] succeed or fail as an oracle on the requested size
      decides ([kmalloc_ok]);
    - bytes are [Byte.byte], buffers are lists of bytes. *)

From Stdlib Require Import ZArith Lia.
From Stdlib.Strings Require Import Byte.
From Stdlib Require Import Sorting.Sorted.
From stdpp Require Import base list gmap sorting.

Open Scope Z_scope.

(** ** Machine integers and outcomes *)

Definition wrap32 (z : Z) : Z := z mod 2 ^ 32.

(** Two's complement reading of a 32-bit pattern ([int], [atomic_t]). *)
Definition wrap_int32 (z : Z) : Z := (z + 2 ^ 31) mod 2 ^ 32 - 2 ^ 31.

Inductive outcome (A : Type) : Type :=
| Done (a : A)
| BUG.
Arguments Done {A} a.
Arguments BUG {A}.

Definition obind {A B} (o : outcome A) (f : A -> outcome B) : outcome B :=
  match o with
  | Done a => f a
  | BUG => BUG
  end.

Notation "'do' x <- o ; k" := (obind o (fun x => k))
  (at level 10, x name, o at level 100, k at level 200).

Definition is_null {A} (p : option A) : bool :=
  match p with
  | None => true
  | Some _ => false
  end.

Definition byte_val (b : byte) : Z := Z.of_N (Byte.to_N b).

(** [memcmp] of lib/string.c: the difference of the first pair of bytes that
    differ among the first [n], 0 when there is none. *)
Fixpoint memcmp (a b : list byte) (n : nat) : Z :=
  match n, a, b with
  | S n', x :: a', y :: b' =>
      if byte_val x =? byte_val y then memcmp a' b' n'
      else byte_val x - byte_val y
  | _, _, _ => 0
  end.

(** [memcpy(dst + pos, src, n)] on a buffer. *)
Definition memcpy (dst : list byte) (pos : nat) (src : list byte) (n : nat)
  : list byte :=
  take pos dst ++ take n src ++ drop (pos + n) dst.

(** ** Keys (castle_public.h)

    The object key is an array of length-prefixed dimensions. The B-tree key
    is one allocation: the fixed header, the [dim_head] array and the payload
    bytes. The record keeps the typed fields apart from the payload bytes;
    the byte at offset [o] of the allocation, for [o] past the [dim_head]
    array, is [bk_payload] at index [o - bkey_header_size]. *)

Record c_vl_key := mk_vl_key {
  vk_length : Z;
  vk_key : list byte
}.

Record c_vl_okey := mk_vl_okey {
  ok_nr_dims : Z;
  ok_dims : list c_vl_key
}.

Record c_vl_bkey := mk_vl_bkey {
  bk_length : Z;
  bk_nr_dims : Z;
  bk_dim_head : list Z;
  bk_payload : list byte
}.

(** Modelled from the spec: [sizeof(c_vl_bkey_t)], declared in castle_public.h;
    the spec gives the header size as H = 16 + 4 N. *)
Definition sizeof_c_vl_bkey_t : Z := 16.

Definition bkey_header_size (nr_dims : Z) : Z := sizeof_c_vl_bkey_t + 4 * nr_dims.

Definition KEY_DIMENSION_NEXT_FLAG : Z := Z.shiftl 1 0.
Definition KEY_DIMENSION_MINUS_INFINITY_FLAG : Z := Z.shiftl 1 1.
Definition KEY_DIMENSION_FLAGS_SHIFT : Z := 8.
Definition KEY_DIMENSION_FLAGS_MASK : Z := Z.shiftl 1 KEY_DIMENSION_FLAGS_SHIFT - 1.
Definition KEY_DIMENSION_FLAGS (dim_head : Z) : Z :=
  Z.land dim_head KEY_DIMENSION_FLAGS_MASK.
Definition KEY_DIMENSION_OFFSET (dim_head : Z) : Z :=
  Z.shiftr dim_head KEY_DIMENSION_FLAGS_SHIFT.
Definition KEY_DIMENSION_HEADER (off flags : Z) : Z :=
  Z.lor (wrap32 (Z.shiftl off KEY_DIMENSION_FLAGS_SHIFT))
        (Z.land flags KEY_DIMENSION_FLAGS_MASK).

(** [key->dim_head[dim]]; the source does no bounds check, the embedding reads
    0 outside the array. *)
Definition dim_head_at (key : c_vl_bkey) (dim : Z) : Z :=
  if dim <? 0 then 0 else nth (Z.to_nat dim) (bk_dim_head key) 0.

Definition okey_dim_at (okey : c_vl_okey) (dim : Z) : c_vl_key :=
  nth (Z.to_nat dim) (ok_dims okey) (mk_vl_key 0 []).

Definition castle_object_btree_key_dim_length (key : c_vl_bkey) (dim : Z) : Z :=
  let end_offset :=
    if dim + 1 <? bk_nr_dims key
    then KEY_DIMENSION_OFFSET (dim_head_at key (dim + 1))
    else wrap32 (bk_length key + 4) in
  wrap32 (end_offset - KEY_DIMENSION_OFFSET (dim_head_at key dim)).

(** The pointer [(char * )key + offset], as the bytes from there to the end of
    the allocation. *)
Definition castle_object_btree_key_dim_get (key : c_vl_bkey) (dim : Z) : list byte :=
  drop (Z.to_nat (KEY_DIMENSION_OFFSET (dim_head_at key dim)
                  - bkey_header_size (Z.of_nat (length (bk_dim_head key)))))
       (bk_payload key).

Definition castle_object_btree_key_dim_flags_get (key : c_vl_bkey) (dim : Z) : Z :=
  KEY_DIMENSION_FLAGS (dim_head_at key dim).

(** The loop [for (i = first; i < nr_dims; i++)] of the constructor: writes the
    dim head and the bytes of every object-key dimension in [dims], the first
    of which has index [i]. [hsz] is the offset of the first payload byte. *)
Fixpoint construct_dims (hsz : Z) (dims : list c_vl_key) (i : nat)
    (heads : list Z) (payload : list byte) (payload_offset : Z)
  : list Z * list byte * Z :=
  match dims with
  | [] => (heads, payload, payload_offset)
  | d :: dims' =>
      construct_dims hsz dims' (S i)
        (<[i := KEY_DIMENSION_HEADER payload_offset 0]> heads)
        (memcpy payload (Z.to_nat (payload_offset - hsz))
                (vk_key d) (Z.to_nat (vk_length d)))
        (wrap32 (payload_offset + vk_length d))
  end.

Section Alloc.

(** Whether an allocation of the given size succeeds. *)
Variable kmalloc_ok : Z -> bool.
(** [sizeof(c_vl_okey_t)] and [sizeof(c_vl_key_t * )]: castle_public.h and the
    target's pointer width are not part of the sources at hand. *)
Variable sizeof_c_vl_okey_t : Z.
Variable sizeof_ptr : Z.

(** Constructs btree key, taking dimensions < okey_first_dim from the
    src_bkey, and dimensions >= okey_first_dim from src_okey. The last
    sanity check compares the [int] with the [uint32_t] count as unsigned:
    a negative [okey_first_dim] stops there. *)
Definition castle_object_btree_key_construct
    (src_bkey : option c_vl_bkey) (src_okey : option c_vl_okey)
    (okey_first_dim : Z) : outcome (option c_vl_bkey) :=
  match src_okey with
  | None => BUG
  | Some okey =>
    if (0 <? okey_first_dim) && is_null src_bkey then BUG
    else if (okey_first_dim =? 0) && negb (is_null src_bkey) then BUG
    else if match src_bkey with
            | Some b => negb (bk_nr_dims b =? ok_nr_dims okey)
            | None => false
            end then BUG
    else if ok_nr_dims okey <=? wrap32 okey_first_dim then BUG
    else
      let nr_dims := ok_nr_dims okey in
      let first_okey_offset :=
        match src_bkey with
        | Some b => KEY_DIMENSION_OFFSET (dim_head_at b okey_first_dim)
        | None => 0
        end in
      let start_len :=
        if 0 <? okey_first_dim then first_okey_offset
        else wrap32 (sizeof_c_vl_bkey_t + 4 * nr_dims) in
      let dims := take (Z.to_nat (nr_dims - okey_first_dim))
                       (drop (Z.to_nat okey_first_dim) (ok_dims okey)) in
      let key_len :=
        fold_left (fun len d => wrap32 (len + vk_length d)) dims start_len in
      if negb (kmalloc_ok key_len) then Done None
      else
        let hsz := bkey_header_size nr_dims in
        let zero_heads := replicate (Z.to_nat nr_dims) 0 in
        let zero_payload := replicate (Z.to_nat (key_len - hsz)) x00 in
        let payload_offset := start_len in
        let '(heads0, payload0) :=
          match src_bkey with
          | Some b =>
              if 0 <? okey_first_dim
              then (bk_dim_head b,
                    memcpy zero_payload 0 (bk_payload b)
                           (Z.to_nat (payload_offset - hsz)))
              else (zero_heads, zero_payload)
          | None => (zero_heads, zero_payload)
          end in
        let '(heads, payload, payload_offset') :=
          construct_dims hsz dims (Z.to_nat okey_first_dim)
                         heads0 payload0 payload_offset in
        if negb (payload_offset' =? key_len) then BUG
        else Done (Some {| bk_length := wrap32 (key_len - 4);
                           bk_nr_dims := nr_dims;
                           bk_dim_head := heads;
                           bk_payload := payload |})
  end.

(** Converts 'object key' (i.e. multidimensional key) to btree key (single
    dimensional). *)
Definition castle_object_key_convert (obj_key : option c_vl_okey)
  : outcome (option c_vl_bkey) :=
  castle_object_btree_key_construct None obj_key 0.

(** The loop of [castle_object_btree_key_convert]: dimensions [i .. i+n-1];
    [None] when one [kmalloc] fails (the [err_out] path). *)
Fixpoint btree_key_convert_dims (btree_key : c_vl_bkey) (i : Z) (n : nat)
  : option (list c_vl_key) :=
  match n with
  | O => Some []
  | S n' =>
      let dim_len := castle_object_btree_key_dim_length btree_key i in
      if kmalloc_ok (wrap32 (dim_len + 4)) then
        let dim := {| vk_length := dim_len;
                      vk_key := take (Z.to_nat dim_len)
                                  (castle_object_btree_key_dim_get btree_key i) |} in
        match btree_key_convert_dims btree_key (i + 1) n' with
        | Some dims => Some (dim :: dims)
        | None => None
        end
      else None
  end.

Definition castle_object_btree_key_convert (btree_key : c_vl_bkey)
  : option c_vl_okey :=
  if kmalloc_ok (sizeof_c_vl_okey_t + sizeof_ptr * bk_nr_dims btree_key) then
    match btree_key_convert_dims btree_key 0 (Z.to_nat (bk_nr_dims btree_key)) with
    | Some dims => Some {| ok_nr_dims := bk_nr_dims btree_key; ok_dims := dims |}
    | None => None
    end
  else None.

End Alloc.

(** Lexicographic comparison of two dimensions, then the shorter one first,
    then the NEXT flag as tie-breaker. *)
Definition castle_object_key_dim_compare
    (dim_a : list byte) (dim_a_len dim_a_flags : Z)
    (dim_b : list byte) (dim_b_len dim_b_flags : Z) : outcome Z :=
  let cmp := memcmp dim_a dim_b
               (Z.to_nat (if dim_a_len >? dim_b_len then dim_b_len else dim_a_len)) in
  if negb (cmp =? 0) then Done cmp
  else if negb (dim_a_len =? dim_b_len)
  then Done (if dim_a_len >? dim_b_len then 1 else -1)
  else
    let dim_a_next_flag := Z.land dim_a_flags KEY_DIMENSION_NEXT_FLAG in
    let dim_b_next_flag := Z.land dim_b_flags KEY_DIMENSION_NEXT_FLAG in
    if negb (dim_a_next_flag =? 0) && negb (dim_b_next_flag =? 0) then BUG
    else if negb (dim_a_next_flag =? 0) then Done 1
    else if negb (dim_b_next_flag =? 0) then Done (-1)
    else Done 0.

(** The loop [for (dim = ...; dim < key1->nr_dims; dim++)] of the key
    comparison, over the [n] dimensions from [dim] on. *)
Fixpoint btree_key_compare_dims (key1 key2 : c_vl_bkey) (dim : Z) (n : nat)
  : outcome Z :=
  match n with
  | O => Done 0
  | S n' =>
      do cmp <- castle_object_key_dim_compare
                  (castle_object_btree_key_dim_get key1 dim)
                  (castle_object_btree_key_dim_length key1 dim)
                  (castle_object_btree_key_dim_flags_get key1 dim)
                  (castle_object_btree_key_dim_get key2 dim)
                  (castle_object_btree_key_dim_length key2 dim)
                  (castle_object_btree_key_dim_flags_get key2 dim);
      if negb (cmp =? 0) then Done cmp
      else btree_key_compare_dims key1 key2 (dim + 1) n'
  end.

Definition castle_object_btree_key_compare (key1 key2 : c_vl_bkey) : outcome Z :=
  if negb (bk_nr_dims key1 =? bk_nr_dims key2)
  then Done (if bk_nr_dims key1 >? bk_nr_dims key2 then 1 else -1)
  else btree_key_compare_dims key1 key2 0 (Z.to_nat (bk_nr_dims key1)).

(** [key->dim_head[dim] = ...]: a store outside the array (the source has no
    check) is not represented, the key is left as it is. *)
Definition castle_object_btree_key_dim_inc (key : c_vl_bkey) (dim : Z) : c_vl_bkey :=
  let flags := KEY_DIMENSION_FLAGS (dim_head_at key dim) in
  let offset := KEY_DIMENSION_OFFSET (dim_head_at key dim) in
  if dim <? 0 then key
  else {| bk_length := bk_length key;
          bk_nr_dims := bk_nr_dims key;
          bk_dim_head :=
            <[Z.to_nat dim :=
                KEY_DIMENSION_HEADER offset (Z.lor flags KEY_DIMENSION_NEXT_FLAG)]>
              (bk_dim_head key);
          bk_payload := bk_payload key |}.

(** Checks if the btree key is within the bounds imposed by start/end object
    keys: 1 if a dimension is greater than the end, -1 if it is less than the
    start, 0 within bounds; with the offending dimension when there is one
    ([None]: [*offending_dim_p] is not written). *)
Fixpoint bounds_check_dims (key : c_vl_bkey) (start end_ : c_vl_okey)
    (dim : Z) (n : nat) : outcome (Z * option Z) :=
  match n with
  | O => Done (0, None)
  | S n' =>
      let key_dim_len := castle_object_btree_key_dim_length key dim in
      let key_dim := castle_object_btree_key_dim_get key dim in
      let key_dim_flags := castle_object_btree_key_dim_flags_get key dim in
      let start_dim_len := vk_length (okey_dim_at start dim) in
      let start_dim := vk_key (okey_dim_at start dim) in
      let end_dim_len := vk_length (okey_dim_at end_ dim) in
      let end_dim := vk_key (okey_dim_at end_ dim) in
      do cmp <- castle_object_key_dim_compare key_dim key_dim_len key_dim_flags
                  start_dim start_dim_len 0;
      if cmp <? 0 then Done (-1, Some dim)
      else
        do cmp' <- castle_object_key_dim_compare key_dim key_dim_len key_dim_flags
                     end_dim end_dim_len 0;
        if cmp' >? 0 then Done (1, Some dim)
        else bounds_check_dims key start end_ (dim + 1) n'
  end.

Definition castle_object_btree_key_bounds_check
    (key : c_vl_bkey) (start end_ : c_vl_okey) : outcome (Z * option Z) :=
  if negb (bk_nr_dims key =? ok_nr_dims start)
     || negb (bk_nr_dims key =? ok_nr_dims end_)
  then BUG
  else bounds_check_dims key start end_ 0 (Z.to_nat (bk_nr_dims key)).

Section Codec.

(** Whether an allocation of the given size succeeds. *)
Variable kmalloc_ok : Z -> bool.

Definition castle_object_btree_key_next (key : c_vl_bkey) : option c_vl_bkey :=
  let key_length := wrap32 (bk_length key + 4) in
  if kmalloc_ok key_length
  then Some (castle_object_btree_key_dim_inc key (wrap_int32 (bk_nr_dims key - 1)))
  else None.

Definition castle_object_btree_key_skip
    (old_key : c_vl_bkey) (start : c_vl_okey) (offending_dim bigger : Z)
  : outcome (option c_vl_bkey) :=
  do new_key <- castle_object_btree_key_construct kmalloc_ok
                  (Some old_key) (Some start) offending_dim;
  match new_key with
  | None => Done None
  | Some k =>
      if negb (bigger =? 0)
      then Done (Some (castle_object_btree_key_dim_inc k offending_dim))
      else Done (Some k)
  end.

End Codec.

(** ** Well-formed object keys

    An object key is schema-valid when it has at least one dimension, its
    counts are those of its arrays, and its encoding fits the 24 offset bits
    of a dim head. *)

Definition dim_wf (d : c_vl_key) : Prop := vk_length d = Z.of_nat (length (vk_key d)).

Definition payload_size (dims : list c_vl_key) : Z :=
  foldr (fun d acc => vk_length d + acc) 0 dims.

Fixpoint dim_offsets (off : Z) (dims : list c_vl_key) : list Z :=
  match dims with
  | [] => []
  | d :: dims' => off :: dim_offsets (off + vk_length d) dims'
  end.

Definition okey_valid (O : c_vl_okey) : Prop :=
  1 <= ok_nr_dims O /\
  ok_nr_dims O = Z.of_nat (length (ok_dims O)) /\
  Forall dim_wf (ok_dims O) /\
  bkey_header_size (ok_nr_dims O) + payload_size (ok_dims O) < 2 ^ 24.


Definition sample_okey1 : c_vl_okey :=
  mk_vl_okey 2 [mk_vl_key 1 [x01]; mk_vl_key 2 [x02; x02]].
Definition sample_okey2 : c_vl_okey :=
  mk_vl_okey 2 [mk_vl_key 1 [x01]; mk_vl_key 2 [x02; x03]].

(** An allocator that never fails. *)
Definition kmalloc_always : Z -> bool := fun _ => true.

(** ** Well-formed B-tree keys *)

Fixpoint offsets_ordered (lo : Z) (offs : list Z) (hi : Z) : Prop :=
  match offs with
  | [] => lo <= hi
  | o :: offs' => lo <= o /\ offsets_ordered o offs' hi
  end.

Definition bkey_wf (K : c_vl_bkey) : Prop :=
  1 <= bk_nr_dims K /\
  bk_nr_dims K = Z.of_nat (length (bk_dim_head K)) /\
  Forall (fun h => 0 <= h < 2 ^ 32) (bk_dim_head K) /\
  0 <= bk_length K /\ bk_length K + 4 < 2 ^ 32 /\
  bk_length K + 4 =
    bkey_header_size (bk_nr_dims K) + Z.of_nat (length (bk_payload K)) /\
  offsets_ordered (bkey_header_size (bk_nr_dims K))
                  (map KEY_DIMENSION_OFFSET (bk_dim_head K)) (bk_length K + 4).

Definition dim_has_next (K : c_vl_bkey) (dim : Z) : bool :=
  negb (Z.land (castle_object_btree_key_dim_flags_get K dim) KEY_DIMENSION_NEXT_FLAG =? 0).

(** No dimension of the key carries the NEXT flag. *)
Definition bkey_no_next (K : c_vl_bkey) : Prop :=
  forall dim, 0 <= dim < bk_nr_dims K -> dim_has_next K dim = false.

Definition sample_bkey1 : c_vl_bkey := mk_vl_bkey 23 2 [6144; 6400] [x01; x02; x02].
Definition sample_bkey1_next : c_vl_bkey := mk_vl_bkey 23 2 [6144; 6401] [x01; x02; x02].

(** ** Error numbers (include/asm-generic/errno-base.h, errno.h) *)

Definition ENOENT : Z := 2.
Definition EIO : Z := 5.
Definition EAGAIN : Z := 11.
Definition ENOMEM : Z := 12.
Definition EEXIST : Z := 17.
Definition ENODEV : Z := 19.
Definition EINVAL : Z := 22.
Definition ENOSPC : Z := 28.

(** ** Disk blocks and values (castle.h)

    Modelled from the spec: a cdb is the pair (slave uuid, block index); a
    cache value tuple is tagged INVALID, TOMBSTONE, INLINE or ONDISK, with a
    length, and carries its bytes (INLINE) or its cdb (ONDISK). *)

Record c_disk_blk := mk_cdb {
  disk : Z;
  block : Z
}.

Inductive cvt_type := CVT_TYPE_INVALID | CVT_TYPE_TOMB_STONE | CVT_TYPE_INLINE | CVT_TYPE_ONDISK.

Record c_val_tup := mk_cvt {
  cvt_type_of : cvt_type;
  cvt_length : Z;
  cvt_val : list byte;
  cvt_cdb : c_disk_blk
}.

(** ** The range-query iterator (castle_objects.c) *)

(** What an iterator's [next] hands out: key, version, value. *)
Definition rq_entry : Type := c_vl_bkey * Z * c_val_tup.

Definition entry_key (e : rq_entry) : c_vl_bkey := fst (fst e).

(** The interface [castle_da_rq_iter] of the per-DA range iterator
    (castle_da.c, not among the sources at hand): its three operations, and a
    description of them by the entries that are still to come, in the order
    [next] will hand them out. [skip] may only fast-forward. *)
Class DaRqIter (I : Type) := {
  da_rq_iter_init : Z -> Z -> c_vl_bkey -> c_vl_bkey -> I;
  da_rq_iter_err : I -> Z;
  da_rq_iter_has_next : I -> bool;
  da_rq_iter_next : I -> rq_entry * I;
  da_rq_iter_skip : I -> option c_vl_bkey -> I;
  da_rq_iter_pending : I -> list rq_entry;
  da_rq_iter_has_next_pending i :
    da_rq_iter_has_next i = negb (bool_decide (da_rq_iter_pending i = []));
  da_rq_iter_next_pending i e rest :
    da_rq_iter_pending i = e :: rest ->
    fst (da_rq_iter_next i) = e /\
    da_rq_iter_pending (snd (da_rq_iter_next i)) = rest;
  da_rq_iter_skip_pending i k :
    da_rq_iter_pending (da_rq_iter_skip i k) `suffix_of` da_rq_iter_pending i
}.

Record c_obj_rq_iter (I : Type) := mk_obj_rq_iter {
  rq_da_id : Z;
  rq_version : Z;
  rq_start_okey : option c_vl_okey;
  rq_end_okey : option c_vl_okey;
  rq_err : Z;
  rq_start_bkey : option c_vl_bkey;
  rq_end_bkey : option c_vl_bkey;
  rq_da_rq_iter : I;
  rq_cached : Z;
  rq_cached_k : option c_vl_bkey;
  rq_cached_v : Z;
  rq_cached_cvt : c_val_tup
}.
Arguments mk_obj_rq_iter {I}.
Arguments rq_da_id {I}.
Arguments rq_version {I}.
Arguments rq_start_okey {I}.
Arguments rq_end_okey {I}.
Arguments rq_err {I}.
Arguments rq_start_bkey {I}.
Arguments rq_end_bkey {I}.
Arguments rq_da_rq_iter {I}.
Arguments rq_cached {I}.
Arguments rq_cached_k {I}.
Arguments rq_cached_v {I}.
Arguments rq_cached_cvt {I}.

Section RangeIterator.

Context {I : Type} `{DaRqIter I}.
Variable kmalloc_ok : Z -> bool.

Definition rq_set_da_rq_iter (iter : c_obj_rq_iter I) (da : I) : c_obj_rq_iter I :=
  mk_obj_rq_iter (rq_da_id iter) (rq_version iter) (rq_start_okey iter)
    (rq_end_okey iter) (rq_err iter) (rq_start_bkey iter) (rq_end_bkey iter)
    da (rq_cached iter) (rq_cached_k iter) (rq_cached_v iter) (rq_cached_cvt iter).

Definition rq_set_cached (iter : c_obj_rq_iter I) (c : Z) (k : option c_vl_bkey)
    (v : Z) (cvt : c_val_tup) : c_obj_rq_iter I :=
  mk_obj_rq_iter (rq_da_id iter) (rq_version iter) (rq_start_okey iter)
    (rq_end_okey iter) (rq_err iter) (rq_start_bkey iter) (rq_end_bkey iter)
    (rq_da_rq_iter iter) c k v cvt.

(** [castle_objects_rq_iter_next]: hands out the cached entry and clears the
    cache flag. *)
Definition castle_objects_rq_iter_next (iter : c_obj_rq_iter I)
  : outcome (option c_vl_bkey * Z * c_val_tup * c_obj_rq_iter I) :=
  if rq_cached iter =? 0 then BUG
  else Done (rq_cached_k iter, rq_cached_v iter, rq_cached_cvt iter,
             rq_set_cached iter 0 (rq_cached_k iter) (rq_cached_v iter)
                           (rq_cached_cvt iter)).

(** [castle_objects_rq_iter_has_next]: the [while (1)] loop, one iteration per
    unit of fuel; [None] when the fuel runs out. The dereference of a [NULL]
    [start_okey] or [end_okey] is rendered as [BUG]. *)
Fixpoint castle_objects_rq_iter_has_next (fuel : nat) (iter : c_obj_rq_iter I)
  : option (outcome (Z * c_obj_rq_iter I)) :=
  match fuel with
  | O => None
  | S fuel' =>
      if negb (rq_cached iter =? 0) then Some (Done (1, iter))
      else if negb (da_rq_iter_has_next (rq_da_rq_iter iter)) then Some (Done (0, iter))
      else
        let '(k, v, cvt, da) := da_rq_iter_next (rq_da_rq_iter iter) in
        let iter := rq_set_da_rq_iter iter da in
        match rq_start_okey iter, rq_end_okey iter with
        | Some start, Some end_ =>
            match castle_object_btree_key_bounds_check k start end_ with
            | BUG => Some BUG
            | Done (bigger, offending_dim) =>
                if negb (bigger =? 0) then
                  match castle_object_btree_key_skip kmalloc_ok k start
                          (default 0 offending_dim) bigger with
                  | BUG => Some BUG
                  | Done next_key =>
                      castle_objects_rq_iter_has_next fuel'
                        (rq_set_da_rq_iter iter
                           (da_rq_iter_skip (rq_da_rq_iter iter) next_key))
                  end
                else
                  castle_objects_rq_iter_has_next fuel'
                    (rq_set_cached iter 1 (Some k) v cvt)
            end
        | _, _ => Some BUG
        end
  end.

(** [castle_objects_rq_iter_init]. *)
Definition castle_objects_rq_iter_init (iter : c_obj_rq_iter I)
  : outcome (c_obj_rq_iter I) :=
  if is_null (rq_start_okey iter) || is_null (rq_end_okey iter) then BUG
  else
    do start_bkey <- castle_object_key_convert kmalloc_ok (rq_start_okey iter);
    do end_bkey <- castle_object_key_convert kmalloc_ok (rq_end_okey iter);
    let iter :=
      mk_obj_rq_iter (rq_da_id iter) (rq_version iter) (rq_start_okey iter)
        (rq_end_okey iter) 0 start_bkey end_bkey (rq_da_rq_iter iter)
        0 (rq_cached_k iter) (rq_cached_v iter) (rq_cached_cvt iter) in
    match start_bkey, end_bkey with
    | Some sb, Some eb =>
        let da := da_rq_iter_init (rq_version iter) (rq_da_id iter) sb eb in
        let iter := rq_set_da_rq_iter iter da in
        if negb (da_rq_iter_err da =? 0)
        then Done (mk_obj_rq_iter (rq_da_id iter) (rq_version iter)
                     (rq_start_okey iter) (rq_end_okey iter) (da_rq_iter_err da)
                     (rq_start_bkey iter) (rq_end_bkey iter) da
                     (rq_cached iter) (rq_cached_k iter) (rq_cached_v iter)
                     (rq_cached_cvt iter))
        else Done iter
    | _, _ =>
        Done (mk_obj_rq_iter (rq_da_id iter) (rq_version iter)
                (rq_start_okey iter) (rq_end_okey iter) (- ENOMEM)
                (rq_start_bkey iter) (rq_end_bkey iter) (rq_da_rq_iter iter)
                (rq_cached iter) (rq_cached_k iter) (rq_cached_v iter)
                (rq_cached_cvt iter))
    end.

(** How a run of the iterator ends. *)
Inductive rq_run_end := RqDrained | RqBug | RqOutOfFuel.

(** The client loop [while (has_next(iter)) { next(iter, &k, &v, &cvt); ... }]
    of [castle_object_slice_get]: the entries [next] hands out, in order, and
    how the loop ends. *)
Fixpoint rq_iter_run (fuel : nat) (iter : c_obj_rq_iter I)
  : list (option c_vl_bkey * Z * c_val_tup) * rq_run_end :=
  match fuel with
  | O => ([], RqOutOfFuel)
  | S fuel' =>
      match castle_objects_rq_iter_has_next fuel iter with
      | None => ([], RqOutOfFuel)
      | Some BUG => ([], RqBug)
      | Some (Done (r, iter)) =>
          if r =? 0 then ([], RqDrained)
          else
            match castle_objects_rq_iter_next iter with
            | BUG => ([], RqBug)
            | Done (k, v, cvt, iter) =>
                let '(out, e) := rq_iter_run fuel' iter in
                ((k, v, cvt) :: out, e)
            end
      end
  end.

End RangeIterator.

(** The range iterator over a plain list of entries: [skip] drops the entries
    whose key compares below the given one. *)
Fixpoint list_iter_skip (l : list rq_entry) (key : c_vl_bkey) : list rq_entry :=
  match l with
  | [] => []
  | e :: l' =>
      match castle_object_btree_key_compare (entry_key e) key with
      | Done c => if c <? 0 then list_iter_skip l' key else l
      | BUG => l
      end
  end.

Definition list_iter_has_next (l : list rq_entry) : bool :=
  negb (bool_decide (l = [])).

Definition list_iter_next (l : list rq_entry) : rq_entry * list rq_entry :=
  match l with
  | e :: l' => (e, l')
  | [] => ((mk_vl_bkey 0 0 [] [], 0, mk_cvt CVT_TYPE_INVALID 0 [] (mk_cdb 0 0)), [])
  end.

Definition list_iter_skip_ptr (l : list rq_entry) (k : option c_vl_bkey)
  : list rq_entry :=
  match k with
  | Some key => list_iter_skip l key
  | None => l
  end.

(** Strictly ascending in the B-tree key comparison. *)
Definition bkey_lt (k1 k2 : c_vl_bkey) : Prop :=
  exists c, castle_object_btree_key_compare k1 k2 = Done c /\ c < 0.

Definition entry_lt (e1 e2 : rq_entry) : Prop :=
  bkey_lt (entry_key e1) (entry_key e2).

(** The same on what [next] hands out, whose key is a pointer. *)
Definition emitted_lt (x1 x2 : option c_vl_bkey * Z * c_val_tup) : Prop :=
  exists k1 k2, x1.1.1 = Some k1 /\ x2.1.1 = Some k2 /\ bkey_lt k1 k2.

Definition emitted_in_bounds (start end_ : c_vl_okey)
    (x : option c_vl_bkey * Z * c_val_tup) : Prop :=
  exists k, x.1.1 = Some k /\
    castle_object_btree_key_bounds_check k start end_ = Done (0, None).

Definition emit (e : rq_entry) : option c_vl_bkey * Z * c_val_tup :=
  (Some e.1.1, e.1.2, e.2).


(** Sample range query: two-dimensional keys, bounds [(2,4), (3,6)]. *)
Definition sample_okey2d (a b : byte) : c_vl_okey :=
  mk_vl_okey 2 [mk_vl_key 1 [a]; mk_vl_key 1 [b]].

Definition sample_bkey2d (a b : byte) : c_vl_bkey :=
  mk_vl_bkey 22 2 [6144; 6400] [a; b].

Definition sample_cvt : c_val_tup := mk_cvt CVT_TYPE_TOMB_STONE 0 [] (mk_cdb 0 0).

Definition sample_contents : list rq_entry :=
  [(sample_bkey2d x02 x01, 1, sample_cvt); (sample_bkey2d x02 x05, 1, sample_cvt);
   (sample_bkey2d x02 x09, 1, sample_cvt); (sample_bkey2d x03 x04, 1, sample_cvt);
   (sample_bkey2d x03 x05, 1, sample_cvt); (sample_bkey2d x03 x07, 1, sample_cvt)].

Definition sample_rq_iter : c_obj_rq_iter (list rq_entry) :=
  mk_obj_rq_iter 0 1 (Some (sample_okey2d x02 x04)) (Some (sample_okey2d x03 x06))
    0 None None sample_contents 0 None 0 sample_cvt.

(** ** The transfer engine (castle_transfer.c) *)

(** A cached page ([c2_page_t], castle_cache.h): its block, reference count,
    lock, flags, contents and [private] link. *)
Inductive c2p_private :=
| PrivNone
| PrivPage (cdb : c_disk_blk)
| PrivTransfer (id : Z).

Record c2_page := mk_c2p {
  c2p_cdb : c_disk_blk;
  c2p_count : Z;
  c2p_locked : bool;
  c2p_uptodate_bit : bool;
  c2p_dirty_bit : bool;
  c2p_buffer : list byte;
  c2p_priv : c2p_private
}.

Definition cdb_key (cdb : c_disk_blk) : Z * Z := (disk cdb, block cdb).

(** What the engine asks of its collaborators, in order: the tree iterator
    (castle_btree.c), the block layer and the free-space allocator. *)
Inductive transfer_event :=
| EvIterCancel (err : Z)
| EvIterContinue
| EvSubmitRead (cdb : c_disk_blk)
| EvBlockFree (cdb : c_disk_blk).

Inductive transfer_direction :=
| CASTLE_TRANSFER_TO_TARGET
| CASTLE_TRANSFER_TO_REGION
| CASTLE_TRANSFER_OTHER (d : Z).

(** The FS superblock (castle.h), thirteen 32-bit words. *)
Record castle_fs_superblock := mk_fs_sb {
  magic1 : Z;
  magic2 : Z;
  magic3 : Z;
  salt : Z;
  peper : Z;
  fwd_tree_disk1 : Z;
  fwd_tree_block1 : Z;
  fwd_tree_disk2 : Z;
  fwd_tree_block2 : Z;
  rev_tree_disk1 : Z;
  rev_tree_block1 : Z;
  rev_tree_disk2 : Z;
  rev_tree_block2 : Z
}.

Inductive vtree_slot :=
| VTREE_SLOT_LEAF (version_nr : Z) (cdb : c_disk_blk)
| VTREE_SLOT_NODE (cdb : c_disk_blk)
| VTREE_SLOT_NODE_LAST (cdb : c_disk_blk).

(** What [castle_sub_block_read] (castle_block.c) gets from a slave's device:
    the error code and the bytes, read as the structure they are read into.
    [bd_fs_sb]: the FS superblock at offset [C_BLK_SIZE]; [bd_vtree_header]:
    capacity and used count of the version-tree node at a block;
    [bd_vtree_slots]: its slots. *)
Record block_device := mk_bdev {
  bd_fs_sb : Z * castle_fs_superblock;
  bd_vtree_header : Z -> Z * (Z * Z);
  bd_vtree_slots : Z -> Z * list vtree_slot
}.

(** A slave: its id, the uuid and flags of its slave superblock, its device. *)
Record castle_slave := mk_slave {
  cs_id : Z;
  cs_uuid : Z;
  cs_flags : Z;
  cs_bdev : block_device
}.

Record castle_region := mk_region {
  region_slave : castle_slave;
  region_version : Z;
  region_length : Z
}.

Record castle_transfer := mk_transfer {
  tr_id : Z;
  tr_version : Z;
  tr_direction : transfer_direction;
  tr_regions : list castle_region;
  tr_phase : Z;
  tr_progress : Z
}.

(** The transfer, the page cache and the calls made so far. *)
Record transfer_state := mk_tstate {
  ts_transfer : castle_transfer;
  ts_cache : gmap (Z * Z) c2_page;
  ts_events : list transfer_event
}.

Definition fresh_c2p (cdb : c_disk_blk) : c2_page :=
  mk_c2p cdb 0 false false false [] PrivNone.

Definition cache_page (cache : gmap (Z * Z) c2_page) (cdb : c_disk_blk) : c2_page :=
  default (fresh_c2p cdb) (cache !! cdb_key cdb).

Definition update_page (st : transfer_state) (cdb : c_disk_blk)
    (f : c2_page -> c2_page) : transfer_state :=
  mk_tstate (ts_transfer st)
            (<[cdb_key cdb := f (cache_page (ts_cache st) cdb)]> (ts_cache st))
            (ts_events st).

Definition c2p_with_count (n : Z) (p : c2_page) : c2_page :=
  mk_c2p (c2p_cdb p) n (c2p_locked p) (c2p_uptodate_bit p) (c2p_dirty_bit p)
         (c2p_buffer p) (c2p_priv p).

Definition c2p_with_locked (b : bool) (p : c2_page) : c2_page :=
  mk_c2p (c2p_cdb p) (c2p_count p) b (c2p_uptodate_bit p) (c2p_dirty_bit p)
         (c2p_buffer p) (c2p_priv p).

Definition c2p_with_dirty (b : bool) (p : c2_page) : c2_page :=
  mk_c2p (c2p_cdb p) (c2p_count p) (c2p_locked p) (c2p_uptodate_bit p) b
         (c2p_buffer p) (c2p_priv p).

Definition c2p_with_buffer (buf : list byte) (p : c2_page) : c2_page :=
  mk_c2p (c2p_cdb p) (c2p_count p) (c2p_locked p) (c2p_uptodate_bit p)
         (c2p_dirty_bit p) buf (c2p_priv p).

Definition c2p_with_priv (priv : c2p_private) (p : c2_page) : c2_page :=
  mk_c2p (c2p_cdb p) (c2p_count p) (c2p_locked p) (c2p_uptodate_bit p)
         (c2p_dirty_bit p) (c2p_buffer p) priv.

(** [castle_cache_page_get]: the page of the block, one more reference. *)
Definition castle_cache_page_get (st : transfer_state) (cdb : c_disk_blk)
  : transfer_state :=
  update_page st cdb (fun p => c2p_with_count (c2p_count p + 1) p).

Definition put_c2p (st : transfer_state) (cdb : c_disk_blk) : transfer_state :=
  update_page st cdb (fun p => c2p_with_count (c2p_count p - 1) p).

Definition lock_c2p (st : transfer_state) (cdb : c_disk_blk) : transfer_state :=
  update_page st cdb (c2p_with_locked true).

Definition unlock_c2p (st : transfer_state) (cdb : c_disk_blk) : transfer_state :=
  update_page st cdb (c2p_with_locked false).

Definition dirty_c2p (st : transfer_state) (cdb : c_disk_blk) : transfer_state :=
  update_page st cdb (c2p_with_dirty true).

Definition set_c2p_private (st : transfer_state) (cdb : c_disk_blk)
    (priv : c2p_private) : transfer_state :=
  update_page st cdb (c2p_with_priv priv).

Definition set_c2p_buffer (st : transfer_state) (cdb : c_disk_blk)
    (buf : list byte) : transfer_state :=
  update_page st cdb (c2p_with_buffer buf).

Definition c2p_uptodate (st : transfer_state) (cdb : c_disk_blk) : bool :=
  c2p_uptodate_bit (cache_page (ts_cache st) cdb).

Definition emit_event (st : transfer_state) (ev : transfer_event) : transfer_state :=
  mk_tstate (ts_transfer st) (ts_cache st) (ts_events st ++ [ev]).

Definition set_transfer (st : transfer_state) (t : castle_transfer) : transfer_state :=
  mk_tstate t (ts_cache st) (ts_events st).

Definition transfer_phase_add (st : transfer_state) (d : Z) : transfer_state :=
  let t := ts_transfer st in
  set_transfer st (mk_transfer (tr_id t) (tr_version t) (tr_direction t)
                     (tr_regions t) (wrap_int32 (tr_phase t + d)) (tr_progress t)).

Definition transfer_progress_inc (st : transfer_state) : transfer_state :=
  let t := ts_transfer st in
  set_transfer st (mk_transfer (tr_id t) (tr_version t) (tr_direction t)
                     (tr_regions t) (tr_phase t) (wrap_int32 (tr_progress t + 1))).

Definition castle_ftree_iter_cancel (st : transfer_state) (err : Z) : transfer_state :=
  emit_event st (EvIterCancel err).

Definition castle_ftree_iter_continue (st : transfer_state) : transfer_state :=
  emit_event st EvIterContinue.

Section Transfer.

(** The slaves list, [CASTLE_SLAVE_TARGET], the invalid block sentinel and the
    free-space allocator (castle.h, castle_freespace.c) are collaborators. *)
Variable castle_slaves : list castle_slave.
Variable CASTLE_SLAVE_TARGET : Z.
Variable INVAL_DISK_BLK : c_disk_blk.
Variable castle_freespace_block_get : Z -> c_disk_blk.
Variable castle_freespace_blks_for_version_get : castle_slave -> Z -> Z.
Variable castle_freespace_slave_block_get : castle_slave -> Z -> c_disk_blk.

Definition DISK_BLK_INVAL (cdb : c_disk_blk) : bool :=
  (disk cdb =? disk INVAL_DISK_BLK) && (block cdb =? block INVAL_DISK_BLK).

Definition castle_slave_find_by_uuid (uuid : Z) : option castle_slave :=
  find (fun slave => cs_uuid slave =? uuid) castle_slaves.

Definition castle_slave_find_by_block (cdb : c_disk_blk) : option castle_slave :=
  castle_slave_find_by_uuid (disk cdb).

(** The dereference of a slave that was not found is rendered as [BUG]. *)
Definition castle_transfer_is_block_on_correct_disk
    (transfer : castle_transfer) (cdb : c_disk_blk) : outcome bool :=
  match tr_direction transfer with
  | CASTLE_TRANSFER_TO_TARGET =>
      match castle_slave_find_by_block cdb with
      | Some slave =>
          Done (negb (Z.land (cs_flags slave) CASTLE_SLAVE_TARGET =? 0))
      | None => BUG
      end
  | CASTLE_TRANSFER_TO_REGION =>
      Done (existsb (fun region => cs_uuid (region_slave region) =? disk cdb)
                    (tr_regions transfer))
  | CASTLE_TRANSFER_OTHER _ => BUG
  end.

(** The loop over the regions of [castle_transfer_get_destination]. *)
Fixpoint get_destination_regions (regions : list castle_region) (cdb : c_disk_blk)
  : c_disk_blk :=
  match regions with
  | [] => cdb
  | region :: regions' =>
      if negb (DISK_BLK_INVAL cdb) then cdb
      else if castle_freespace_blks_for_version_get
                (region_slave region) (region_version region)
              >=? region_length region
      then get_destination_regions regions' cdb
      else get_destination_regions regions'
             (castle_freespace_slave_block_get
                (region_slave region) (region_version region))
  end.

Definition castle_transfer_get_destination (transfer : castle_transfer)
  : outcome c_disk_blk :=
  match tr_direction transfer with
  | CASTLE_TRANSFER_TO_TARGET =>
      Done (castle_freespace_block_get (tr_version transfer))
  | CASTLE_TRANSFER_TO_REGION =>
      Done (get_destination_regions (tr_regions transfer) INVAL_DISK_BLK)
  | CASTLE_TRANSFER_OTHER _ => BUG
  end.

(** [castle_do_transfer_callback(src, uptodate)]. *)
Definition castle_do_transfer_callback (st : transfer_state) (src : c_disk_blk)
    (uptodate : bool) : outcome transfer_state :=
  match c2p_priv (cache_page (ts_cache st) src) with
  | PrivPage dest =>
      if negb uptodate then Done (castle_ftree_iter_cancel st (- EIO))
      else
        let st := set_c2p_buffer st dest (c2p_buffer (cache_page (ts_cache st) src)) in
        let st := dirty_c2p st dest in
        let st := unlock_c2p st src in
        let st := put_c2p st src in
        let st := unlock_c2p st dest in
        let st := put_c2p st dest in
        let st := emit_event st (EvBlockFree src) in
        let st := transfer_progress_inc st in
        let st := transfer_phase_add st (-1) in
        if tr_phase (ts_transfer st) =? 0
        then Done (castle_ftree_iter_continue st)
        else Done st
  | _ => BUG
  end.

(** [castle_move_block(transfer, cdb)]. With the state comes the read it
    submitted, if any: that read completes later, by a call of the [end_io]
    it installed, [castle_do_transfer_callback]. *)
Definition castle_move_block (st : transfer_state) (cdb : c_disk_blk)
  : outcome (transfer_state * option c_disk_blk) :=
  do on_disk <- castle_transfer_is_block_on_correct_disk (ts_transfer st) cdb;
  if on_disk then Done (transfer_progress_inc st, None)
  else
    let src := cdb in
    let st := castle_cache_page_get st src in
    let st := lock_c2p st src in
    do dest_db <- castle_transfer_get_destination (ts_transfer st);
    if DISK_BLK_INVAL dest_db then
      let st := unlock_c2p st src in
      let st := put_c2p st src in
      Done (castle_ftree_iter_cancel st (- ENOMEM), None)
    else
      let dest := dest_db in
      let st := castle_cache_page_get st dest in
      let st := lock_c2p st dest in
      let st := set_c2p_private st dest (PrivTransfer (tr_id (ts_transfer st))) in
      let st := set_c2p_private st src (PrivPage dest) in
      let st := transfer_phase_add st 1 in
      if negb (c2p_uptodate st src)
      then Done (emit_event st (EvSubmitRead src), Some src)
      else
        do st <- castle_do_transfer_callback st src true;
        Done (st, None).

(** A block move from its start to its completion: [castle_move_block] and,
    when it submitted the read of the source, the completion of that read
    with the given result. *)
Definition block_move (st : transfer_state) (cdb : c_disk_blk) (read_ok : bool)
  : outcome transfer_state :=
  do r <- castle_move_block st cdb;
  match r with
  | (st', Some src) => castle_do_transfer_callback st' src read_ok
  | (st', None) => Done st'
  end.

End Transfer.

(** Modelled from the spec: the error kinds of its taxonomy and the error
    numbers that carry them. *)
Inductive error_kind :=
| NotFound | Invalid | Busy | NoMemory | NoSpace | IO | Protocol.

Definition errno_kind (err : Z) : option error_kind :=
  if err =? - ENOENT then Some NotFound
  else if err =? - EINVAL then Some Invalid
  else if (err =? - EAGAIN) || (err =? - EEXIST) then Some Busy
  else if err =? - ENOMEM then Some NoMemory
  else if err =? - ENOSPC then Some NoSpace
  else if err =? - EIO then Some IO
  else None.

(** The [cancel] calls among the events. *)
Definition cancel_errors (evs : list transfer_event) : list Z :=
  omap (fun ev => match ev with EvIterCancel err => Some err | _ => None end) evs.

(** A buffer is pinned when it is locked and referenced. *)
Definition page_pinned (st : transfer_state) (cdb : c_disk_blk) (count : Z) : Prop :=
  c2p_locked (cache_page (ts_cache st) cdb) = true /\
  c2p_count (cache_page (ts_cache st) cdb) = count.

Definition page_released (st : transfer_state) (cdb : c_disk_blk) (count : Z) : Prop :=
  c2p_locked (cache_page (ts_cache st) cdb) = false /\
  c2p_count (cache_page (ts_cache st) cdb) = count.

(** Sample transfer: slave 1 is not a target, slave 2 is; the block (1, 7) has
    to move to a target. *)
Definition sample_bdev : block_device :=
  mk_bdev (0, mk_fs_sb 0 0 0 0 0 0 0 0 0 0 0 0 0) (fun _ => (0, (0, 0))) (fun _ => (0, [])).

Definition sample_slaves : list castle_slave :=
  [mk_slave 0 1 0 sample_bdev; mk_slave 1 2 1 sample_bdev].

Definition sample_transfer_state : transfer_state :=
  mk_tstate (mk_transfer 0 1 CASTLE_TRANSFER_TO_TARGET [] 1 0) ∅ [].

Definition sample_src : c_disk_blk := mk_cdb 1 7.
Definition sample_dest : c_disk_blk := mk_cdb 2 5.
Definition sample_inval : c_disk_blk := mk_cdb 0 0.

(** An allocator with no free block, and one that hands out [sample_dest]. *)
Definition freespace_none : Z -> c_disk_blk := fun _ => sample_inval.
Definition freespace_some : Z -> c_disk_blk := fun _ => sample_dest.
Definition freespace_blks_none : castle_slave -> Z -> Z := fun _ _ => 0.
Definition freespace_slave_none : castle_slave -> Z -> c_disk_blk :=
  fun _ _ => sample_inval.

(** ** Mount (castle_main.c) *)

Global Instance castle_fs_superblock_eq_dec : EqDecision castle_fs_superblock.
Proof. solve_decision. Defined.

Definition castle_fs_superblock_validate (fs_sb : castle_fs_superblock) : Z :=
  if negb (magic1 fs_sb =? 0x19731121) then -1
  else if negb (magic2 fs_sb =? 0x19880624) then -2
  else if negb (magic3 fs_sb =? 0x19821120) then -3
  else 0.

(** [castle_fs_superblock_read(cs, fs_sb)]: the error code and what is left in
    the buffer [fs_sb]. *)
Definition castle_fs_superblock_read (cs : castle_slave) : Z * castle_fs_superblock :=
  let '(err, fs_sb) := bd_fs_sb (cs_bdev cs) in
  if negb (err =? 0) then (err, fs_sb)
  else
    let err := castle_fs_superblock_validate fs_sb in
    if negb (err =? 0) then (err, fs_sb) else (0, fs_sb).

(** [memcmp] of two superblocks: 0 exactly when all their bytes, that is all
    their fields, are equal; its value otherwise is not used. *)
Definition memcmp_fs_superblock (a b : castle_fs_superblock) : Z :=
  if bool_decide (a = b) then 0 else 1.

(** The loop [list_for_each(lh, &castle_slaves.slaves)] of [castle_fs_init]:
    [Some ret] when the loop returns [ret], and the values of [first] and of
    [castle_fs_super] it leaves. *)
Fixpoint fs_init_slaves (slaves : list castle_slave) (first : Z)
    (fs_super : castle_fs_superblock) : option Z * Z * castle_fs_superblock :=
  match slaves with
  | [] => (None, first, fs_super)
  | cs :: slaves' =>
      let '(ret, fs_sb) := castle_fs_superblock_read cs in
      if negb (ret =? 0) then fs_init_slaves slaves' first fs_super
      else if negb (first =? 0) then fs_init_slaves slaves' 0 fs_sb
      else if negb (memcmp_fs_superblock fs_super fs_sb =? 0)
      then (Some (- EINVAL), first, fs_super)
      else fs_init_slaves slaves' first fs_super
  end.

Record castle_main_state := mk_main_state {
  castle_fs_inited : Z;
  castle_fs_super : castle_fs_superblock
}.

Section Mount.

Variable castle_slaves : list castle_slave.
Variable kmalloc_ok : Z -> bool.
(** [sizeof(struct castle_vtree_node)] and [VTREE_NODE_SLOTS] (castle.h). *)
Variable sizeof_castle_vtree_node : Z.
Variable VTREE_NODE_SLOTS : Z.

(** A version-tree node in memory: the slots read and, beside each, the
    pointer [children[i]], [None] for [NULL] (the node is zeroed when it is
    allocated). *)
#[warnings="-register-all"]
Inductive castle_vtree_node :=
| VtreeNode (slots : list (vtree_slot * option castle_vtree_node)).

(** [castle_version_node_destroy(v_node)] for a [v_node] that is not [NULL]:
    [false] when it comes to dereference a [NULL] child, which it does for a
    slot of type [VTREE_SLOT_NODE] whose child was not stored. *)
Fixpoint castle_version_node_destroy (v_node : castle_vtree_node) : bool :=
  match v_node with
  | VtreeNode slots =>
      forallb (fun sc =>
                 match sc with
                 | (VTREE_SLOT_NODE _, Some child) => castle_version_node_destroy child
                 | (VTREE_SLOT_NODE _, None) => false
                 | _ => true
                 end) slots
  end.

(** The clean-up [while (i > 0)] of [castle_version_tree_read] over the
    children read so far: every [children[i]] is handed to
    [castle_version_node_destroy], which reads [v_node->used] at once, also
    the [NULL] one of a leaf slot. [false]: a [NULL] pointer is
    dereferenced. *)
Definition vtree_children_destroy
    (children : list (vtree_slot * option castle_vtree_node)) : bool :=
  forallb (fun sc => match sc.2 with
                     | Some child => castle_version_node_destroy child
                     | None => false
                     end) children.

(** [castle_version_tree_read(cdb, v_node)]: its return value and what it
    stores through [v_node] ([None]: nothing is stored). The recursion into
    the child nodes is bounded by the fuel, [None] when it runs out; [BUG]
    is the [NULL] dereference of the clean-up. *)
Fixpoint castle_version_tree_read (fuel : nat) (cdb : c_disk_blk)
  : option (outcome (Z * option castle_vtree_node)) :=
  match fuel with
  | O => None
  | S fuel' =>
      if negb (kmalloc_ok sizeof_castle_vtree_node) then Some (Done (- ENOMEM, None))
      else
        match find (fun slave => cs_uuid slave =? disk cdb) castle_slaves with
        | None => Some (Done (- ENODEV, None))
        | Some cs =>
            let '(ret, (capacity, used)) := bd_vtree_header (cs_bdev cs) (block cdb) in
            if negb (ret =? 0) then Some (Done (ret, None))
            else if (capacity >? VTREE_NODE_SLOTS) || (used >? capacity)
            then Some (Done (ret, None))
            else
              let '(ret, slots) := bd_vtree_slots (cs_bdev cs) (block cdb) in
              if negb (ret =? 0) then Some (Done (ret, None))
              else
                (fix children (slots : list vtree_slot)
                     (read : list (vtree_slot * option castle_vtree_node))
                   : option (outcome (Z * option castle_vtree_node)) :=
                   match slots with
                   | [] => Some (Done (0, Some (VtreeNode read)))
                   | VTREE_SLOT_LEAF version_nr leaf :: slots' =>
                       children slots' (read ++ [(VTREE_SLOT_LEAF version_nr leaf, None)])
                   | (VTREE_SLOT_NODE child as slot) :: slots'
                   | (VTREE_SLOT_NODE_LAST child as slot) :: slots' =>
                       match castle_version_tree_read fuel' child with
                       | None => None
                       | Some BUG => Some BUG
                       | Some (Done (ret, v_node)) =>
                           if ret <? 0 then
                             if vtree_children_destroy read
                             then Some (Done (ret, None))
                             else Some BUG
                           else children slots' (read ++ [(slot, v_node)])
                       end
                   end) (take (Z.to_nat used) slots) []
        end
  end.

Definition castle_fs_init (fuel : nat) (st : castle_main_state)
  : option (outcome (Z * castle_main_state)) :=
  if negb (castle_fs_inited st =? 0) then Some (Done (- EEXIST, st))
  else if bool_decide (castle_slaves = []) then Some (Done (- ENOENT, st))
  else
    let '(returned, first, fs_super) :=
      fs_init_slaves castle_slaves 1 (castle_fs_super st) in
    let st := mk_main_state (castle_fs_inited st) fs_super in
    match returned with
    | Some ret => Some (Done (ret, st))
    | None =>
        if negb (first =? 0) then Some (Done (- ENOENT, st))
        else
          let blk := mk_cdb (fwd_tree_disk1 fs_super) (fwd_tree_block1 fs_super) in
          match castle_version_tree_read fuel blk with
          | None => None
          | Some BUG => Some BUG
          | Some (Done (ret, _)) =>
              if negb (ret =? 0) then Some (Done (- EINVAL, st))
              else Some (Done (0, mk_main_state 1 fs_super))
          end
    end.

End Mount.

(** The slaves whose FS superblock reads and passes the magic validation, and
    their superblocks. *)
Definition fs_superblock_ok (cs : castle_slave) : bool :=
  (castle_fs_superblock_read cs).1 =? 0.

Definition valid_fs_superblocks (slaves : list castle_slave)
  : list castle_fs_superblock :=
  map (fun cs => (castle_fs_superblock_read cs).2) (filter fs_superblock_ok slaves).

(** Sample slaves: one with a valid FS superblock whose tree root is an empty
    node on slave 1, one whose FS superblock has a wrong first magic. *)
Definition sample_fs_sb : castle_fs_superblock :=
  mk_fs_sb 0x19731121 0x19880624 0x19821120 1 2 1 3 0 0 0 0 0 0.

Definition sample_bad_fs_sb : castle_fs_superblock :=
  mk_fs_sb 0 0x19880624 0x19821120 1 2 1 3 0 0 0 0 0 0.

Definition sample_other_fs_sb : castle_fs_superblock :=
  mk_fs_sb 0x19731121 0x19880624 0x19821120 9 9 1 3 0 0 0 0 0 0.

Definition sample_bdev_of (sb : castle_fs_superblock) : block_device :=
  mk_bdev (0, sb) (fun _ => (0, (8, 0))) (fun _ => (0, [])).

Definition sample_mount_slaves : list castle_slave :=
  [mk_slave 0 1 0 (sample_bdev_of sample_fs_sb);
   mk_slave 1 2 0 (sample_bdev_of sample_bad_fs_sb)].

Definition sample_mismatch_slaves : list castle_slave :=
  [mk_slave 0 1 0 (sample_bdev_of sample_fs_sb);
   mk_slave 1 2 0 (sample_bdev_of sample_other_fs_sb)].

Definition sample_main_state : castle_main_state :=
  mk_main_state 0 (mk_fs_sb 0 0 0 0 0 0 0 0 0 0 0 0 0).

(** ** Streaming of out-of-line values (castle_objects.c) *)

(** A cache buffer over consecutive blocks ([c2_block_t]). *)
Record c2_block := mk_c2b {
  c2b_cdb : c_disk_blk;
  c2b_nr_pages : Z
}.

(** What the object engine does to the buffer cache. *)
Inductive obj_io_event :=
| IoBlockGet (cdb : c_disk_blk) (nr_blocks : Z)
| IoLock (cdb : c_disk_blk)
| IoDirty (cdb : c_disk_blk)
| IoUnlock (cdb : c_disk_blk)
| IoPut (cdb : c_disk_blk).

(** The bytes of the slaves' blocks as the buffer cache shows them, by slave
    and byte address, and the calls made to the cache. *)
Record obj_io_state := mk_io_state {
  io_blocks : gmap (Z * Z) byte;
  io_events : list obj_io_event
}.

Definition io_emit (st : obj_io_state) (ev : obj_io_event) : obj_io_state :=
  mk_io_state (io_blocks st) (io_events st ++ [ev]).

(** The windows acquired, in order. *)
Definition io_windows (st : obj_io_state) : list (c_disk_blk * Z) :=
  omap (fun ev => match ev with
                  | IoBlockGet cdb n => Some (cdb, n)
                  | _ => None
                  end) (io_events st).

Fixpoint store_bytes (blocks : gmap (Z * Z) byte) (slave addr : Z)
    (bytes : list byte) : gmap (Z * Z) byte :=
  match bytes with
  | [] => blocks
  | b :: bytes' => store_bytes (<[(slave, addr) := b]> blocks) slave (addr + 1) bytes'
  end.

Fixpoint load_bytes (blocks : gmap (Z * Z) byte) (slave addr : Z) (n : nat)
  : list byte :=
  match n with
  | O => []
  | S n' => default x00 (blocks !! (slave, addr)) :: load_bytes blocks slave (addr + 1) n'
  end.

Definition OBJ_IO_MAX_BUFFER_SIZE : Z := 10.

(** The state a replace call keeps between packets
    ([castle_rxrpc_replace_call_get/set]) and the unread bytes of the packet
    at hand. *)
Record replace_call := mk_replace_call {
  rc_data_c2b : c2_block;
  rc_data_c2b_offset : Z;
  rc_data_length : Z;
  rc_packet : list byte
}.

(** A reply frame of a get: the bytes and whether it is the first frame. *)
Record get_frame := mk_get_frame {
  gf_first : bool;
  gf_last : bool;
  gf_bytes : list byte
}.

Section ObjectIO.

(** The block size (castle.h). *)
Variable C_BLK_SIZE : Z.

(** The number of blocks of the buffer for [data_length] bytes still to come,
    as both [castle_object_write_next_cdb] and
    [castle_object_write_buffer_alloc] work it out. *)
Definition write_buffer_nr_blocks (data_length : Z) : Z :=
  let data_c2b_length :=
    if data_length >? OBJ_IO_MAX_BUFFER_SIZE * C_BLK_SIZE
    then OBJ_IO_MAX_BUFFER_SIZE * C_BLK_SIZE
    else data_length in
  wrap_int32 (wrap32 (wrap32 (data_c2b_length - 1) / C_BLK_SIZE + 1)).

Definition castle_object_write_next_cdb (old_cdb : c_disk_blk) (data_length : Z)
  : c_disk_blk :=
  let nr_blocks := write_buffer_nr_blocks data_length in
  {| disk := disk old_cdb; block := wrap32 (block old_cdb + nr_blocks) |}.

Definition castle_object_write_buffer_alloc (st : obj_io_state)
    (new_data_cdb : c_disk_blk) (data_length : Z) : obj_io_state * c2_block :=
  let nr_blocks := write_buffer_nr_blocks data_length in
  (io_emit (io_emit st (IoBlockGet new_data_cdb nr_blocks)) (IoLock new_data_cdb),
   mk_c2b new_data_cdb nr_blocks).

(** [castle_rxrpc_str_copy(call, buffer, len, partial)] into a cache buffer:
    the next [len] bytes of the packet go to [buffer]. *)
Definition str_copy_to_c2b (st : obj_io_state) (c2b : c2_block) (offset : Z)
    (packet : list byte) (len : Z) : obj_io_state :=
  mk_io_state
    (store_bytes (io_blocks st) (disk (c2b_cdb c2b))
                 (block (c2b_cdb c2b) * C_BLK_SIZE + offset)
                 (take (Z.to_nat len) packet))
    (io_events st).

Definition release_dirty_c2b (st : obj_io_state) (c2b : c2_block) : obj_io_state :=
  io_emit (io_emit (io_emit st (IoDirty (c2b_cdb c2b))) (IoUnlock (c2b_cdb c2b)))
          (IoPut (c2b_cdb c2b)).

(** The [do ... while] loop of [castle_object_data_write], one iteration per
    unit of fuel. *)
Fixpoint data_write_loop (fuel : nat) (st : obj_io_state) (data_c2b : c2_block)
    (data_c2b_offset data_c2b_length data_length packet_length : Z)
    (packet : list byte)
  : option (outcome (obj_io_state * replace_call)) :=
  match fuel with
  | O => None
  | S fuel' =>
      if data_c2b_offset >=? data_c2b_length then Some BUG
      else
        let space := wrap32 (data_c2b_length - data_c2b_offset) in
        let copy_length := if space >=? packet_length then packet_length else space in
        let last_copy := copy_length >=? data_length in
        let copy_length := if last_copy then data_length else copy_length in
        let st := str_copy_to_c2b st data_c2b data_c2b_offset packet copy_length in
        let data_length := wrap32 (data_length - copy_length) in
        let data_c2b_offset := wrap32 (data_c2b_offset + copy_length) in
        let copy_length :=
          if last_copy
          then copy_length + (if copy_length mod 4 =? 0 then 0 else 4 - copy_length mod 4)
          else copy_length in
        let packet_length := wrap32 (packet_length - copy_length) in
        let packet := drop (Z.to_nat copy_length) packet in
        let '(st, data_c2b, data_c2b_offset, data_c2b_length) :=
          if (data_c2b_offset =? data_c2b_length) && (data_length >? 0) then
            let new_data_cdb :=
              castle_object_write_next_cdb (c2b_cdb data_c2b) data_length in
            let '(st, new_data_c2b) :=
              castle_object_write_buffer_alloc st new_data_cdb data_length in
            (release_dirty_c2b st data_c2b, new_data_c2b, 0,
             wrap32 (c2b_nr_pages new_data_c2b * C_BLK_SIZE))
          else (st, data_c2b, data_c2b_offset, data_c2b_length) in
        if (packet_length >? 0) && (data_length >? 0)
        then data_write_loop fuel' st data_c2b data_c2b_offset data_c2b_length
               data_length packet_length packet
        else Some (Done (st, mk_replace_call data_c2b data_c2b_offset data_length packet))
  end.

(** [castle_object_data_write(call)]: the new state and whether the value is
    complete. *)
Definition castle_object_data_write (fuel : nat) (st : obj_io_state)
    (call : replace_call) : option (outcome (obj_io_state * replace_call * bool)) :=
  let data_c2b := rc_data_c2b call in
  let data_c2b_length := wrap32 (c2b_nr_pages data_c2b * C_BLK_SIZE) in
  let packet_length := wrap32 (Z.of_nat (length (rc_packet call))) in
  if packet_length <=? 0 then Some BUG
  else
    match data_write_loop fuel st data_c2b (rc_data_c2b_offset call) data_c2b_length
            (rc_data_length call) packet_length (rc_packet call) with
    | None => None
    | Some BUG => Some BUG
    | Some (Done (st, call)) => Some (Done (st, call, rc_data_length call =? 0))
    end.

(** What a replace tells its client. *)
Inductive replace_reply := ReplaceComplete (err : Z) | ReplaceContinue.

(** [castle_object_replace_complete] for an out-of-line value: the first
    buffer, then the data of the first packet. When the write is complete
    the function releases its local [c2b], which is the first buffer, also
    when [castle_object_data_write] has gone on to another one. *)
Definition castle_object_replace_complete_ondisk (fuel : nat) (st : obj_io_state)
    (cdb : c_disk_blk) (length : Z) (packet : list byte)
  : option (outcome (obj_io_state * replace_call * replace_reply)) :=
  let '(st, c2b) := castle_object_write_buffer_alloc st cdb length in
  let call := mk_replace_call c2b 0 length packet in
  match castle_object_data_write fuel st call with
  | None => None
  | Some BUG => Some BUG
  | Some (Done (st, call, complete_write)) =>
      if complete_write
      then Some (Done (release_dirty_c2b st c2b, call, ReplaceComplete 0))
      else Some (Done (st, call, ReplaceContinue))
  end.

(** [castle_object_replace_continue(call, last)] on the next packet. *)
Definition castle_object_replace_continue (fuel : nat) (st : obj_io_state)
    (call : replace_call) (packet : list byte) (last : bool)
  : option (outcome (obj_io_state * replace_call * replace_reply)) :=
  let call := mk_replace_call (rc_data_c2b call) (rc_data_c2b_offset call)
                (rc_data_length call) packet in
  match castle_object_data_write fuel st call with
  | None => None
  | Some BUG => Some BUG
  | Some (Done (st, call, copy_end)) =>
      if last then
        if negb (rc_data_length call =? 0) then Some BUG
        else Some (Done (release_dirty_c2b st (rc_data_c2b call), call, ReplaceComplete 0))
      else Some (Done (st, call, ReplaceContinue))
  end.

(** A whole replace of an out-of-line value: the packets of the client, the
    first through [castle_object_replace_complete], the others through
    [castle_object_replace_continue], the last of them flagged as last. *)
Fixpoint replace_continue_packets (fuel : nat) (st : obj_io_state)
    (call : replace_call) (packets : list (list byte))
  : option (outcome (obj_io_state * replace_reply)) :=
  match packets with
  | [] => Some (Done (st, ReplaceContinue))
  | packet :: packets' =>
      match castle_object_replace_continue fuel st call packet
              (bool_decide (packets' = [])) with
      | None => None
      | Some BUG => Some BUG
      | Some (Done (st, call, ReplaceComplete err)) => Some (Done (st, ReplaceComplete err))
      | Some (Done (st, call, ReplaceContinue)) =>
          replace_continue_packets fuel st call packets'
      end
  end.

Definition object_replace_ondisk (fuel : nat) (st : obj_io_state)
    (cdb : c_disk_blk) (length : Z) (packets : list (list byte))
  : option (outcome (obj_io_state * replace_reply)) :=
  match packets with
  | [] => Some BUG
  | packet :: packets' =>
      match castle_object_replace_complete_ondisk fuel st cdb length packet with
      | None => None
      | Some BUG => Some BUG
      | Some (Done (st, call, ReplaceComplete err)) => Some (Done (st, ReplaceComplete err))
      | Some (Done (st, call, ReplaceContinue)) =>
          replace_continue_packets fuel st call packets'
      end
  end.

(** [castle_object_get_continue] and [__castle_object_get_complete], which
    call each other once per window; one window per unit of fuel. The read of
    a window that is not in the cache is taken to succeed. *)
Fixpoint castle_object_get_continue (fuel : nat) (st : obj_io_state)
    (old_c2b : option c2_block) (old_data_length : Z) (first : bool)
    (data_cdb : c_disk_blk) (data_length : Z)
  : option (outcome (obj_io_state * list get_frame)) :=
  match fuel with
  | O => None
  | S fuel' =>
      if negb (data_length =? old_data_length) then Some BUG
      else if match old_c2b with
              | Some old =>
                  negb (disk (c2b_cdb old) =? disk data_cdb)
                  && negb (wrap32 (block (c2b_cdb old) + OBJ_IO_MAX_BUFFER_SIZE)
                           =? block data_cdb)
              | None => false
              end then Some BUG
      else
        let nr_blocks :=
          wrap_int32 (wrap32 (wrap32 (data_length - 1) / C_BLK_SIZE + 1)) in
        let '(nr_blocks, data_c2b_length) :=
          if nr_blocks >? OBJ_IO_MAX_BUFFER_SIZE
          then (OBJ_IO_MAX_BUFFER_SIZE, wrap32 (OBJ_IO_MAX_BUFFER_SIZE * C_BLK_SIZE))
          else (nr_blocks, data_length) in
        let data_length := wrap32 (data_length - data_c2b_length) in
        let st := io_emit (io_emit st (IoBlockGet data_cdb nr_blocks))
                          (IoLock data_cdb) in
        let c2b := mk_c2b data_cdb nr_blocks in
        let st :=
          match old_c2b with
          | Some old => io_emit (io_emit st (IoUnlock (c2b_cdb old))) (IoPut (c2b_cdb old))
          | None => st
          end in
        (* __castle_object_get_complete *)
        let last := data_length =? 0 in
        let frame :=
          mk_get_frame first last
            (load_bytes (io_blocks st) (disk data_cdb)
                        (block data_cdb * C_BLK_SIZE) (Z.to_nat data_c2b_length)) in
        if last then
          Some (Done (io_emit (io_emit st (IoUnlock data_cdb)) (IoPut data_cdb), [frame]))
        else if negb (data_c2b_length =? OBJ_IO_MAX_BUFFER_SIZE * C_BLK_SIZE) then Some BUG
        else
          let cdb := {| disk := disk data_cdb;
                        block := wrap32 (block data_cdb + OBJ_IO_MAX_BUFFER_SIZE) |} in
          match castle_object_get_continue fuel' st (Some c2b) data_length false
                  cdb data_length with
          | None => None
          | Some BUG => Some BUG
          | Some (Done (st, frames)) => Some (Done (st, frame :: frames))
          end
  end.

(** [castle_object_get_complete] for an out-of-line value. *)
Definition castle_object_get_ondisk (fuel : nat) (st : obj_io_state)
    (cdb : c_disk_blk) (length : Z)
  : option (outcome (obj_io_state * list get_frame)) :=
  castle_object_get_continue fuel st None length true cdb length.

End ObjectIO.

(** Sample payloads: [n] bytes 1, 2, 3, ... *)
Definition sample_payload (n : nat) : list byte :=
  map (fun i => default x00 (Byte.of_N (N.of_nat (S i mod 251)))) (seq 0 n).

Definition sample_io_state : obj_io_state := mk_io_state ∅ [].

Definition sample_value_cdb : c_disk_blk := mk_cdb 1 100.

(** The evaluations below take blocks of eight bytes. *)
Definition sample_blk_size : Z := 8.

Global Instance byte_eq_decision : EqDecision byte := Byte.byte_eq_dec.

(** The bytes a get hands to its client, frame after frame. *)
Definition frames_bytes (frames : list get_frame) : list byte :=
  concat (map gf_bytes frames).

(** A replace of [payload] as one packet into the blocks from
    [sample_value_cdb] on, then a get of the value: the windows the replace
    acquired, and the frames of the get. *)
Definition sample_replace_then_get (payload : list byte)
  : option (list (c_disk_blk * Z) * list get_frame) :=
  let len := Z.of_nat (length payload) in
  match object_replace_ondisk sample_blk_size 100 sample_io_state
          sample_value_cdb len [payload] with
  | Some (Done (st, ReplaceComplete 0)) =>
      match castle_object_get_ondisk sample_blk_size 20 st sample_value_cdb len with
      | Some (Done (_, frames)) => Some (io_windows st, frames)
      | _ => None
      end
  | _ => None
  end.

(** ** The version registry (castle_versions.c)

    A pointer to a version is the number of the version it points to: the
    hash is keyed by it. Following a pointer to a version that is no longer
    in the hash is rendered as [BUG]. *)

Definition CV_INITED_MASK : Z := Z.shiftl 1 0.
Definition CV_ATTACHED_MASK : Z := Z.shiftl 1 1.
Definition CV_SNAP_MASK : Z := Z.shiftl 1 2.
Definition CV_FTREE_LOCKED_MASK : Z := Z.shiftl 1 3.

(** The union of [parent_v] (valid if not inited) and [parent] (valid if
    inited). *)
Inductive version_parent :=
| ParentV (parent_v : Z)
| ParentPtr (parent : option Z).

Record castle_version := mk_version {
  v_version : Z;
  v_parent_u : version_parent;
  v_first_child : option Z;
  v_next_sybling : option Z;
  v_o_order : Z;
  v_r_order : Z;
  v_da_id : Z;
  v_size : Z;
  v_flags : Z
}.

Definition test_mask (flags mask : Z) : bool := negb (Z.land flags mask =? 0).

Definition v_inited (v : castle_version) : bool := test_mask (v_flags v) CV_INITED_MASK.
Definition v_attached (v : castle_version) : bool := test_mask (v_flags v) CV_ATTACHED_MASK.
Definition v_snap (v : castle_version) : bool := test_mask (v_flags v) CV_SNAP_MASK.

Definition set_parent_u (pu : version_parent) (v : castle_version) : castle_version :=
  mk_version (v_version v) pu (v_first_child v) (v_next_sybling v) (v_o_order v)
             (v_r_order v) (v_da_id v) (v_size v) (v_flags v).
Definition set_first_child (c : option Z) (v : castle_version) : castle_version :=
  mk_version (v_version v) (v_parent_u v) c (v_next_sybling v) (v_o_order v)
             (v_r_order v) (v_da_id v) (v_size v) (v_flags v).
Definition set_next_sybling (n : option Z) (v : castle_version) : castle_version :=
  mk_version (v_version v) (v_parent_u v) (v_first_child v) n (v_o_order v)
             (v_r_order v) (v_da_id v) (v_size v) (v_flags v).
Definition set_o_order (o : Z) (v : castle_version) : castle_version :=
  mk_version (v_version v) (v_parent_u v) (v_first_child v) (v_next_sybling v) o
             (v_r_order v) (v_da_id v) (v_size v) (v_flags v).
Definition set_r_order (r : Z) (v : castle_version) : castle_version :=
  mk_version (v_version v) (v_parent_u v) (v_first_child v) (v_next_sybling v)
             (v_o_order v) r (v_da_id v) (v_size v) (v_flags v).
Definition set_size (s : Z) (v : castle_version) : castle_version :=
  mk_version (v_version v) (v_parent_u v) (v_first_child v) (v_next_sybling v)
             (v_o_order v) (v_r_order v) (v_da_id v) s (v_flags v).
Definition set_flags (f : Z) (v : castle_version) : castle_version :=
  mk_version (v_version v) (v_parent_u v) (v_first_child v) (v_next_sybling v)
             (v_o_order v) (v_r_order v) (v_da_id v) (v_size v) f.

(** The calls to sysfs and to the event channel. *)
Inductive version_event :=
| EvSysfsVersionAdd (version : Z)
| EvSysfsVersionDel (version : Z)
| EvVersionCreate (version : Z)
| EvVersionDestroy (version : Z).

(** The registry: the hash, the init list (head first), the last version
    number handed out, and the counter [version_cnt] that is static in
    [castle_version_add]. *)
Record versions_state := mk_vstate {
  castle_versions_hash : gmap Z castle_version;
  castle_versions_init_list : list Z;
  castle_versions_last : Z;
  version_cnt : Z;
  v_events : list version_event
}.

Definition set_hash (st : versions_state) (h : gmap Z castle_version) : versions_state :=
  mk_vstate h (castle_versions_init_list st) (castle_versions_last st)
            (version_cnt st) (v_events st).
Definition set_init_list (st : versions_state) (l : list Z) : versions_state :=
  mk_vstate (castle_versions_hash st) l (castle_versions_last st)
            (version_cnt st) (v_events st).
Definition set_last (st : versions_state) (last : Z) : versions_state :=
  mk_vstate (castle_versions_hash st) (castle_versions_init_list st) last
            (version_cnt st) (v_events st).
Definition set_version_cnt (st : versions_state) (cnt : Z) : versions_state :=
  mk_vstate (castle_versions_hash st) (castle_versions_init_list st)
            (castle_versions_last st) cnt (v_events st).
Definition v_emit (st : versions_state) (ev : version_event) : versions_state :=
  mk_vstate (castle_versions_hash st) (castle_versions_init_list st)
            (castle_versions_last st) (version_cnt st) (v_events st ++ [ev]).

(** Computations that may stop in [BUG] and that run loops on fuel: [None]
    when the fuel runs out. *)
Definition fuelled (A : Type) : Type := option (outcome A).

Definition fbind {A B} (m : fuelled A) (f : A -> fuelled B) : fuelled B :=
  match m with
  | None => None
  | Some BUG => Some BUG
  | Some (Done a) => f a
  end.

Definition fret {A} (a : A) : fuelled A := Some (Done a).
Definition fbug {A} : fuelled A := Some BUG.

Notation "'run' x <- m ; k" := (fbind m (fun x => k))
  (at level 10, x name, m at level 100, k at level 200).

(** [*pprev = v] in [castle_versions_insert]: the slot is the [first_child]
    of the parent or the [next_sybling] of a sibling. *)
Inductive sybling_slot :=
| SlotFirstChild (p : Z)
| SlotNextSybling (s : Z).

Definition slot_store (h : gmap Z castle_version) (slot : sybling_slot) (v : option Z)
  : gmap Z castle_version :=
  match slot with
  | SlotFirstChild p => alter (set_first_child v) p h
  | SlotNextSybling s => alter (set_next_sybling v) s h
  end.

(** The [while] loop of [castle_versions_insert]: from the slot [pprev] and
    the list [sybling_list] it holds, to the slot where [v] goes and the list
    that follows it. *)
Fixpoint versions_insert_walk (fuel : nat) (h : gmap Z castle_version)
    (version : Z) (pprev : sybling_slot) (sybling_list : option Z)
  : fuelled (sybling_slot * option Z) :=
  match sybling_list with
  | None => fret (pprev, None)
  | Some s =>
      match h !! s with
      | None => fbug
      | Some sv =>
          if v_version sv >? version then
            match fuel with
            | O => None
            | S fuel' =>
                versions_insert_walk fuel' h version (SlotNextSybling s)
                  (v_next_sybling sv)
            end
          else fret (pprev, Some s)
      end
  end.

Definition castle_versions_insert (fuel : nat) (h : gmap Z castle_version) (p v : Z)
  : fuelled (gmap Z castle_version) :=
  match h !! p, h !! v with
  | Some pv, Some vv =>
      let h := alter (set_parent_u (ParentPtr (Some p))) v h in
      run r <- versions_insert_walk fuel h (v_version vv) (SlotFirstChild p)
                 (v_first_child pv);
      let '(pprev, sybling_list) := r in
      let h := alter (set_next_sybling sybling_list) v h in
      fret (slot_store h pprev (Some v))
  | _, _ => fbug
  end.

(** The [while] loop of [castle_versions_drop]: it goes through the whole
    sibling list and unlinks [v] where it meets it. *)
Fixpoint versions_drop_walk (fuel : nat) (h : gmap Z castle_version) (p v : Z)
    (v_next : option Z) (prev sybling_list : option Z)
  : fuelled (gmap Z castle_version) :=
  match sybling_list with
  | None => fret h
  | Some s =>
      match fuel with
      | O => None
      | S fuel' =>
          let h :=
            if s =? v then
              match prev with
              | Some pr => alter (set_next_sybling v_next) pr h
              | None => alter (set_first_child v_next) p h
              end
            else h in
          match h !! s with
          | None => fbug
          | Some sv => versions_drop_walk fuel' h p v v_next (Some s) (v_next_sybling sv)
          end
      end
  end.

(** [castle_versions_drop(v)] for a [v] that is not [NULL]. The parent is
    dereferenced at once ([p->first_child]): with the root, whose parent is
    [NULL], this is a NULL dereference, rendered as [BUG]. *)
Definition castle_versions_drop (fuel : nat) (h : gmap Z castle_version) (v : Z)
  : fuelled (gmap Z castle_version) :=
  match h !! v with
  | None => fbug
  | Some vv =>
      match v_parent_u vv with
      | ParentPtr (Some p) =>
          match h !! p with
          | None => fbug
          | Some pv =>
              run h <- versions_drop_walk fuel h p v (v_next_sybling vv) None
                         (v_first_child pv);
              fret (alter (fun x => set_parent_u (ParentPtr None)
                                      (set_next_sybling None x)) v h)
          end
      | _ => fbug
      end
  end.

(** One turn of the [while (v)] loop that numbers the tree: the node to look
    at next and the new [children_first], [id] and hash. *)
Definition versions_order_step (h : gmap Z castle_version) (v : Z)
    (children_first : bool) (id : Z)
  : outcome (gmap Z castle_version * option Z * bool * Z) :=
  match h !! v with
  | None => BUG
  | Some vv =>
      let '(h, n, id) :=
        if children_first then
          let id := wrap32 (id + 1) in
          let n := v_first_child vv in
          let h := alter (set_o_order id) v h in
          let h := if is_null n then alter (set_r_order id) v h else h in
          (h, n, id)
        else (alter (set_r_order id) v h, None, id) in
      let children_first := true in
      let n := if is_null n then v_next_sybling vv else n in
      if is_null n then
        match v_parent_u vv with
        | ParentPtr parent => Done (h, parent, false, id)
        | ParentV _ => BUG
        end
      else Done (h, n, children_first, id)
  end.

Fixpoint versions_order_loop (fuel : nat) (h : gmap Z castle_version)
    (v : option Z) (children_first : bool) (id : Z) : fuelled (gmap Z castle_version) :=
  match v with
  | None => fret h
  | Some x =>
      match fuel with
      | O => None
      | S fuel' =>
          match versions_order_step h x children_first id with
          | BUG => fbug
          | Done (h, n, children_first, id) =>
              versions_order_loop fuel' h n children_first id
          end
      end
  end.

Section Versions.

(** [INVAL_VERSION], [INVAL_DA] (castle.h); whether [kmem_cache_alloc]
    succeeds for a version, and what [castle_sysfs_version_add] returns for
    it (castle_sysfs.c). *)
Variable INVAL_VERSION : Z.
Variable INVAL_DA : Z.
Variable kmem_cache_alloc_ok : Z -> bool.
Variable castle_sysfs_version_add : Z -> Z.

Definition VERSION_INVAL (v : Z) : bool := v =? INVAL_VERSION.
Definition DA_INVAL (da : Z) : bool := da =? INVAL_DA.

(** The first loop of [castle_versions_process], one version looked at per
    unit of fuel. [v] is the version to process: the target of
    [goto process_version], or [None] at the top of the [while], where the
    head of the init list is taken. [list_del] of a version that was taken
    off the list before is rendered as [BUG]. Gives the hash, the init list,
    the sysfs list (head first) and [err]. *)
Fixpoint versions_process_init (fuel : nat) (h : gmap Z castle_version)
    (init_list : list Z) (sysfs_list : list Z) (err : Z) (v : option Z)
  : fuelled (gmap Z castle_version * list Z * list Z * Z) :=
  match fuel with
  | O => None
  | S fuel' =>
      match (match v with Some x => Some x | None => head init_list end) with
      | None => fret (h, init_list, sysfs_list, err)
      | Some x =>
          if negb (bool_decide (x ∈ init_list)) then fbug
          else
            let init_list := filter (fun y => y <> x) init_list in
            match h !! x with
            | None => fbug
            | Some xv =>
                if v_inited xv then fbug
                else
                  match v_parent_u xv with
                  | ParentPtr _ => fbug
                  | ParentV parent_v =>
                      match h !! parent_v with
                      | None => fbug
                      | Some pv =>
                          if v_snap xv && negb (is_null (v_first_child pv)) then
                            versions_process_init fuel' h init_list sysfs_list (-1) None
                          else if negb (v_snap xv) && v_attached pv
                                  && is_null (v_first_child pv) then
                            versions_process_init fuel' h init_list sysfs_list (-2) None
                          else if negb (v_inited pv) then
                            versions_process_init fuel' h (x :: init_list)
                              sysfs_list err (Some parent_v)
                          else
                            run h <- castle_versions_insert fuel h parent_v x;
                            let h := alter (fun y => set_flags
                                          (Z.lor (v_flags y) CV_INITED_MASK) y) x h in
                            versions_process_init fuel' h init_list
                              (x :: sysfs_list) err None
                      end
                  end
            end
      end
  end.

(** The last loop of [castle_versions_process]: the new versions go to sysfs. *)
Fixpoint versions_process_sysfs (st : versions_state) (sysfs_list : list Z) (err : Z)
  : versions_state * Z :=
  match sysfs_list with
  | [] => (st, err)
  | v :: sysfs_list' =>
      let st := v_emit st (EvSysfsVersionAdd v) in
      if negb (castle_sysfs_version_add v =? 0)
      then versions_process_sysfs st sysfs_list' (-3)
      else versions_process_sysfs st sysfs_list' err
  end.

Definition castle_versions_process (fuel : nat) (st : versions_state)
  : fuelled (Z * versions_state) :=
  run r <- versions_process_init fuel (castle_versions_hash st)
             (castle_versions_init_list st) [] 0 None;
  let '(h, init_list, sysfs_list, err) := r in
  match h !! 0 with
  | None => fbug
  | Some root =>
      if negb (v_inited root) then fbug
      else
        match v_parent_u root with
        | ParentPtr None =>
            run h <- versions_order_loop fuel h (Some 0) true 0;
            let st := set_init_list (set_hash st h) init_list in
            let '(st, err) := versions_process_sysfs st sysfs_list err in
            fret (err, st)
        | _ => fbug
        end
  end.

(** [castle_version_add]: the version added, if any. The counter is charged
    first, whatever happens next. The hash is a map from version numbers:
    the add of a number that is in the hash already replaces the entry
    here, whereas [castle_versions_hash_add] chains a second object beside
    the first; what is stated of this function is stated for numbers that
    are not in the hash, or does not depend on the hash. *)
Definition castle_version_add (st : versions_state) (version parent da_id size : Z)
  : versions_state * option Z :=
  let cnt := wrap_int32 (version_cnt st + 1) in
  let st := set_version_cnt st cnt in
  if cnt >? 900 then (st, None)
  else if negb (kmem_cache_alloc_ok version) then (st, None)
  else
    let v := mk_version version (ParentV parent) None None INVAL_VERSION
               INVAL_VERSION da_id size 0 in
    if version =? 0 then
      let st := v_emit st (EvSysfsVersionAdd version) in
      if negb (castle_sysfs_version_add version =? 0) then (st, None)
      else
        let v := set_flags (Z.lor (v_flags v) CV_INITED_MASK)
                   (set_parent_u (ParentPtr None) v) in
        (set_hash st (<[version := v]> (castle_versions_hash st)), Some version)
    else
      let v := set_flags (Z.land (v_flags v) (Z.lnot CV_INITED_MASK)) v in
      let st := set_init_list st (version :: castle_versions_init_list st) in
      (set_hash st (<[version := v]> (castle_versions_hash st)), Some version).

(** [n] calls of [castle_version_add] in a row, with the same arguments:
    the registry they leave. *)
Fixpoint castle_version_add_repeat (n : nat) (st : versions_state)
    (version parent da_id size : Z) : versions_state :=
  match n with
  | O => st
  | S n' =>
      castle_version_add_repeat n'
        (castle_version_add st version parent da_id size).1 version parent da_id size
  end.

Definition castle_version_new_create (fuel : nat) (st : versions_state)
    (snap_or_clone : Z) (parent da_id size : Z)
  : fuelled (versions_state * option Z) :=
  match castle_versions_hash st !! parent with
  | None => fret (st, None)
  | Some p =>
      let parent_size := v_size p in
      if VERSION_INVAL (castle_versions_last st) then fbug
      else
        let version := wrap32 (castle_versions_last st + 1) in
        let st := set_last st version in
        if VERSION_INVAL (castle_versions_last st) then fbug
        else if negb (DA_INVAL da_id) && negb (DA_INVAL (v_da_id p)) then fbug
        else
          let da_id := if DA_INVAL da_id then v_da_id p else da_id in
          match castle_version_add st version parent da_id size with
          | (st, None) => fret (st, None)
          | (st, Some v) =>
              let h := castle_versions_hash st in
              let h := if negb (parent_size =? 0)
                       then alter (set_size parent_size) v h else h in
              let h := alter (fun x =>
                         set_flags (if negb (snap_or_clone =? 0)
                                    then Z.lor (v_flags x) CV_SNAP_MASK
                                    else Z.land (v_flags x) (Z.lnot CV_SNAP_MASK)) x)
                         v h in
              run r <- castle_versions_process fuel (set_hash st h);
              let '(_, st) := r in
              match castle_versions_hash st !! v with
              | None => fbug
              | Some vv =>
                  if negb (v_inited vv)
                  then fret (set_hash st (delete v (castle_versions_hash st)), None)
                  else fret (v_emit st (EvVersionCreate version), Some v)
              end
          end
  end.

Definition castle_version_new (fuel : nat) (st : versions_state)
    (snap_or_clone : Z) (parent da_id size : Z) : fuelled (versions_state * Z) :=
  run r <- castle_version_new_create fuel st snap_or_clone parent da_id size;
  match r with
  | (st, None) => fret (st, INVAL_VERSION)
  | (st, Some v) =>
      match castle_versions_hash st !! v with
      | Some vv => fret (st, v_version vv)
      | None => fbug
      end
  end.

(** [castle_version_delete(v)] for a [v] that is not [NULL]: the parent of the
    version deleted. *)
Definition castle_version_delete (fuel : nat) (st : versions_state) (v : Z)
  : fuelled (versions_state * option Z) :=
  match castle_versions_hash st !! v with
  | None => fbug
  | Some vv =>
      if v_attached vv then fbug
      else if negb (v_inited vv) then fbug
      else
        match v_parent_u vv with
        | ParentV _ => fbug
        | ParentPtr parent =>
            let st := v_emit st (EvSysfsVersionDel (v_version vv)) in
            run h <- castle_versions_drop fuel (castle_versions_hash st) v;
            let st := set_hash st (delete v h) in
            fret (v_emit st (EvVersionDestroy (v_version vv)), parent)
        end
  end.

(** The [while (1)] loop of [castle_version_tree_delete], one version looked
    at per unit of fuel: the state and [ret]. *)
Fixpoint version_tree_delete_loop (fuel : nat) (st : versions_state) (v cur : Z)
  : fuelled (versions_state * Z) :=
  match fuel with
  | O => None
  | S fuel' =>
      match castle_versions_hash st !! cur with
      | None => fbug
      | Some cv =>
          match v_first_child cv with
          | None =>
              let done := cur =? v in
              run r <- castle_version_delete fuel st cur;
              match r with
              | (st, None) => fret (st, - EINVAL)
              | (st, Some parent) =>
                  if done then fret (st, 0)
                  else version_tree_delete_loop fuel' st v parent
              end
          | Some child => version_tree_delete_loop fuel' st v child
          end
      end
  end.

(** [castle_version_tree_delete]: on the [goto error_out] paths the
    processing is not run. *)
Definition castle_version_tree_delete (fuel : nat) (st : versions_state) (version : Z)
  : fuelled (versions_state * Z) :=
  match castle_versions_hash st !! version with
  | None => fret (st, - EINVAL)
  | Some v =>
      if negb (v_inited v) then fbug
      else
        run r <- version_tree_delete_loop fuel st version version;
        match r with
        | (st, 0) =>
            run r' <- castle_versions_process fuel st;
            fret (r'.2, 0)
        | (st, ret) => fret (st, ret)
        end
  end.

Definition castle_version_attach (st : versions_state) (version : Z)
  : versions_state * Z :=
  match castle_versions_hash st !! version with
  | None => (st, - EINVAL)
  | Some v =>
      if v_attached v then (st, - EAGAIN)
      else (set_hash st (alter (fun x => set_flags
                                  (Z.lor (v_flags x) CV_ATTACHED_MASK) x)
                               version (castle_versions_hash st)), 0)
  end.

Definition castle_versions_zero_init (st : versions_state) : versions_state * Z :=
  match castle_version_add st 0 0 INVAL_DA 0 with
  | (st, None) => (st, -1)
  | (st, Some v) => (set_last st v, 0)
  end.

(** The loop of [castle_versions_read] over the entries of the metadata
    store, each a tuple (version, parent, size, da_id). *)
Fixpoint versions_read_entries (st : versions_state) (entries : list (Z * Z * Z * Z))
  : versions_state * Z :=
  match entries with
  | [] => (st, 0)
  | (version_nr, parent, size, da_id) :: entries' =>
      match castle_version_add st version_nr parent da_id size with
      | (st, None) => (st, - ENOMEM)
      | (st, Some v) =>
          let st :=
            if VERSION_INVAL (castle_versions_last st) || (v >? castle_versions_last st)
            then set_last st v else st in
          versions_read_entries st entries'
      end
  end.

End Versions.
(** ** The version tree behind the pointers

    The inited versions form a tree: each node with the list of its children
    in the order of the sibling list. *)

#[local] Unset Elimination Schemes.
Inductive vtree := VNode (id : Z) (children : list vtree).
#[local] Set Elimination Schemes.

Definition tree_root (t : vtree) : Z :=
  match t with VNode x _ => x end.

Definition tree_children (t : vtree) : list vtree :=
  match t with VNode _ cs => cs end.

Fixpoint tree_ids (t : vtree) : list Z :=
  match t with
  | VNode x cs => x :: flat_map tree_ids cs
  end.

Definition forest_ids (cs : list vtree) : list Z := flat_map tree_ids cs.

Fixpoint tree_size (t : vtree) : Z :=
  match t with
  | VNode _ cs => 1 + fold_right (fun c n => tree_size c + n) 0 cs
  end.

Definition forest_size (cs : list vtree) : Z :=
  fold_right (fun c n => tree_size c + n) 0 cs.

Definition head_id (cs : list vtree) : option Z := tree_root <$> head cs.

(** The links of a version: everything but its two order numbers, its
    data-array id and its size. *)
Definition v_links (v : castle_version)
  : Z * version_parent * option Z * option Z * Z :=
  (v_version v, v_parent_u v, v_first_child v, v_next_sybling v, v_flags v).

(** The version [x] of the hash is inited and linked to the given parent,
    next sibling and first child. *)
Definition node_linked (h : gmap Z castle_version) (x : Z)
    (parent next first_child : option Z) : Prop :=
  exists xv, h !! x = Some xv /\ v_version xv = x /\ v_inited xv = true /\
    v_parent_u xv = ParentPtr parent /\ v_next_sybling xv = next /\
    v_first_child xv = first_child.

(** The hash holds the tree [t], whose root has the given parent and next
    sibling; and the forest [cs], the children of [parent] from some child on. *)
Inductive repr_tree (h : gmap Z castle_version)
  : option Z -> option Z -> vtree -> Prop :=
| repr_node parent next x cs :
    node_linked h x parent next (head_id cs) ->
    repr_forest h (Some x) cs ->
    repr_tree h parent next (VNode x cs)
with repr_forest (h : gmap Z castle_version) : option Z -> list vtree -> Prop :=
| repr_nil parent : repr_forest h parent []
| repr_cons parent c cs :
    repr_tree h parent (head_id cs) c ->
    repr_forest h parent cs ->
    repr_forest h parent (c :: cs).

(** The registry is well formed: the inited versions are the nodes of a tree
    rooted at version 0 that the pointers spell out; every key of the hash is
    the number of the version it holds; the versions that are not inited have
    no child and hold their parent's number; the init list has no duplicate
    and holds versions that are not inited; and the hash is small enough for
    the 32-bit order numbers. *)
Definition versions_wf_with (t : vtree) (h : gmap Z castle_version)
    (init_list : list Z) : Prop :=
  tree_root t = 0 /\
  repr_tree h None None t /\
  NoDup (tree_ids t) /\
  Z.of_nat (size h) < 2 ^ 32 /\
  (forall x xv, h !! x = Some xv -> v_version xv = x) /\
  (forall x xv, h !! x = Some xv -> v_inited xv = true -> x ∈ tree_ids t) /\
  (forall x xv, h !! x = Some xv -> v_inited xv = false ->
     v_first_child xv = None /\ exists p, v_parent_u xv = ParentV p) /\
  NoDup init_list /\
  (forall x, x ∈ init_list -> exists xv, h !! x = Some xv /\ v_inited xv = false).

Definition versions_wf (st : versions_state) : Prop :=
  exists t, versions_wf_with t (castle_versions_hash st) (castle_versions_init_list st).

(** P5: every inited version but the root has a parent whose order numbers
    enclose its own pre-order number. *)
Definition orders_nested (h : gmap Z castle_version) : Prop :=
  forall x xv, h !! x = Some xv -> v_inited xv = true -> x <> 0 ->
    exists p pv, v_parent_u xv = ParentPtr (Some p) /\ h !! p = Some pv /\
      v_inited pv = true /\
      v_o_order pv < v_o_order xv /\ v_o_order xv <= v_r_order pv.

(** The children of node [p] replaced by [f] of them. *)
Fixpoint tree_update (f : list vtree -> list vtree) (p : Z) (t : vtree) : vtree :=
  match t with
  | VNode a cs =>
      if a =? p then VNode a (f cs) else VNode a (map (tree_update f p) cs)
  end.

(** The nodes of the subtree whose root is [p]. *)
Fixpoint subtree_ids (p : Z) (t : vtree) : list Z :=
  match t with
  | VNode a cs =>
      if a =? p then a :: flat_map tree_ids cs else flat_map (subtree_ids p) cs
  end.

(** A new leaf [v] among the children [cs], before the first child whose
    number is not greater: the sibling list stays in descending order. *)
Fixpoint forest_insert (v : Z) (cs : list vtree) : list vtree :=
  match cs with
  | [] => [VNode v []]
  | c :: cs' =>
      if tree_root c >? v then c :: forest_insert v cs'
      else VNode v [] :: c :: cs'
  end.

(** The child [v] taken out of the children [cs]. *)
Definition forest_remove (v : Z) (cs : list vtree) : list vtree :=
  filter (fun c => tree_root c <> v) cs.

(** ** Runs of the numbering loop and what they leave *)

(** Two hashes with the same links hold the same trees. *)
Definition same_links (h h' : gmap Z castle_version) : Prop :=
  forall x, v_links <$> (h' !! x) = v_links <$> (h !! x).

(** Runs of the numbering loop, counted in turns. *)
Inductive order_steps
  : nat -> gmap Z castle_version * option Z * bool * Z ->
    gmap Z castle_version * option Z * bool * Z -> Prop :=
| order_steps_refl s : order_steps 0 s s
| order_steps_step n h x cf id s1 s2 :
    versions_order_step h x cf id = Done s1 ->
    order_steps n s1 s2 ->
    order_steps (S n) (h, Some x, cf, id) s2.

(** Where the loop goes after a node is done: its next sibling, or else its
    parent, on the way up. *)
Definition order_cont (next parent : option Z) : option Z * bool :=
  match next with
  | Some s => (Some s, true)
  | None => (parent, false)
  end.

(** What a run of the loop over the nodes [ids] leaves: the links as they
    were, the other nodes untouched, pre-order numbers in [(lo, hi]]. *)
Definition labelled (h h' : gmap Z castle_version) (lo hi : Z) (ids : list Z) : Prop :=
  same_links h h' /\
  (forall y, y ∉ ids -> h' !! y = h !! y) /\
  (forall y yv, y ∈ ids -> h' !! y = Some yv -> lo < v_o_order yv <= hi).

(** The node [y] has its parent among [ids], and the order numbers of the
    parent enclose the pre-order number of [y]. *)
Definition child_nested (h : gmap Z castle_version) (y : Z) (ids : list Z) : Prop :=
  exists yv p pv, h !! y = Some yv /\ v_parent_u yv = ParentPtr (Some p) /\
    p ∈ ids /\ h !! p = Some pv /\ v_inited pv = true /\
    v_o_order pv < v_o_order yv /\ v_o_order yv <= v_r_order pv.

Definition tree_numbered (t : vtree) : Prop :=
  forall h parent next id,
    repr_tree h parent next t -> NoDup (tree_ids t) ->
    0 <= id -> id + tree_size t < 2 ^ 32 ->
    exists n h',
      order_steps n (h, Some (tree_root t), true, id)
        (h', (order_cont next parent).1, (order_cont next parent).2,
         id + tree_size t) /\
      Z.of_nat n <= 2 * tree_size t /\
      labelled h h' id (id + tree_size t) (tree_ids t) /\
      (exists rv, h' !! tree_root t = Some rv /\ v_o_order rv = id + 1 /\
                  v_r_order rv = id + tree_size t) /\
      (forall y, y ∈ tree_ids t -> y <> tree_root t -> child_nested h' y (tree_ids t)).

Definition forest_numbered (cs : list vtree) : Prop :=
  forall h p id,
    repr_forest h (Some p) cs -> cs <> [] -> NoDup (forest_ids cs) ->
    0 <= id -> id + forest_size cs < 2 ^ 32 ->
    exists n h',
      order_steps n (h, head_id cs, true, id)
        (h', Some p, false, id + forest_size cs) /\
      Z.of_nat n <= 2 * forest_size cs /\
      labelled h h' id (id + forest_size cs) (forest_ids cs) /\
      (forall c y, c ∈ cs -> y ∈ tree_ids c -> y <> tree_root c ->
         child_nested h' y (forest_ids cs)).

(** The slot after the children [cs1]: that of the last of them. *)
Definition last_slot (slot : sybling_slot) (cs1 : list vtree) : sybling_slot :=
  match last cs1 with
  | Some c => SlotNextSybling (tree_root c)
  | None => slot
  end.

Definition slot_id (slot : sybling_slot) : Z :=
  match slot with SlotFirstChild p => p | SlotNextSybling s => s end.

Definition slot_set (slot : sybling_slot) (v : option Z) : castle_version -> castle_version :=
  match slot with
  | SlotFirstChild _ => set_first_child v
  | SlotNextSybling _ => set_next_sybling v
  end.

(** The slot that [castle_versions_drop] writes when it meets the version
    after [prev]. *)
Definition slot_of_prev (p : Z) (prev : option Z) : sybling_slot :=
  match prev with
  | Some pr => SlotNextSybling pr
  | None => SlotFirstChild p
  end.

(** Whether one of the versions [ids] is attached. *)
Definition attached_any (h : gmap Z castle_version) (ids : list Z) : bool :=
  existsb (fun y => match h !! y with
                    | Some yv => v_attached yv
                    | None => false
                    end) ids.

(** The versions of [h'] are versions of [h], with the flags they had. *)
Definition flags_kept (h h' : gmap Z castle_version) : Prop :=
  forall y yv', h' !! y = Some yv' ->
    exists yv, h !! y = Some yv /\ v_flags yv' = v_flags yv.

(** What the loop of [castle_version_tree_delete] does from a node [a]
    whose children are [cs], none of them the version [v] to delete: with
    fuel enough it stops in [BUG] if a version below [a] is attached, and
    else comes back to [a] with all of them deleted. [N] bounds the length
    of the sibling lists, that [castle_versions_drop] walks. *)
Definition children_deleted (v : Z) (cs : list vtree) : Prop :=
  forall (N : nat) a pa na st,
    versions_wf st ->
    repr_tree (castle_versions_hash st) pa na (VNode a cs) ->
    NoDup (tree_ids (VNode a cs)) ->
    v ∉ forest_ids cs ->
    tree_size (VNode a cs) <= Z.of_nat N ->
    if attached_any (castle_versions_hash st) (forest_ids cs)
    then exists n, forall fuel, (N <= fuel)%nat ->
           version_tree_delete_loop (n + fuel) st v a = Some BUG
    else exists n st',
           (forall fuel, (N <= fuel)%nat ->
              version_tree_delete_loop (n + fuel) st v a
              = version_tree_delete_loop fuel st' v a) /\
           versions_wf st' /\
           castle_versions_init_list st' = castle_versions_init_list st /\
           repr_tree (castle_versions_hash st') pa na (VNode a []) /\
           flags_kept (castle_versions_hash st) (castle_versions_hash st') /\
           (forall y, y ∉ tree_ids (VNode a cs) ->
              castle_versions_hash st' !! y = castle_versions_hash st !! y) /\
           (forall y, y ∈ forest_ids cs -> castle_versions_hash st' !! y = None).

(** The same from the first child [c] of a node [p]: the loop comes back to
    [p] with the whole of [c] deleted. *)
Definition subtree_deleted (v : Z) (c : vtree) : Prop :=
  forall (N : nat) p pp pn cs st,
    versions_wf st ->
    repr_tree (castle_versions_hash st) pp pn (VNode p (c :: cs)) ->
    NoDup (tree_ids (VNode p (c :: cs))) ->
    v ∉ tree_ids c ->
    tree_size (VNode p (c :: cs)) <= Z.of_nat N ->
    if attached_any (castle_versions_hash st) (tree_ids c)
    then exists n, forall fuel, (N <= fuel)%nat ->
           version_tree_delete_loop (n + fuel) st v (tree_root c) = Some BUG
    else exists n st',
           (forall fuel, (N <= fuel)%nat ->
              version_tree_delete_loop (n + fuel) st v (tree_root c)
              = version_tree_delete_loop fuel st' v p) /\
           versions_wf st' /\
           castle_versions_init_list st' = castle_versions_init_list st /\
           repr_tree (castle_versions_hash st') pp pn (VNode p cs) /\
           flags_kept (castle_versions_hash st) (castle_versions_hash st') /\
           (forall y, y ∉ tree_ids (VNode p (c :: cs)) ->
              castle_versions_hash st' !! y = castle_versions_hash st !! y) /\
           (forall y, y ∈ tree_ids c -> castle_versions_hash st' !! y = None).

(** A sample registry: the root, two children of the root and a grandchild
    read from the metadata store, not processed yet. *)
Definition sample_inval_version : Z := 2 ^ 32 - 1.

Definition sample_empty_registry : versions_state :=
  mk_vstate ∅ [] sample_inval_version 0 [].

Definition sample_root_registry : versions_state :=
  (castle_versions_zero_init sample_inval_version sample_inval_version (fun _ => true) (fun _ => 0)
     sample_empty_registry).1.

Definition sample_add (st : versions_state) (version parent : Z) : versions_state :=
  (castle_version_add sample_inval_version (fun _ => true) (fun _ => 0) st version parent 7 0).1.

Definition sample_registry : versions_state :=
  (versions_read_entries sample_inval_version (fun _ => true) (fun _ => 0)
     sample_root_registry [(1, 0, 0, 7); (2, 0, 0, 7); (3, 1, 0, 7)]).1.

Definition sample_process (st : versions_state) : versions_state :=
  match castle_versions_process (fun _ => 0) 20 st with
  | Some (Done (_, st')) => st'
  | _ => st
  end.

(** A snapshot of version 3 taken on a registry, and the deletion of the
    subtree of version 1. *)
Definition sample_new (st : versions_state) : versions_state :=
  match castle_version_new sample_inval_version sample_inval_version (fun _ => true)
          (fun _ => 0) 20 st 1 3 sample_inval_version 0 with
  | Some (Done (st', _)) => st'
  | _ => st
  end.

Definition sample_delete (st : versions_state) : versions_state :=
  match castle_version_tree_delete (fun _ => 0) 20 st 1 with
  | Some (Done (st', _)) => st'
  | _ => st
  end.

(** The root with one child that is attached. *)
Definition sample_attached_registry : versions_state :=
  (castle_version_attach (sample_process (sample_add sample_root_registry 1 0)) 1).1.

(** The processed sample registry with version 3, below version 1,
    attached. *)
Definition sample_attached_below : versions_state :=
  (castle_version_attach (sample_process sample_registry) 3).1.

(** ** The layout of an encoded key

    What [castle_object_key_convert] is expected to build for an object key:
    the dim heads hold the offsets of the dimensions, one after the other
    from the end of the header on, with no flag; the payload is the bytes of
    the dimensions, one after the other. *)

Definition okey_encoded_size (O : c_vl_okey) : Z :=
  bkey_header_size (ok_nr_dims O) + payload_size (ok_dims O).

Definition okey_encoding (O : c_vl_okey) : c_vl_bkey :=
  {| bk_length := okey_encoded_size O - 4;
     bk_nr_dims := ok_nr_dims O;
     bk_dim_head := map (fun o => KEY_DIMENSION_HEADER o 0)
                        (dim_offsets (bkey_header_size (ok_nr_dims O)) (ok_dims O));
     bk_payload := concat (map vk_key (ok_dims O)) |}.

(** One of the dimensions of the key carries the NEXT flag. *)
Definition bkey_next_flagged (K : c_vl_bkey) : bool :=
  existsb (fun d => dim_has_next K (Z.of_nat d)) (seq 0 (Z.to_nat (bk_nr_dims K))).

(** The comparison of dimension [dim] of a B-tree key with the same dimension
    of an object key, as [castle_object_btree_key_bounds_check] makes it. *)
Definition dim_vs_bound (key : c_vl_bkey) (bound : c_vl_okey) (dim : Z) : outcome Z :=
  castle_object_key_dim_compare
    (castle_object_btree_key_dim_get key dim)
    (castle_object_btree_key_dim_length key dim)
    (castle_object_btree_key_dim_flags_get key dim)
    (vk_key (okey_dim_at bound dim)) (vk_length (okey_dim_at bound dim)) 0.

(** Dimension [dim] of the key is neither below the start nor above the end. *)
Definition dim_in_bounds (key : c_vl_bkey) (start end_ : c_vl_okey) (dim : Z) : Prop :=
  exists c c', dim_vs_bound key start dim = Done c /\ 0 <= c /\
               dim_vs_bound key end_ dim = Done c' /\ c' <= 0.

Definition dim_below_start (key : c_vl_bkey) (start : c_vl_okey) (dim : Z) : Prop :=
  exists c, dim_vs_bound key start dim = Done c /\ c < 0.

Definition dim_above_end (key : c_vl_bkey) (start end_ : c_vl_okey) (dim : Z) : Prop :=
  exists c c', dim_vs_bound key start dim = Done c /\ 0 <= c /\
               dim_vs_bound key end_ dim = Done c' /\ 0 < c'.

(** A key below the range of [sample_rq_iter] in dimension 0. *)
Definition sample_low_contents : list rq_entry :=
  [(sample_bkey2d x01 x05, 1, sample_cvt); (sample_bkey2d x02 x05, 1, sample_cvt)].

Definition sample_low_rq_iter : c_obj_rq_iter (list rq_entry) :=
  mk_obj_rq_iter 0 1 (Some (sample_okey2d x02 x04)) (Some (sample_okey2d x03 x06))
    0 None None sample_low_contents 0 None 0 sample_cvt.

(** The object key that has the dimensions below [d] of [O] and the
    dimensions from [d] on of [start]. *)
Definition okey_splice (O start : c_vl_okey) (d : Z) : c_vl_okey :=
  mk_vl_okey (ok_nr_dims start)
    (take (Z.to_nat d) (ok_dims O) ++ drop (Z.to_nat d) (ok_dims start)).

(** The comparison of two byte strings as [castle_object_key_dim_compare]
    makes it when no flag is set: the difference of the first pair of bytes
    that differ, else the shorter string first. *)
Fixpoint bytes_compare (a b : list byte) : Z :=
  match a, b with
  | [], [] => 0
  | [], _ :: _ => -1
  | _ :: _, [] => 1
  | x :: a', y :: b' =>
      if byte_val x =? byte_val y then bytes_compare a' b'
      else byte_val x - byte_val y
  end.



(** ** The callbacks of a transfer (castle_transfer.c) *)

(** [castle_transfer_node_start]. *)
Definition castle_transfer_node_start (st : transfer_state) : outcome transfer_state :=
  if negb (tr_phase (ts_transfer st) =? 0) then BUG
  else Done (transfer_phase_add st 1).

(** [castle_transfer_node_end]. *)
Definition castle_transfer_node_end (st : transfer_state) : transfer_state :=
  let st := transfer_phase_add st (-1) in
  if tr_phase (ts_transfer st) =? 0 then castle_ftree_iter_continue st else st.

(** The [continue] calls among the events. *)
Definition continue_count (evs : list transfer_event) : nat :=
  length (omap (fun ev => match ev with EvIterContinue => Some tt | _ => None end) evs).

(** A region has room for one more block of its version. *)
Definition region_has_room
    (castle_freespace_blks_for_version_get : castle_slave -> Z -> Z)
    (region : castle_region) : bool :=
  negb (castle_freespace_blks_for_version_get
          (region_slave region) (region_version region)
        >=? region_length region).

Section TransferNode.

Variable castle_slaves : list castle_slave.
Variable CASTLE_SLAVE_TARGET : Z.
Variable INVAL_DISK_BLK : c_disk_blk.
Variable castle_freespace_block_get : Z -> c_disk_blk.
Variable castle_freespace_blks_for_version_get : castle_slave -> Z -> Z.
Variable castle_freespace_slave_block_get : castle_slave -> Z -> c_disk_blk.

(** [castle_transfer_each(c_iter, index, cdb)]. *)
Definition castle_transfer_each (st : transfer_state) (index : Z) (cdb : c_disk_blk)
  : outcome (transfer_state * option c_disk_blk) :=
  castle_move_block castle_slaves CASTLE_SLAVE_TARGET INVAL_DISK_BLK
    castle_freespace_block_get castle_freespace_blks_for_version_get
    castle_freespace_slave_block_get st cdb.

(** Modelled from the spec: the calls the tree iterator (castle_btree.c)
    makes for one node, [node_start], [each] for every entry and [node_end];
    then the reads that [each] submitted complete, all up to date, in the
    order of their submission. *)
Fixpoint transfer_each_entries (st : transfer_state) (index : Z)
    (entries : list c_disk_blk) : outcome (transfer_state * list c_disk_blk) :=
  match entries with
  | [] => Done (st, [])
  | cdb :: entries' =>
      do r <- castle_transfer_each st index cdb;
      do r' <- transfer_each_entries r.1 (index + 1) entries';
      Done (r'.1, match r.2 with Some src => src :: r'.2 | None => r'.2 end)
  end.

Fixpoint transfer_reads_done (st : transfer_state) (reads : list c_disk_blk)
  : outcome transfer_state :=
  match reads with
  | [] => Done st
  | src :: reads' =>
      do st' <- castle_do_transfer_callback st src true;
      transfer_reads_done st' reads'
  end.

Definition transfer_node (st : transfer_state) (entries : list c_disk_blk)
  : outcome transfer_state :=
  do st1 <- castle_transfer_node_start st;
  do r <- transfer_each_entries st1 0 entries;
  transfer_reads_done (castle_transfer_node_end r.1) r.2.

End TransferNode.

(** Sample mount: the FS superblock names a tree root whose node header has
    more slots in use than its capacity. *)
Definition sample_bad_root_bdev : block_device :=
  mk_bdev (0, sample_fs_sb) (fun _ => (0, (4, 9))) (fun _ => (0, [])).

Definition sample_bad_root_slaves : list castle_slave :=
  [mk_slave 0 1 0 sample_bad_root_bdev].

(** Sample mount: the tree root has a leaf slot and then a node slot whose
    block is on no slave. *)
Definition sample_lost_child_bdev : block_device :=
  mk_bdev (0, sample_fs_sb) (fun _ => (0, (4, 2)))
    (fun _ => (0, [VTREE_SLOT_LEAF 0 (mk_cdb 1 5); VTREE_SLOT_NODE (mk_cdb 9 9)])).

Definition sample_lost_child_slaves : list castle_slave :=
  [mk_slave 0 1 0 sample_lost_child_bdev].

(** A transfer to the target slaves before its first node, and after a node
    with a block to move and a block already in place. *)
Definition sample_idle_transfer : transfer_state :=
  mk_tstate (mk_transfer 0 1 CASTLE_TRANSFER_TO_TARGET [] 0 0) ∅ [].

Definition sample_node_done : transfer_state :=
  match transfer_node sample_slaves 1 sample_inval freespace_some
          freespace_blks_none freespace_slave_none
          sample_idle_transfer [sample_src; mk_cdb 2 9] with
  | Done st => st
  | BUG => sample_idle_transfer
  end.

(** ** Queries on the version registry (castle_versions.c) *)

(** [castle_version_detach]. *)
Definition castle_version_detach (st : versions_state) (version : Z)
  : outcome versions_state :=
  match castle_versions_hash st !! version with
  | None => BUG
  | Some v =>
      if negb (v_attached v) then BUG
      else Done (set_hash st (alter (fun x => set_flags
                                       (Z.land (v_flags x) (Z.lnot CV_ATTACHED_MASK)) x)
                                    version (castle_versions_hash st)))
  end.

Section VersionQueries.

Variable INVAL_VERSION : Z.

(** [castle_version_is_ancestor]. *)
Definition castle_version_is_ancestor (st : versions_state) (candidate version : Z)
  : outcome Z :=
  match castle_versions_hash st !! version, castle_versions_hash st !! candidate with
  | Some v, Some c =>
      if negb (v_inited v) then BUG
      else if VERSION_INVAL INVAL_VERSION (v_o_order v) then BUG
      else if negb (v_inited c) then BUG
      else if VERSION_INVAL INVAL_VERSION (v_o_order c) then BUG
      else if VERSION_INVAL INVAL_VERSION (v_r_order c) then BUG
      else Done (if (v_o_order v >=? v_o_order c) && (v_o_order v <=? v_r_order c)
                 then 1 else 0)
  | _, _ => BUG
  end.

(** [castle_version_compare]: the difference of two [version_t], as an
    [int]. *)
Definition castle_version_compare (st : versions_state) (version1 version2 : Z)
  : outcome Z :=
  match castle_versions_hash st !! version1, castle_versions_hash st !! version2 with
  | Some v1, Some v2 =>
      if negb (v_inited v1) then BUG
      else if VERSION_INVAL INVAL_VERSION (v_o_order v1) then BUG
      else if negb (v_inited v2) then BUG
      else if VERSION_INVAL INVAL_VERSION (v_o_order v2) then BUG
      else Done (wrap_int32 (wrap32 (v_o_order v1 - v_o_order v2)))
  | _, _ => BUG
  end.

End VersionQueries.

(** [c] is [v] or an ancestor of [v]: it is reached from [v] along the
    parent pointers. *)
Inductive version_ancestor (h : gmap Z castle_version) : Z -> Z -> Prop :=
| ancestor_self v : version_ancestor h v v
| ancestor_parent c v vv p :
    h !! v = Some vv -> v_parent_u vv = ParentPtr (Some p) ->
    version_ancestor h c p -> version_ancestor h c v.

(** The order numbers of a tree numbered depth first from [id] on: a node
    has the number after [id] as its [o_order] and the number of its last
    descendant as its [r_order]; its children follow, one subtree after the
    other. *)
Fixpoint tree_ordered (h : gmap Z castle_version) (id : Z) (t : vtree) : Prop :=
  match t with
  | VNode x cs =>
      (exists xv, h !! x = Some xv /\ v_o_order xv = id + 1 /\
                  v_r_order xv = id + 1 + forest_size cs) /\
      (fix forest (id : Z) (cs : list vtree) : Prop :=
         match cs with
         | [] => True
         | c :: cs' => tree_ordered h id c /\ forest (id + tree_size c) cs'
         end) (id + 1) cs
  end.

Fixpoint forest_ordered (h : gmap Z castle_version) (id : Z) (cs : list vtree) : Prop :=
  match cs with
  | [] => True
  | c :: cs' => tree_ordered h id c /\ forest_ordered h (id + tree_size c) cs'
  end.

(** A run of the numbering loop over a tree leaves it ordered. *)
Definition tree_numbered_exact (t : vtree) : Prop :=
  forall h parent next id,
    repr_tree h parent next t -> NoDup (tree_ids t) ->
    0 <= id -> id + tree_size t < 2 ^ 32 ->
    exists n h',
      order_steps n (h, Some (tree_root t), true, id)
        (h', (order_cont next parent).1, (order_cont next parent).2,
         id + tree_size t) /\
      same_links h h' /\
      (forall y, y ∉ tree_ids t -> h' !! y = h !! y) /\
      tree_ordered h' id t.

Definition forest_numbered_exact (cs : list vtree) : Prop :=
  forall h p id,
    repr_forest h (Some p) cs -> cs <> [] -> NoDup (forest_ids cs) ->
    0 <= id -> id + forest_size cs < 2 ^ 32 ->
    exists n h',
      order_steps n (h, head_id cs, true, id)
        (h', Some p, false, id + forest_size cs) /\
      same_links h h' /\
      (forall y, y ∉ forest_ids cs -> h' !! y = h !! y) /\
      forest_ordered h' id cs.

(** What neither the sibling links nor the numbering touch in a version:
    its number, its parent, its data-array id, its size and its flags. *)
Definition v_fixed (v : castle_version) : Z * version_parent * Z * Z * Z :=
  (v_version v, v_parent_u v, v_da_id v, v_size v, v_flags v).

(** [castle_version_da_id_get]. *)
Definition castle_version_da_id_get (st : versions_state) (version : Z) : outcome Z :=
  match castle_versions_hash st !! version with
  | None => BUG
  | Some v => if negb (v_inited v) then BUG else Done (v_da_id v)
  end.

(* ===================================================================== *)
(** * Properties *)
(* ===================================================================== *)

(** ** Key codec: decode after encode *)

Lemma wrap32_small z : 0 <= z < 2 ^ 32 -> wrap32 z = z.
Proof. intros. unfold wrap32. apply Z.mod_small. lia. Qed.

Lemma payload_size_nonneg ds : Forall dim_wf ds -> 0 <= payload_size ds.
Proof. induction 1 as [|d ds Hd _ IH]; simpl; [lia|]. unfold dim_wf in Hd. lia. Qed.

Lemma dim_header_offset off :
  0 <= off < 2 ^ 24 -> KEY_DIMENSION_OFFSET (KEY_DIMENSION_HEADER off 0) = off.
Proof.
  intros Hoff. unfold KEY_DIMENSION_OFFSET, KEY_DIMENSION_HEADER, KEY_DIMENSION_FLAGS_SHIFT.
  rewrite Z.land_0_l, Z.lor_0_r, Z.shiftl_mul_pow2 by lia.
  rewrite wrap32_small by lia.
  rewrite Z.shiftr_div_pow2 by lia. apply Z.div_mul. lia.
Qed.

Lemma key_len_fold ds : forall s,
  Forall dim_wf ds -> 0 <= s -> s + payload_size ds < 2 ^ 32 ->
  fold_left (fun len d => wrap32 (len + vk_length d)) ds s = s + payload_size ds.
Proof.
  induction ds as [|d ds IH]; intros s Hwf Hs Hb; simpl in *; [lia|].
  inversion Hwf as [|? ? Hd Hds]; subst.
  pose proof (payload_size_nonneg _ Hds). unfold dim_wf in Hd.
  rewrite wrap32_small by lia. rewrite IH by (auto; lia). lia.
Qed.

Lemma memcpy_fresh (pre zs src : list byte) :
  (length src <= length zs)%nat ->
  memcpy (pre ++ zs) (length pre) src (length src) = pre ++ src ++ drop (length src) zs.
Proof.
  intros Hle. unfold memcpy.
  rewrite take_app_length, firstn_all, drop_app_add. reflexivity.
Qed.

Lemma construct_dims_fresh hsz ds : forall i hs pre zs off,
  Forall dim_wf ds ->
  Z.of_nat (length pre) = off - hsz ->
  (i + length ds <= length hs)%nat ->
  payload_size ds <= Z.of_nat (length zs) ->
  0 <= off -> off + payload_size ds < 2 ^ 32 ->
  construct_dims hsz ds i hs (pre ++ zs) off =
    (take i hs ++ map (fun o => KEY_DIMENSION_HEADER o 0) (dim_offsets off ds)
       ++ drop (i + length ds) hs,
     pre ++ concat (map vk_key ds) ++ drop (Z.to_nat (payload_size ds)) zs,
     off + payload_size ds).
Proof.
  induction ds as [|d ds IH]; intros i hs pre zs off Hwf Hpre Hlen Hzs Hoff Hb; simpl in *.
  - rewrite Nat.add_0_r, take_drop, Z.add_0_r. reflexivity.
  - inversion Hwf as [|? ? Hd Hds]; subst.
    pose proof (payload_size_nonneg _ Hds) as Hnn. unfold dim_wf in Hd.
    replace (Z.to_nat (off - hsz)) with (length pre) by lia.
    replace (Z.to_nat (vk_length d)) with (length (vk_key d)) by lia.
    rewrite memcpy_fresh by lia.
    rewrite wrap32_small by lia.
    rewrite (app_assoc pre).
    rewrite IH; auto; rewrite ?length_app, ?length_insert, ?length_drop; try lia.
    f_equal; [f_equal|lia].
    + rewrite (take_S_r _ _ (KEY_DIMENSION_HEADER off 0))
        by (apply list_lookup_insert_eq; lia).
      rewrite take_insert_ge by lia. rewrite <- app_assoc. simpl.
      rewrite drop_insert_lt by lia.
      do 3 f_equal. apply (f_equal (fun n => drop n hs)). lia.
    + rewrite <- !app_assoc, drop_drop.
      replace (length (vk_key d) + Z.to_nat (payload_size ds))%nat
        with (Z.to_nat (vk_length d + payload_size ds)) by lia. reflexivity.
Qed.

Lemma length_dim_offsets off ds : length (dim_offsets off ds) = length ds.
Proof. revert off. induction ds as [|d ds IH]; intros off; simpl; [|rewrite IH]; reflexivity. Qed.

Section RoundTrip.
Variable kmalloc_ok : Z -> bool.
Variables sizeof_c_vl_okey_t sizeof_ptr : Z.
Hypothesis kmalloc_succeeds : forall n, kmalloc_ok n = true.

Lemma btree_key_convert_dims_spec key ds : forall pre_heads pre off,
  Forall dim_wf ds ->
  bk_dim_head key =
    pre_heads ++ map (fun o => KEY_DIMENSION_HEADER o 0) (dim_offsets off ds) ->
  bk_payload key = pre ++ concat (map vk_key ds) ->
  bk_nr_dims key = Z.of_nat (length pre_heads + length ds) ->
  Z.of_nat (length pre) =
    off - bkey_header_size (Z.of_nat (length (bk_dim_head key))) ->
  wrap32 (bk_length key + 4) = off + payload_size ds ->
  0 <= off -> off + payload_size ds < 2 ^ 24 ->
  btree_key_convert_dims kmalloc_ok key (Z.of_nat (length pre_heads)) (length ds)
    = Some ds.
Proof.
  induction ds as [|d ds IH]; intros pre_heads pre off Hwf Hh Hp Hn Hpre Hlen Hoff Hb;
    simpl in *; [reflexivity|].
  inversion Hwf as [|? ? Hd Hds]; subst.
  pose proof (payload_size_nonneg _ Hds) as Hnn. unfold dim_wf in Hd.
  rewrite kmalloc_succeeds.
  assert (Hi : dim_head_at key (Z.of_nat (length pre_heads)) = KEY_DIMENSION_HEADER off 0).
  { unfold dim_head_at. destruct (Z.ltb_spec (Z.of_nat (length pre_heads)) 0); [lia|].
    rewrite Nat2Z.id, Hh, app_nth2, Nat.sub_diag by lia. reflexivity. }
  assert (Hlen_d : castle_object_btree_key_dim_length key (Z.of_nat (length pre_heads))
                   = vk_length d).
  { unfold castle_object_btree_key_dim_length. rewrite Hi, dim_header_offset by lia.
    destruct (Z.ltb_spec (Z.of_nat (length pre_heads) + 1) (bk_nr_dims key)) as [Hlt|Hge].
    - destruct ds as [|d' ds']; [simpl in *; lia|].
      assert (Hi' : dim_head_at key (Z.of_nat (length pre_heads) + 1)
                    = KEY_DIMENSION_HEADER (off + vk_length d) 0).
      { unfold dim_head_at.
        destruct (Z.ltb_spec (Z.of_nat (length pre_heads) + 1) 0); [lia|].
        replace (Z.to_nat (Z.of_nat (length pre_heads) + 1))
          with (length pre_heads + 1)%nat by lia.
        rewrite Hh, app_nth2 by lia.
        replace (length pre_heads + 1 - length pre_heads)%nat with 1%nat by lia.
        reflexivity. }
      inversion Hds as [|? ? Hd' _]; subst. unfold dim_wf in Hd'. simpl in *.
      rewrite Hi', dim_header_offset by lia. rewrite wrap32_small by lia. lia.
    - destruct ds as [|d' ds']; [|simpl in *; lia].
      simpl in *. rewrite Hlen. rewrite wrap32_small by lia. lia. }
  rewrite Hlen_d.
  assert (Hbytes : take (Z.to_nat (vk_length d))
            (castle_object_btree_key_dim_get key (Z.of_nat (length pre_heads)))
            = vk_key d).
  { unfold castle_object_btree_key_dim_get. rewrite Hi, dim_header_offset by lia.
    replace (Z.to_nat (off - bkey_header_size (Z.of_nat (length (bk_dim_head key)))))
      with (length pre) by lia.
    rewrite Hp, drop_app_length.
    replace (Z.to_nat (vk_length d)) with (length (vk_key d)) by lia.
    apply take_app_length. }
  rewrite Hbytes.
  replace (Z.of_nat (length pre_heads) + 1)
    with (Z.of_nat (length (pre_heads ++ [KEY_DIMENSION_HEADER off 0])))
    by (rewrite length_app; simpl; lia).
  rewrite (IH (pre_heads ++ [KEY_DIMENSION_HEADER off 0]) (pre ++ vk_key d)
              (off + vk_length d)); auto.
  - destruct d; reflexivity.
  - rewrite Hh, <- app_assoc. reflexivity.
  - rewrite Hp, <- app_assoc. reflexivity.
  - rewrite Hn, !length_app. simpl. lia.
  - rewrite length_app. lia.
  - lia.
  - lia.
  - lia.
Qed.

(** C1: for every schema-valid object key [O], when the allocations succeed,
    [castle_object_key_convert] returns a B-tree key whose decoding by
    [castle_object_btree_key_convert] is [O] itself, dimension for dimension
    and byte for byte. *)
Theorem object_key_convert_roundtrip (O : c_vl_okey) :
  okey_valid O ->
  exists B,
    castle_object_key_convert kmalloc_ok (Some O) = Done (Some B) /\
    castle_object_btree_key_convert kmalloc_ok sizeof_c_vl_okey_t sizeof_ptr B
      = Some O.
Proof.
  intros (Hn & Hlen & Hwf & Hb).
  pose proof (payload_size_nonneg _ Hwf) as Hnn.
  unfold bkey_header_size, sizeof_c_vl_bkey_t in Hb.
  unfold castle_object_key_convert, castle_object_btree_key_construct.
  change (wrap32 0) with 0.
  simpl is_null. rewrite andb_true_r, andb_false_r. simpl negb.
  destruct (Z.ltb_spec 0 0) as [?|_]; [lia|].
  destruct (Z.leb_spec (ok_nr_dims O) 0) as [?|_]; [lia|].
  rewrite Z.sub_0_r. change (Z.to_nat 0) with 0%nat. rewrite drop_0.
  rewrite firstn_all2 by lia.
  unfold sizeof_c_vl_bkey_t.
  rewrite (wrap32_small (16 + 4 * ok_nr_dims O)) by lia.
  rewrite key_len_fold by (auto; lia).
  rewrite kmalloc_succeeds. simpl negb. cbv iota.
  unfold bkey_header_size, sizeof_c_vl_bkey_t.
  set (hsz := 16 + 4 * ok_nr_dims O).
  replace (replicate (Z.to_nat (hsz + payload_size (ok_dims O) - hsz)) x00)
    with ([] ++ replicate (Z.to_nat (payload_size (ok_dims O))) x00)
    by (simpl; f_equal; lia).
  rewrite construct_dims_fresh; auto; simpl length;
    rewrite ?length_replicate; try lia.
  rewrite Z.eqb_refl. simpl negb. cbv iota.
  eexists; split; [reflexivity|].
  unfold castle_object_btree_key_convert. cbn [bk_nr_dims].
  rewrite kmalloc_succeeds.
  replace (Z.to_nat (ok_nr_dims O)) with (length (ok_dims O)) at 3 by lia.
  pose proof (length_dim_offsets hsz (ok_dims O)) as Hoffs.
  rewrite take_0, drop_ge by (rewrite length_replicate; lia).
  rewrite drop_ge by (rewrite length_replicate; lia).
  rewrite !app_nil_l, !app_nil_r.
  rewrite (btree_key_convert_dims_spec _ (ok_dims O) [] [] hsz);
    cbn [bk_dim_head bk_payload bk_nr_dims bk_length app length];
    [destruct O; reflexivity | assumption | reflexivity | reflexivity | lia
    | | | lia | lia ].
  - rewrite length_map, Hoffs. unfold bkey_header_size, sizeof_c_vl_bkey_t. lia.
  - rewrite (wrap32_small (_ - 4)) by lia. rewrite wrap32_small by lia. lia.
Qed.
End RoundTrip.

Lemma sample_okey1_valid : okey_valid sample_okey1.
Proof.
  unfold okey_valid, sample_okey1, dim_wf. cbn.
  repeat split; try lia; repeat constructor.
Qed.

Lemma object_key_convert_roundtrip_witness :
  okey_valid sample_okey1 /\
  exists B,
    castle_object_key_convert kmalloc_always (Some sample_okey1) = Done (Some B) /\
    castle_object_btree_key_convert kmalloc_always 8 8 B = Some sample_okey1.
Proof.
  split; [exact sample_okey1_valid|].
  apply (object_key_convert_roundtrip kmalloc_always 8 8 (fun _ => eq_refl)
           sample_okey1 sample_okey1_valid).
Defined.

(** ** Key codec: the successor key *)

Lemma memcmp_antisym a b n : memcmp b a n = - memcmp a b n.
Proof.
  revert a b. induction n as [|n IH]; intros [|x a] [|y b]; simpl; try reflexivity.
  rewrite (Z.eqb_sym (byte_val y)).
  destruct (byte_val x =? byte_val y); [apply IH | lia].
Qed.

Lemma memcmp_refl a n : memcmp a a n = 0.
Proof.
  revert a. induction n as [|n IH]; intros [|x a]; simpl; try reflexivity.
  rewrite Z.eqb_refl. apply IH.
Qed.

(** One dimension of [K] without NEXT against the same dimension of [M], and
    [M] against the same bytes carrying flags [kf']. *)
Lemma dim_compare_between kd kl kf kf' md ml mf x y :
  Z.land kf KEY_DIMENSION_NEXT_FLAG = 0 ->
  castle_object_key_dim_compare kd kl kf md ml mf = Done x ->
  castle_object_key_dim_compare md ml mf kd kl kf' = Done y ->
  (x < 0 /\ 0 < y) \/ 0 < x \/
  (x = 0 /\ ((Z.land kf' KEY_DIMENSION_NEXT_FLAG = 0 /\ y = 0) \/
             (Z.land kf' KEY_DIMENSION_NEXT_FLAG <> 0 /\ y < 0))).
Proof.
  intros Hkf. unfold castle_object_key_dim_compare.
  rewrite (memcmp_antisym kd md).
  replace (if ml >? kl then kl else ml) with (if kl >? ml then ml else kl)
    by (destruct (Z.gtb_spec ml kl), (Z.gtb_spec kl ml); lia).
  set (c := memcmp kd md _). rewrite Hkf.
  destruct (Z.eqb_spec c 0) as [Hc|Hc];
    destruct (Z.eqb_spec (- c) 0) as [Hc'|Hc']; try lia; simpl.
  2:{ intros [= <-] [= <-]. lia. }
  rewrite (Z.eqb_sym ml kl).
  destruct (Z.eqb_spec kl ml) as [Hl|Hl]; simpl.
  2:{ destruct (Z.gtb_spec kl ml), (Z.gtb_spec ml kl); intros [= <-] [= <-]; lia. }
  destruct (Z.eqb_spec (Z.land mf KEY_DIMENSION_NEXT_FLAG) 0) as [Hm|Hm];
    destruct (Z.eqb_spec (Z.land kf' KEY_DIMENSION_NEXT_FLAG) 0) as [Hk|Hk]; simpl;
    try discriminate; intros [= <-] [= <-]; lia.
Qed.

Lemma dim_compare_self d l f f' :
  Z.land f KEY_DIMENSION_NEXT_FLAG = 0 ->
  castle_object_key_dim_compare d l f d l f'
  = Done (if Z.land f' KEY_DIMENSION_NEXT_FLAG =? 0 then 0 else -1).
Proof.
  intros Hf. unfold castle_object_key_dim_compare.
  rewrite memcmp_refl, !Z.eqb_refl, Hf. simpl.
  destruct (Z.land f' KEY_DIMENSION_NEXT_FLAG =? 0); reflexivity.
Qed.

Lemma dim_head_offset_keep h f :
  0 <= h < 2 ^ 32 ->
  KEY_DIMENSION_OFFSET (KEY_DIMENSION_HEADER (KEY_DIMENSION_OFFSET h) f)
  = KEY_DIMENSION_OFFSET h.
Proof.
  intros Hh. unfold KEY_DIMENSION_OFFSET, KEY_DIMENSION_HEADER,
    KEY_DIMENSION_FLAGS_MASK, KEY_DIMENSION_FLAGS_SHIFT.
  assert (Ho : 0 <= Z.shiftr h 8 < 2 ^ 24).
  { rewrite Z.shiftr_div_pow2 by lia. split; [apply Z.div_pos; lia|].
    apply Z.div_lt_upper_bound; lia. }
  rewrite Z.shiftl_mul_pow2 by lia. rewrite wrap32_small by lia.
  rewrite Z.shiftr_lor. rewrite <- Z.shiftl_mul_pow2 by lia.
  rewrite Z.shiftr_shiftl_l by lia. simpl Z.sub. rewrite Z.shiftl_0_r.
  change (Z.shiftl 1 8 - 1) with (Z.ones 8). rewrite Z.land_ones by lia.
  rewrite (Z.shiftr_div_pow2 (f mod 2 ^ 8)) by lia.
  rewrite Z.div_small by (apply Z.mod_pos_bound; lia).
  apply Z.lor_0_r.
Qed.

Lemma dim_head_next_set off f :
  Z.land (KEY_DIMENSION_FLAGS
            (KEY_DIMENSION_HEADER off (Z.lor f KEY_DIMENSION_NEXT_FLAG)))
         KEY_DIMENSION_NEXT_FLAG <> 0.
Proof.
  intros H0.
  assert (Hb : Z.testbit (Z.land (KEY_DIMENSION_FLAGS
            (KEY_DIMENSION_HEADER off (Z.lor f KEY_DIMENSION_NEXT_FLAG)))
         KEY_DIMENSION_NEXT_FLAG) 0 = true).
  { unfold KEY_DIMENSION_FLAGS, KEY_DIMENSION_HEADER, KEY_DIMENSION_NEXT_FLAG,
      KEY_DIMENSION_FLAGS_MASK, KEY_DIMENSION_FLAGS_SHIFT.
    rewrite !Z.land_spec, Z.lor_spec, Z.land_spec, Z.lor_spec.
    change (Z.testbit (Z.shiftl 1 0) 0) with true.
    change (Z.testbit (Z.shiftl 1 8 - 1) 0) with true.
    destruct (Z.testbit (wrap32 _) 0), (Z.testbit f 0); reflexivity. }
  rewrite H0 in Hb. discriminate.
Qed.

Section Successor.
Variable K : c_vl_bkey.
Hypothesis K_wf : bkey_wf K.

Let K' := castle_object_btree_key_dim_inc K (bk_nr_dims K - 1).

Lemma dim_inc_head_other j :
  j <> bk_nr_dims K - 1 -> dim_head_at K' j = dim_head_at K j.
Proof.
  intros Hj. destruct K_wf as (Hn & Hlen & _).
  unfold K', castle_object_btree_key_dim_inc, dim_head_at.
  destruct (Z.ltb_spec (bk_nr_dims K - 1) 0); [lia|]. cbn [bk_dim_head].
  destruct (Z.ltb_spec j 0); [reflexivity|].
  rewrite !nth_lookup, list_lookup_insert_ne by lia. reflexivity.
Qed.

Lemma dim_inc_head_last :
  dim_head_at K' (bk_nr_dims K - 1)
  = KEY_DIMENSION_HEADER
      (KEY_DIMENSION_OFFSET (dim_head_at K (bk_nr_dims K - 1)))
      (Z.lor (KEY_DIMENSION_FLAGS (dim_head_at K (bk_nr_dims K - 1)))
             KEY_DIMENSION_NEXT_FLAG).
Proof.
  destruct K_wf as (Hn & Hlen & _).
  unfold K', castle_object_btree_key_dim_inc.
  destruct (Z.ltb_spec (bk_nr_dims K - 1) 0); [lia|].
  unfold dim_head_at at 1. cbn [bk_dim_head].
  destruct (Z.ltb_spec (bk_nr_dims K - 1) 0); [lia|].
  rewrite nth_lookup, list_lookup_insert_eq by lia. reflexivity.
Qed.

Lemma dim_head_at_range j : 0 <= dim_head_at K j < 2 ^ 32.
Proof.
  destruct K_wf as (_ & _ & Hh & _). unfold dim_head_at.
  destruct (Z.ltb_spec j 0); [lia|].
  destruct (nth_in_or_default (Z.to_nat j) (bk_dim_head K) 0) as [Hin | ->]; [|lia].
  rewrite Forall_forall in Hh. apply Hh. apply list_elem_of_In. exact Hin.
Qed.

Lemma dim_inc_offset j :
  KEY_DIMENSION_OFFSET (dim_head_at K' j) = KEY_DIMENSION_OFFSET (dim_head_at K j).
Proof.
  destruct (Z.eq_dec j (bk_nr_dims K - 1)) as [-> | Hj].
  - rewrite dim_inc_head_last. apply dim_head_offset_keep, dim_head_at_range.
  - rewrite dim_inc_head_other by exact Hj. reflexivity.
Qed.

Lemma dim_inc_dim_get j :
  castle_object_btree_key_dim_get K' j = castle_object_btree_key_dim_get K j.
Proof.
  unfold castle_object_btree_key_dim_get. rewrite dim_inc_offset.
  unfold K', castle_object_btree_key_dim_inc.
  destruct (bk_nr_dims K - 1 <? 0); [reflexivity|]. cbn [bk_dim_head bk_payload].
  rewrite length_insert. reflexivity.
Qed.

Lemma dim_inc_dim_length j :
  castle_object_btree_key_dim_length K' j = castle_object_btree_key_dim_length K j.
Proof.
  unfold castle_object_btree_key_dim_length. rewrite !dim_inc_offset.
  unfold K', castle_object_btree_key_dim_inc.
  destruct (bk_nr_dims K - 1 <? 0); reflexivity.
Qed.

Lemma dim_inc_nr_dims : bk_nr_dims K' = bk_nr_dims K.
Proof.
  unfold K', castle_object_btree_key_dim_inc.
  destruct (bk_nr_dims K - 1 <? 0); reflexivity.
Qed.

Lemma dim_inc_flags_other j :
  j <> bk_nr_dims K - 1 ->
  castle_object_btree_key_dim_flags_get K' j = castle_object_btree_key_dim_flags_get K j.
Proof.
  intros Hj. unfold castle_object_btree_key_dim_flags_get.
  rewrite dim_inc_head_other by exact Hj. reflexivity.
Qed.

Lemma dim_inc_flags_last :
  Z.land (castle_object_btree_key_dim_flags_get K' (bk_nr_dims K - 1))
         KEY_DIMENSION_NEXT_FLAG <> 0.
Proof.
  unfold castle_object_btree_key_dim_flags_get. rewrite dim_inc_head_last.
  apply dim_head_next_set.
Qed.

Hypothesis K_no_next : bkey_no_next K.

Lemma no_next_flag j :
  0 <= j < bk_nr_dims K ->
  Z.land (castle_object_btree_key_dim_flags_get K j) KEY_DIMENSION_NEXT_FLAG = 0.
Proof.
  intros Hj. specialize (K_no_next j Hj). unfold dim_has_next in K_no_next.
  destruct (Z.eqb_spec (Z.land (castle_object_btree_key_dim_flags_get K j)
                               KEY_DIMENSION_NEXT_FLAG) 0); [assumption|discriminate].
Qed.

Lemma compare_dims_successor n : forall dim,
  0 <= dim -> dim + Z.of_nat n = bk_nr_dims K -> (0 < n)%nat ->
  btree_key_compare_dims K K' dim n = Done (-1).
Proof.
  induction n as [|n IH]; intros dim Hd Hn Hpos; [lia|].
  cbn [btree_key_compare_dims].
  rewrite dim_inc_dim_get, dim_inc_dim_length.
  rewrite dim_compare_self by (apply no_next_flag; lia).
  destruct (Z.eq_dec dim (bk_nr_dims K - 1)) as [-> | Hlast].
  - destruct (Z.eqb_spec (Z.land (castle_object_btree_key_dim_flags_get K'
                                    (bk_nr_dims K - 1)) KEY_DIMENSION_NEXT_FLAG) 0)
      as [H0|_]; [exfalso; exact (dim_inc_flags_last H0)|]. reflexivity.
  - rewrite dim_inc_flags_other by exact Hlast.
    rewrite no_next_flag by lia. simpl. apply IH; lia.
Qed.

Lemma compare_dims_between M n : forall dim c1 c2,
  0 <= dim -> dim + Z.of_nat n = bk_nr_dims K ->
  btree_key_compare_dims K M dim n = Done c1 ->
  btree_key_compare_dims M K' dim n = Done c2 ->
  c1 < 0 -> c2 < 0 -> False.
Proof.
  induction n as [|n IH]; intros dim c1 c2 Hd Hn H1 H2 Hc1 Hc2.
  - simpl in H1. injection H1 as <-. lia.
  - cbn [btree_key_compare_dims] in H1, H2.
    rewrite dim_inc_dim_get, dim_inc_dim_length in H2.
    destruct (castle_object_key_dim_compare
                (castle_object_btree_key_dim_get K dim) _ _ _ _ _) as [x|] eqn:Hx;
      [|discriminate].
    destruct (castle_object_key_dim_compare
                (castle_object_btree_key_dim_get M dim) _ _ _ _ _) as [y|] eqn:Hy;
      [|discriminate].
    simpl in H1, H2.
    destruct (dim_compare_between _ _ _ _ _ _ _ _ _
                (no_next_flag dim ltac:(lia)) Hx Hy)
      as [[Hx0 Hy0]|[Hx0|[-> [[Hk ->]|[Hk Hy0]]]]].
    + destruct (Z.eqb_spec y 0); [lia|]. simpl in H2. injection H2 as <-. lia.
    + destruct (Z.eqb_spec x 0); [lia|]. simpl in H1. injection H1 as <-. lia.
    + simpl in H1, H2. apply (IH (dim + 1) c1 c2); auto; lia.
    + destruct (Z.eq_dec dim (bk_nr_dims K - 1)) as [-> | Hlast].
      * simpl in H1. destruct n; [|lia]. simpl in H1. injection H1 as <-. lia.
      * rewrite dim_inc_flags_other in Hk by exact Hlast.
        rewrite no_next_flag in Hk by lia. congruence.
Qed.

End Successor.

Lemma bkey_wf_nr_dims_small K : bkey_wf K -> 1 <= bk_nr_dims K < 2 ^ 30.
Proof.
  intros (Hn & _ & _ & _ & Hlt & Hlen & _).
  unfold bkey_header_size, sizeof_c_vl_bkey_t in Hlen. lia.
Qed.

Lemma wrap_int32_small z : - 2 ^ 31 <= z < 2 ^ 31 -> wrap_int32 z = z.
Proof. intros. unfold wrap_int32. rewrite Z.mod_small by lia. lia. Qed.

(** C5 (amended): for every well-formed B-tree key [K] none of whose
    dimensions carries the NEXT flag, [castle_object_btree_key_next] returns a
    key [K'] with [compare(K, K') < 0], and no well-formed key [M] with the
    payload bytes of [K] has [compare(K, M) < 0] and [compare(M, K') < 0]. *)
Theorem btree_key_next_is_successor (kmalloc_ok : Z -> bool) (K : c_vl_bkey) :
  bkey_wf K ->
  bkey_no_next K ->
  kmalloc_ok (wrap32 (bk_length K + 4)) = true ->
  exists K',
    castle_object_btree_key_next kmalloc_ok K = Some K' /\
    (exists c, castle_object_btree_key_compare K K' = Done c /\ c < 0) /\
    forall M, bkey_wf M -> bk_payload M = bk_payload K ->
      ~ (exists c1 c2,
           castle_object_btree_key_compare K M = Done c1 /\ c1 < 0 /\
           castle_object_btree_key_compare M K' = Done c2 /\ c2 < 0).
Proof.
  intros Hwf Hnn Halloc.
  pose proof (bkey_wf_nr_dims_small K Hwf) as Hn.
  unfold castle_object_btree_key_next. rewrite Halloc.
  rewrite wrap_int32_small by lia.
  eexists; split; [reflexivity|]. split.
  - exists (-1). split; [|lia].
    unfold castle_object_btree_key_compare.
    rewrite dim_inc_nr_dims, Z.eqb_refl by exact Hwf. simpl negb. cbv iota.
    apply compare_dims_successor; auto; lia.
  - intros M _ _ (c1 & c2 & H1 & Hc1 & H2 & Hc2).
    unfold castle_object_btree_key_compare in H1, H2.
    rewrite dim_inc_nr_dims in H2 by exact Hwf.
    rewrite (Z.eqb_sym (bk_nr_dims M)) in H2.
    destruct (Z.eqb_spec (bk_nr_dims K) (bk_nr_dims M)) as [Heq|Hne]; simpl in H1, H2.
    + rewrite <- Heq in H2.
      apply (compare_dims_between K Hwf Hnn M (Z.to_nat (bk_nr_dims K)) 0 c1 c2);
        auto; lia.
    + injection H1 as <-. injection H2 as <-.
      destruct (Z.gtb_spec (bk_nr_dims K) (bk_nr_dims M)),
               (Z.gtb_spec (bk_nr_dims M) (bk_nr_dims K)); lia.
Qed.

Lemma sample_bkey1_wf : bkey_wf sample_bkey1.
Proof.
  unfold bkey_wf, sample_bkey1. cbn. repeat split; try lia.
  1: repeat constructor; lia.
  all: vm_compute; discriminate.
Qed.

Lemma sample_bkey1_no_next : bkey_no_next sample_bkey1.
Proof.
  intros dim Hdim. cbn in Hdim.
  assert (dim = 0 \/ dim = 1) as [-> | ->] by lia; reflexivity.
Qed.

Lemma btree_key_next_is_successor_witness :
  exists K',
    castle_object_btree_key_next kmalloc_always sample_bkey1 = Some K' /\
    (exists c, castle_object_btree_key_compare sample_bkey1 K' = Done c /\ c < 0) /\
    forall M, bkey_wf M -> bk_payload M = bk_payload sample_bkey1 ->
      ~ (exists c1 c2,
           castle_object_btree_key_compare sample_bkey1 M = Done c1 /\ c1 < 0 /\
           castle_object_btree_key_compare M K' = Done c2 /\ c2 < 0).
Proof.
  apply (btree_key_next_is_successor kmalloc_always sample_bkey1
           sample_bkey1_wf sample_bkey1_no_next eq_refl).
Defined.

Lemma sample_bkey1_next_wf : bkey_wf sample_bkey1_next.
Proof.
  unfold bkey_wf, sample_bkey1_next. cbn. repeat split; try lia.
  1: repeat constructor; lia.
  all: vm_compute; discriminate.
Qed.

(** C5 as stated fails on a well-formed key that already carries NEXT on its
    last dimension: its successor is the key itself and the comparison of the
    two stops in [BUG_ON(dim_a_next_flag && dim_b_next_flag)]. *)
Lemma btree_key_next_flagged_counterexample :
  bkey_wf sample_bkey1_next /\
  castle_object_btree_key_next kmalloc_always sample_bkey1_next
    = Some sample_bkey1_next /\
  castle_object_btree_key_compare sample_bkey1_next sample_bkey1_next = BUG /\
  ~ (exists K' c,
       castle_object_btree_key_next kmalloc_always sample_bkey1_next = Some K' /\
       castle_object_btree_key_compare sample_bkey1_next K' = Done c /\ c < 0).
Proof.
  split; [exact sample_bkey1_next_wf|].
  split; [reflexivity|]. split; [reflexivity|].
  intros (K' & c & Hn & Hc & _).
  change (castle_object_btree_key_next kmalloc_always sample_bkey1_next)
    with (Some sample_bkey1_next) in Hn.
  injection Hn as <-.
  change (castle_object_btree_key_compare sample_bkey1_next sample_bkey1_next)
    with (@BUG Z) in Hc.
  discriminate.
Qed.

(** ** The range-query iterator *)

Lemma list_iter_next_pending (i : list rq_entry) e rest :
  i = e :: rest -> fst (list_iter_next i) = e /\ snd (list_iter_next i) = rest.
Proof. intros ->. split; reflexivity. Qed.

Lemma list_iter_skip_pending (i : list rq_entry) k :
  list_iter_skip_ptr i k `suffix_of` i.
Proof.
  destruct k as [key|]; [|reflexivity].
  induction i as [|e l IH]; simpl; [reflexivity|].
  destruct (castle_object_btree_key_compare (entry_key e) key) as [c|]; [|reflexivity].
  destruct (c <? 0); [|reflexivity].
  apply suffix_cons_r, IH.
Qed.

Instance list_da_rq_iter (contents : list rq_entry) : DaRqIter (list rq_entry) := {|
  da_rq_iter_init := fun _ _ _ _ => contents;
  da_rq_iter_err := fun _ => 0;
  da_rq_iter_has_next := list_iter_has_next;
  da_rq_iter_next := list_iter_next;
  da_rq_iter_skip := list_iter_skip_ptr;
  da_rq_iter_pending := fun l => l;
  da_rq_iter_has_next_pending := fun l => eq_refl;
  da_rq_iter_next_pending := list_iter_next_pending;
  da_rq_iter_skip_pending := list_iter_skip_pending
|}.

Lemma bounds_check_dims_zero key start end_ n : forall dim od,
  bounds_check_dims key start end_ dim n = Done (0, od) -> od = None.
Proof.
  induction n as [|n IH]; intros dim od Hb; simpl in Hb.
  - congruence.
  - destruct (castle_object_key_dim_compare _ _ _ (vk_key (okey_dim_at start dim)) _ _)
      as [c|]; [|discriminate]. simpl in Hb.
    destruct (c <? 0); [discriminate|].
    destruct (castle_object_key_dim_compare _ _ _ _ _ _) as [c'|]; [|discriminate].
    simpl in Hb. destruct (c' >? 0); [discriminate|]. eapply IH, Hb.
Qed.

Lemma bounds_check_zero key start end_ od :
  castle_object_btree_key_bounds_check key start end_ = Done (0, od) -> od = None.
Proof.
  unfold castle_object_btree_key_bounds_check.
  destruct (_ || _); [discriminate|]. apply bounds_check_dims_zero.
Qed.

Lemma StronglySorted_sublist {A} (R : relation A) (l1 l2 : list A) :
  l1 `sublist_of` l2 -> StronglySorted R l2 -> StronglySorted R l1.
Proof.
  induction 1 as [|x l1 l2 Hsub IH|x l1 l2 Hsub IH]; intros Hs.
  - constructor.
  - apply StronglySorted_inv in Hs as [Hs Hall]. constructor; [auto|].
    rewrite Forall_forall in *. intros y Hy. apply Hall.
    eapply elem_of_sublist; eauto.
  - apply StronglySorted_inv in Hs as [Hs _]. auto.
Qed.

Lemma suffix_is_sublist {A} (l1 l2 : list A) :
  l1 `suffix_of` l2 -> l1 `sublist_of` l2.
Proof. intros [k ->]. apply sublist_inserts_l. reflexivity. Qed.

Section RangeIteratorProps.

Context {I : Type} `{DaRqIter I}.
Variable kmalloc_ok : Z -> bool.

Lemma has_next_spec fuel : forall (iter iter' : c_obj_rq_iter I) r start end_,
  rq_start_okey iter = Some start -> rq_end_okey iter = Some end_ ->
  rq_cached iter = 0 ->
  castle_objects_rq_iter_has_next kmalloc_ok fuel iter = Some (Done (r, iter')) ->
  rq_start_okey iter' = Some start /\ rq_end_okey iter' = Some end_ /\
  ((r = 0 /\ rq_cached iter' = 0 /\
    da_rq_iter_pending (rq_da_rq_iter iter') = []) \/
   (r = 1 /\ rq_cached iter' = 1 /\
    exists e, emit e = (rq_cached_k iter', rq_cached_v iter', rq_cached_cvt iter') /\
      castle_object_btree_key_bounds_check (entry_key e) start end_ = Done (0, None) /\
      (e :: da_rq_iter_pending (rq_da_rq_iter iter'))
        `suffix_of` da_rq_iter_pending (rq_da_rq_iter iter))).
Proof.
  induction fuel as [|fuel IH]; intros iter iter' r start end_ Hs He Hc Hn;
    [discriminate|].
  cbn [castle_objects_rq_iter_has_next] in Hn.
  rewrite Hc in Hn. cbn [Z.eqb negb] in Hn. cbv iota in Hn.
  rewrite da_rq_iter_has_next_pending, negb_involutive in Hn.
  destruct (bool_decide_reflect (da_rq_iter_pending (rq_da_rq_iter iter) = []))
    as [Hnil|Hnn].
  { injection Hn as <- <-. split; [assumption|]. split; [assumption|]. left. auto. }
  destruct (da_rq_iter_pending (rq_da_rq_iter iter)) as [|e rest] eqn:Hp; [done|].
  destruct (da_rq_iter_next_pending _ _ _ Hp) as [Hfst Hsnd].
  destruct (da_rq_iter_next (rq_da_rq_iter iter)) as [[[k v] cvt] da] eqn:Hnx.
  simpl in Hfst, Hsnd. cbn [rq_set_da_rq_iter rq_start_okey rq_end_okey] in Hn.
  rewrite Hs, He in Hn.
  destruct (castle_object_btree_key_bounds_check k start end_)
    as [[bigger od]|] eqn:Hb; [|discriminate].
  destruct (Z.eqb_spec bigger 0) as [->|Hbig]; cbn [negb] in Hn; cbv iota in Hn.
  - (* in bounds: cached, the next iteration returns 1 *)
    destruct fuel as [|fuel]; [discriminate|].
    cbn in Hn. injection Hn as <- <-. cbn.
    split; [assumption|]. split; [assumption|]. right.
    split; [reflexivity|]. split; [reflexivity|].
    exists e. subst e. split; [reflexivity|]. split.
    + apply bounds_check_zero in Hb as Hod. subst od. exact Hb.
    + rewrite Hsnd. reflexivity.
  - destruct (castle_object_btree_key_skip kmalloc_ok k start (default 0 od) bigger)
      as [next_key|]; [|discriminate].
    apply IH with (start := start) (end_ := end_) in Hn; auto.
    cbn [rq_set_da_rq_iter rq_da_rq_iter] in Hn.
    destruct Hn as (Hs' & He' & Hcase). split; [assumption|]. split; [assumption|].
    destruct Hcase as [Hz|(Hr & Hc' & e' & Hemit & Hbounds & Hsuf)]; [left; exact Hz|].
    right. split; [assumption|]. split; [assumption|].
    exists e'. split; [assumption|]. split; [assumption|].
    apply suffix_cons_r. etrans; [exact Hsuf|].
    etrans; [apply da_rq_iter_skip_pending|]. rewrite Hsnd. reflexivity.
Qed.

Lemma has_next_fuel fuel : forall (iter : c_obj_rq_iter I),
  (length (da_rq_iter_pending (rq_da_rq_iter iter)) < fuel)%nat ->
  castle_objects_rq_iter_has_next kmalloc_ok fuel iter <> None.
Proof.
  induction fuel as [|fuel IH]; intros iter Hlen; [lia|].
  cbn [castle_objects_rq_iter_has_next].
  destruct (negb (rq_cached iter =? 0)); [discriminate|].
  rewrite da_rq_iter_has_next_pending, negb_involutive.
  destruct (bool_decide_reflect (da_rq_iter_pending (rq_da_rq_iter iter) = []))
    as [Hnil|Hnn]; [discriminate|].
  destruct (da_rq_iter_pending (rq_da_rq_iter iter)) as [|e rest] eqn:Hp; [done|].
  destruct (da_rq_iter_next_pending _ _ _ Hp) as [Hfst Hsnd].
  destruct (da_rq_iter_next (rq_da_rq_iter iter)) as [[[k v] cvt] da] eqn:Hnx.
  simpl in Hfst, Hsnd, Hlen. cbn [rq_set_da_rq_iter rq_start_okey rq_end_okey].
  destruct (rq_start_okey iter) as [start|]; [|discriminate].
  destruct (rq_end_okey iter) as [end_|]; [|discriminate].
  destruct (castle_object_btree_key_bounds_check k start end_)
    as [[bigger od]|]; [|discriminate].
  destruct (negb (bigger =? 0)).
  - destruct (castle_object_btree_key_skip kmalloc_ok k start (default 0 od) bigger)
      as [next_key|]; [|discriminate].
    apply IH. cbn [rq_set_da_rq_iter rq_da_rq_iter].
    pose proof (suffix_length _ _ (da_rq_iter_skip_pending da next_key)) as Hle.
    rewrite Hsnd in Hle. lia.
  - destruct fuel as [|fuel]; [lia|]. cbn. discriminate.
Qed.

Lemma rq_iter_run_spec fuel : forall (iter : c_obj_rq_iter I) start end_ out fin,
  rq_start_okey iter = Some start -> rq_end_okey iter = Some end_ ->
  rq_cached iter = 0 ->
  rq_iter_run kmalloc_ok fuel iter = (out, fin) ->
  exists l, out = emit <$> l /\
    l `sublist_of` da_rq_iter_pending (rq_da_rq_iter iter) /\
    Forall (fun e => castle_object_btree_key_bounds_check (entry_key e) start end_
                     = Done (0, None)) l.
Proof.
  induction fuel as [|fuel IH]; intros iter start end_ out fin Hs He Hc Hrun.
  { injection Hrun as <- <-. exists []. split; [reflexivity|].
    split; [apply sublist_nil_l|constructor]. }
  cbn [rq_iter_run] in Hrun.
  destruct (castle_objects_rq_iter_has_next kmalloc_ok (S fuel) iter)
    as [[[r iter']|]|] eqn:Hn.
  2,3: injection Hrun as <- <-; exists []; split; [reflexivity|];
       split; [apply sublist_nil_l|constructor].
  destruct (has_next_spec _ _ _ _ _ _ Hs He Hc Hn) as (Hs' & He' & Hcase).
  destruct Hcase as [(-> & _ & _)|(-> & Hc' & e & Hemit & Hbounds & Hsuf)].
  { injection Hrun as <- <-. exists []. split; [reflexivity|].
    split; [apply sublist_nil_l|constructor]. }
  cbn [Z.eqb] in Hrun. cbv iota in Hrun.
  unfold castle_objects_rq_iter_next in Hrun. rewrite Hc' in Hrun.
  cbn [Z.eqb] in Hrun. cbv iota in Hrun.
  destruct (rq_iter_run kmalloc_ok fuel _) as [out' fin'] eqn:Hrun'.
  injection Hrun as <- <-.
  apply IH with (start := start) (end_ := end_) in Hrun'; auto.
  destruct Hrun' as (l & -> & Hsub & Hall). cbn [rq_set_cached rq_da_rq_iter] in Hsub.
  exists (e :: l). split; [rewrite fmap_cons, Hemit; reflexivity|]. split.
  - etrans; [|apply suffix_is_sublist, Hsuf]. apply sublist_skip, Hsub.
  - constructor; assumption.
Qed.

(** C4: whatever the range iterator hands out (cached by
    [castle_objects_rq_iter_has_next], returned by
    [castle_objects_rq_iter_next]) has bounds-check value 0 against
    [start_okey, end_okey]; and when the entries the inner DA iterator still
    holds are in strictly ascending key order, so are the entries handed out. *)
Theorem rq_iter_emits_in_bounds_ascending fuel (iter : c_obj_rq_iter I)
    start end_ out fin :
  rq_start_okey iter = Some start -> rq_end_okey iter = Some end_ ->
  rq_cached iter = 0 ->
  rq_iter_run kmalloc_ok fuel iter = (out, fin) ->
  Forall (emitted_in_bounds start end_) out /\
  (StronglySorted entry_lt (da_rq_iter_pending (rq_da_rq_iter iter)) ->
   StronglySorted emitted_lt out).
Proof.
  intros Hs He Hc Hrun.
  destruct (rq_iter_run_spec _ _ _ _ _ _ Hs He Hc Hrun) as (l & -> & Hsub & Hall).
  split.
  - rewrite Forall_fmap. eapply Forall_impl; [exact Hall|].
    intros e Hb. exists (entry_key e). split; [reflexivity|exact Hb].
  - intros Hsorted. apply StronglySorted_fmap with (R1 := entry_lt).
    + intros x y Hxy. exists (entry_key x), (entry_key y). auto.
    + eapply StronglySorted_sublist; eauto.
Qed.

(** The loop always comes to an end: with more fuel than the inner iterator
    has entries, neither [has_next] nor the run stops for lack of fuel. *)
Lemma rq_iter_run_fuel fuel : forall (iter : c_obj_rq_iter I) start end_,
  rq_start_okey iter = Some start -> rq_end_okey iter = Some end_ ->
  rq_cached iter = 0 ->
  (length (da_rq_iter_pending (rq_da_rq_iter iter)) < fuel)%nat ->
  (rq_iter_run kmalloc_ok fuel iter).2 <> RqOutOfFuel.
Proof.
  induction fuel as [|fuel IH]; intros iter start end_ Hs He Hc Hlen; [lia|].
  cbn [rq_iter_run].
  pose proof (has_next_fuel (S fuel) iter Hlen) as Hf.
  destruct (castle_objects_rq_iter_has_next kmalloc_ok (S fuel) iter)
    as [[[r iter']|]|] eqn:Hn; [|discriminate|congruence].
  destruct (has_next_spec _ _ _ _ _ _ Hs He Hc Hn) as (Hs' & He' & Hcase).
  destruct Hcase as [(-> & _ & _)|(-> & Hc' & e & Hemit & Hbounds & Hsuf)];
    [discriminate|].
  cbn [Z.eqb]. cbv iota.
  unfold castle_objects_rq_iter_next. rewrite Hc'. cbn [Z.eqb]. cbv iota.
  destruct (rq_iter_run kmalloc_ok fuel _) as [out' fin'] eqn:Hrun'.
  cbn [snd].
  change fin' with ((out', fin').2). rewrite <- Hrun'.
  apply IH with (start := start) (end_ := end_); auto.
  cbn [rq_set_cached rq_da_rq_iter].
  apply suffix_length in Hsuf. simpl in Hsuf. lia.
Qed.

End RangeIteratorProps.

Lemma bkey_lt_compute k1 k2 :
  match castle_object_btree_key_compare k1 k2 with
  | Done c => c <? 0
  | BUG => false
  end = true ->
  bkey_lt k1 k2.
Proof.
  intros Hc. unfold bkey_lt.
  destruct (castle_object_btree_key_compare k1 k2) as [c|]; [|discriminate].
  exists c. split; [reflexivity|lia].
Qed.

Lemma sample_contents_sorted : StronglySorted entry_lt sample_contents.
Proof.
  unfold sample_contents.
  repeat match goal with
         | |- StronglySorted _ _ => constructor
         | |- Forall _ _ => constructor
         | |- entry_lt _ _ => apply bkey_lt_compute; reflexivity
         end.
Qed.

Lemma sample_rq_run :
  rq_iter_run (H := list_da_rq_iter sample_contents) kmalloc_always 10 sample_rq_iter
  = (emit <$> [(sample_bkey2d x02 x05, 1, sample_cvt);
               (sample_bkey2d x03 x04, 1, sample_cvt);
               (sample_bkey2d x03 x05, 1, sample_cvt)], RqDrained).
Proof. vm_compute. reflexivity. Qed.

Lemma rq_iter_emits_in_bounds_ascending_witness :
  let out := emit <$> [(sample_bkey2d x02 x05, 1, sample_cvt);
                       (sample_bkey2d x03 x04, 1, sample_cvt);
                       (sample_bkey2d x03 x05, 1, sample_cvt)] in
  rq_iter_run (H := list_da_rq_iter sample_contents) kmalloc_always 10 sample_rq_iter
    = (out, RqDrained) /\
  Forall (emitted_in_bounds (sample_okey2d x02 x04) (sample_okey2d x03 x06)) out /\
  StronglySorted emitted_lt out.
Proof.
  intros out. split; [exact sample_rq_run|].
  destruct (rq_iter_emits_in_bounds_ascending
              (H := list_da_rq_iter sample_contents) kmalloc_always 10
              sample_rq_iter (sample_okey2d x02 x04) (sample_okey2d x03 x06)
              out RqDrained eq_refl eq_refl eq_refl sample_rq_run) as [Hb Hs].
  split; [exact Hb|exact (Hs sample_contents_sorted)].
Defined.

(** ** The transfer engine: cancellation and pins *)

Section TransferProps.

Variable castle_slaves : list castle_slave.
Variable CASTLE_SLAVE_TARGET : Z.
Variable INVAL_DISK_BLK : c_disk_blk.
Variable castle_freespace_block_get : Z -> c_disk_blk.
Variable castle_freespace_blks_for_version_get : castle_slave -> Z -> Z.
Variable castle_freespace_slave_block_get : castle_slave -> Z -> c_disk_blk.

Local Abbreviation move_block :=
  (castle_move_block castle_slaves CASTLE_SLAVE_TARGET INVAL_DISK_BLK
     castle_freespace_block_get castle_freespace_blks_for_version_get
     castle_freespace_slave_block_get).
Local Abbreviation get_destination :=
  (castle_transfer_get_destination INVAL_DISK_BLK
     castle_freespace_block_get castle_freespace_blks_for_version_get
     castle_freespace_slave_block_get).
Local Abbreviation on_correct_disk :=
  (castle_transfer_is_block_on_correct_disk castle_slaves CASTLE_SLAVE_TARGET).

(** C7 (amended): when the destination allocator returns the invalid block,
    [castle_move_block] cancels the tree iterator with [-ENOMEM], once, and
    submits nothing; when the read of the source fails,
    [castle_do_transfer_callback] cancels it with [-EIO]. *)
Theorem move_block_cancel_codes (st : transfer_state) (cdb dest : c_disk_blk) :
  on_correct_disk (ts_transfer st) cdb = Done false ->
  get_destination (ts_transfer st) = Done dest ->
  DISK_BLK_INVAL INVAL_DISK_BLK dest = true ->
  (exists st', move_block st cdb = Done (st', None) /\
     ts_events st' = ts_events st ++ [EvIterCancel (- ENOMEM)]) /\
  (forall st1 src dest1, c2p_priv (cache_page (ts_cache st1) src) = PrivPage dest1 ->
     exists st', castle_do_transfer_callback st1 src false = Done st' /\
       ts_events st' = ts_events st1 ++ [EvIterCancel (- EIO)]).
Proof.
  intros Hdisk Hdest Hinv. split.
  - unfold castle_move_block. rewrite Hdisk. cbn [obind].
    cbn [lock_c2p castle_cache_page_get update_page ts_transfer].
    rewrite Hdest. cbn [obind]. rewrite Hinv.
    eexists. split; [reflexivity|]. reflexivity.
  - intros st1 src dest1 Hpriv. unfold castle_do_transfer_callback.
    rewrite Hpriv. cbn [negb]. eexists. split; reflexivity.
Qed.

End TransferProps.

Lemma move_block_cancel_codes_witness :
  (exists st', castle_move_block sample_slaves 1 sample_inval freespace_none
                 freespace_blks_none freespace_slave_none
                 sample_transfer_state sample_src = Done (st', None) /\
     ts_events st' = ts_events sample_transfer_state ++ [EvIterCancel (- ENOMEM)]) /\
  (forall st1 src dest1, c2p_priv (cache_page (ts_cache st1) src) = PrivPage dest1 ->
     exists st', castle_do_transfer_callback st1 src false = Done st' /\
       ts_events st' = ts_events st1 ++ [EvIterCancel (- EIO)]).
Proof.
  apply (move_block_cancel_codes sample_slaves 1 sample_inval freespace_none
           freespace_blks_none freespace_slave_none
           sample_transfer_state sample_src sample_inval eq_refl eq_refl eq_refl).
Defined.

(** C7 as stated fails: with no free block the iterator is cancelled with
    [-ENOMEM], the error number of the NoMemory kind, not with one of the
    NoSpace kind. *)
Lemma move_block_no_space_counterexample :
  exists st',
    castle_move_block sample_slaves 1 sample_inval freespace_none
      freespace_blks_none freespace_slave_none
      sample_transfer_state sample_src = Done (st', None) /\
    cancel_errors (ts_events st') = [- ENOMEM] /\
    errno_kind <$> cancel_errors (ts_events st') = [Some NoMemory] /\
    ~ (exists err, err ∈ cancel_errors (ts_events st') /\
                   errno_kind err = Some NoSpace).
Proof.
  eexists. split; [reflexivity|]. split; [reflexivity|]. split; [reflexivity|].
  intros (err & Hin & Hk). cbn in Hin. apply list_elem_of_singleton in Hin.
  subst err. discriminate.
Qed.


(** ** Pins of a block move *)

Lemma cache_page_update_eq st cdb f :
  cache_page (ts_cache (update_page st cdb f)) cdb = f (cache_page (ts_cache st) cdb).
Proof. unfold update_page, cache_page. cbn. rewrite lookup_insert_eq. reflexivity. Qed.

Lemma cache_page_update_ne st cdb cdb' f :
  cdb_key cdb <> cdb_key cdb' ->
  cache_page (ts_cache (update_page st cdb f)) cdb' = cache_page (ts_cache st) cdb'.
Proof.
  intros Hne. unfold update_page, cache_page. cbn.
  rewrite lookup_insert_ne by exact Hne. reflexivity.
Qed.

Lemma ts_transfer_update_page st cdb f :
  ts_transfer (update_page st cdb f) = ts_transfer st.
Proof. reflexivity. Qed.

(** Reads a field of a page through the updates made to the cache. *)
Ltac page_simpl :=
  unfold castle_cache_page_get, put_c2p, lock_c2p, unlock_c2p, dirty_c2p,
    set_c2p_private, set_c2p_buffer;
  repeat (cbn [ts_cache ts_transfer ts_events emit_event set_transfer
               transfer_phase_add transfer_progress_inc
               castle_ftree_iter_cancel castle_ftree_iter_continue];
          first [ rewrite ts_transfer_update_page
                | rewrite cache_page_update_eq
                | rewrite cache_page_update_ne
                    by (assumption || (apply not_eq_sym; assumption)) ]);
  cbn [ts_cache ts_transfer ts_events emit_event set_transfer
       transfer_phase_add transfer_progress_inc
       castle_ftree_iter_cancel castle_ftree_iter_continue
       c2p_cdb c2p_count c2p_locked c2p_uptodate_bit c2p_dirty_bit c2p_buffer
       c2p_priv c2p_with_count c2p_with_locked c2p_with_dirty c2p_with_buffer
       c2p_with_priv].

Lemma callback_read_error_cache st src st' :
  castle_do_transfer_callback st src false = Done st' ->
  ts_cache st' = ts_cache st /\ ts_transfer st' = ts_transfer st.
Proof.
  unfold castle_do_transfer_callback.
  destruct (c2p_priv (cache_page (ts_cache st) src)); try discriminate.
  cbn. intros [= <-]. split; reflexivity.
Qed.

Section PinProps.

Variable castle_slaves : list castle_slave.
Variable CASTLE_SLAVE_TARGET : Z.
Variable INVAL_DISK_BLK : c_disk_blk.
Variable castle_freespace_block_get : Z -> c_disk_blk.
Variable castle_freespace_blks_for_version_get : castle_slave -> Z -> Z.
Variable castle_freespace_slave_block_get : castle_slave -> Z -> c_disk_blk.

Local Abbreviation move_block :=
  (castle_move_block castle_slaves CASTLE_SLAVE_TARGET INVAL_DISK_BLK
     castle_freespace_block_get castle_freespace_blks_for_version_get
     castle_freespace_slave_block_get).
Local Abbreviation move :=
  (block_move castle_slaves CASTLE_SLAVE_TARGET INVAL_DISK_BLK
     castle_freespace_block_get castle_freespace_blks_for_version_get
     castle_freespace_slave_block_get).
Local Abbreviation get_destination :=
  (castle_transfer_get_destination INVAL_DISK_BLK
     castle_freespace_block_get castle_freespace_blks_for_version_get
     castle_freespace_slave_block_get).
Local Abbreviation on_correct_disk :=
  (castle_transfer_is_block_on_correct_disk castle_slaves CASTLE_SLAVE_TARGET).

Variables (st : transfer_state) (src dest : c_disk_blk).
Hypothesis Hdisk : on_correct_disk (ts_transfer st) src = Done false.
Hypothesis Hdest : get_destination (ts_transfer st) = Done dest.
Hypothesis Hvalid : DISK_BLK_INVAL INVAL_DISK_BLK dest = false.
Hypothesis Hne : cdb_key src <> cdb_key dest.

(** The state in which [castle_move_block] leaves the two buffers before it
    looks at the source: both referenced, locked and linked. *)
Definition pinned_state : transfer_state :=
  transfer_phase_add
    (set_c2p_private
       (set_c2p_private
          (lock_c2p (castle_cache_page_get
                       (lock_c2p (castle_cache_page_get st src) src) dest) dest)
          dest (PrivTransfer (tr_id (ts_transfer st))))
       src (PrivPage dest)) 1.

Lemma pinned_state_pages :
  page_pinned pinned_state src (c2p_count (cache_page (ts_cache st) src) + 1) /\
  page_pinned pinned_state dest (c2p_count (cache_page (ts_cache st) dest) + 1) /\
  c2p_priv (cache_page (ts_cache pinned_state) src) = PrivPage dest /\
  c2p_uptodate pinned_state src = c2p_uptodate st src.
Proof.
  unfold page_pinned, pinned_state, c2p_uptodate.
  repeat split; page_simpl; reflexivity.
Qed.

Lemma move_block_pins :
  move_block st src =
    if c2p_uptodate st src
    then do st' <- castle_do_transfer_callback pinned_state src true; Done (st', None)
    else Done (emit_event pinned_state (EvSubmitRead src), Some src).
Proof.
  destruct pinned_state_pages as (_ & _ & _ & Hup).
  unfold castle_move_block. rewrite Hdisk. cbn [obind].
  change (ts_transfer (lock_c2p (castle_cache_page_get st src) src))
    with (ts_transfer st).
  rewrite Hdest. cbn [obind]. rewrite Hvalid.
  change (ts_transfer (lock_c2p (castle_cache_page_get
            (lock_c2p (castle_cache_page_get st src) src) dest) dest))
    with (ts_transfer st).
  fold pinned_state. rewrite Hup.
  destruct (c2p_uptodate st src); reflexivity.
Qed.

(** The read of the source fails: the callback returns after the cancel, and
    both buffers stay locked and referenced. *)
Lemma block_move_read_error_keeps_pins :
  c2p_uptodate st src = false ->
  exists st', move st src false = Done st' /\
    page_pinned st' src (c2p_count (cache_page (ts_cache st) src) + 1) /\
    page_pinned st' dest (c2p_count (cache_page (ts_cache st) dest) + 1) /\
    cancel_errors (ts_events st') = cancel_errors (ts_events st) ++ [- EIO].
Proof.
  intros Hup. destruct pinned_state_pages as (Hs & Hd & Hpriv & _).
  unfold block_move. rewrite move_block_pins, Hup. cbn [obind].
  unfold castle_do_transfer_callback. cbn [emit_event ts_cache]. rewrite Hpriv.
  cbn [negb]. eexists. split; [reflexivity|].
  split; [exact Hs|]. split; [exact Hd|].
  unfold cancel_errors. cbn [castle_ftree_iter_cancel emit_event ts_events].
  unfold pinned_state. page_simpl. rewrite !omap_app. cbn. rewrite app_nil_r.
  reflexivity.
Qed.

(** The source is in the cache already, or its read succeeds: both buffers
    end unlocked, with the reference counts they had before the move. *)
Lemma block_move_success_releases read_uptodate :
  read_uptodate = true \/ c2p_uptodate st src = true ->
  exists st', move st src read_uptodate = Done st' /\
    page_released st' src (c2p_count (cache_page (ts_cache st) src)) /\
    page_released st' dest (c2p_count (cache_page (ts_cache st) dest)).
Proof.
  intros Hup. destruct pinned_state_pages as (_ & _ & Hpriv & _).
  assert (Hcb : forall sta, ts_cache sta = ts_cache pinned_state ->
    exists st', castle_do_transfer_callback sta src true = Done st' /\
      page_released st' src (c2p_count (cache_page (ts_cache st) src)) /\
      page_released st' dest (c2p_count (cache_page (ts_cache st) dest))).
  { intros sta Hca. unfold castle_do_transfer_callback. rewrite Hca, Hpriv.
    cbn [negb].
    match goal with |- context [if ?c then _ else _] => destruct c end;
      (eexists; split; [reflexivity|]);
      unfold page_released; page_simpl; rewrite !Hca; unfold pinned_state;
      page_simpl; (split; [split; [reflexivity|lia]|split; [reflexivity|lia]]). }
  unfold block_move. rewrite move_block_pins.
  destruct (c2p_uptodate st src) eqn:Hu.
  - destruct (Hcb pinned_state eq_refl) as (st' & Hst' & Hr).
    rewrite Hst'. cbn [obind]. eauto.
  - destruct Hup as [-> | Hup]; [|discriminate]. cbn [obind].
    apply Hcb. reflexivity.
Qed.

End PinProps.

(** C8 at the failing input: the block (1, 7) is to move to (2, 5) and the
    read of the source completes not up to date. The callback cancels the
    iterator and returns: source and destination stay locked, each with the
    reference the move took, and the phase count of the node stays raised. *)
Theorem block_move_read_error_leaks_pins :
  exists st',
    block_move sample_slaves 1 sample_inval freespace_some
      freespace_blks_none freespace_slave_none
      sample_transfer_state sample_src false = Done st' /\
    page_pinned st' sample_src 1 /\ page_pinned st' sample_dest 1 /\
    ts_events st' = [EvSubmitRead sample_src; EvIterCancel (- EIO)] /\
    tr_phase (ts_transfer st') = tr_phase (ts_transfer sample_transfer_state) + 1.
Proof.
  eexists. split; [vm_compute; reflexivity|].
  repeat split; vm_compute; reflexivity.
Qed.

(** The same move when the read succeeds: both buffers are unlocked and
    released. *)
Lemma block_move_read_ok_releases_pins :
  exists st',
    block_move sample_slaves 1 sample_inval freespace_some
      freespace_blks_none freespace_slave_none
      sample_transfer_state sample_src true = Done st' /\
    page_released st' sample_src 0 /\ page_released st' sample_dest 0 /\
    ts_events st' = [EvSubmitRead sample_src; EvBlockFree sample_src].
Proof.
  eexists. split; [vm_compute; reflexivity|].
  repeat split; vm_compute; reflexivity.
Qed.

(** ** Mount: the FS superblocks of the slaves *)

Lemma valid_fs_superblocks_cons cs slaves :
  valid_fs_superblocks (cs :: slaves) =
    if fs_superblock_ok cs
    then (castle_fs_superblock_read cs).2 :: valid_fs_superblocks slaves
    else valid_fs_superblocks slaves.
Proof.
  unfold valid_fs_superblocks. rewrite filter_cons.
  destruct (fs_superblock_ok cs); reflexivity.
Qed.

(** The loop once a superblock is known: it goes through exactly when every
    valid superblock equals the known one; slaves whose superblock does not
    read or validate are passed over. *)
Lemma fs_init_slaves_known slaves s :
  fs_init_slaves slaves 0 s =
    (if bool_decide (Forall (eq s) (valid_fs_superblocks slaves))
     then None else Some (- EINVAL), 0, s).
Proof.
  induction slaves as [|cs slaves IH]; [reflexivity|].
  cbn [fs_init_slaves]. rewrite valid_fs_superblocks_cons.
  unfold fs_superblock_ok.
  destruct (castle_fs_superblock_read cs) as [ret sb]. cbn [fst snd].
  destruct (Z.eqb_spec ret 0) as [_|_]; cbn [negb]; [|exact IH].
  cbn [Z.eqb negb]. unfold memcmp_fs_superblock.
  destruct (bool_decide_reflect (s = sb)) as [<-|Hne]; cbn [Z.eqb negb].
  - rewrite IH.
    rewrite (bool_decide_ext (Forall (eq s) (s :: valid_fs_superblocks slaves))
               (Forall (eq s) (valid_fs_superblocks slaves)));
      [reflexivity|].
    rewrite Forall_cons. tauto.
  - rewrite bool_decide_eq_false_2; [reflexivity|].
    rewrite Forall_cons. tauto.
Qed.

Lemma fs_init_slaves_first slaves first s :
  first <> 0 ->
  fs_init_slaves slaves first s =
    match valid_fs_superblocks slaves with
    | [] => (None, first, s)
    | s0 :: rest =>
        (if bool_decide (Forall (eq s0) rest) then None else Some (- EINVAL), 0, s0)
    end.
Proof.
  intros Hfirst. induction slaves as [|cs slaves IH]; [reflexivity|].
  cbn [fs_init_slaves]. rewrite valid_fs_superblocks_cons.
  unfold fs_superblock_ok.
  destruct (castle_fs_superblock_read cs) as [ret sb]. cbn [fst snd].
  destruct (Z.eqb_spec ret 0) as [_|_]; cbn [negb]; [|exact IH].
  destruct (Z.eqb_spec first 0) as [?|_]; [contradiction|]. cbn [negb].
  apply fs_init_slaves_known.
Qed.

Section MountProps.

Variable castle_slaves : list castle_slave.
Variable kmalloc_ok : Z -> bool.
Variable sizeof_castle_vtree_node : Z.
Variable VTREE_NODE_SLOTS : Z.

Local Abbreviation fs_init :=
  (castle_fs_init castle_slaves kmalloc_ok sizeof_castle_vtree_node VTREE_NODE_SLOTS).

(** C9 (amended): [castle_fs_init], on a file system not yet inited, fails
    with [-EINVAL] whenever two slaves whose FS superblocks read and pass the
    magic validation carry superblocks that differ; a slave whose FS
    superblock does not read or validate takes no part in the comparison;
    and it succeeds only when at least one slave has a valid FS superblock
    and all valid ones are identical, the one it then keeps. *)
Theorem castle_fs_init_superblocks (fuel : nat) (st : castle_main_state) :
  castle_fs_inited st = 0 ->
  ((exists s1 s2, s1 ∈ valid_fs_superblocks castle_slaves /\
                  s2 ∈ valid_fs_superblocks castle_slaves /\ s1 <> s2) ->
   exists st', fs_init fuel st = Some (Done (- EINVAL, st'))) /\
  (forall st', fs_init fuel st = Some (Done (0, st')) ->
     valid_fs_superblocks castle_slaves <> [] /\
     Forall (eq (castle_fs_super st')) (valid_fs_superblocks castle_slaves) /\
     castle_fs_inited st' = 1).
Proof.
  intros Hinit. unfold castle_fs_init. rewrite Hinit. cbn [Z.eqb negb].
  rewrite fs_init_slaves_first by lia.
  split.
  - intros (s1 & s2 & H1 & H2 & Hne).
    destruct (bool_decide_reflect (castle_slaves = [])) as [Hnil|_].
    { rewrite Hnil in H1. cbn in H1. apply elem_of_nil in H1. contradiction. }
    destruct (valid_fs_superblocks castle_slaves) as [|s0 rest];
      [apply elem_of_nil in H1; contradiction|].
    rewrite bool_decide_eq_false_2; [eexists; reflexivity|].
    intros Hall. rewrite Forall_forall in Hall.
    assert (Heq : forall s, s ∈ s0 :: rest -> s = s0).
    { intros s Hs. apply elem_of_cons in Hs as [->|Hs]; [reflexivity|].
      symmetry. apply Hall, Hs. }
    apply Hne. rewrite (Heq s1 H1), (Heq s2 H2). reflexivity.
  - intros st'. destruct (bool_decide (castle_slaves = [])); [discriminate|].
    destruct (valid_fs_superblocks castle_slaves) as [|s0 rest]; [discriminate|].
    destruct (bool_decide_reflect (Forall (eq s0) rest)) as [Hall|_];
      [|discriminate].
    cbn [Z.eqb negb].
    destruct (castle_version_tree_read _ _ _ _ _ _) as [[[ret v_node]|]|];
      try discriminate.
    destruct (Z.eqb_spec ret 0); cbn [negb]; [|discriminate].
    intros [= <-]. cbn. split; [discriminate|]. split; [|reflexivity].
    constructor; [reflexivity|exact Hall].
Qed.

End MountProps.

Lemma castle_fs_init_superblocks_witness :
  (exists st', castle_fs_init sample_mismatch_slaves kmalloc_always 64 8 1
                 sample_main_state = Some (Done (- EINVAL, st'))) /\
  (forall st', castle_fs_init sample_mismatch_slaves kmalloc_always 64 8 1
                 sample_main_state = Some (Done (0, st')) ->
     valid_fs_superblocks sample_mismatch_slaves <> [] /\
     Forall (eq (castle_fs_super st')) (valid_fs_superblocks sample_mismatch_slaves) /\
     castle_fs_inited st' = 1).
Proof.
  destruct (castle_fs_init_superblocks sample_mismatch_slaves kmalloc_always 64 8
              1%nat sample_main_state eq_refl) as [Hfail Hok].
  split; [|exact Hok].
  apply Hfail. exists sample_fs_sb, sample_other_fs_sb.
  split; [|split].
  - apply list_elem_of_here.
  - apply list_elem_of_further, list_elem_of_here.
  - discriminate.
Defined.

(** C9 as stated fails: the second slave's FS superblock has a wrong magic, so
    the superblocks read are not equal across the slave list, and the mount
    succeeds all the same: the loop passes over that slave. *)
Lemma castle_fs_init_invalid_slave_counterexample :
  castle_fs_superblock_validate sample_bad_fs_sb <> 0 /\
  map (fun cs => (bd_fs_sb (cs_bdev cs)).2) sample_mount_slaves
    = [sample_fs_sb; sample_bad_fs_sb] /\
  sample_fs_sb <> sample_bad_fs_sb /\
  castle_fs_init sample_mount_slaves kmalloc_always 64 8 1 sample_main_state
    = Some (Done (0, mk_main_state 1 sample_fs_sb)).
Proof.
  split; [discriminate|]. split; [reflexivity|]. split; [discriminate|].
  vm_compute. reflexivity.
Qed.

(** ** Streaming of out-of-line values: the write windows *)

Section WriteWindows.

Variable C_BLK_SIZE : Z.
Hypothesis blk_pos : 0 < C_BLK_SIZE.
Hypothesis blk_small : OBJ_IO_MAX_BUFFER_SIZE * C_BLK_SIZE < 2 ^ 31.

(** The buffer for [data_length] bytes still to come has
    min(10, ceil(data_length / C_BLK_SIZE)) blocks. *)
Lemma write_buffer_nr_blocks_spec data_length :
  0 < data_length < 2 ^ 32 ->
  write_buffer_nr_blocks C_BLK_SIZE data_length
  = Z.min OBJ_IO_MAX_BUFFER_SIZE ((data_length - 1) / C_BLK_SIZE + 1).
Proof.
  intros Hlen. unfold write_buffer_nr_blocks, OBJ_IO_MAX_BUFFER_SIZE in *.
  destruct (Z.gtb_spec data_length (10 * C_BLK_SIZE)) as [Hgt|Hle].
  - assert (H9 : (10 * C_BLK_SIZE - 1) / C_BLK_SIZE = 9).
    { symmetry. apply (Z.div_unique _ _ 9 (C_BLK_SIZE - 1)); lia. }
    rewrite (wrap32_small (10 * C_BLK_SIZE - 1)) by lia. rewrite H9.
    rewrite wrap32_small by lia. rewrite wrap_int32_small by lia.
    assert (10 <= (data_length - 1) / C_BLK_SIZE).
    { apply Z.div_le_lower_bound; lia. }
    lia.
  - assert (Hq : 0 <= (data_length - 1) / C_BLK_SIZE <= 9).
    { split; [apply Z.div_pos; lia|].
      assert ((data_length - 1) / C_BLK_SIZE < 10); [|lia].
      apply Z.div_lt_upper_bound; lia. }
    rewrite (wrap32_small (data_length - 1)) by lia.
    rewrite wrap32_small by lia. rewrite wrap_int32_small by lia. lia.
Qed.

(** [castle_object_write_next_cdb] moves the write head on by the block count
    of the buffer to come: after a full buffer of ten blocks, the next one
    follows it immediately exactly when more than nine blocks remain. *)
Lemma write_next_cdb_contiguous_iff old_cdb data_length :
  0 < data_length < 2 ^ 32 ->
  0 <= block old_cdb -> block old_cdb + OBJ_IO_MAX_BUFFER_SIZE < 2 ^ 32 ->
  block (castle_object_write_next_cdb C_BLK_SIZE old_cdb data_length)
    = block old_cdb + OBJ_IO_MAX_BUFFER_SIZE
  <-> 9 * C_BLK_SIZE < data_length.
Proof.
  intros Hlen Hb0 Hb. unfold castle_object_write_next_cdb. cbn [block].
  rewrite write_buffer_nr_blocks_spec by exact Hlen.
  unfold OBJ_IO_MAX_BUFFER_SIZE in *.
  assert (Hq : 0 <= (data_length - 1) / C_BLK_SIZE) by (apply Z.div_pos; lia).
  rewrite wrap32_small by lia.
  split.
  - intros Heq. assert (9 <= (data_length - 1) / C_BLK_SIZE) as H9 by lia.
    destruct (Z.le_gt_cases data_length (9 * C_BLK_SIZE)) as [Hle|]; [|lia].
    assert ((data_length - 1) / C_BLK_SIZE < 9); [|lia].
    apply Z.div_lt_upper_bound; lia.
  - intros Hgt. assert (9 <= (data_length - 1) / C_BLK_SIZE).
    { apply Z.div_le_lower_bound; lia. }
    lia.
Qed.

End WriteWindows.

(** C2 at the failing input: a value of 15 blocks written to the blocks from
    100 on. The first buffer covers blocks 100 to 109; when it is full, 5
    blocks remain and [castle_object_write_next_cdb] puts the second buffer at
    block 105, inside the first one, not at block 110. A get of the value
    reads blocks 100 to 114 and does not return the bytes written. *)
Theorem replace_15_blocks_windows_overlap :
  exists frames,
    sample_replace_then_get (sample_payload 120)
      = Some ([(mk_cdb 1 100, 10); (mk_cdb 1 105, 5)], frames) /\
    length frames = 2%nat /\
    frames_bytes frames <> sample_payload 120.
Proof.
  eexists. split; [vm_compute; reflexivity|].
  split; [reflexivity|].
  apply (bool_decide_eq_false_1 (frames_bytes _ = sample_payload 120)).
  vm_compute. reflexivity.
Qed.

(** The same with a value of 70 blocks: seven buffers of ten blocks, each
    following the one before, and a get returns the bytes written, in seven
    frames. *)
Lemma replace_70_blocks_seven_windows :
  exists frames,
    sample_replace_then_get (sample_payload 560)
      = Some ([(mk_cdb 1 100, 10); (mk_cdb 1 110, 10); (mk_cdb 1 120, 10);
               (mk_cdb 1 130, 10); (mk_cdb 1 140, 10); (mk_cdb 1 150, 10);
               (mk_cdb 1 160, 10)], frames) /\
    length frames = 7%nat /\
    frames_bytes frames = sample_payload 560.
Proof.
  eexists. split; [vm_compute; reflexivity|].
  split; vm_compute; reflexivity.
Qed.

(** ** The version registry: order numbers, quota, deletion *)

(** *** Numbering the tree *)

(** Induction on a tree and on the forests of its children at once. *)
Lemma vtree_forest_ind (P : vtree -> Prop) (Q : list vtree -> Prop) :
  (forall x cs, Q cs -> P (VNode x cs)) ->
  Q [] ->
  (forall c cs, P c -> Q cs -> Q (c :: cs)) ->
  (forall t, P t) /\ (forall cs, Q cs).
Proof.
  intros Hnode Hnil Hcons.
  assert (HP : forall t, P t).
  { fix IH 1. intros [x cs]. apply Hnode.
    induction cs as [|c cs IHcs]; [exact Hnil|].
    apply Hcons; [apply IH|exact IHcs]. }
  split; [exact HP|].
  induction cs as [|c cs IHcs]; [exact Hnil|]. apply Hcons; [apply HP|exact IHcs].
Qed.

Lemma tree_forest_size_pos :
  (forall t, 0 < tree_size t) /\ (forall cs, 0 <= forest_size cs).
Proof.
  apply vtree_forest_ind.
  - intros x cs IH. simpl. fold (forest_size cs). lia.
  - simpl. lia.
  - intros c cs IHc IHcs. simpl. fold (forest_size cs). lia.
Qed.

Lemma tree_size_pos t : 0 < tree_size t.
Proof. apply tree_forest_size_pos. Qed.

Lemma forest_size_nonneg cs : 0 <= forest_size cs.
Proof. apply tree_forest_size_pos. Qed.

Lemma tree_size_node x cs : tree_size (VNode x cs) = 1 + forest_size cs.
Proof. reflexivity. Qed.

Lemma forest_size_cons c cs : forest_size (c :: cs) = tree_size c + forest_size cs.
Proof. reflexivity. Qed.

Lemma forest_ids_cons c cs : forest_ids (c :: cs) = tree_ids c ++ forest_ids cs.
Proof. reflexivity. Qed.

Lemma tree_ids_node x cs : tree_ids (VNode x cs) = x :: forest_ids cs.
Proof. reflexivity. Qed.

Lemma tree_root_in_ids t : tree_root t ∈ tree_ids t.
Proof. destruct t. simpl. apply list_elem_of_here. Qed.


Lemma same_links_refl h : same_links h h.
Proof. intros x. reflexivity. Qed.

Lemma same_links_trans h1 h2 h3 :
  same_links h1 h2 -> same_links h2 h3 -> same_links h1 h3.
Proof. intros H12 H23 x. rewrite H23. apply H12. Qed.

Lemma same_links_alter_orders h x (f : castle_version -> castle_version) :
  (forall v, v_links (f v) = v_links v) -> same_links h (alter f x h).
Proof.
  intros Hf y. destruct (decide (x = y)) as [->|Hne].
  - rewrite lookup_alter_eq. destruct (h !! y); simpl; [rewrite Hf|]; reflexivity.
  - rewrite lookup_alter_ne by exact Hne. reflexivity.
Qed.

Lemma node_linked_same_links h h' x parent next fc :
  same_links h h' -> node_linked h x parent next fc -> node_linked h' x parent next fc.
Proof.
  intros Hs (xv & Hx & Hv & Hi & Hp & Hn & Hf).
  specialize (Hs x). rewrite Hx in Hs. simpl in Hs.
  destruct (h' !! x) as [xv'|] eqn:Hx'; [|discriminate].
  simpl in Hs. injection Hs as Hver Hpar Hfc Hnx Hfl.
  exists xv'. unfold v_inited in *. rewrite Hfl.
  repeat split; congruence.
Qed.

Lemma repr_same_links h h' :
  same_links h h' ->
  (forall t parent next, repr_tree h parent next t -> repr_tree h' parent next t) /\
  (forall cs parent, repr_forest h parent cs -> repr_forest h' parent cs).
Proof.
  intros Hs. apply vtree_forest_ind.
  - intros x cs IH parent next Hr. inversion Hr; subst.
    constructor; [eapply node_linked_same_links; eauto|auto].
  - intros parent _. constructor.
  - intros c cs IHc IHcs parent Hr. inversion Hr; subst.
    constructor; auto.
Qed.

(** A hash that agrees with another on the nodes of a tree holds it too. *)
Lemma repr_frame h h' :
  (forall t parent next, (forall x, x ∈ tree_ids t -> h' !! x = h !! x) ->
     repr_tree h parent next t -> repr_tree h' parent next t) /\
  (forall cs parent, (forall x, x ∈ forest_ids cs -> h' !! x = h !! x) ->
     repr_forest h parent cs -> repr_forest h' parent cs).
Proof.
  apply vtree_forest_ind.
  - intros x cs IH parent next Hag Hr. inversion Hr as [? ? ? ? Hn Hf]; subst.
    constructor.
    + destruct Hn as (xv & Hx & Hrest). exists xv.
      rewrite Hag by apply list_elem_of_here. auto.
    + apply IH; [|exact Hf]. intros y Hy. apply Hag. rewrite tree_ids_node.
      apply list_elem_of_further, Hy.
  - intros parent _ _. constructor.
  - intros c cs IHc IHcs parent Hag Hr. inversion Hr; subst.
    constructor.
    + apply IHc; [|assumption]. intros y Hy. apply Hag.
      rewrite forest_ids_cons. apply elem_of_app. auto.
    + apply IHcs; [|assumption]. intros y Hy. apply Hag.
      rewrite forest_ids_cons. apply elem_of_app. auto.
Qed.


Lemma order_steps_trans n m s1 s2 s3 :
  order_steps n s1 s2 -> order_steps m s2 s3 -> order_steps (n + m) s1 s3.
Proof.
  induction 1 as [|n h x cf id s1 s2 Hstep Hrest IH]; intros H23; [exact H23|].
  simpl. econstructor; [exact Hstep|]. apply IH, H23.
Qed.

Lemma order_steps_one h x cf id s :
  versions_order_step h x cf id = Done s -> order_steps 1 (h, Some x, cf, id) s.
Proof. intros Hs. econstructor; [exact Hs|constructor]. Qed.

Lemma order_loop_steps n : forall h v cf id h' v' cf' id' fuel,
  order_steps n (h, v, cf, id) (h', v', cf', id') ->
  versions_order_loop (n + fuel) h v cf id = versions_order_loop fuel h' v' cf' id'.
Proof.
  induction n as [|n IH]; intros h v cf id h' v' cf' id' fuel Hs.
  - inversion Hs; subst. reflexivity.
  - inversion Hs as [|? ? ? ? ? [[[h1 v1] cf1] id1] ? Hstep Hrest]; subst.
    simpl. rewrite Hstep. apply IH, Hrest.
Qed.


Lemma order_step_down_leaf h x xv id parent next :
  h !! x = Some xv -> v_first_child xv = None -> v_next_sybling xv = next ->
  v_parent_u xv = ParentPtr parent -> 0 <= id -> id + 1 < 2 ^ 32 ->
  versions_order_step h x true id
  = Done (alter (set_r_order (id + 1)) x (alter (set_o_order (id + 1)) x h),
          (order_cont next parent).1, (order_cont next parent).2, id + 1).
Proof.
  intros Hx Hfc Hnx Hpar Hid Hb. unfold versions_order_step.
  rewrite Hx, Hfc, Hnx, Hpar. rewrite wrap32_small by lia. cbn [is_null].
  destruct next; reflexivity.
Qed.

Lemma order_step_down_inner h x xv id c :
  h !! x = Some xv -> v_first_child xv = Some c -> 0 <= id -> id + 1 < 2 ^ 32 ->
  versions_order_step h x true id
  = Done (alter (set_o_order (id + 1)) x h, Some c, true, id + 1).
Proof.
  intros Hx Hfc Hid Hb. unfold versions_order_step.
  rewrite Hx, Hfc. rewrite wrap32_small by lia. reflexivity.
Qed.

Lemma order_step_up h x xv id parent next :
  h !! x = Some xv -> v_next_sybling xv = next -> v_parent_u xv = ParentPtr parent ->
  versions_order_step h x false id
  = Done (alter (set_r_order id) x h,
          (order_cont next parent).1, (order_cont next parent).2, id).
Proof.
  intros Hx Hnx Hpar. unfold versions_order_step.
  rewrite Hx, Hnx, Hpar. cbn [is_null]. destruct next; reflexivity.
Qed.



Lemma child_nested_frame h h' y ids ids' :
  (forall z, z ∈ ids -> h' !! z = h !! z) -> y ∈ ids -> ids ⊆ ids' ->
  child_nested h y ids -> child_nested h' y ids'.
Proof.
  intros Hag Hy Hsub (yv & p & pv & Hyv & Hpar & Hp & Hpv & Hrest).
  exists yv, p, pv. rewrite (Hag y Hy), (Hag p Hp). auto.
Qed.

Lemma elem_of_forest_ids y cs :
  y ∈ forest_ids cs <-> exists c, c ∈ cs /\ y ∈ tree_ids c.
Proof.
  induction cs as [|c cs IH].
  - split; [intros H; apply elem_of_nil in H; contradiction|].
    intros (c & Hc & _). apply elem_of_nil in Hc. contradiction.
  - rewrite forest_ids_cons, elem_of_app, IH. split.
    + intros [Hy|(c' & Hc' & Hy)].
      * exists c. split; [apply list_elem_of_here|exact Hy].
      * exists c'. split; [apply list_elem_of_further, Hc'|exact Hy].
    + intros (c' & Hc' & Hy). apply elem_of_cons in Hc' as [->|Hc'];
        [left; exact Hy|right; eauto].
Qed.



Lemma lookup_alter_orders (h : gmap Z castle_version) x f y :
  alter f x h !! y = if decide (x = y) then f <$> h !! y else h !! y.
Proof.
  destruct (decide (x = y)) as [->|Hne];
    [apply lookup_alter_eq|apply lookup_alter_ne, Hne].
Qed.

Lemma tree_numbered_leaf x : tree_numbered (VNode x []).
Proof.
  intros h parent next id Hr Hnd Hid Hb. inversion Hr as [? ? ? ? Hn _]; subst.
  destruct Hn as (xv & Hx & Hver & Hin & Hpar & Hnx & Hfc).
  rewrite tree_size_node in *. change (forest_size []) with 0 in *.
  cbn [tree_root tree_ids flat_map] in *.
  eexists 1%nat, _. split; [|split; [|split; [|split]]].
  - apply order_steps_one.
    rewrite (order_step_down_leaf h x xv id parent next) by (auto; lia).
    rewrite Z.add_0_r. reflexivity.
  - lia.
  - split; [|split].
    + eapply same_links_trans; apply same_links_alter_orders; intros; reflexivity.
    + intros y Hy. rewrite !lookup_alter_orders.
      destruct (decide (x = y)) as [->|]; [|reflexivity].
      exfalso. apply Hy, list_elem_of_here.
    + intros y yv Hy. apply list_elem_of_singleton in Hy. subst y.
      rewrite !lookup_alter_orders. destruct (decide (x = x)); [|congruence].
      rewrite Hx. simpl. intros [= <-]. simpl. lia.
  - rewrite !lookup_alter_orders. destruct (decide (x = x)); [|congruence].
    rewrite Hx. simpl. eexists. split; [reflexivity|]. simpl. lia.
  - intros y Hy Hne. apply list_elem_of_singleton in Hy. contradiction.
Qed.

Lemma repr_forest_root_linked h p cs c :
  repr_forest h p cs -> c ∈ cs ->
  exists next fc, node_linked h (tree_root c) p next fc.
Proof.
  induction 1 as [|parent c0 cs0 Hc0 Hcs0 IH]; intros Hin.
  - apply elem_of_nil in Hin. contradiction.
  - apply elem_of_cons in Hin as [->|Hin]; [|auto].
    inversion Hc0; subst. eauto.
Qed.

Lemma tree_numbered_node x cs :
  forest_numbered cs -> tree_numbered (VNode x cs).
Proof.
  intros IH. destruct cs as [|c0 cs0]; [apply tree_numbered_leaf|].
  set (cs := c0 :: cs0) in *.
  intros h parent next id Hr Hnd Hid Hb. inversion Hr as [? ? ? ? Hn Hf]; subst.
  destruct Hn as (xv & Hx & Hver & Hin & Hpar & Hnx & Hfc).
  rewrite tree_size_node in *. rewrite tree_ids_node in *.
  cbn [tree_root] in *.
  apply NoDup_cons in Hnd as [Hxnot Hndf].
  pose proof (forest_size_nonneg cs) as Hfs.
  (* way down *)
  set (h1 := alter (set_o_order (id + 1)) x h).
  assert (Hs1 : same_links h h1)
    by (apply same_links_alter_orders; intros; reflexivity).
  assert (Hstep1 : versions_order_step h x true id
                   = Done (h1, Some (tree_root c0), true, id + 1)).
  { apply (order_step_down_inner h x xv); auto; lia. }
  (* the children *)
  destruct (IH h1 x (id + 1)) as (n & h2 & Hsteps & Hn & (Hs2 & Hfr2 & Hrg2) & Hch2);
    [apply (proj2 (repr_same_links h h1 Hs1)), Hf|discriminate|exact Hndf|lia|lia|].
  (* way up *)
  assert (Hx2 : h2 !! x = Some (set_o_order (id + 1) xv)).
  { rewrite Hfr2 by exact Hxnot. unfold h1. rewrite lookup_alter_eq, Hx. reflexivity. }
  set (id' := id + 1 + forest_size cs) in *.
  set (h3 := alter (set_r_order id') x h2).
  assert (Hs3 : same_links h2 h3)
    by (apply same_links_alter_orders; intros; reflexivity).
  assert (Hstep3 : versions_order_step h2 x false id'
                   = Done (h3, (order_cont next parent).1,
                           (order_cont next parent).2, id')).
  { apply (order_step_up h2 x (set_o_order (id + 1) xv)); auto. }
  assert (Hx3 : h3 !! x = Some (set_r_order id' (set_o_order (id + 1) xv))).
  { unfold h3. rewrite lookup_alter_eq, Hx2. reflexivity. }
  assert (Hag3 : forall y, y ∈ forest_ids cs -> h3 !! y = h2 !! y).
  { intros y Hy. unfold h3. rewrite lookup_alter_ne; [reflexivity|].
    intros ->. contradiction. }
  exists (1 + (n + 1))%nat, h3. split; [|split; [|split; [|split]]].
  - apply (order_steps_trans 1 (n + 1) _ (h1, Some (tree_root c0), true, id + 1));
      [apply order_steps_one, Hstep1|].
    eapply order_steps_trans; [exact Hsteps|].
    replace (id + (1 + forest_size cs)) with id' by (unfold id'; lia).
    apply order_steps_one, Hstep3.
  - lia.
  - split; [|split].
    + eapply same_links_trans; [|exact Hs3].
      eapply same_links_trans; [exact Hs1|exact Hs2].
    + intros y Hy. apply not_elem_of_cons in Hy as [Hyx Hyf].
      unfold h3. rewrite lookup_alter_ne by congruence.
      rewrite Hfr2 by exact Hyf. unfold h1.
      rewrite lookup_alter_ne by congruence. reflexivity.
    + intros y yv Hy Hyv. apply elem_of_cons in Hy as [->|Hy].
      * rewrite Hx3 in Hyv. injection Hyv as <-.
        cbn [v_o_order v_r_order set_r_order set_o_order]. lia.
      * rewrite Hag3 in Hyv by exact Hy.
        specialize (Hrg2 y yv Hy Hyv). unfold id' in *. lia.
  - eexists. split; [exact Hx3|].
    cbn [v_o_order v_r_order set_r_order set_o_order]. unfold id'. lia.
  - intros y Hy Hne. apply elem_of_cons in Hy as [->|Hy]; [contradiction|].
    apply elem_of_forest_ids in Hy as Hyc. destruct Hyc as (c & Hc & Hyc).
    destruct (decide (y = tree_root c)) as [->|Hyr].
    + (* a child of x *)
      destruct (repr_forest_root_linked _ _ _ _ Hf Hc)
        as (nx & fc & cv & Hcv & _ & _ & Hcpar & _).
      pose proof (Hs2 (tree_root c)) as Hl2. pose proof (Hs1 (tree_root c)) as Hl1.
      rewrite Hl1, Hcv in Hl2. simpl in Hl2.
      destruct (h2 !! tree_root c) as [cv2|] eqn:Hcv2; [|discriminate].
      simpl in Hl2. injection Hl2 as _ Hp2 _ _ _.
      specialize (Hrg2 _ cv2 Hy Hcv2).
      exists cv2, x, (set_r_order id' (set_o_order (id + 1) xv)).
      rewrite Hag3 by exact Hy.
      split; [exact Hcv2|]. split; [congruence|].
      split; [apply list_elem_of_here|]. split; [exact Hx3|].
      split; [exact Hin|].
      cbn [v_o_order v_r_order set_r_order set_o_order]. unfold id'. lia.
    + eapply (child_nested_frame h2 h3 y (forest_ids cs)); eauto.
      intros z Hz. apply list_elem_of_further, Hz.
Qed.

Lemma forest_numbered_cons c cs :
  tree_numbered c -> forest_numbered cs -> forest_numbered (c :: cs).
Proof.
  intros IHc IHcs h p id Hr _ Hnd Hid Hb.
  inversion Hr as [|? ? ? Hc Hcs]; subst.
  rewrite forest_size_cons in *. rewrite forest_ids_cons in *.
  apply NoDup_app in Hnd as (Hndc & Hdisj & Hndcs).
  pose proof (forest_size_nonneg cs) as Hfs. pose proof (tree_size_pos c) as Hts.
  destruct (IHc h (Some p) (head_id cs) id Hc Hndc Hid)
    as (n1 & h1 & Hsteps1 & Hn1 & (Hs1 & Hfr1 & Hrg1) & _ & Hch1); [lia|].
  cbn [head_id head fmap option_fmap option_map].
  destruct cs as [|c1 cs1].
  - (* the last child: on to the parent *)
    change (forest_size []) with 0 in *. change (forest_ids []) with (@nil Z) in *.
    rewrite app_nil_r, Z.add_0_r in *. cbn in Hsteps1.
    exists n1, h1. split; [exact Hsteps1|]. split; [lia|].
    split; [split; [exact Hs1|split; [exact Hfr1|exact Hrg1]]|].
    intros c' y Hc' Hy Hne. apply list_elem_of_singleton in Hc'. subst c'. auto.
  - set (cs := c1 :: cs1) in *.
    destruct (IHcs h1 p (id + tree_size c)) as
      (n2 & h2 & Hsteps2 & Hn2 & (Hs2 & Hfr2 & Hrg2) & Hch2);
      [apply (proj2 (repr_same_links h h1 Hs1)), Hcs|discriminate|exact Hndcs|lia|lia|].
    assert (Hag2 : forall y, y ∈ tree_ids c -> h2 !! y = h1 !! y).
    { intros y Hy. apply Hfr2. intros Hy'. exact (Hdisj y Hy Hy'). }
    exists (n1 + n2)%nat, h2. split; [|split; [|split]].
    + eapply order_steps_trans; [exact Hsteps1|].
      replace (id + (tree_size c + forest_size cs))
        with (id + tree_size c + forest_size cs) by lia.
      exact Hsteps2.
    + lia.
    + split; [|split].
      * eapply same_links_trans; eauto.
      * intros y Hy. apply not_elem_of_app in Hy as [Hyc Hycs].
        rewrite Hfr2 by exact Hycs. apply Hfr1, Hyc.
      * intros y yv Hy Hyv. apply elem_of_app in Hy as [Hy|Hy].
        -- rewrite Hag2 in Hyv by exact Hy. specialize (Hrg1 y yv Hy Hyv). lia.
        -- specialize (Hrg2 y yv Hy Hyv). lia.
    + intros c' y Hc' Hy Hne. apply elem_of_cons in Hc' as [->|Hc'].
      * eapply (child_nested_frame h1 h2 y (tree_ids c)); eauto.
        intros z Hz. apply elem_of_app. auto.
      * destruct (Hch2 c' y Hc' Hy Hne) as (yv & q & qv & H1 & H2 & H3 & H4).
        exists yv, q, qv. repeat split; try tauto.
        apply elem_of_app. tauto.
Qed.

Lemma forest_numbered_nil : forest_numbered [].
Proof. intros h p id _ Hne. contradiction. Qed.

Lemma tree_numbered_all t : tree_numbered t.
Proof.
  apply (vtree_forest_ind tree_numbered forest_numbered).
  - apply tree_numbered_node.
  - apply forest_numbered_nil.
  - apply forest_numbered_cons.
Qed.

(** *** Threading a version under its parent *)

Lemma tree_root_update f p t : tree_root (tree_update f p t) = tree_root t.
Proof. destruct t as [a cs]. simpl. destruct (a =? p); reflexivity. Qed.

Lemma head_id_map_update f p cs :
  head_id (map (tree_update f p) cs) = head_id cs.
Proof. destruct cs as [|c cs]; [reflexivity|]. simpl. unfold head_id. simpl.
  rewrite tree_root_update. reflexivity. Qed.

Lemma subtree_ids_sub p :
  (forall t y, y ∈ subtree_ids p t -> y ∈ tree_ids t) /\
  (forall cs y, y ∈ flat_map (subtree_ids p) cs -> y ∈ forest_ids cs).
Proof.
  apply vtree_forest_ind.
  - intros a cs IH y Hy. simpl in Hy. rewrite tree_ids_node.
    destruct (a =? p); [exact Hy|]. apply list_elem_of_further, IH, Hy.
  - intros y Hy. exact Hy.
  - intros c cs IHc IHcs y Hy. simpl in Hy. rewrite forest_ids_cons.
    apply elem_of_app in Hy as [Hy|Hy]; apply elem_of_app; auto.
Qed.

Section TreeUpdate.

Variables (h h' : gmap Z castle_version) (p : Z) (f : list vtree -> list vtree).

(** What the change does at [p]: the hash holds the new children. *)
Hypothesis update_at_p : forall parent next cs,
  repr_tree h parent next (VNode p cs) -> NoDup (tree_ids (VNode p cs)) ->
  repr_tree h' parent next (VNode p (f cs)).

Lemma tree_update_repr :
  (forall t parent next,
     repr_tree h parent next t -> NoDup (tree_ids t) ->
     (forall y, y ∈ tree_ids t -> y ∉ subtree_ids p t -> h' !! y = h !! y) ->
     repr_tree h' parent next (tree_update f p t)) /\
  (forall cs parent,
     repr_forest h parent cs -> NoDup (forest_ids cs) ->
     (forall y, y ∈ forest_ids cs -> y ∉ flat_map (subtree_ids p) cs ->
        h' !! y = h !! y) ->
     repr_forest h' parent (map (tree_update f p) cs)).
Proof.
  apply vtree_forest_ind.
  - intros a cs IH parent next Hr Hnd Hag. simpl.
    destruct (Z.eqb_spec a p) as [->|Hne]; [apply update_at_p; assumption|].
    inversion Hr as [? ? ? ? Hn Hf]; subst.
    rewrite tree_ids_node in Hnd. apply NoDup_cons in Hnd as [Hanot Hndf].
    assert (Hsub : subtree_ids p (VNode a cs) = flat_map (subtree_ids p) cs).
    { simpl. destruct (Z.eqb_spec a p); [contradiction|reflexivity]. }
    rewrite Hsub in Hag.
    constructor.
    + rewrite head_id_map_update.
      destruct Hn as (av & Ha & Hrest). exists av. split; [|exact Hrest].
      rewrite Hag; [exact Ha|apply list_elem_of_here|].
      intros Hin. apply Hanot, (proj2 (subtree_ids_sub p)), Hin.
    + apply IH; [exact Hf|exact Hndf|].
      intros y Hy Hyn. apply Hag; [apply list_elem_of_further, Hy|exact Hyn].
  - intros parent _ _ _. constructor.
  - intros c cs IHc IHcs parent Hr Hnd Hag.
    inversion Hr as [|? ? ? Hc Hcs]; subst.
    rewrite forest_ids_cons in Hnd. apply NoDup_app in Hnd as (Hndc & Hdisj & Hndcs).
    simpl. constructor.
    + rewrite head_id_map_update. apply IHc; [exact Hc|exact Hndc|].
      intros y Hy Hyn. apply Hag.
      * rewrite forest_ids_cons. apply elem_of_app. auto.
      * simpl. intros Hin. apply elem_of_app in Hin as [Hin|Hin]; [contradiction|].
        apply (Hdisj y Hy), (proj2 (subtree_ids_sub p)), Hin.
    + apply IHcs; [exact Hcs|exact Hndcs|].
      intros y Hy Hyn. apply Hag.
      * rewrite forest_ids_cons. apply elem_of_app. auto.
      * simpl. intros Hin. apply elem_of_app in Hin as [Hin|Hin]; [|contradiction].
        apply (Hdisj y); [apply (proj1 (subtree_ids_sub p)), Hin|exact Hy].
Qed.

End TreeUpdate.

Lemma subtree_ids_notin p :
  (forall t, p ∉ tree_ids t -> subtree_ids p t = []) /\
  (forall cs, p ∉ forest_ids cs -> flat_map (subtree_ids p) cs = []).
Proof.
  apply vtree_forest_ind.
  - intros a cs IH Hp. rewrite tree_ids_node in Hp.
    apply not_elem_of_cons in Hp as [Hne Hp]. simpl.
    destruct (Z.eqb_spec a p); [congruence|]. apply IH, Hp.
  - reflexivity.
  - intros c cs IHc IHcs Hp. rewrite forest_ids_cons in Hp.
    apply not_elem_of_app in Hp as [Hc Hcs]. simpl.
    rewrite IHc, IHcs by assumption. reflexivity.
Qed.

(** The subtree at a node of a tree the hash holds. *)
Lemma subtree_repr h p :
  (forall t parent next,
     repr_tree h parent next t -> NoDup (tree_ids t) -> p ∈ tree_ids t ->
     exists parent' next' cs,
       repr_tree h parent' next' (VNode p cs) /\
       subtree_ids p t = tree_ids (VNode p cs) /\ NoDup (tree_ids (VNode p cs))) /\
  (forall cs0 parent,
     repr_forest h parent cs0 -> NoDup (forest_ids cs0) -> p ∈ forest_ids cs0 ->
     exists parent' next' cs,
       repr_tree h parent' next' (VNode p cs) /\
       flat_map (subtree_ids p) cs0 = tree_ids (VNode p cs) /\
       NoDup (tree_ids (VNode p cs))).
Proof.
  apply vtree_forest_ind.
  - intros a cs IH parent next Hr Hnd Hp. simpl.
    destruct (Z.eqb_spec a p) as [->|Hne]; [eauto 6|].
    inversion Hr as [? ? ? ? Hn Hf]; subst.
    rewrite tree_ids_node in Hnd, Hp. apply NoDup_cons in Hnd as [_ Hndf].
    apply elem_of_cons in Hp as [->|Hp]; [congruence|]. eapply IH; eauto.
  - intros parent _ _ Hp. apply elem_of_nil in Hp. contradiction.
  - intros c cs IHc IHcs parent Hr Hnd Hp.
    inversion Hr as [|? ? ? Hc Hcs]; subst.
    rewrite forest_ids_cons in Hnd, Hp.
    apply NoDup_app in Hnd as (Hndc & Hdisj & Hndcs). simpl.
    apply elem_of_app in Hp as [Hp|Hp].
    + destruct (IHc _ _ Hc Hndc Hp) as (par' & nx' & cs' & Hr' & Hs' & Hnd').
      exists par', nx', cs'. split; [exact Hr'|]. split; [|exact Hnd'].
      rewrite (proj2 (subtree_ids_notin p) cs), app_nil_r; [exact Hs'|].
      intros Hin. exact (Hdisj p Hp Hin).
    + destruct (IHcs _ Hcs Hndcs Hp) as (par' & nx' & cs' & Hr' & Hs' & Hnd').
      exists par', nx', cs'. split; [exact Hr'|]. split; [|exact Hnd'].
      rewrite (proj1 (subtree_ids_notin p) c); [exact Hs'|].
      intros Hin. exact (Hdisj p Hin Hp).
Qed.

(** The nodes of a tree the hash holds are inited versions of the hash. *)
Lemma repr_ids_inited h :
  (forall t parent next, repr_tree h parent next t ->
     forall y, y ∈ tree_ids t -> exists yv, h !! y = Some yv /\ v_inited yv = true) /\
  (forall cs parent, repr_forest h parent cs ->
     forall y, y ∈ forest_ids cs -> exists yv, h !! y = Some yv /\ v_inited yv = true).
Proof.
  apply vtree_forest_ind.
  - intros a cs IH parent next Hr y Hy. inversion Hr as [? ? ? ? Hn Hf]; subst.
    rewrite tree_ids_node in Hy. apply elem_of_cons in Hy as [->|Hy]; [|eauto].
    destruct Hn as (av & Ha & _ & Hi & _). eauto.
  - intros parent _ y Hy. apply elem_of_nil in Hy. contradiction.
  - intros c cs IHc IHcs parent Hr y Hy. inversion Hr; subst.
    rewrite forest_ids_cons in Hy. apply elem_of_app in Hy as [Hy|Hy]; eauto.
Qed.

Lemma forest_insert_ids v cs : forest_ids (forest_insert v cs) ≡ₚ v :: forest_ids cs.
Proof.
  induction cs as [|c cs IH]; [reflexivity|]. simpl.
  destruct (tree_root c >? v); [|reflexivity].
  rewrite !forest_ids_cons, IH. symmetry. apply Permutation_middle.
Qed.

Lemma tree_update_ids_insert f p v :
  (forall cs, forest_ids (f cs) ≡ₚ v :: forest_ids cs) ->
  (forall t, NoDup (tree_ids t) ->
     tree_ids (tree_update f p t)
     ≡ₚ if decide (p ∈ tree_ids t) then v :: tree_ids t else tree_ids t) /\
  (forall cs, NoDup (forest_ids cs) ->
     forest_ids (map (tree_update f p) cs)
     ≡ₚ if decide (p ∈ forest_ids cs) then v :: forest_ids cs else forest_ids cs).
Proof.
  intros Hf. apply vtree_forest_ind.
  - intros a cs IH Hnd. rewrite tree_ids_node in *.
    apply NoDup_cons in Hnd as [Hanot Hndf]. cbn [tree_update].
    destruct (Z.eqb_spec a p) as [->|Hne].
    + rewrite decide_True by apply list_elem_of_here.
      rewrite tree_ids_node, Hf. apply perm_swap.
    + rewrite tree_ids_node, (IH Hndf).
      destruct (decide (p ∈ forest_ids cs)) as [Hin|Hnin].
      * rewrite decide_True by (apply list_elem_of_further, Hin). apply perm_swap.
      * rewrite decide_False; [reflexivity|].
        intros Hin. apply elem_of_cons in Hin as [->|Hin]; congruence.
  - intros _. rewrite decide_False; [reflexivity|]. apply not_elem_of_nil.
  - intros c cs IHc IHcs Hnd. rewrite forest_ids_cons in *.
    apply NoDup_app in Hnd as (Hndc & Hdisj & Hndcs). cbn [map].
    rewrite forest_ids_cons, (IHc Hndc), (IHcs Hndcs).
    destruct (decide (p ∈ tree_ids c)) as [Hc|Hc];
      destruct (decide (p ∈ forest_ids cs)) as [Hcs|Hcs].
    + exfalso. exact (Hdisj p Hc Hcs).
    + rewrite decide_True by (apply elem_of_app; auto). reflexivity.
    + rewrite decide_True by (apply elem_of_app; auto).
      symmetry. apply Permutation_middle.
    + rewrite decide_False; [reflexivity|].
      intros Hin. apply elem_of_app in Hin as [?|?]; contradiction.
Qed.


Lemma last_slot_cons slot c cs1 :
  last_slot slot (c :: cs1) = last_slot (SlotNextSybling (tree_root c)) cs1.
Proof.
  unfold last_slot. destruct cs1 as [|c1 cs1]; [reflexivity|].
  change (last (c :: c1 :: cs1)) with (last (c1 :: cs1)).
  destruct (last (c1 :: cs1)) eqn:Hl; [reflexivity|].
  apply last_None in Hl. discriminate.
Qed.

(** The walk of [castle_versions_insert] splits the children where the new
    version goes. *)
Lemma versions_insert_walk_spec h parent v cs : forall fuel slot slot' rest,
  repr_forest h parent cs ->
  versions_insert_walk fuel h v slot (head_id cs) = Some (Done (slot', rest)) ->
  exists cs1 cs2,
    cs = cs1 ++ cs2 /\ rest = head_id cs2 /\ slot' = last_slot slot cs1 /\
    forest_insert v cs = cs1 ++ VNode v [] :: cs2.
Proof.
  induction cs as [|c cs IH]; intros fuel slot slot' rest Hr Hw.
  - destruct fuel; simpl in Hw; injection Hw as <- <-; exists [], []; auto.
  - inversion Hr as [|? ? ? Hc Hcs]; subst. inversion Hc as [? ? a ds Hn Hds]; subst.
    destruct Hn as (av & Ha & Hver & _ & _ & Hnx & _).
    assert (Hw' : versions_insert_walk fuel h v slot (Some a) = Some (Done (slot', rest)))
      by exact Hw.
    destruct fuel as [|fuel]; simpl in Hw'; rewrite Ha, Hver in Hw';
      cbn [forest_insert tree_root];
      destruct (Z.gtb_spec a v) as [Hgt|Hle]; try discriminate.
    + injection Hw' as <- <-. exists [], (VNode a ds :: cs). auto.
    + rewrite Hnx in Hw'. destruct (IH _ _ _ _ Hcs Hw') as (cs1 & cs2 & -> & -> & -> & Hfi).
      exists (VNode a ds :: cs1), cs2. rewrite last_slot_cons, Hfi. auto.
    + injection Hw' as <- <-. exists [], (VNode a ds :: cs). auto.
Qed.

Lemma head_id_app_cons cs1 c cs2 :
  head_id (cs1 ++ c :: cs2) = match cs1 with [] => Some (tree_root c) | _ => head_id cs1 end.
Proof. destruct cs1; reflexivity. Qed.

Lemma head_id_app_ne cs1 cs2 : cs1 <> [] -> head_id (cs1 ++ cs2) = head_id cs1.
Proof. destruct cs1; [congruence|reflexivity]. Qed.

Lemma last_in_forest (cs : list vtree) c : last cs = Some c -> c ∈ cs.
Proof.
  induction cs as [|c0 cs IH]; [discriminate|].
  destruct cs as [|c1 cs]; simpl.
  - intros [= ->]. apply list_elem_of_here.
  - intros Hl. apply list_elem_of_further, IH, Hl.
Qed.

(** The hash after the new leaf [x] went in between [cs1] and [cs2]: only
    the last of [cs1] changed, and points to [x]. *)
Lemma repr_forest_insert_split h h3 parent x cs2 : forall cs1,
  repr_forest h parent (cs1 ++ cs2) -> NoDup (forest_ids (cs1 ++ cs2)) ->
  node_linked h3 x parent (head_id cs2) None ->
  (forall y, y ∈ forest_ids (cs1 ++ cs2) ->
     (forall c, last cs1 = Some c -> y <> tree_root c) -> h3 !! y = h !! y) ->
  (forall c cv, last cs1 = Some c -> h !! tree_root c = Some cv ->
     h3 !! tree_root c = Some (set_next_sybling (Some x) cv)) ->
  repr_forest h3 parent (cs1 ++ VNode x [] :: cs2).
Proof.
  induction cs1 as [|c cs1 IH]; intros Hr Hnd Hx Hag Hlast.
  - simpl in *. constructor.
    + constructor; [exact Hx|constructor].
    + apply (proj2 (repr_frame h h3)); [|exact Hr].
      intros y Hy. apply Hag; [exact Hy|discriminate].
  - simpl app in *. inversion Hr as [|? ? ? Hc Hcs]; subst.
    rewrite forest_ids_cons in Hnd. apply NoDup_app in Hnd as (Hndc & Hdisj & Hndcs).
    constructor.
    + destruct cs1 as [|c1 cs1].
      * (* c is the last before x *)
        simpl app in *. destruct c as [a ds]. inversion Hc as [? ? ? ? Hn Hds]; subst.
        rewrite tree_ids_node in Hndc. apply NoDup_cons in Hndc as [Hanot Hndds].
        destruct Hn as (av & Ha & Hver & Hi & Hp & Hnx & Hfc).
        constructor.
        -- exists (set_next_sybling (Some x) av).
           split; [apply (Hlast (VNode a ds)); [reflexivity|exact Ha]|].
           repeat split; assumption.
        -- apply (proj2 (repr_frame h h3)); [|exact Hds].
           intros y Hy. apply Hag.
           ++ rewrite forest_ids_cons, tree_ids_node. apply elem_of_app. left.
              apply list_elem_of_further, Hy.
           ++ intros c [= <-]. simpl. intros ->. contradiction.
      * rewrite head_id_app_ne by discriminate.
        rewrite head_id_app_ne in Hc by discriminate.
        apply (proj1 (repr_frame h h3)); [|exact Hc].
        intros y Hy. apply Hag.
        -- rewrite forest_ids_cons. apply elem_of_app. auto.
        -- intros c' Hl ->. change (last (c1 :: cs1) = Some c') in Hl.
           apply (Hdisj (tree_root c') Hy). apply elem_of_forest_ids.
           exists c'. split; [|apply tree_root_in_ids].
           apply elem_of_app. left. apply last_in_forest, Hl.
    + apply IH; [exact Hcs|exact Hndcs|exact Hx| |].
      * intros y Hy Hne. apply Hag.
        -- rewrite forest_ids_cons. apply elem_of_app. auto.
        -- intros c' Hl. destruct cs1 as [|c1 cs1].
           ++ injection Hl as <-. intros ->.
              apply (Hdisj (tree_root c)); [apply tree_root_in_ids|exact Hy].
           ++ apply Hne. exact Hl.
      * intros c' cv Hl. apply Hlast. destruct cs1; [discriminate|exact Hl].
Qed.

(** *** Insertion of a version keeps the registry well formed *)



Lemma slot_store_alter h slot v :
  slot_store h slot v = alter (slot_set slot v) (slot_id slot) h.
Proof. destruct slot; reflexivity. Qed.

Lemma v_inited_set_flags_inited xv :
  v_inited (set_flags (Z.lor (v_flags xv) CV_INITED_MASK) xv) = true.
Proof.
  unfold v_inited, test_mask. cbn [v_flags set_flags].
  apply negb_true_iff, Z.eqb_neq. rewrite Z.land_lor_distr_l.
  intros H. apply Z.lor_eq_0_iff in H as [_ H]. discriminate H.
Qed.

Lemma size_alter_hash (f : castle_version -> castle_version) x (h : gmap Z castle_version) :
  size (alter f x h) = size h.
Proof. rewrite <- !size_dom. rewrite dom_alter_L. reflexivity. Qed.

Lemma tree_size_length :
  (forall t, tree_size t = Z.of_nat (length (tree_ids t))) /\
  (forall cs, forest_size cs = Z.of_nat (length (forest_ids cs))).
Proof.
  apply vtree_forest_ind.
  - intros x cs IH. rewrite tree_size_node, IH, tree_ids_node. cbn [length]. lia.
  - reflexivity.
  - intros c cs IHc IHcs. rewrite forest_size_cons, forest_ids_cons, length_app, IHc, IHcs.
    lia.
Qed.

(** A tree that the hash holds has no more nodes than the hash has versions. *)
Lemma tree_size_le_hash h t parent next :
  repr_tree h parent next t -> NoDup (tree_ids t) ->
  tree_size t <= Z.of_nat (size h).
Proof.
  intros Hr Hnd. rewrite (proj1 tree_size_length).
  apply inj_le. rewrite <- size_dom. unfold size at 1, set_size. simpl.
  apply submseteq_length, NoDup_submseteq; [exact Hnd|].
  intros y Hy. apply elem_of_elements, elem_of_dom.
  destruct (proj1 (repr_ids_inited h) _ _ _ Hr y Hy) as (yv & -> & _). eauto.
Qed.

Lemma last_slot_id slot cs1 :
  slot_id (last_slot slot cs1) = slot_id slot /\ cs1 = [] \/
  exists c, last cs1 = Some c /\ slot_id (last_slot slot cs1) = tree_root c.
Proof.
  unfold last_slot. destruct (last cs1) as [c|] eqn:Hl.
  - right. exists c. auto.
  - left. apply last_None in Hl. auto.
Qed.

Lemma repr_tree_inv h parent next a cs :
  repr_tree h parent next (VNode a cs) ->
  node_linked h a parent next (head_id cs) /\ repr_forest h (Some a) cs.
Proof. intros Hr. inversion Hr; subst. auto. Qed.

Section InsertLocal.

Variables (h h1 : gmap Z castle_version) (p x : Z) (xv pv : castle_version).
Variable fuel : nat.

Hypothesis lookup_x : h !! x = Some xv.
Hypothesis version_x : v_version xv = x.
Hypothesis inited_x : v_inited xv = false.
Hypothesis first_child_x : v_first_child xv = None.
Hypothesis lookup_p : h !! p = Some pv.
Hypothesis insert_done : castle_versions_insert fuel h p x = Some (Done h1).

Local Abbreviation set_inited :=
  (fun y : castle_version => set_flags (Z.lor (v_flags y) CV_INITED_MASK) y).

Lemma insert_x_not_in_tree parent next t :
  repr_tree h parent next t -> x ∉ tree_ids t.
Proof.
  intros Hr Hx. destruct (proj1 (repr_ids_inited h) _ _ _ Hr x Hx) as (yv & Hy & Hi).
  congruence.
Qed.

(** What [castle_versions_insert] and the INITED flag do to the hash, seen
    from a tree whose root is the parent: one slot of that tree is changed,
    the new version is linked, and the hash holds the tree with the new
    leaf. *)
Lemma insert_local parent next cs :
  repr_tree h parent next (VNode p cs) -> NoDup (tree_ids (VNode p cs)) ->
  exists slot tv xv',
    slot_id slot ∈ tree_ids (VNode p cs) /\
    h !! slot_id slot = Some tv /\
    alter set_inited x h1 !! slot_id slot = Some (slot_set slot (Some x) tv) /\
    alter set_inited x h1 !! x = Some xv' /\ v_version xv' = x /\
    v_inited xv' = true /\
    (forall y, y <> x -> y <> slot_id slot -> alter set_inited x h1 !! y = h !! y) /\
    repr_tree (alter set_inited x h1) parent next (VNode p (forest_insert x cs)).
Proof.
  intros Hr Hnd. pose proof (insert_x_not_in_tree _ _ _ Hr) as Hxt.
  destruct (repr_tree_inv _ _ _ _ _ Hr) as [Hn Hcs].
  destruct Hn as (pv' & Hp' & Hpver & Hpi & Hppar & Hpnx & Hpfc).
  rewrite lookup_p in Hp'. injection Hp' as <-.
  rewrite tree_ids_node in Hxt, Hnd. apply NoDup_cons in Hnd as [Hpcs Hndcs].
  assert (Hxp : x <> p) by (intros ->; apply Hxt, list_elem_of_here).
  assert (Hxcs : x ∉ forest_ids cs)
    by (intros Hin; apply Hxt, list_elem_of_further, Hin).
  pose proof insert_done as Hins. unfold castle_versions_insert in Hins.
  rewrite lookup_p, lookup_x, version_x, Hpfc in Hins.
  set (h' := alter (set_parent_u (ParentPtr (Some p))) x h) in Hins.
  assert (Hcs' : repr_forest h' (Some p) cs).
  { apply (proj2 (repr_frame h h')); [|exact Hcs]. intros y Hy. subst h'.
    apply lookup_alter_ne. intros ->. contradiction. }
  destruct (versions_insert_walk fuel h' x (SlotFirstChild p) (head_id cs))
    as [[[slot rest]|]|] eqn:Hw; simpl in Hins; try discriminate.
  injection Hins as <-.
  destruct (versions_insert_walk_spec _ _ _ _ _ _ _ _ Hcs' Hw)
    as (cs1 & cs2 & -> & -> & -> & Hfi).
  pose proof (last_slot_id (SlotFirstChild p) cs1) as Hcase.
  remember (last_slot (SlotFirstChild p) cs1) as slot eqn:Hslot.
  assert (Hslot_in : slot_id slot ∈ p :: forest_ids (cs1 ++ cs2)).
  { destruct Hcase as [[-> _]|(c & Hl & ->)].
    - apply list_elem_of_here.
    - apply list_elem_of_further, elem_of_forest_ids. exists c.
      split; [|apply tree_root_in_ids].
      apply elem_of_app. left. apply last_in_forest, Hl. }
  assert (Hslot_x : slot_id slot <> x) by (intros Heq; apply Hxt; rewrite <- Heq; exact Hslot_in).
  assert (Hslot_h : exists tv, h !! slot_id slot = Some tv).
  { destruct (proj1 (repr_ids_inited h) _ _ _ Hr (slot_id slot)) as (tv & Htv & _);
      [rewrite tree_ids_node; exact Hslot_in|eauto]. }
  destruct Hslot_h as [tv Htv].
  set (h2 := alter set_inited x (slot_store (alter (set_next_sybling (head_id cs2)) x h')
                                   slot (Some x))).
  assert (Hl_slot : h2 !! slot_id slot = Some (slot_set slot (Some x) tv)).
  { subst h2 h'. rewrite slot_store_alter.
    rewrite lookup_alter_ne by congruence. rewrite lookup_alter_eq.
    rewrite !lookup_alter_ne by congruence. rewrite Htv. reflexivity. }
  assert (Hl_x : h2 !! x = Some (set_inited (set_next_sybling (head_id cs2)
                                   (set_parent_u (ParentPtr (Some p)) xv)))).
  { subst h2 h'. rewrite slot_store_alter. rewrite lookup_alter_eq.
    rewrite lookup_alter_ne by exact Hslot_x. rewrite !lookup_alter_eq.
    rewrite lookup_x. reflexivity. }
  assert (Hl_other : forall y, y <> x -> y <> slot_id slot -> h2 !! y = h !! y).
  { intros y Hyx Hys. subst h2 h'. rewrite slot_store_alter.
    rewrite !lookup_alter_ne by congruence. reflexivity. }
  exists slot, tv, (set_inited (set_next_sybling (head_id cs2)
                      (set_parent_u (ParentPtr (Some p)) xv))).
  split; [rewrite tree_ids_node; exact Hslot_in|].
  split; [exact Htv|]. split; [exact Hl_slot|]. split; [exact Hl_x|].
  split; [exact version_x|]. split; [apply v_inited_set_flags_inited|].
  split; [exact Hl_other|].
  rewrite Hfi. constructor.
  - (* the parent *)
    destruct Hcase as [[Hid ->]|(c & Hl & Hid)].
    + simpl in Hid. rewrite Hid in Hl_slot, Htv.
      exists (set_first_child (Some x) pv). split.
      * rewrite Hl_slot, Hslot. do 2 f_equal. congruence.
      * repeat split; assumption.
    + exists pv. split.
      * rewrite Hl_other; [exact lookup_p|congruence|].
        rewrite Hid. intros ->. apply Hpcs.
        apply elem_of_forest_ids. exists c. split; [|apply tree_root_in_ids].
        apply elem_of_app. left. apply last_in_forest, Hl.
      * rewrite head_id_app_ne by (intros ->; discriminate).
        rewrite head_id_app_ne in Hpfc by (intros ->; discriminate).
        repeat split; assumption.
  - (* the children *)
    apply (repr_forest_insert_split h h2); [exact Hcs|exact Hndcs| | |].
    + eexists. split; [exact Hl_x|]. repeat split.
      * exact version_x.
      * apply v_inited_set_flags_inited.
      * exact first_child_x.
    + intros y Hy Hlast. apply Hl_other; [intros ->; contradiction|].
      destruct Hcase as [[Hid _]|(c & Hl & Hid)]; rewrite Hid.
      * simpl. intros ->. contradiction.
      * apply Hlast, Hl.
    + intros c cv Hl Hc.
      destruct Hcase as [[_ ->]|(c' & Hl' & Hid)]; [discriminate|].
      rewrite Hl in Hl'. injection Hl' as <-. rewrite <- Hid.
      rewrite Hl_slot. f_equal. rewrite Hid in Htv. rewrite Hc in Htv. injection Htv as ->.
      rewrite Hslot. unfold last_slot. rewrite Hl. reflexivity.
Qed.

End InsertLocal.

Lemma v_inited_slot_set slot v tv : v_inited (slot_set slot v tv) = v_inited tv.
Proof. destruct slot; reflexivity. Qed.

Lemma v_version_slot_set slot v tv : v_version (slot_set slot v tv) = v_version tv.
Proof. destruct slot; reflexivity. Qed.

Lemma size_same_keys (h h' : gmap Z castle_version) :
  (forall y, is_Some (h' !! y) <-> is_Some (h !! y)) -> size h' = size h.
Proof.
  intros Hk. rewrite <- !size_dom. f_equal. apply set_eq. intros y.
  rewrite !elem_of_dom. apply Hk.
Qed.

(** Inserting a version that is not inited under an inited parent, and
    flagging it INITED, keeps the registry well formed; the tree gets a new
    leaf among the children of the parent. *)
Lemma versions_insert_wf t h il x xv p pv fuel h1 :
  versions_wf_with t h il ->
  h !! x = Some xv -> v_inited xv = false ->
  h !! p = Some pv -> v_inited pv = true ->
  castle_versions_insert fuel h p x = Some (Done h1) ->
  versions_wf_with (tree_update (forest_insert x) p t)
    (alter (fun y => set_flags (Z.lor (v_flags y) CV_INITED_MASK) y) x h1)
    (filter (fun y => y <> x) il).
Proof.
  intros (Hroot & Hrep & Hnd & Hsz & Hkey & Hin & Hun & Hndil & Hil) Hx Hxi Hp Hpi Hins.
  pose proof (Hkey _ _ Hx) as Hxver.
  destruct (Hun _ _ Hx Hxi) as [Hxfc _].
  pose proof (Hin _ _ Hp Hpi) as Hpt.
  assert (Hxt : x ∉ tree_ids t) by (eapply insert_x_not_in_tree; eauto).
  destruct (proj1 (subtree_repr h p) _ _ _ Hrep Hnd Hpt)
    as (parent' & next' & cs & Hrp & Hsub & Hndp).
  destruct (insert_local h h1 p x xv pv fuel Hx Hxver Hxi Hxfc Hp Hins _ _ _ Hrp Hndp)
    as (slot & tv & xv' & Hslot_in & Htv & Hl_slot & Hl_x & Hxver' & Hxi' & Hother & _).
  set (h2 := alter (fun y => set_flags (Z.lor (v_flags y) CV_INITED_MASK) y) x h1) in *.
  assert (Hslot_t : slot_id slot ∈ tree_ids t).
  { apply (proj1 (subtree_ids_sub p)). rewrite Hsub. exact Hslot_in. }
  assert (Htvi : v_inited tv = true).
  { destruct (proj1 (repr_ids_inited h) _ _ _ Hrp _ Hslot_in) as (tv' & Htv' & Hi).
    congruence. }
  assert (Hslot_x : slot_id slot <> x) by (intros Heq; apply Hxt; rewrite <- Heq; exact Hslot_t).
  assert (Hperm : tree_ids (tree_update (forest_insert x) p t) ≡ₚ x :: tree_ids t).
  { pose proof (proj1 (tree_update_ids_insert (forest_insert x) p x
                         (forest_insert_ids x)) t Hnd) as Hpm.
    rewrite decide_True in Hpm by exact Hpt. exact Hpm. }
  assert (Hcases : forall y yv', h2 !! y = Some yv' ->
            (y = x /\ yv' = xv') \/
            (y = slot_id slot /\ yv' = slot_set slot (Some x) tv) \/
            (y <> x /\ y <> slot_id slot /\ h !! y = Some yv')).
  { intros y yv' Hy. destruct (decide (y = x)) as [->|Hyx]; [left; split; congruence|].
    destruct (decide (y = slot_id slot)) as [->|Hys]; [right; left; split; congruence|].
    right; right. rewrite <- Hother by assumption. auto. }
  split; [rewrite tree_root_update; exact Hroot|].
  split.
  { apply (proj1 (tree_update_repr h h2 p (forest_insert x)
                    (fun parent next cs0 Hr0 Hnd0 =>
                       let '(ex_intro _ _ (ex_intro _ _ (ex_intro _ _ Hall))) :=
                         insert_local h h1 p x xv pv fuel Hx Hxver Hxi Hxfc Hp Hins
                           parent next cs0 Hr0 Hnd0 in
                       proj2 (proj2 (proj2 (proj2 (proj2 (proj2 (proj2 Hall))))))))
             _ _ _ Hrep Hnd).
    intros y Hy Hns. apply Hother; [intros ->; contradiction|].
    intros ->. apply Hns. rewrite Hsub. exact Hslot_in. }
  split; [rewrite Hperm; apply NoDup_cons; auto|].
  split.
  { rewrite (size_same_keys h h2); [exact Hsz|]. intros y.
    destruct (decide (y = x)) as [->|Hyx]; [rewrite Hl_x, Hx; split; eauto|].
    destruct (decide (y = slot_id slot)) as [->|Hys]; [rewrite Hl_slot, Htv; split; eauto|].
    rewrite Hother by assumption. reflexivity. }
  split.
  { intros y yv' Hy.
    destruct (Hcases _ _ Hy) as [[-> ->]|[[-> ->]|(_ & _ & Hy')]];
      [exact Hxver'|rewrite v_version_slot_set; eauto|eauto]. }
  split.
  { intros y yv' Hy Hyi. rewrite Hperm.
    destruct (Hcases _ _ Hy) as [[-> ->]|[[-> ->]|(_ & _ & Hy')]].
    - apply list_elem_of_here.
    - apply list_elem_of_further, Hslot_t.
    - apply list_elem_of_further. eauto. }
  split.
  { intros y yv' Hy Hyi.
    destruct (Hcases _ _ Hy) as [[-> ->]|[[-> ->]|(_ & _ & Hy')]].
    - congruence.
    - rewrite v_inited_slot_set in Hyi. congruence.
    - eauto. }
  split; [apply NoDup_filter, Hndil|].
  intros y Hy. apply list_elem_of_filter in Hy as [Hyx Hyil].
  destruct (Hil _ Hyil) as (yv & Hyv & Hyi). exists yv. split; [|exact Hyi].
  rewrite Hother; [exact Hyv|exact Hyx|]. intros ->. congruence.
Qed.

(** *** The first loop of [castle_versions_process] *)

Lemma versions_wf_with_init_list t h il il' :
  versions_wf_with t h il -> NoDup il' -> (forall y, y ∈ il' -> y ∈ il) ->
  versions_wf_with t h il'.
Proof.
  intros (Hroot & Hrep & Hnd & Hsz & Hkey & Hin & Hun & Hndil & Hil) Hnd' Hsub.
  repeat (split; [assumption|]). auto.
Qed.

Lemma versions_process_init_wf fuel : forall h il sl err v h' il' sl' err',
  (exists t, versions_wf_with t h il) ->
  versions_process_init fuel h il sl err v = Some (Done (h', il', sl', err')) ->
  exists t', versions_wf_with t' h' il'.
Proof.
  induction fuel as [|fuel IH]; intros h il sl err v h' il' sl' err' [t Hwf] Hrun;
    [discriminate|].
  cbn [versions_process_init] in Hrun.
  destruct (match v with Some x => Some x | None => head il end) as [x|];
    [|injection Hrun as <- <- <- <-; eauto].
  destruct (bool_decide (x ∈ il)) eqn:Hxil; [|discriminate].
  apply bool_decide_eq_true in Hxil. cbn [negb] in Hrun.
  destruct (h !! x) as [xv|] eqn:Hx; [|discriminate].
  destruct (v_inited xv) eqn:Hxi; [discriminate|].
  destruct (v_parent_u xv) as [parent_v|]; [|discriminate].
  destruct (h !! parent_v) as [pv|] eqn:Hp; [|discriminate].
  assert (Hwf' : versions_wf_with t h (filter (fun y => y <> x) il)).
  { apply (versions_wf_with_init_list t h il); [exact Hwf| |].
    - apply NoDup_filter. apply Hwf.
    - intros y Hy. apply list_elem_of_filter in Hy. apply Hy. }
  destruct (v_snap xv && negb (is_null (v_first_child pv))); [eapply IH; eauto|].
  destruct (negb (v_snap xv) && v_attached pv && is_null (v_first_child pv));
    [eapply IH; eauto|].
  destruct (v_inited pv) eqn:Hpi; cbn [negb] in Hrun.
  - destruct (castle_versions_insert (S fuel) h parent_v x) as [[h1|]|] eqn:Hins;
      try discriminate.
    cbn [fbind] in Hrun. eapply IH; [|exact Hrun].
    eexists. eapply versions_insert_wf; eauto.
  - eapply IH; [|exact Hrun]. exists t.
    apply (versions_wf_with_init_list t h il); [exact Hwf| |].
    + apply NoDup_cons. split; [|apply NoDup_filter; apply Hwf].
      intros Hin. apply list_elem_of_filter in Hin as [Hne _]. congruence.
    + intros y Hy. apply elem_of_cons in Hy as [->|Hy]; [exact Hxil|].
      apply list_elem_of_filter in Hy. apply Hy.
Qed.

(** *** The numbering loop on a well-formed registry *)

Lemma versions_order_loop_mono fuel : forall h v cf id r k,
  versions_order_loop fuel h v cf id = Some r ->
  versions_order_loop (fuel + k) h v cf id = Some r.
Proof.
  induction fuel as [|fuel IH]; intros h v cf id r k Hrun.
  - destruct v; [discriminate|]. destruct k; exact Hrun.
  - destruct v as [x|]; [|exact Hrun]. simpl in *.
    destruct (versions_order_step h x cf id) as [[[[h1 n] cf1] id1]|]; [|exact Hrun].
    apply IH, Hrun.
Qed.

Lemma same_links_keys h h' y : same_links h h' -> is_Some (h' !! y) <-> is_Some (h !! y).
Proof.
  intros Hs. specialize (Hs y). rewrite <- !fmap_is_Some with (f := v_links).
  rewrite Hs. reflexivity.
Qed.

Lemma same_links_lookup h h' y yv' :
  same_links h h' -> h' !! y = Some yv' ->
  exists yv, h !! y = Some yv /\ v_links yv' = v_links yv.
Proof.
  intros Hs Hy. specialize (Hs y). rewrite Hy in Hs. simpl in Hs.
  destruct (h !! y) as [yv|]; [|discriminate].
  exists yv. split; [reflexivity|apply (inj Some), Hs].
Qed.

Lemma v_links_fields v v' :
  v_links v' = v_links v ->
  v_version v' = v_version v /\ v_parent_u v' = v_parent_u v /\
  v_first_child v' = v_first_child v /\ v_next_sybling v' = v_next_sybling v /\
  v_inited v' = v_inited v.
Proof.
  unfold v_links, v_inited. intros [= Hv Hp Hf Hn Hfl]. rewrite Hfl. auto.
Qed.

Lemma versions_wf_with_same_links t h h' il :
  same_links h h' -> versions_wf_with t h il -> versions_wf_with t h' il.
Proof.
  intros Hs (Hroot & Hrep & Hnd & Hsz & Hkey & Hin & Hun & Hndil & Hil).
  split; [exact Hroot|].
  split; [apply (proj1 (repr_same_links h h' Hs)), Hrep|].
  split; [exact Hnd|].
  split; [rewrite (size_same_keys h h'); [exact Hsz|intros y; apply same_links_keys, Hs]|].
  split.
  { intros y yv' Hy. destruct (same_links_lookup _ _ _ _ Hs Hy) as (yv & Hyv & Hl).
    apply v_links_fields in Hl as (-> & _). eauto. }
  split.
  { intros y yv' Hy Hi. destruct (same_links_lookup _ _ _ _ Hs Hy) as (yv & Hyv & Hl).
    apply v_links_fields in Hl as (_ & _ & _ & _ & Hi'). rewrite Hi' in Hi. eauto. }
  split.
  { intros y yv' Hy Hi. destruct (same_links_lookup _ _ _ _ Hs Hy) as (yv & Hyv & Hl).
    apply v_links_fields in Hl as (_ & -> & -> & _ & Hi'). rewrite Hi' in Hi. eauto. }
  split; [exact Hndil|].
  intros y Hy. destruct (Hil _ Hy) as (yv & Hyv & Hi).
  assert (Hsome : is_Some (h' !! y)) by (apply (same_links_keys h h' y Hs); eauto).
  destruct Hsome as [yv' Hyv']. exists yv'. split; [exact Hyv'|].
  destruct (same_links_lookup _ _ _ _ Hs Hyv') as (yv0 & Hyv0 & Hl).
  apply v_links_fields in Hl as (_ & _ & _ & _ & ->). congruence.
Qed.

(** The numbering loop, started at the root of a well-formed registry with
    enough fuel, ends; it leaves the registry well formed, with every
    inited version but the root enclosed by its parent. *)
Lemma versions_order_loop_wf t h il :
  versions_wf_with t h il ->
  exists n h',
    Z.of_nat n <= 2 * tree_size t /\
    (forall fuel, versions_order_loop (n + fuel) h (Some 0) true 0 = Some (Done h')) /\
    versions_wf_with t h' il /\ orders_nested h' /\ same_links h h'.
Proof.
  intros Hwf. pose proof Hwf as (Hroot & Hrep & Hnd & Hsz & Hkey & Hin & Hun & Hndil & Hil).
  destruct (tree_numbered_all t h None None 0 Hrep Hnd) as
    (n & h' & Hsteps & Hn & (Hs & Hfr & Hlab) & _ & Hnest).
  { lia. }
  { pose proof (tree_size_le_hash _ _ _ _ Hrep Hnd). lia. }
  exists n, h'. split; [lia|]. rewrite Hroot in Hsteps.
  split.
  { intros fuel. rewrite (order_loop_steps n _ _ _ _ _ _ _ _ fuel Hsteps).
    destruct fuel; reflexivity. }
  split; [apply (versions_wf_with_same_links t h h' il Hs Hwf)|].
  split; [|exact Hs].
  intros x xv Hx Hxi Hx0.
  destruct (same_links_lookup _ _ _ _ Hs Hx) as (xv0 & Hxv0 & Hl).
  apply v_links_fields in Hl as (_ & _ & _ & _ & Hi).
  assert (Hxt : x ∈ tree_ids t) by (apply (Hin x xv0); congruence).
  destruct (Hnest x Hxt) as (yv & p & pv & Hyv & Hpar & _ & Hpv & Hpi & Ho).
  { congruence. }
  exists p, pv. rewrite Hx in Hyv. injection Hyv as <-. auto.
Qed.

(** *** [castle_versions_process] *)

Section VersionsProcess.

Variable castle_sysfs_version_add : Z -> Z.

Lemma versions_process_sysfs_registry sl : forall st err,
  castle_versions_hash (versions_process_sysfs castle_sysfs_version_add st sl err).1
    = castle_versions_hash st /\
  castle_versions_init_list (versions_process_sysfs castle_sysfs_version_add st sl err).1
    = castle_versions_init_list st /\
  version_cnt (versions_process_sysfs castle_sysfs_version_add st sl err).1
    = version_cnt st.
Proof.
  induction sl as [|v sl IH]; intros st err; [auto|].
  cbn [versions_process_sysfs].
  destruct (negb (castle_sysfs_version_add v =? 0));
    apply (IH (v_emit st (EvSysfsVersionAdd v))).
Qed.

(** A well-formed registry holds its root: inited, with no parent. *)
Lemma versions_wf_with_root t h il :
  versions_wf_with t h il ->
  exists rv, h !! 0 = Some rv /\ v_inited rv = true /\ v_parent_u rv = ParentPtr None.
Proof.
  intros (Hroot & Hrep & _). destruct t as [r cs]. simpl in Hroot. subst r.
  apply repr_tree_inv in Hrep as [(rv & Hr & _ & Hi & Hp & _) _]. eauto.
Qed.

(** A completed run of [castle_versions_process] on a well-formed registry
    leaves it well formed, with every inited version but the root enclosed
    by its parent. *)
Lemma versions_process_orders_wf fuel st err st' :
  versions_wf st ->
  castle_versions_process castle_sysfs_version_add fuel st = Some (Done (err, st')) ->
  orders_nested (castle_versions_hash st') /\ versions_wf st'.
Proof.
  intros Hwf Hrun. unfold castle_versions_process in Hrun.
  destruct (versions_process_init fuel (castle_versions_hash st)
              (castle_versions_init_list st) [] 0 None)
    as [[[[[h1 il1] sl1] err1]|]|] eqn:Hinit; try discriminate.
  cbn [fbind] in Hrun.
  destruct (versions_process_init_wf _ _ _ _ _ _ _ _ _ _ Hwf Hinit) as [t Hwf1].
  destruct (versions_wf_with_root _ _ _ Hwf1) as (rv & Hr & Hri & Hrp).
  rewrite Hr, Hri, Hrp in Hrun. cbn [negb] in Hrun.
  destruct (versions_order_loop fuel h1 (Some 0) true 0) as [[h2|]|] eqn:Hloop;
    try discriminate.
  cbn [fbind] in Hrun.
  destruct (versions_order_loop_wf t h1 il1 Hwf1) as (n & h2' & _ & Hn & Hwf2 & Hnest & _).
  assert (h2' = h2) as ->.
  { pose proof (versions_order_loop_mono _ _ _ _ _ _ n Hloop) as H1.
    rewrite Nat.add_comm, Hn in H1. congruence. }
  pose proof (versions_process_sysfs_registry sl1
                (set_init_list (set_hash st h2) il1) err1) as (Hh & Hil & _).
  destruct (versions_process_sysfs castle_sysfs_version_add
              (set_init_list (set_hash st h2) il1) sl1 err1) as [st2 err2].
  injection Hrun as <- <-. simpl in Hh, Hil.
  split; [rewrite Hh; exact Hnest|].
  exists t. rewrite Hh, Hil. exact Hwf2.
Qed.

End VersionsProcess.

(** *** Adding versions *)

Section VersionsAdd.

Variable INVAL_VERSION : Z.
Variable INVAL_DA : Z.
Variable kmem_cache_alloc_ok : Z -> bool.
Variable castle_sysfs_version_add : Z -> Z.

Local Abbreviation version_add :=
  (castle_version_add INVAL_VERSION kmem_cache_alloc_ok castle_sysfs_version_add).

(** [castle_version_add] charges the counter on every call, and touches
    nothing else when it fails. *)
Lemma castle_version_add_cnt st version parent da_id size :
  version_cnt (version_add st version parent da_id size).1
  = wrap_int32 (version_cnt st + 1).
Proof.
  unfold castle_version_add.
  repeat match goal with |- context [if ?b then _ else _] => destruct b end;
    reflexivity.
Qed.

Lemma castle_version_add_fails st version parent da_id size st' :
  version_add st version parent da_id size = (st', None) ->
  castle_versions_hash st' = castle_versions_hash st /\
  castle_versions_init_list st' = castle_versions_init_list st /\
  castle_versions_last st' = castle_versions_last st.
Proof.
  unfold castle_version_add.
  repeat match goal with |- context [if ?b then _ else _] => destruct b end;
    intros [= <-]; auto.
Qed.

(** The bootstrap of an empty registry gives a well-formed one. *)
Lemma castle_versions_zero_init_wf st st' :
  castle_versions_hash st = ∅ -> castle_versions_init_list st = [] ->
  castle_versions_zero_init INVAL_VERSION INVAL_DA kmem_cache_alloc_ok
    castle_sysfs_version_add st = (st', 0) ->
  versions_wf st'.
Proof.
  intros Hh Hil. unfold castle_versions_zero_init, castle_version_add.
  cbn [Z.eqb].
  repeat match goal with |- context [if ?b then _ else _] => destruct b end;
    try discriminate.
  intros [= <-]. exists (VNode 0 []). cbn. rewrite Hh, Hil.
  set (root := set_flags _ _).
  assert (Hl : forall x xv, (<[0 := root]> (∅ : gmap Z castle_version)) !! x = Some xv ->
                 x = 0 /\ xv = root).
  { intros x xv Hx. apply lookup_insert_Some in Hx as [[<- <-]|[_ Hx]]; [auto|].
    rewrite lookup_empty in Hx. discriminate. }
  split; [reflexivity|]. split.
  { constructor; [|constructor]. exists root. rewrite lookup_insert_eq.
    repeat split; reflexivity. }
  split; [apply NoDup_singleton|].
  split; [rewrite map_size_insert_None by apply lookup_empty; rewrite map_size_empty; reflexivity|].
  split; [intros x xv Hx; apply Hl in Hx as [-> ->]; reflexivity|].
  split; [intros x xv Hx _; apply Hl in Hx as [-> _]; apply list_elem_of_here|].
  split; [intros x xv Hx Hi; apply Hl in Hx as [_ ->]; discriminate Hi|].
  split; [apply NoDup_nil_2|].
  intros x Hx. apply elem_of_nil in Hx. contradiction.
Qed.

(** Adding a version whose number is free keeps the registry well formed:
    the version waits on the init list. *)
Lemma castle_version_add_wf st version parent da_id size st' v :
  versions_wf st -> castle_versions_hash st !! version = None ->
  Z.of_nat (base.size (castle_versions_hash st)) + 1 < 2 ^ 32 ->
  version_add st version parent da_id size = (st', Some v) ->
  v = version /\
  castle_versions_hash st' !! version
    = Some (mk_version version (ParentV parent) None None INVAL_VERSION
              INVAL_VERSION da_id size 0) /\
  (forall y, y <> version ->
     castle_versions_hash st' !! y = castle_versions_hash st !! y) /\
  castle_versions_init_list st' = version :: castle_versions_init_list st /\
  versions_wf st'.
Proof.
  intros [t Hwf] Hfree Hsz. pose proof Hwf as Hwf0.
  destruct Hwf as (Hroot & Hrep & Hnd & _ & Hkey & Hin & Hun & Hndil & Hil).
  destruct (versions_wf_with_root _ _ _ Hwf0) as (rv & Hr & _).
  assert (Hv0 : version <> 0) by (intros ->; congruence).
  unfold castle_version_add.
  destruct (_ >? 900); [discriminate|].
  destruct (negb _); [discriminate|].
  rewrite (proj2 (Z.eqb_neq version 0) Hv0).
  intros [= <- <-]. cbn.
  set (nv := mk_version version (ParentV parent) None None INVAL_VERSION
               INVAL_VERSION da_id size 0).
  split; [reflexivity|]. split; [apply lookup_insert_eq|].
  split; [intros y Hy; apply lookup_insert_ne; congruence|].
  split; [reflexivity|].
  assert (Hvt : version ∉ tree_ids t).
  { intros Hvin. destruct (proj1 (repr_ids_inited _) _ _ _ Hrep _ Hvin) as (yv & Hy & _).
    congruence. }
  exists t. cbn [castle_versions_hash castle_versions_init_list set_hash set_init_list].
  change (set_flags (Z.land 0 (Z.lnot CV_INITED_MASK)) nv) with nv.
  split; [exact Hroot|]. split.
  { apply (proj1 (repr_frame (castle_versions_hash st) _)); [|exact Hrep].
    intros y Hy. apply lookup_insert_ne. intros ->. contradiction. }
  split; [exact Hnd|].
  split; [rewrite map_size_insert_None by exact Hfree; lia|].
  split.
  { intros y yv Hy. apply lookup_insert_Some in Hy as [[<- <-]|[_ Hy]]; [reflexivity|eauto]. }
  split.
  { intros y yv Hy Hi. apply lookup_insert_Some in Hy as [[<- <-]|[_ Hy]];
      [discriminate Hi|eauto]. }
  split.
  { intros y yv Hy Hi. apply lookup_insert_Some in Hy as [[<- <-]|[_ Hy]]; [|eauto].
    split; [reflexivity|]. exists parent. reflexivity. }
  split.
  { apply NoDup_cons. split; [|exact Hndil]. intros Hvin.
    destruct (Hil _ Hvin) as (yv & Hy & _). congruence. }
  intros y Hy. apply elem_of_cons in Hy as [->|Hy].
  - exists nv. rewrite lookup_insert_eq. auto.
  - destruct (Hil _ Hy) as (yv & Hyv & Hi). exists yv. split; [|exact Hi].
    rewrite lookup_insert_ne; [exact Hyv|]. intros ->. congruence.
Qed.

End VersionsAdd.

(** *** A sample registry *)

Lemma versions_wf_ext st st' :
  castle_versions_hash st' = castle_versions_hash st ->
  castle_versions_init_list st' = castle_versions_init_list st ->
  versions_wf st -> versions_wf st'.
Proof. intros Hh Hil [t Hwf]. exists t. rewrite Hh, Hil. exact Hwf. Qed.

Lemma sample_root_registry_wf : versions_wf sample_root_registry.
Proof.
  apply (castle_versions_zero_init_wf sample_inval_version sample_inval_version (fun _ => true)
           (fun _ => 0) sample_empty_registry); reflexivity.
Qed.

Lemma sample_add_wf st version parent :
  versions_wf st -> castle_versions_hash st !! version = None ->
  Z.of_nat (size (castle_versions_hash st)) + 1 < 2 ^ 32 ->
  (wrap_int32 (version_cnt st + 1) >? 900) = false ->
  versions_wf (sample_add st version parent).
Proof.
  intros Hwf Hfree Hsz Hcnt.
  apply (castle_version_add_wf sample_inval_version (fun _ => true) (fun _ => 0)
           st version parent 7 0 (sample_add st version parent) version Hwf Hfree Hsz).
  destruct Hwf as [t Hwf]. destruct (versions_wf_with_root _ _ _ Hwf) as (rv & Hr & _).
  assert (Hv0 : (version =? 0) = false) by (apply Z.eqb_neq; intros ->; congruence).
  unfold sample_add, castle_version_add. rewrite Hcnt, Hv0. reflexivity.
Qed.

Lemma sample_registry_wf : versions_wf sample_registry.
Proof.
  apply (versions_wf_ext
           (sample_add (sample_add (sample_add sample_root_registry 1 0) 2 0) 3 1));
    [vm_compute; reflexivity..|].
  repeat (apply sample_add_wf; [|vm_compute; reflexivity..]).
  apply sample_root_registry_wf.
Qed.

Lemma sample_registry_process :
  castle_versions_process (fun _ => 0) 20 sample_registry
  = Some (Done (0, sample_process sample_registry)).
Proof. vm_compute. reflexivity. Qed.

(** *** The quota and the deletion of versions *)

Section VersionsQuota.

Variable INVAL_VERSION : Z.
Variable INVAL_DA : Z.
Variable kmem_cache_alloc_ok : Z -> bool.
Variable castle_sysfs_version_add : Z -> Z.

Local Abbreviation version_add :=
  (castle_version_add INVAL_VERSION kmem_cache_alloc_ok castle_sysfs_version_add).
Local Abbreviation version_new :=
  (castle_version_new INVAL_VERSION INVAL_DA kmem_cache_alloc_ok castle_sysfs_version_add).
Local Abbreviation version_tree_delete :=
  (castle_version_tree_delete castle_sysfs_version_add).

Lemma castle_version_add_over_quota st version parent da_id size :
  900 <= version_cnt st < 2 ^ 31 - 1 ->
  version_add st version parent da_id size
  = (set_version_cnt st (version_cnt st + 1), None).
Proof.
  intros Hcnt. unfold castle_version_add.
  rewrite wrap_int32_small by lia.
  destruct (Z.gtb_spec (version_cnt st + 1) 900); [reflexivity|lia].
Qed.

Lemma castle_version_new_over_quota fuel st snap_or_clone parent da_id size :
  900 <= version_cnt st < 2 ^ 31 - 1 ->
  version_new fuel st snap_or_clone parent da_id size = Some BUG \/
  exists st', version_new fuel st snap_or_clone parent da_id size
              = Some (Done (st', INVAL_VERSION)) /\
              castle_versions_hash st' = castle_versions_hash st.
Proof.
  intros Hcnt. unfold castle_version_new, castle_version_new_create.
  destruct (castle_versions_hash st !! parent) as [p|]; [|right; eexists; split; reflexivity].
  destruct (VERSION_INVAL INVAL_VERSION (castle_versions_last st)); [left; reflexivity|].
  destruct (VERSION_INVAL INVAL_VERSION _); [left; reflexivity|].
  destruct (negb (DA_INVAL INVAL_DA da_id) && negb (DA_INVAL INVAL_DA (v_da_id p)));
    [left; reflexivity|].
  rewrite castle_version_add_over_quota by exact Hcnt.
  right. eexists. split; reflexivity.
Qed.

Lemma castle_versions_process_cnt fuel st err st' :
  castle_versions_process castle_sysfs_version_add fuel st = Some (Done (err, st')) ->
  version_cnt st' = version_cnt st.
Proof.
  unfold castle_versions_process.
  destruct (versions_process_init _ _ _ _ _ _) as [[[[[h1 il1] sl1] err1]|]|];
    try discriminate. cbn [fbind].
  destruct (h1 !! 0) as [root|]; [|discriminate].
  destruct (negb (v_inited root)); [discriminate|].
  destruct (v_parent_u root) as [|[|]]; try discriminate.
  destruct (versions_order_loop _ _ _ _ _) as [[h2|]|]; try discriminate. cbn [fbind].
  pose proof (versions_process_sysfs_registry castle_sysfs_version_add sl1
                (set_init_list (set_hash st h2) il1) err1) as (_ & _ & Hc).
  destruct (versions_process_sysfs _ _ _ _) as [st2 err2].
  intros [= <- <-]. exact Hc.
Qed.

Lemma castle_version_delete_cnt fuel st v st' parent :
  castle_version_delete fuel st v = Some (Done (st', parent)) ->
  version_cnt st' = version_cnt st.
Proof.
  unfold castle_version_delete.
  destruct (castle_versions_hash st !! v) as [vv|]; [|discriminate].
  destruct (v_attached vv); [discriminate|].
  destruct (negb (v_inited vv)); [discriminate|].
  destruct (v_parent_u vv); [discriminate|].
  destruct (castle_versions_drop _ _ _) as [[h|]|]; try discriminate.
  intros [= <- <-]. reflexivity.
Qed.

Lemma version_tree_delete_loop_cnt fuel : forall st v cur st' ret,
  version_tree_delete_loop fuel st v cur = Some (Done (st', ret)) ->
  version_cnt st' = version_cnt st.
Proof.
  induction fuel as [|fuel IH]; intros st v cur st' ret; [discriminate|].
  cbn [version_tree_delete_loop].
  destruct (castle_versions_hash st !! cur) as [cv|]; [|discriminate].
  destruct (v_first_child cv) as [child|]; [apply IH|].
  destruct (castle_version_delete (S fuel) st cur) as [[[st1 [parent|]]|]|] eqn:Hdel;
    try discriminate; cbn [fbind]; apply castle_version_delete_cnt in Hdel.
  - destruct (cur =? v).
    + intros [= <- <-]. exact Hdel.
    + intros Hrun. apply IH in Hrun. congruence.
  - intros [= <- <-]. exact Hdel.
Qed.

Lemma castle_version_tree_delete_cnt fuel st version st' ret :
  version_tree_delete fuel st version = Some (Done (st', ret)) ->
  version_cnt st' = version_cnt st.
Proof.
  unfold castle_version_tree_delete.
  destruct (castle_versions_hash st !! version) as [v|]; [|intros [= <- <-]; reflexivity].
  destruct (negb (v_inited v)); [discriminate|].
  destruct (version_tree_delete_loop fuel st version version) as [[[st1 r1]|]|] eqn:Hloop;
    try discriminate. cbn [fbind].
  apply version_tree_delete_loop_cnt in Hloop.
  destruct r1; try (intros [= <- <-]; exact Hloop).
  destruct (castle_versions_process _ _ _) as [[[err st2]|]|] eqn:Hp; try discriminate.
  cbn [fbind]. intros [= <- <-]. apply castle_versions_process_cnt in Hp.
  simpl. congruence.
Qed.

Lemma castle_versions_zero_init_cnt st :
  version_cnt (castle_versions_zero_init INVAL_VERSION INVAL_DA kmem_cache_alloc_ok
                 castle_sysfs_version_add st).1
  = wrap_int32 (version_cnt st + 1).
Proof.
  unfold castle_versions_zero_init.
  pose proof (castle_version_add_cnt INVAL_VERSION kmem_cache_alloc_ok
                castle_sysfs_version_add st 0 0 INVAL_DA 0) as Hc.
  destruct (castle_version_add _ _ _ st 0 0 INVAL_DA 0) as [st1 [v|]]; exact Hc.
Qed.

Lemma versions_read_entries_cnt entries : forall st st',
  - 2 ^ 31 <= version_cnt st ->
  version_cnt st + Z.of_nat (length entries) < 2 ^ 31 ->
  versions_read_entries INVAL_VERSION kmem_cache_alloc_ok castle_sysfs_version_add
    st entries = (st', 0) ->
  version_cnt st' = version_cnt st + Z.of_nat (length entries).
Proof.
  induction entries as [|[[[version_nr parent] size] da_id] entries IH];
    intros st st' Hlo Hhi Hrun.
  - injection Hrun as <-. simpl. lia.
  - cbn [versions_read_entries length] in *.
    pose proof (castle_version_add_cnt INVAL_VERSION kmem_cache_alloc_ok
                  castle_sysfs_version_add st version_nr parent da_id size) as Hc.
    rewrite wrap_int32_small in Hc by lia.
    destruct (castle_version_add _ _ _ st version_nr parent da_id size) as [st1 [v|]];
      [|discriminate Hrun].
    cbn [fst] in Hc.
    apply IH in Hrun.
    + rewrite Hrun.
      destruct (VERSION_INVAL INVAL_VERSION (castle_versions_last st1) ||
                (v >? castle_versions_last st1)); cbn [version_cnt set_last]; lia.
    + destruct (VERSION_INVAL INVAL_VERSION (castle_versions_last st1) ||
                (v >? castle_versions_last st1)); cbn [version_cnt set_last]; lia.
    + destruct (VERSION_INVAL INVAL_VERSION (castle_versions_last st1) ||
                (v >? castle_versions_last st1)); cbn [version_cnt set_last]; lia.
Qed.

Lemma castle_version_add_repeat_over_quota n : forall st version parent da_id size,
  900 <= version_cnt st -> version_cnt st + Z.of_nat n <= 2 ^ 31 - 1 ->
  castle_version_add_repeat INVAL_VERSION kmem_cache_alloc_ok castle_sysfs_version_add
    n st version parent da_id size
  = set_version_cnt st (version_cnt st + Z.of_nat n).
Proof.
  induction n as [|n IH]; intros st version parent da_id size Hlo Hhi.
  - cbn [castle_version_add_repeat]. destruct st. unfold set_version_cnt. cbn.
    f_equal. lia.
  - cbn [castle_version_add_repeat].
    rewrite castle_version_add_over_quota by lia. cbn [fst].
    rewrite IH by (cbn [version_cnt set_version_cnt]; lia).
    unfold set_version_cnt. cbn. f_equal. lia.
Qed.

Lemma castle_version_add_wraps st version parent da_id size :
  version_cnt st = 2 ^ 31 - 1 -> version <> 0 -> kmem_cache_alloc_ok version = true ->
  exists st', version_add st version parent da_id size = (st', Some version) /\
              version_cnt st' = - 2 ^ 31.
Proof.
  intros Hcnt Hv Hmem. unfold castle_version_add. rewrite Hcnt.
  replace (wrap_int32 (2 ^ 31 - 1 + 1)) with (- 2 ^ 31) by reflexivity.
  replace (- 2 ^ 31 >? 900) with false by reflexivity.
  rewrite Hmem. cbn [negb]. rewrite (proj2 (Z.eqb_neq _ _) Hv).
  eexists. split; reflexivity.
Qed.

(** C10, with the bound it needs. The quota is charged on every call of
    [castle_version_add], whatever the version and whatever the outcome:
    the bootstrap of the root counts for one, the versions read from the
    metadata store for one each; deleting versions gives nothing back; so
    while the counter is at 900 or above and has not reached 2^31 - 1,
    every further add fails and changes the counter only, and every
    [castle_version_new] that returns gives [INVAL_VERSION] and the hash it
    was given. The counter is a 32-bit [atomic_t] that the failed calls
    charge too: at 2^31 - 1 the next add wraps it to -2^31 and succeeds. *)
Theorem castle_version_add_quota_cumulative st version parent da_id size :
  900 <= version_cnt st < 2 ^ 31 - 1 ->
  (forall st0 version0 parent0 da_id0 size0,
     version_cnt (version_add st0 version0 parent0 da_id0 size0).1
     = wrap_int32 (version_cnt st0 + 1)) /\
  (forall st0,
     version_cnt (castle_versions_zero_init INVAL_VERSION INVAL_DA kmem_cache_alloc_ok
                    castle_sysfs_version_add st0).1
     = wrap_int32 (version_cnt st0 + 1)) /\
  (forall st0 entries st1,
     - 2 ^ 31 <= version_cnt st0 ->
     version_cnt st0 + Z.of_nat (length entries) < 2 ^ 31 ->
     versions_read_entries INVAL_VERSION kmem_cache_alloc_ok castle_sysfs_version_add
       st0 entries = (st1, 0) ->
     version_cnt st1 = version_cnt st0 + Z.of_nat (length entries)) /\
  (forall fuel st0 version0 st1 ret,
     version_tree_delete fuel st0 version0 = Some (Done (st1, ret)) ->
     version_cnt st1 = version_cnt st0) /\
  version_add st version parent da_id size
  = (set_version_cnt st (version_cnt st + 1), None) /\
  (forall fuel snap_or_clone,
     version_new fuel st snap_or_clone parent da_id size = Some BUG \/
     exists st', version_new fuel st snap_or_clone parent da_id size
                 = Some (Done (st', INVAL_VERSION)) /\
                 castle_versions_hash st' = castle_versions_hash st) /\
  (forall st0 version0 parent0 da_id0 size0,
     version_cnt st0 = 2 ^ 31 - 1 -> version0 <> 0 ->
     kmem_cache_alloc_ok version0 = true ->
     exists st1, version_add st0 version0 parent0 da_id0 size0 = (st1, Some version0) /\
                 version_cnt st1 = - 2 ^ 31).
Proof.
  intros Hcnt.
  split; [intros; apply castle_version_add_cnt|].
  split; [apply castle_versions_zero_init_cnt|].
  split; [intros st0 entries st1; apply versions_read_entries_cnt|].
  split; [intros fuel st0 version0 st1 ret; apply castle_version_tree_delete_cnt|].
  split; [apply castle_version_add_over_quota, Hcnt|].
  split; [intros fuel snap_or_clone; apply castle_version_new_over_quota, Hcnt|].
  intros st0 version0 parent0 da_id0 size0. apply castle_version_add_wraps.
Qed.

Lemma castle_version_tree_delete_attached_leaf fuel st version v :
  castle_versions_hash st !! version = Some v ->
  v_inited v = true -> v_first_child v = None -> v_attached v = true ->
  version_tree_delete (S fuel) st version = Some BUG.
Proof.
  intros Hv Hi Hfc Hat. unfold castle_version_tree_delete. rewrite Hv, Hi.
  cbn [negb version_tree_delete_loop]. rewrite Hv, Hfc.
  unfold castle_version_delete. rewrite Hv, Hat. reflexivity.
Qed.

End VersionsQuota.

Lemma castle_version_add_quota_cumulative_witness :
  version_cnt (set_version_cnt sample_registry 900) = 900 /\
  castle_version_add sample_inval_version (fun _ => true) (fun _ => 0)
    (set_version_cnt sample_registry 900) 4 0 7 0
  = (set_version_cnt sample_registry 901, None).
Proof.
  split; [reflexivity|].
  assert (Hcnt : 900 <= version_cnt (set_version_cnt sample_registry 900) < 2 ^ 31 - 1)
    by (cbn [version_cnt set_version_cnt]; lia).
  exact (proj1 (proj2 (proj2 (proj2 (proj2
           (castle_version_add_quota_cumulative sample_inval_version
              sample_inval_version (fun _ => true) (fun _ => 0)
              (set_version_cnt sample_registry 900) 4 0 7 0 Hcnt)))))).
Defined.

(** C10 as stated does not hold: on a registry of four versions on which
    900 additions have been charged, 2^31 - 901 further calls of
    [castle_version_add] fail and leave the hash as it is, each of them
    charged too; the counter is then 2^31 - 1, and the next add wraps it
    and succeeds. *)
Lemma castle_version_add_quota_wrap_counterexample :
  let st := castle_version_add_repeat sample_inval_version (fun _ => true) (fun _ => 0)
              (Z.to_nat (2 ^ 31 - 901)) (set_version_cnt sample_registry 900) 4 0 7 0 in
  version_cnt (set_version_cnt sample_registry 900) = 900 /\
  castle_versions_hash st = castle_versions_hash sample_registry /\
  version_cnt st = 2 ^ 31 - 1 /\
  (castle_version_add sample_inval_version (fun _ => true) (fun _ => 0) st 4 0 7 0).2
  = Some 4.
Proof.
  intros st. subst st.
  rewrite (castle_version_add_repeat_over_quota sample_inval_version (fun _ => true)
             (fun _ => 0));
    [|cbn [version_cnt set_version_cnt]; lia
     |cbn [version_cnt set_version_cnt]; rewrite Z2Nat.id by lia; lia].
  rewrite Z2Nat.id by lia.
  cbn [version_cnt set_version_cnt castle_versions_hash].
  split; [reflexivity|]. split; [reflexivity|]. split; [reflexivity|].
  vm_compute. reflexivity.
Qed.

(** *** [castle_version_new] *)

Lemma versions_process_init_list fuel : forall h il sl err v h' il' sl' err',
  versions_process_init fuel h il sl err v = Some (Done (h', il', sl', err')) ->
  il' = [].
Proof.
  induction fuel as [|fuel IH]; intros h il sl err v h' il' sl' err' Hrun;
    [discriminate|].
  cbn [versions_process_init] in Hrun.
  destruct v as [x|].
  2: destruct il as [|x il0]; [injection Hrun as <- <- <- <-; reflexivity|];
     cbn [head] in Hrun.
  all: destruct (negb (bool_decide (x ∈ _))); [discriminate|];
    destruct (h !! x) as [xv|]; [|discriminate];
    destruct (v_inited xv); [discriminate|];
    destruct (v_parent_u xv) as [parent_v|]; [|discriminate];
    destruct (h !! parent_v) as [pv|]; [|discriminate];
    destruct (v_snap xv && negb (is_null (v_first_child pv))); [eapply IH; eauto|];
    destruct (negb (v_snap xv) && v_attached pv && is_null (v_first_child pv));
      [eapply IH; eauto|];
    destruct (negb (v_inited pv)); [eapply IH; eauto|];
    destruct (castle_versions_insert (S fuel) h parent_v x) as [[h1|]|];
      try discriminate; cbn [fbind] in Hrun; eapply IH; eauto.
Qed.

(** A completed run of [castle_versions_process] empties the init list. *)
Lemma castle_versions_process_init_list sysfs fuel st err st' :
  castle_versions_process sysfs fuel st = Some (Done (err, st')) ->
  castle_versions_init_list st' = [].
Proof.
  unfold castle_versions_process.
  destruct (versions_process_init _ _ _ _ _ _) as [[[[[h1 il1] sl1] err1]|]|] eqn:Hinit;
    try discriminate. cbn [fbind].
  apply versions_process_init_list in Hinit. subst il1.
  destruct (h1 !! 0) as [root|]; [|discriminate].
  destruct (negb (v_inited root)); [discriminate|].
  destruct (v_parent_u root) as [|[|]]; try discriminate.
  destruct (versions_order_loop _ _ _ _ _) as [[h2|]|]; try discriminate. cbn [fbind].
  pose proof (versions_process_sysfs_registry sysfs sl1
                (set_init_list (set_hash st h2) []) err1) as (_ & Hil & _).
  destruct (versions_process_sysfs _ _ _ _) as [st2 err2].
  intros [= <- <-]. exact Hil.
Qed.

(** A change to a version that is not inited, which keeps its number, its
    parent's number, its having no child and its not being inited, keeps the
    registry well formed. *)
Lemma versions_wf_with_alter_uninited t h il v vv (f : castle_version -> castle_version) :
  versions_wf_with t h il -> h !! v = Some vv -> v_inited vv = false ->
  (forall x, v_version (f x) = v_version x /\ v_parent_u (f x) = v_parent_u x /\
             v_first_child (f x) = v_first_child x /\ v_inited (f x) = v_inited x) ->
  versions_wf_with t (alter f v h) il.
Proof.
  intros (Hroot & Hrep & Hnd & Hsz & Hkey & Hin & Hun & Hndil & Hil) Hv Hvi Hf.
  assert (Hvt : v ∉ tree_ids t).
  { intros Hvin. destruct (proj1 (repr_ids_inited _) _ _ _ Hrep _ Hvin) as (yv & Hy & Hi).
    congruence. }
  assert (Hcases : forall y yv', alter f v h !! y = Some yv' ->
            exists yv, h !! y = Some yv /\ v_version yv' = v_version yv /\
              v_parent_u yv' = v_parent_u yv /\ v_first_child yv' = v_first_child yv /\
              v_inited yv' = v_inited yv).
  { intros y yv' Hy. rewrite lookup_alter_orders in Hy.
    destruct (decide (v = y)) as [<-|Hne].
    - rewrite Hv in Hy. injection Hy as <-. exists vv. split; [exact Hv|apply Hf].
    - exists yv'. auto. }
  split; [exact Hroot|]. split.
  { apply (proj1 (repr_frame h _)); [|exact Hrep].
    intros y Hy. apply lookup_alter_ne. intros ->. contradiction. }
  split; [exact Hnd|].
  split; [rewrite size_alter_hash; exact Hsz|].
  split.
  { intros y yv' Hy. destruct (Hcases _ _ Hy) as (yv & Hyv & -> & _). eauto. }
  split.
  { intros y yv' Hy Hi. destruct (Hcases _ _ Hy) as (yv & Hyv & _ & _ & _ & Hi').
    rewrite Hi' in Hi. eauto. }
  split.
  { intros y yv' Hy Hi. destruct (Hcases _ _ Hy) as (yv & Hyv & _ & -> & -> & Hi').
    rewrite Hi' in Hi. eauto. }
  split; [exact Hndil|].
  intros y Hy. destruct (Hil _ Hy) as (yv & Hyv & Hi).
  rewrite lookup_alter_orders. destruct (decide (v = y)) as [<-|Hne]; [|eauto].
  rewrite Hv. eexists. split; [reflexivity|].
  rewrite (proj2 (proj2 (proj2 (Hf vv)))). exact Hvi.
Qed.

(** Taking a version that is not inited out of a registry whose init list
    is empty keeps the registry well formed. *)
Lemma versions_wf_with_delete_uninited t h v vv :
  versions_wf_with t h [] -> h !! v = Some vv -> v_inited vv = false ->
  versions_wf_with t (delete v h) [].
Proof.
  intros (Hroot & Hrep & Hnd & Hsz & Hkey & Hin & Hun & Hndil & Hil) Hv Hvi.
  assert (Hvt : v ∉ tree_ids t).
  { intros Hvin. destruct (proj1 (repr_ids_inited _) _ _ _ Hrep _ Hvin) as (yv & Hy & Hi).
    congruence. }
  split; [exact Hroot|]. split.
  { apply (proj1 (repr_frame h _)); [|exact Hrep].
    intros y Hy. apply lookup_delete_ne. intros ->. contradiction. }
  split; [exact Hnd|].
  split.
  { pose proof (map_size_delete v h) as Hd. rewrite Hv in Hd. simpl in Hd. lia. }
  split.
  { intros y yv Hy. apply lookup_delete_Some in Hy as [_ Hy]. eauto. }
  split.
  { intros y yv Hy. apply lookup_delete_Some in Hy as [_ Hy]. eauto. }
  split.
  { intros y yv Hy. apply lookup_delete_Some in Hy as [_ Hy]. eauto. }
  split; [exact Hndil|].
  intros y Hy. apply elem_of_nil in Hy. contradiction.
Qed.

Lemma orders_nested_delete_uninited h v vv :
  orders_nested h -> h !! v = Some vv -> v_inited vv = false ->
  orders_nested (delete v h).
Proof.
  intros Hn Hv Hvi x xv Hx Hxi Hx0. apply lookup_delete_Some in Hx as [Hxv Hx].
  destruct (Hn x xv Hx Hxi Hx0) as (p & pv & Hpar & Hp & Hpi & Ho).
  exists p, pv. split; [exact Hpar|]. split; [|auto].
  rewrite lookup_delete_ne; [exact Hp|]. intros ->. congruence.
Qed.

Lemma v_inited_snap_flag (b : bool) x :
  v_inited (set_flags (if b then Z.lor (v_flags x) CV_SNAP_MASK
                       else Z.land (v_flags x) (Z.lnot CV_SNAP_MASK)) x)
  = v_inited x.
Proof.
  unfold v_inited, test_mask. cbn [v_flags set_flags]. do 2 f_equal.
  destruct b.
  - rewrite Z.land_lor_distr_l. change (Z.land CV_SNAP_MASK CV_INITED_MASK) with 0.
    apply Z.lor_0_r.
  - rewrite <- Z.land_assoc. reflexivity.
Qed.

Section VersionNew.

Variable INVAL_VERSION : Z.
Variable INVAL_DA : Z.
Variable kmem_cache_alloc_ok : Z -> bool.
Variable castle_sysfs_version_add : Z -> Z.

(** P5 after [castle_version_new]: on a well-formed registry where the next
    version number is free, a call that returns leaves the registry well
    formed; and either it has not touched the hash (no such parent, quota,
    no memory) or it has run [castle_versions_process], and every inited
    version but the root is enclosed by its parent. *)
Lemma castle_version_new_orders_nested fuel st snap_or_clone parent da_id size st' r :
  versions_wf st ->
  castle_versions_hash st !! wrap32 (castle_versions_last st + 1) = None ->
  Z.of_nat (base.size (castle_versions_hash st)) + 1 < 2 ^ 32 ->
  castle_version_new INVAL_VERSION INVAL_DA kmem_cache_alloc_ok castle_sysfs_version_add
    fuel st snap_or_clone parent da_id size = Some (Done (st', r)) ->
  versions_wf st' /\
  (castle_versions_hash st' = castle_versions_hash st \/
   orders_nested (castle_versions_hash st')).
Proof.
  intros Hwf Hfree Hsz. unfold castle_version_new, castle_version_new_create.
  destruct (castle_versions_hash st !! parent) as [p|];
    [|intros [= <- <-]; auto].
  destruct (VERSION_INVAL INVAL_VERSION (castle_versions_last st)); [discriminate|].
  destruct (VERSION_INVAL INVAL_VERSION _); [discriminate|].
  destruct (negb (DA_INVAL INVAL_DA da_id) && negb (DA_INVAL INVAL_DA (v_da_id p)));
    [discriminate|].
  set (version := wrap32 (castle_versions_last st + 1)) in *.
  set (da := if DA_INVAL INVAL_DA da_id then v_da_id p else da_id).
  destruct (castle_version_add _ _ _ (set_last st version) version parent da size)
    as [st1 [v|]] eqn:Hadd.
  2: { cbn [fbind fret]. intros [= <- <-].
       apply castle_version_add_fails in Hadd as (Hh & Hil & _).
       split; [|left; exact Hh]. apply (versions_wf_ext st); assumption. }
  apply castle_version_add_wf in Hadd as (-> & Hnew & Hother & Hil1 & Hwf1);
    [|apply (versions_wf_ext st); [reflexivity..|exact Hwf]|exact Hfree|exact Hsz].
  set (nv := mk_version version (ParentV parent) None None INVAL_VERSION
               INVAL_VERSION da size 0) in *.
  set (f1 := set_size (v_size p)).
  set (f2 := fun x => set_flags (if negb (snap_or_clone =? 0)
                                 then Z.lor (v_flags x) CV_SNAP_MASK
                                 else Z.land (v_flags x) (Z.lnot CV_SNAP_MASK)) x).
  set (h1 := if negb (v_size p =? 0) then alter f1 version (castle_versions_hash st1)
             else castle_versions_hash st1).
  assert (Hh1 : exists nv1, h1 !! version = Some nv1 /\ v_inited nv1 = false /\
            exists t, versions_wf_with t h1 (castle_versions_init_list st1)).
  { destruct Hwf1 as [t Hwf1]. subst h1. destruct (negb (v_size p =? 0)).
    - exists (f1 nv). rewrite lookup_alter_eq, Hnew.
      split; [reflexivity|]. split; [reflexivity|]. exists t.
      apply (versions_wf_with_alter_uninited t _ _ version nv); auto.
    - exists nv. split; [exact Hnew|]. split; [reflexivity|]. eauto. }
  destruct Hh1 as (nv1 & Hnv1 & Hnvi & t & Hwf_h1).
  assert (Hwf2 : versions_wf (set_hash st1 (alter f2 version h1))).
  { exists t. cbn [castle_versions_hash castle_versions_init_list set_hash].
    apply (versions_wf_with_alter_uninited t _ _ version nv1); auto.
    intros x. repeat split. unfold f2. apply v_inited_snap_flag. }
  destruct (castle_versions_process castle_sysfs_version_add fuel
              (set_hash st1 (alter f2 version h1))) as [[[err st2]|]|] eqn:Hproc;
    try discriminate.
  cbn [fbind].
  pose proof (castle_versions_process_init_list _ _ _ _ _ Hproc) as Hil2.
  apply versions_process_orders_wf in Hproc as [Hnest [t2 Hwf_st2]];
    [|exact Hwf2].
  destruct (castle_versions_hash st2 !! version) as [vv|] eqn:Hvv; [|discriminate].
  destruct (v_inited vv) eqn:Hvi; cbn [negb fret].
  - unfold fbind, fret. cbn [castle_versions_hash v_emit]. rewrite Hvv. intros [= <- <-].
    split; [exists t2; exact Hwf_st2|right; exact Hnest].
  - unfold fbind, fret. intros [= <- <-]. cbn [castle_versions_hash set_hash].
    rewrite Hil2 in Hwf_st2. split.
    + exists t2. cbn [castle_versions_hash castle_versions_init_list set_hash].
      rewrite Hil2. apply (versions_wf_with_delete_uninited t2 _ version vv); assumption.
    + right. apply (orders_nested_delete_uninited _ version vv); assumption.
Qed.

End VersionNew.

(** *** Deleting a version *)

(** The pointers determine the tree. *)
Lemma repr_tree_forest_det h :
  (forall t1 t2 pa na pb nb,
     repr_tree h pa na t1 -> repr_tree h pb nb t2 ->
     tree_root t1 = tree_root t2 -> t1 = t2) /\
  (forall cs1 cs2 pa pb,
     repr_forest h pa cs1 -> repr_forest h pb cs2 ->
     head_id cs1 = head_id cs2 -> cs1 = cs2).
Proof.
  apply (vtree_forest_ind
           (fun t1 => forall t2 pa na pb nb,
              repr_tree h pa na t1 -> repr_tree h pb nb t2 ->
              tree_root t1 = tree_root t2 -> t1 = t2)
           (fun cs1 => forall cs2 pa pb,
              repr_forest h pa cs1 -> repr_forest h pb cs2 ->
              head_id cs1 = head_id cs2 -> cs1 = cs2)).
  - intros x cs IH [y ds] pa na pb nb H1 H2 Hroot. simpl in Hroot. subst y.
    apply repr_tree_inv in H1 as [(xv & Hx & _ & _ & _ & _ & Hfc) Hcs].
    apply repr_tree_inv in H2 as [(xv' & Hx' & _ & _ & _ & _ & Hfc') Hds].
    f_equal. apply (IH ds _ _ Hcs Hds). congruence.
  - intros [|d ds] pa pb _ _ Hh; [reflexivity|discriminate].
  - intros c cs IHc IHcs [|d ds] pa pb H1 H2 Hh; [discriminate|].
    inversion H1 as [|? ? ? Hc Hcs]; subst. inversion H2 as [|? ? ? Hd Hds]; subst.
    assert (Hr : tree_root c = tree_root d) by (apply (inj Some); exact Hh).
    pose proof (IHc d _ _ _ _ Hc Hd Hr) as <-.
    f_equal. apply (IHcs ds _ _ Hcs Hds).
    destruct c as [x es].
    apply repr_tree_inv in Hc as [(xv & Hx & _ & _ & _ & Hnx & _) _].
    apply repr_tree_inv in Hd as [(xv' & Hx' & _ & _ & _ & Hnx' & _) _].
    congruence.
Qed.

(** A node that is not the root is a child of a node of the tree. *)
Lemma child_split h v :
  (forall t parent next,
     repr_tree h parent next t -> NoDup (tree_ids t) ->
     v ∈ tree_ids t -> v <> tree_root t ->
     exists p parent' next' c1 ds c2,
       repr_tree h parent' next' (VNode p (c1 ++ VNode v ds :: c2)) /\
       subtree_ids p t = tree_ids (VNode p (c1 ++ VNode v ds :: c2)) /\
       NoDup (tree_ids (VNode p (c1 ++ VNode v ds :: c2)))) /\
  (forall cs parent,
     repr_forest h parent cs -> NoDup (forest_ids cs) -> v ∈ forest_ids cs ->
     (exists c1 ds c2, cs = c1 ++ VNode v ds :: c2) \/
     (exists p parent' next' c1 ds c2,
        repr_tree h parent' next' (VNode p (c1 ++ VNode v ds :: c2)) /\
        flat_map (subtree_ids p) cs = tree_ids (VNode p (c1 ++ VNode v ds :: c2)) /\
        NoDup (tree_ids (VNode p (c1 ++ VNode v ds :: c2))))).
Proof.
  apply vtree_forest_ind.
  - intros a cs IH parent next Hr Hnd Hv Hne. cbn [tree_root] in Hne.
    pose proof Hnd as Hnd0.
    rewrite tree_ids_node in Hnd, Hv. apply NoDup_cons in Hnd as [Ha Hndf].
    apply elem_of_cons in Hv as [->|Hv]; [congruence|].
    destruct (repr_tree_inv _ _ _ _ _ Hr) as [_ Hf].
    destruct (IH _ Hf Hndf Hv) as
      [(c1 & ds & c2 & ->)|(p & par' & nx' & c1 & ds & c2 & Hr' & Hs' & Hnd')].
    + exists a, parent, next, c1, ds, c2. split; [exact Hr|]. split; [|exact Hnd0].
      simpl. rewrite Z.eqb_refl. reflexivity.
    + exists p, par', nx', c1, ds, c2. split; [exact Hr'|]. split; [|exact Hnd'].
      simpl. destruct (Z.eqb_spec a p) as [->|_]; [|exact Hs'].
      exfalso. apply Ha. apply (proj2 (subtree_ids_sub p)). rewrite Hs'.
      apply list_elem_of_here.
  - intros parent _ _ Hv. apply elem_of_nil in Hv. contradiction.
  - intros c cs IHc IHcs parent Hr Hnd Hv.
    inversion Hr as [|? ? ? Hc Hcs]; subst.
    rewrite forest_ids_cons in Hnd, Hv.
    apply NoDup_app in Hnd as (Hndc & Hdisj & Hndcs).
    apply elem_of_app in Hv as [Hv|Hv].
    + destruct (decide (v = tree_root c)) as [->|Hne].
      * left. exists [], (tree_children c), cs. destruct c; reflexivity.
      * right. destruct (IHc _ _ Hc Hndc Hv Hne)
          as (p & par' & nx' & c1 & ds & c2 & Hr' & Hs' & Hnd').
        exists p, par', nx', c1, ds, c2. split; [exact Hr'|]. split; [|exact Hnd'].
        simpl. rewrite (proj2 (subtree_ids_notin p) cs), app_nil_r; [exact Hs'|].
        intros Hin. apply (Hdisj p); [|exact Hin].
        apply (proj1 (subtree_ids_sub p)). rewrite Hs'. apply list_elem_of_here.
    + destruct (IHcs _ Hcs Hndcs Hv) as
        [(c1 & ds & c2 & ->)|(p & par' & nx' & c1 & ds & c2 & Hr' & Hs' & Hnd')].
      * left. exists (c :: c1), ds, c2. reflexivity.
      * right. exists p, par', nx', c1, ds, c2. split; [exact Hr'|]. split; [|exact Hnd'].
        simpl. rewrite (proj1 (subtree_ids_notin p) c); [exact Hs'|].
        intros Hin. apply (Hdisj p Hin).
        apply (proj2 (subtree_ids_sub p)). rewrite Hs'. apply list_elem_of_here.
Qed.

Lemma repr_forest_cons_inv h parent c cs :
  repr_forest h parent (c :: cs) ->
  repr_tree h parent (head_id cs) c /\ repr_forest h parent cs.
Proof. intros Hr. inversion Hr; subst. auto. Qed.

Lemma repr_tree_root_lookup h parent next c :
  repr_tree h parent next c ->
  exists cv, h !! tree_root c = Some cv /\ v_next_sybling cv = next /\
             v_parent_u cv = ParentPtr parent /\ v_inited cv = true /\
             v_first_child cv = head_id (tree_children c).
Proof.
  destruct c as [x cs]. intros Hr.
  apply repr_tree_inv in Hr as [(xv & Hx & _ & Hi & Hp & Hnx & Hfc) _].
  exists xv. auto.
Qed.

Lemma versions_drop_walk_step fuel h p v v_next prev s :
  versions_drop_walk (S fuel) h p v v_next prev (Some s)
  = match (if s =? v then slot_store h (slot_of_prev p prev) v_next else h) !! s with
    | None => fbug
    | Some sv =>
        versions_drop_walk fuel
          (if s =? v then slot_store h (slot_of_prev p prev) v_next else h)
          p v v_next (Some s) (v_next_sybling sv)
    end.
Proof. destruct prev; reflexivity. Qed.

(** The walk of [castle_versions_drop] over children none of which is [v]
    changes nothing. *)
Lemma versions_drop_walk_skip p v v_next cs : forall fuel h parent prev,
  repr_forest h parent cs -> (forall c, c ∈ cs -> tree_root c <> v) ->
  (length cs <= fuel)%nat ->
  versions_drop_walk fuel h p v v_next prev (head_id cs) = fret h.
Proof.
  induction cs as [|c cs IH]; intros fuel h parent prev Hr Hne Hfuel.
  - destruct fuel; reflexivity.
  - apply repr_forest_cons_inv in Hr as [Hc Hcs].
    destruct (repr_tree_root_lookup _ _ _ _ Hc) as (cv & Hcv & Hnx & _).
    destruct fuel as [|fuel]; [simpl in Hfuel; lia|].
    change (head_id (c :: cs)) with (Some (tree_root c)).
    rewrite versions_drop_walk_step.
    rewrite (proj2 (Z.eqb_neq _ _) (Hne c (list_elem_of_here _ _))).
    rewrite Hcv, Hnx. apply (IH fuel h parent); [exact Hcs| |simpl in Hfuel; lia].
    intros c' Hc'. apply Hne, list_elem_of_further, Hc'.
Qed.

Lemma lookup_slot_store_ne h slot v y :
  slot_id slot <> y -> slot_store h slot v !! y = h !! y.
Proof. intros Hne. rewrite slot_store_alter. apply lookup_alter_ne, Hne. Qed.

(** The walk over children one of which is [v] writes the slot before [v]. *)
Lemma versions_drop_walk_unlink p v v_next parent ds c2 : forall c1 fuel h prev,
  repr_forest h parent (c1 ++ VNode v ds :: c2) ->
  NoDup (forest_ids (c1 ++ VNode v ds :: c2)) ->
  slot_id (slot_of_prev p prev) ∉ forest_ids (c1 ++ VNode v ds :: c2) ->
  (length (c1 ++ VNode v ds :: c2) <= fuel)%nat ->
  versions_drop_walk fuel h p v v_next prev (head_id (c1 ++ VNode v ds :: c2))
  = fret (slot_store h (last_slot (slot_of_prev p prev) c1) v_next).
Proof.
  induction c1 as [|c c1 IH]; intros fuel h prev Hr Hnd Hslot Hfuel.
  - cbn [app] in *. apply repr_forest_cons_inv in Hr as [Hv Hc2].
    destruct (repr_tree_root_lookup _ _ _ _ Hv) as (vv & Hvv & Hnx & _).
    cbn [tree_root] in Hvv.
    rewrite forest_ids_cons in Hnd, Hslot.
    apply NoDup_app in Hnd as (_ & Hdisj & _).
    apply not_elem_of_app in Hslot as [Hs1 Hs2].
    destruct fuel as [|fuel]; [simpl in Hfuel; lia|].
    change (head_id (VNode v ds :: c2)) with (Some v).
    rewrite versions_drop_walk_step, Z.eqb_refl.
    rewrite lookup_slot_store_ne, Hvv, Hnx.
    2: { intros Heq. apply Hs1. rewrite Heq. apply list_elem_of_here. }
    apply (versions_drop_walk_skip p v v_next c2 fuel _ parent);
      [| |simpl in Hfuel; lia].
    + apply (proj2 (repr_frame h _)); [|exact Hc2].
      intros y Hy. apply lookup_slot_store_ne. intros Heq. apply Hs2. rewrite Heq. exact Hy.
    + intros c' Hc' Heq. apply (Hdisj v); [apply list_elem_of_here|].
      apply elem_of_forest_ids. exists c'. split; [exact Hc'|].
      rewrite <- Heq. apply tree_root_in_ids.
  - cbn [app] in *. apply repr_forest_cons_inv in Hr as [Hc Hrest].
    destruct (repr_tree_root_lookup _ _ _ _ Hc) as (cv & Hcv & Hnx & _).
    rewrite forest_ids_cons in Hnd, Hslot.
    apply NoDup_app in Hnd as (_ & Hdisj & Hndrest).
    apply not_elem_of_app in Hslot as [Hs1 Hs2].
    assert (Hcne : tree_root c <> v).
    { intros Heq. apply (Hdisj v); [rewrite <- Heq; apply tree_root_in_ids|].
      apply elem_of_forest_ids. exists (VNode v ds).
      split; [apply elem_of_app; right; apply list_elem_of_here|apply list_elem_of_here]. }
    destruct fuel as [|fuel]; [simpl in Hfuel; lia|].
    change (head_id (c :: c1 ++ VNode v ds :: c2)) with (Some (tree_root c)).
    rewrite versions_drop_walk_step, (proj2 (Z.eqb_neq _ _) Hcne), Hcv, Hnx.
    rewrite last_slot_cons.
    apply (IH fuel h (Some (tree_root c))); [exact Hrest|exact Hndrest| |simpl in Hfuel; lia].
    cbn [slot_of_prev slot_id]. intros Hin. apply (Hdisj (tree_root c)); [|exact Hin].
    apply tree_root_in_ids.
Qed.

(** The hash after the child [v] went out from between [c1] and [c2]: only
    the last of [c1] changed, and points to the head of [c2]. *)
Lemma repr_forest_remove_split h h3 parent v ds c2 : forall c1,
  repr_forest h parent (c1 ++ VNode v ds :: c2) ->
  NoDup (forest_ids (c1 ++ VNode v ds :: c2)) ->
  (forall y, y ∈ forest_ids (c1 ++ c2) ->
     (forall c, last c1 = Some c -> y <> tree_root c) -> h3 !! y = h !! y) ->
  (forall c cv, last c1 = Some c -> h !! tree_root c = Some cv ->
     h3 !! tree_root c = Some (set_next_sybling (head_id c2) cv)) ->
  repr_forest h3 parent (c1 ++ c2).
Proof.
  induction c1 as [|c c1 IH]; intros Hr Hnd Hag Hlast.
  - cbn [app] in *. apply repr_forest_cons_inv in Hr as [_ Hc2].
    apply (proj2 (repr_frame h h3)); [|exact Hc2].
    intros y Hy. apply Hag; [exact Hy|discriminate].
  - cbn [app] in *. apply repr_forest_cons_inv in Hr as [Hc Hrest].
    rewrite forest_ids_cons in Hnd. apply NoDup_app in Hnd as (Hndc & Hdisj & Hndrest).
    constructor.
    + destruct c1 as [|c1h c1t].
      * cbn [app] in *. destruct c as [a es].
        apply repr_tree_inv in Hc as [Hn Hes].
        rewrite tree_ids_node in Hndc. apply NoDup_cons in Hndc as [Hanot Hndes].
        destruct Hn as (av & Ha & Hver & Hi & Hp & Hnx & Hfc).
        constructor.
        -- exists (set_next_sybling (head_id c2) av).
           split; [apply (Hlast (VNode a es)); [reflexivity|exact Ha]|].
           repeat split; assumption.
        -- apply (proj2 (repr_frame h h3)); [|exact Hes].
           intros y Hy. apply Hag.
           ++ rewrite forest_ids_cons, tree_ids_node. apply elem_of_app. left.
              apply list_elem_of_further, Hy.
           ++ intros c [= <-]. simpl. intros ->. contradiction.
      * rewrite head_id_app_ne by discriminate.
        rewrite head_id_app_ne in Hc by discriminate.
        apply (proj1 (repr_frame h h3)); [|exact Hc].
        intros y Hy. apply Hag.
        -- rewrite forest_ids_cons. apply elem_of_app. auto.
        -- intros c' Hl ->. change (last (c1h :: c1t) = Some c') in Hl.
           apply (Hdisj (tree_root c') Hy). apply elem_of_forest_ids.
           exists c'. split; [|apply tree_root_in_ids].
           apply elem_of_app. left. apply last_in_forest, Hl.
    + apply IH; [exact Hrest|exact Hndrest| |].
      * intros y Hy Hne. apply Hag.
        -- rewrite forest_ids_cons. apply elem_of_app. auto.
        -- intros c' Hl. destruct c1 as [|c1h c1t].
           ++ injection Hl as <-. intros ->.
              apply (Hdisj (tree_root c)); [apply tree_root_in_ids|].
              apply elem_of_forest_ids. apply elem_of_forest_ids in Hy as (c' & Hc' & Hy).
              exists c'. split; [apply list_elem_of_further, Hc'|exact Hy].
           ++ apply Hne. exact Hl.
      * intros c' cv Hl. apply Hlast. destruct c1; [discriminate|exact Hl].
Qed.

Lemma repr_forest_app_inv h parent c c2 : forall c1,
  repr_forest h parent (c1 ++ c :: c2) -> repr_tree h parent (head_id c2) c.
Proof.
  induction c1 as [|c0 c1 IH]; intros Hr; cbn [app] in Hr;
    apply repr_forest_cons_inv in Hr as [Hc Hrest]; [exact Hc|apply IH, Hrest].
Qed.

Lemma versions_drop_walk_mono p v v_next fuel : forall h prev sl r k,
  versions_drop_walk fuel h p v v_next prev sl = Some r ->
  versions_drop_walk (fuel + k) h p v v_next prev sl = Some r.
Proof.
  induction fuel as [|fuel IH]; intros h prev sl r k Hrun.
  - destruct sl; [discriminate|]. destruct k; exact Hrun.
  - destruct sl as [s|]; [|exact Hrun].
    change (S fuel + k)%nat with (S (fuel + k)).
    rewrite versions_drop_walk_step in *.
    destruct ((if s =? v then _ else h) !! s) as [sv|]; [|exact Hrun].
    apply IH, Hrun.
Qed.

Lemma tree_update_notin f p :
  (forall t, p ∉ tree_ids t -> tree_update f p t = t) /\
  (forall cs, p ∉ forest_ids cs -> map (tree_update f p) cs = cs).
Proof.
  apply vtree_forest_ind.
  - intros a cs IH Hp. rewrite tree_ids_node in Hp.
    apply not_elem_of_cons in Hp as [Hne Hp]. cbn [tree_update].
    destruct (Z.eqb_spec a p); [congruence|]. rewrite IH by exact Hp. reflexivity.
  - reflexivity.
  - intros c cs IHc IHcs Hp. rewrite forest_ids_cons in Hp.
    apply not_elem_of_app in Hp as [Hc Hcs]. cbn [map].
    rewrite IHc, IHcs by assumption. reflexivity.
Qed.

(** The nodes of a tree whose node [p] gets the children [cs'], one node
    fewer than it had. *)
Lemma tree_update_ids_remove p v cs' ids0 :
  ids0 ≡ₚ v :: forest_ids cs' ->
  (forall t, NoDup (tree_ids t) -> subtree_ids p t = p :: ids0 ->
     tree_ids t ≡ₚ v :: tree_ids (tree_update (fun _ => cs') p t)) /\
  (forall cs, NoDup (forest_ids cs) -> flat_map (subtree_ids p) cs = p :: ids0 ->
     forest_ids cs ≡ₚ v :: forest_ids (map (tree_update (fun _ => cs') p) cs)).
Proof.
  intros Hids. apply vtree_forest_ind.
  - intros a cs IH Hnd Hsub. rewrite tree_ids_node in *.
    apply NoDup_cons in Hnd as [Hanot Hndf]. cbn [tree_update subtree_ids] in *.
    destruct (Z.eqb_spec a p) as [->|Hne].
    + injection Hsub as Hsub. rewrite tree_ids_node.
      change (flat_map tree_ids cs) with (forest_ids cs) in Hsub.
      rewrite Hsub, Hids. apply perm_swap.
    + rewrite tree_ids_node, (IH Hndf Hsub). apply perm_swap.
  - intros _ Hsub. discriminate Hsub.
  - intros c cs IHc IHcs Hnd Hsub. rewrite forest_ids_cons in *.
    apply NoDup_app in Hnd as (Hndc & Hdisj & Hndcs). cbn [map flat_map] in *.
    rewrite forest_ids_cons.
    destruct (decide (p ∈ tree_ids c)) as [Hc|Hc].
    + assert (Hcs : p ∉ forest_ids cs) by (intros Hin; exact (Hdisj p Hc Hin)).
      rewrite (proj2 (subtree_ids_notin p) cs Hcs), app_nil_r in Hsub.
      rewrite (proj2 (tree_update_notin _ p) cs Hcs).
      rewrite (IHc Hndc Hsub). reflexivity.
    + rewrite (proj1 (subtree_ids_notin p) c Hc) in Hsub. cbn [app] in Hsub.
      rewrite (proj1 (tree_update_notin _ p) c Hc).
      rewrite (IHcs Hndcs Hsub). symmetry. apply Permutation_middle.
Qed.

Lemma head_id_nil_inv cs : head_id cs = None -> cs = [].
Proof. destruct cs; [reflexivity|discriminate]. Qed.

Lemma not_in_forest_middle v ds (c1 c2 : list vtree) :
  NoDup (forest_ids (c1 ++ VNode v ds :: c2)) -> v ∉ forest_ids (c1 ++ c2).
Proof.
  unfold forest_ids. rewrite !flat_map_app. cbn [flat_map tree_ids].
  intros Hnd Hin.
  apply NoDup_app in Hnd as (_ & Hd1 & Hnd2).
  apply NoDup_app in Hnd2 as (Hndv & Hd2 & _).
  apply elem_of_app in Hin as [Hin|Hin].
  - apply (Hd1 v Hin). apply elem_of_app. left. apply list_elem_of_here.
  - apply (Hd2 v); [apply list_elem_of_here|exact Hin].
Qed.

Lemma forest_ids_middle v (c1 c2 : list vtree) :
  forest_ids (c1 ++ VNode v [] :: c2) ≡ₚ v :: forest_ids (c1 ++ c2).
Proof.
  unfold forest_ids. rewrite !flat_map_app. cbn [flat_map tree_ids app].
  symmetry. apply Permutation_middle.
Qed.

Section DeleteLocal.

Variables (h h2 : gmap Z castle_version) (p v : Z) (vv : castle_version).
Variable fuel : nat.

Hypothesis lookup_v : h !! v = Some vv.
Hypothesis first_child_v : v_first_child vv = None.
Hypothesis parent_v : v_parent_u vv = ParentPtr (Some p).
Hypothesis drop_done : castle_versions_drop fuel h v = Some (Done h2).

(** What [castle_versions_drop] and the removal from the hash do, seen from
    the tree whose root is the parent of the leaf [v]: one slot of that tree
    is changed, [v] is gone, and the hash holds the tree without [v]. *)
Lemma delete_local parent next c1 ds c2 :
  repr_tree h parent next (VNode p (c1 ++ VNode v ds :: c2)) ->
  NoDup (tree_ids (VNode p (c1 ++ VNode v ds :: c2))) ->
  ds = [] /\
  exists slot tv,
    slot_id slot ∈ tree_ids (VNode p (c1 ++ c2)) /\
    h !! slot_id slot = Some tv /\
    delete v h2 !! slot_id slot = Some (slot_set slot (head_id c2) tv) /\
    (forall y, y <> v -> y <> slot_id slot -> delete v h2 !! y = h !! y) /\
    repr_tree (delete v h2) parent next (VNode p (c1 ++ c2)).
Proof.
  intros Hr Hnd. destruct (repr_tree_inv _ _ _ _ _ Hr) as [Hn Hcs].
  destruct Hn as (pv & Hp & Hpver & Hpi & Hppar & Hpnx & Hpfc).
  rewrite tree_ids_node in Hnd. apply NoDup_cons in Hnd as [Hpcs Hndcs].
  pose proof (repr_forest_app_inv _ _ _ _ _ Hcs) as Hvr.
  destruct (repr_tree_inv _ _ _ _ _ Hvr) as [(vv' & Hvv' & _ & _ & _ & Hvnx & Hvfc) _].
  rewrite lookup_v in Hvv'. injection Hvv' as <-.
  assert (Hds : ds = []) by (apply head_id_nil_inv; congruence). subst ds.
  split; [reflexivity|].
  pose proof (not_in_forest_middle _ _ _ _ Hndcs) as Hv12.
  assert (Hvin : v ∈ forest_ids (c1 ++ VNode v [] :: c2))
    by (rewrite forest_ids_middle; apply list_elem_of_here).
  assert (Hpv : p <> v) by (intros ->; contradiction).
  assert (Hp12 : p ∉ forest_ids (c1 ++ c2)).
  { intros Hin. apply Hpcs. rewrite forest_ids_middle. apply list_elem_of_further, Hin. }
  pose proof drop_done as Hdrop. unfold castle_versions_drop in Hdrop.
  rewrite lookup_v, parent_v, Hp, Hpfc, Hvnx in Hdrop.
  destruct (versions_drop_walk fuel h p v (head_id c2) None
              (head_id (c1 ++ VNode v [] :: c2))) as [[h1|]|] eqn:Hw;
    try discriminate.
  cbn [fbind fret] in Hdrop. injection Hdrop as <-.
  apply (versions_drop_walk_mono _ _ _ _ _ _ _ _
           (length (c1 ++ VNode v [] :: c2))) in Hw.
  rewrite (versions_drop_walk_unlink p v (head_id c2) (Some p) [] c2 c1) in Hw;
    [|exact Hcs|exact Hndcs|exact Hpcs|lia].
  injection Hw as <-. cbn [slot_of_prev].
  pose proof (last_slot_id (SlotFirstChild p) c1) as Hcase.
  remember (last_slot (SlotFirstChild p) c1) as slot eqn:Hslot.
  assert (Hslot_in : slot_id slot ∈ p :: forest_ids (c1 ++ c2)).
  { destruct Hcase as [[-> _]|(c & Hl & ->)].
    - apply list_elem_of_here.
    - apply list_elem_of_further, elem_of_forest_ids. exists c.
      split; [|apply tree_root_in_ids].
      apply elem_of_app. left. apply last_in_forest, Hl. }
  assert (Hslot_v : slot_id slot <> v).
  { intros Heq. rewrite Heq in Hslot_in.
    apply elem_of_cons in Hslot_in as [->|Hin]; [congruence|contradiction]. }
  assert (Hslot_h : exists tv, h !! slot_id slot = Some tv).
  { destruct (proj1 (repr_ids_inited h) _ _ _ Hr (slot_id slot)) as (tv & Htv & _);
      [|eauto].
    rewrite tree_ids_node, forest_ids_middle.
    apply elem_of_cons in Hslot_in as [->|Hin];
      [apply list_elem_of_here|do 2 apply list_elem_of_further; exact Hin]. }
  destruct Hslot_h as [tv Htv].
  set (h3 := delete v (alter (fun x => set_parent_u (ParentPtr None)
                                (set_next_sybling None x)) v
                         (slot_store h slot (head_id c2)))).
  assert (Hl_slot : h3 !! slot_id slot = Some (slot_set slot (head_id c2) tv)).
  { subst h3. rewrite lookup_delete_ne by congruence.
    rewrite lookup_alter_ne by congruence.
    rewrite slot_store_alter, lookup_alter_eq, Htv. reflexivity. }
  assert (Hl_other : forall y, y <> v -> y <> slot_id slot -> h3 !! y = h !! y).
  { intros y Hyv Hys. subst h3. rewrite lookup_delete_ne by congruence.
    rewrite lookup_alter_ne by congruence. apply lookup_slot_store_ne. congruence. }
  exists slot, tv.
  split; [rewrite tree_ids_node; exact Hslot_in|].
  split; [exact Htv|]. split; [exact Hl_slot|]. split; [exact Hl_other|].
  constructor.
  - destruct Hcase as [[Hid ->]|(c & Hl & Hid)].
    + simpl in Hid. rewrite Hid in Hl_slot, Htv.
      exists (set_first_child (head_id c2) pv). split.
      * rewrite Hl_slot, Hslot. do 2 f_equal. congruence.
      * repeat split; assumption.
    + exists pv. split.
      * rewrite Hl_other; [exact Hp|exact Hpv|].
        rewrite Hid. intros ->. apply Hp12.
        apply elem_of_forest_ids. exists c. split; [|apply tree_root_in_ids].
        apply elem_of_app. left. apply last_in_forest, Hl.
      * rewrite head_id_app_ne by (intros ->; discriminate).
        rewrite head_id_app_ne in Hpfc by (intros ->; discriminate).
        repeat split; assumption.
  - apply (repr_forest_remove_split h h3 (Some p) v [] c2 c1);
      [exact Hcs|exact Hndcs| |].
    + intros y Hy Hlast. apply Hl_other; [intros ->; contradiction|].
      destruct Hcase as [[Hid _]|(c & Hl & Hid)]; rewrite Hid.
      * simpl. intros ->. contradiction.
      * apply Hlast, Hl.
    + intros c cv Hl Hc.
      destruct Hcase as [[_ ->]|(c' & Hl' & Hid)]; [discriminate|].
      rewrite Hl in Hl'. injection Hl' as <-. rewrite <- Hid.
      rewrite Hl_slot. f_equal. rewrite Hid in Htv. rewrite Hc in Htv. injection Htv as ->.
      rewrite Hslot. unfold last_slot. rewrite Hl. reflexivity.
Qed.

End DeleteLocal.

(** Dropping a leaf that is not the root and taking it out of the hash
    keeps the registry well formed: the tree loses the leaf. *)
Lemma versions_drop_delete_wf t h il v vv p fuel h2 :
  versions_wf_with t h il ->
  h !! v = Some vv -> v_inited vv = true -> v_first_child vv = None ->
  v_parent_u vv = ParentPtr (Some p) ->
  castle_versions_drop fuel h v = Some (Done h2) ->
  exists t',
    versions_wf_with t' (delete v h2) il /\
    tree_ids t ≡ₚ v :: tree_ids t' /\
    (forall y yv', delete v h2 !! y = Some yv' ->
       exists yv, h !! y = Some yv /\ v_flags yv' = v_flags yv).
Proof.
  intros Hwf Hv Hvi Hvfc Hvpar Hdrop. pose proof Hwf as Hwf0.
  destruct Hwf as (Hroot & Hrep & Hnd & Hsz & Hkey & Hin & Hun & Hndil & Hil).
  destruct (versions_wf_with_root _ _ _ Hwf0) as (rv & Hr & _ & Hrpar).
  assert (Hv0 : v <> tree_root t) by (rewrite Hroot; intros ->; congruence).
  pose proof (Hin _ _ Hv Hvi) as Hvt.
  destruct (proj1 (child_split h v) _ _ _ Hrep Hnd Hvt Hv0)
    as (p0 & parent' & next' & c1 & ds & c2 & Hrp & Hsub & Hndp).
  assert (p0 = p) as ->.
  { destruct (repr_tree_inv _ _ _ _ _ Hrp) as [_ Hcs].
    apply repr_forest_app_inv in Hcs.
    apply repr_tree_inv in Hcs as [(vv' & Hvv' & _ & _ & Hpar' & _) _]. congruence. }
  destruct (delete_local h h2 p v vv fuel Hv Hvfc Hvpar Hdrop _ _ _ _ _ Hrp Hndp)
    as (-> & slot & tv & Hslot_in & Htv & Hl_slot & Hother & Hrp').
  set (h3 := delete v h2) in *.
  set (f := fun _ : list vtree => c1 ++ c2).
  assert (Hslot_sub : slot_id slot ∈ subtree_ids p t).
  { rewrite Hsub, tree_ids_node, forest_ids_middle. rewrite tree_ids_node in Hslot_in.
    apply elem_of_cons in Hslot_in as [->|Hi];
      [apply list_elem_of_here|do 2 apply list_elem_of_further; exact Hi]. }
  assert (Hv_sub : v ∈ subtree_ids p t).
  { rewrite Hsub, tree_ids_node, forest_ids_middle.
    apply list_elem_of_further, list_elem_of_here. }
  assert (Hslot_v : slot_id slot <> v).
  { intros Heq. rewrite Heq, tree_ids_node in Hslot_in.
    rewrite tree_ids_node in Hndp. apply NoDup_cons in Hndp as [Hp Hndcs].
    apply elem_of_cons in Hslot_in as [->|Hi].
    - apply Hp. rewrite forest_ids_middle. apply list_elem_of_here.
    - exact (not_in_forest_middle _ _ _ _ Hndcs Hi). }
  assert (Htvi : v_inited tv = true).
  { destruct (proj1 (repr_ids_inited h) t _ _ Hrep (slot_id slot)) as (tv' & Htv' & Hi);
      [apply (proj1 (subtree_ids_sub p)), Hslot_sub|congruence]. }
  assert (Hl_v : h3 !! v = None) by apply lookup_delete_eq.
  assert (Hcases : forall y yv', h3 !! y = Some yv' ->
            y <> v /\
            ((y = slot_id slot /\ yv' = slot_set slot (head_id c2) tv) \/
             (y <> slot_id slot /\ h !! y = Some yv'))).
  { intros y yv' Hy. destruct (decide (y = v)) as [->|Hyv]; [congruence|].
    split; [exact Hyv|].
    destruct (decide (y = slot_id slot)) as [->|Hys]; [left; split; congruence|].
    right. rewrite <- Hother by assumption. auto. }
  assert (Hperm : tree_ids t ≡ₚ v :: tree_ids (tree_update f p t)).
  { apply (proj1 (tree_update_ids_remove p v (c1 ++ c2)
                    (forest_ids (c1 ++ VNode v [] :: c2))
                    (forest_ids_middle v c1 c2)) t Hnd).
    rewrite Hsub. reflexivity. }
  assert (Hupd : forall parent next cs,
            repr_tree h parent next (VNode p cs) -> NoDup (tree_ids (VNode p cs)) ->
            repr_tree h3 parent next (VNode p (f cs))).
  { intros parent next cs Hr0 _.
    pose proof (proj1 (repr_tree_forest_det h) _ _ _ _ _ _ Hr0 Hrp eq_refl) as Heq.
    injection Heq as ->.
    destruct (repr_tree_inv _ _ _ _ _ Hr0) as [(pv & Hp & _ & _ & Hpp & Hpn & _) _].
    destruct (repr_tree_inv _ _ _ _ _ Hrp) as [(pv' & Hp' & _ & _ & Hpp' & Hpn' & _) _].
    rewrite Hp in Hp'. injection Hp' as <-.
    assert (parent = parent') as -> by congruence.
    assert (next = next') as -> by congruence.
    exact Hrp'. }
  exists (tree_update f p t). split; [|split; [exact Hperm|]].
  2: { intros y yv' Hy. destruct (Hcases _ _ Hy) as [_ [[-> ->]|[_ Hy']]]; [|eauto].
       exists tv. split; [exact Htv|]. destruct slot; reflexivity. }
  split; [rewrite tree_root_update; exact Hroot|].
  split.
  { apply (proj1 (tree_update_repr h h3 p f Hupd) _ _ _ Hrep Hnd).
    intros y Hy Hns. apply Hother; intros ->; contradiction. }
  split.
  { apply (NoDup_cons_1_2 v). rewrite <- Hperm. exact Hnd. }
  split.
  { rewrite (size_same_keys (delete v h) h3).
    - pose proof (map_size_delete v h) as Hd. rewrite Hv in Hd. simpl in Hd. lia.
    - intros y. destruct (decide (y = v)) as [->|Hyv].
      + rewrite Hl_v, lookup_delete_eq. reflexivity.
      + rewrite lookup_delete_ne by congruence.
        destruct (decide (y = slot_id slot)) as [->|Hys]; [rewrite Hl_slot, Htv; split; eauto|].
        rewrite Hother by assumption. reflexivity. }
  split.
  { intros y yv' Hy. destruct (Hcases _ _ Hy) as [_ [[-> ->]|[_ Hy']]];
      [rewrite v_version_slot_set; eauto|eauto]. }
  split.
  { intros y yv' Hy Hyi. destruct (Hcases _ _ Hy) as [Hyv Hc].
    assert (Hyt : y ∈ tree_ids t).
    { destruct Hc as [[-> _]|[_ Hy']]; [|eauto].
      apply (proj1 (subtree_ids_sub p)), Hslot_sub. }
    rewrite Hperm in Hyt. apply elem_of_cons in Hyt as [->|Hyt]; [congruence|exact Hyt]. }
  split.
  { intros y yv' Hy Hyi. destruct (Hcases _ _ Hy) as [_ [[-> ->]|[_ Hy']]]; [|eauto].
    rewrite v_inited_slot_set in Hyi. congruence. }
  split; [exact Hndil|].
  intros y Hy. destruct (Hil _ Hy) as (yv & Hyv & Hyi). exists yv. split; [|exact Hyi].
  rewrite Hother; [exact Hyv|intros ->; congruence|intros ->; congruence].
Qed.

Lemma castle_versions_drop_parent fuel h v vv h2 :
  h !! v = Some vv -> castle_versions_drop fuel h v = Some (Done h2) ->
  exists p, v_parent_u vv = ParentPtr (Some p).
Proof.
  intros Hv. unfold castle_versions_drop. rewrite Hv.
  destruct (v_parent_u vv) as [|[p|]]; try discriminate. eauto.
Qed.

(** [castle_version_delete] of a leaf keeps the registry well formed, and
    gives back a parent that is not [NULL]. *)
Lemma castle_version_delete_wf fuel st v vv st' parent :
  versions_wf st -> castle_versions_hash st !! v = Some vv ->
  v_first_child vv = None ->
  castle_version_delete fuel st v = Some (Done (st', parent)) ->
  versions_wf st' /\ exists p, parent = Some p.
Proof.
  intros [t Hwf] Hv Hfc. unfold castle_version_delete. rewrite Hv.
  destruct (v_attached vv); [discriminate|].
  destruct (v_inited vv) eqn:Hvi; [|discriminate]. cbn [negb].
  destruct (v_parent_u vv) as [|parent0] eqn:Hpar; [discriminate|].
  cbn [castle_versions_hash v_emit].
  destruct (castle_versions_drop fuel (castle_versions_hash st) v) as [[h2|]|] eqn:Hdrop;
    try discriminate.
  cbn [fbind fret]. intros [= <- <-].
  destruct (castle_versions_drop_parent _ _ _ _ _ Hv Hdrop) as [p Hp].
  rewrite Hpar in Hp. injection Hp as ->.
  destruct (versions_drop_delete_wf t _ _ v vv p fuel h2 Hwf Hv Hvi Hfc Hpar Hdrop)
    as (t' & Hwf' & _).
  split; [exists t'; exact Hwf'|eauto].
Qed.

Section VersionTreeDelete.

Variable castle_sysfs_version_add : Z -> Z.

Lemma version_tree_delete_loop_wf fuel : forall st v cur st' ret,
  versions_wf st ->
  version_tree_delete_loop fuel st v cur = Some (Done (st', ret)) ->
  versions_wf st' /\ ret = 0.
Proof.
  induction fuel as [|fuel IH]; intros st v cur st' ret Hwf; [discriminate|].
  cbn [version_tree_delete_loop].
  destruct (castle_versions_hash st !! cur) as [cv|] eqn:Hcur; [|discriminate].
  destruct (v_first_child cv) as [child|] eqn:Hfc; [apply IH, Hwf|].
  destruct (castle_version_delete (S fuel) st cur) as [[[st1 parent]|]|] eqn:Hdel;
    try discriminate.
  cbn [fbind].
  destruct (castle_version_delete_wf _ _ _ _ _ _ Hwf Hcur Hfc Hdel) as [Hwf1 [p ->]].
  destruct (cur =? v); [intros [= <- <-]; auto|apply IH, Hwf1].
Qed.

(** P5 after [castle_version_tree_delete]: on a well-formed registry, a
    call that returns either has found no such version, and gives [-EINVAL]
    and the registry as it was, or has deleted the versions and run
    [castle_versions_process]: the registry is well formed and every inited
    version but the root is enclosed by its parent. *)
Lemma castle_version_tree_delete_orders_nested fuel st version st' ret :
  versions_wf st ->
  castle_version_tree_delete castle_sysfs_version_add fuel st version
    = Some (Done (st', ret)) ->
  (castle_versions_hash st !! version = None /\ ret = - EINVAL /\ st' = st) \/
  (ret = 0 /\ orders_nested (castle_versions_hash st') /\ versions_wf st').
Proof.
  intros Hwf. unfold castle_version_tree_delete.
  destruct (castle_versions_hash st !! version) as [v|];
    [|intros [= <- <-]; left; auto].
  destruct (negb (v_inited v)); [discriminate|].
  destruct (version_tree_delete_loop fuel st version version) as [[[st1 r1]|]|] eqn:Hloop;
    try discriminate.
  cbn [fbind].
  apply version_tree_delete_loop_wf in Hloop as [Hwf1 ->]; [|exact Hwf].
  destruct (castle_versions_process castle_sysfs_version_add fuel st1)
    as [[[err st2]|]|] eqn:Hproc; try discriminate.
  cbn [fbind fret]. intros [= <- <-]. right.
  apply versions_process_orders_wf in Hproc as [Hn Hwf2]; auto.
Qed.

End VersionTreeDelete.

(** *** P5 *)

Section OrdersNested.

Variable INVAL_VERSION : Z.
Variable INVAL_DA : Z.
Variable kmem_cache_alloc_ok : Z -> bool.
Variable castle_sysfs_version_add : Z -> Z.

(** C3 (P5). On a well-formed registry, after every completed run of
    [castle_versions_process] every inited version [v] but the root has
    order numbers with [v.parent.o_order < v.o_order <= v.parent.r_order],
    and the registry is well formed again. So it is after the runs that
    [castle_version_new] triggers (when the next version number is free; a
    call that fails before the run leaves the hash as it was) and after the
    runs that [castle_version_tree_delete] triggers (a call that finds no
    such version runs nothing and leaves the registry as it was). *)
Theorem castle_versions_process_orders_nested st :
  versions_wf st ->
  (forall fuel err st',
     castle_versions_process castle_sysfs_version_add fuel st = Some (Done (err, st')) ->
     orders_nested (castle_versions_hash st') /\ versions_wf st') /\
  (forall fuel snap_or_clone parent da_id size st' r,
     castle_versions_hash st !! wrap32 (castle_versions_last st + 1) = None ->
     Z.of_nat (base.size (castle_versions_hash st)) + 1 < 2 ^ 32 ->
     castle_version_new INVAL_VERSION INVAL_DA kmem_cache_alloc_ok
       castle_sysfs_version_add fuel st snap_or_clone parent da_id size
       = Some (Done (st', r)) ->
     versions_wf st' /\
     (castle_versions_hash st' = castle_versions_hash st \/
      orders_nested (castle_versions_hash st'))) /\
  (forall fuel version st' ret,
     castle_version_tree_delete castle_sysfs_version_add fuel st version
       = Some (Done (st', ret)) ->
     (castle_versions_hash st !! version = None /\ ret = - EINVAL /\ st' = st) \/
     (ret = 0 /\ orders_nested (castle_versions_hash st') /\ versions_wf st')).
Proof.
  intros Hwf. split; [|split].
  - intros fuel err st'. apply versions_process_orders_wf, Hwf.
  - intros fuel snap_or_clone parent da_id size st' r.
    apply castle_version_new_orders_nested, Hwf.
  - intros fuel version st' ret. apply castle_version_tree_delete_orders_nested, Hwf.
Qed.

End OrdersNested.

Lemma sample_processed_wf : versions_wf (sample_process sample_registry).
Proof.
  apply (versions_process_orders_wf (fun _ => 0) 20 sample_registry 0);
    [exact sample_registry_wf|vm_compute; reflexivity].
Qed.

Lemma castle_versions_process_orders_nested_witness :
  orders_nested (castle_versions_hash (sample_process sample_registry)) /\
  orders_nested (castle_versions_hash (sample_new (sample_process sample_registry))) /\
  orders_nested (castle_versions_hash (sample_delete (sample_process sample_registry))).
Proof.
  split; [|split].
  - apply (proj1 (castle_versions_process_orders_nested sample_inval_version
                    sample_inval_version (fun _ => true) (fun _ => 0)
                    sample_registry sample_registry_wf) 20%nat 0).
    vm_compute. reflexivity.
  - destruct (proj1 (proj2 (castle_versions_process_orders_nested sample_inval_version
                    sample_inval_version (fun _ => true) (fun _ => 0)
                    (sample_process sample_registry) sample_processed_wf))
                20%nat 1 3 sample_inval_version 0
                (sample_new (sample_process sample_registry)) 4)
      as [_ [Heq|Hn]]; [vm_compute; reflexivity| vm_compute; reflexivity
                        |vm_compute; reflexivity| |exact Hn].
    exfalso. apply (f_equal (fun h => h !! 4)) in Heq. vm_compute in Heq. discriminate Heq.
  - destruct (proj2 (proj2 (castle_versions_process_orders_nested sample_inval_version
                    sample_inval_version (fun _ => true) (fun _ => 0)
                    (sample_process sample_registry) sample_processed_wf))
                20%nat 1 (sample_delete (sample_process sample_registry)) 0)
      as [(Hnone & _)|(_ & Hn & _)]; [vm_compute; reflexivity| |exact Hn].
    vm_compute in Hnone. discriminate Hnone.
Defined.

(** *** The deletion walk, in full *)

Lemma flags_kept_refl h : flags_kept h h.
Proof. intros y yv Hy. eauto. Qed.

Lemma flags_kept_trans h1 h2 h3 :
  flags_kept h1 h2 -> flags_kept h2 h3 -> flags_kept h1 h3.
Proof.
  intros H12 H23 y yv3 Hy. destruct (H23 _ _ Hy) as (yv2 & Hy2 & Hf2).
  destruct (H12 _ _ Hy2) as (yv1 & Hy1 & Hf1). exists yv1. split; congruence.
Qed.

Lemma attached_any_kept h h' ids :
  flags_kept h h' -> (forall y, y ∈ ids -> is_Some (h' !! y)) ->
  attached_any h' ids = attached_any h ids.
Proof.
  intros Hk. induction ids as [|y ids IH]; intros Hin; [reflexivity|].
  cbn [attached_any existsb]. fold (attached_any h' ids) (attached_any h ids).
  rewrite IH by (intros z Hz; apply Hin, list_elem_of_further, Hz). f_equal.
  destruct (Hin y (list_elem_of_here _ _)) as [yv' Hy'].
  destruct (Hk _ _ Hy') as (yv & Hy & Hf). rewrite Hy, Hy'.
  unfold v_attached. rewrite Hf. reflexivity.
Qed.

Lemma attached_any_app h ids1 ids2 :
  attached_any h (ids1 ++ ids2) = attached_any h ids1 || attached_any h ids2.
Proof. apply existsb_app. Qed.

Lemma length_le_forest_size cs : Z.of_nat (length cs) <= forest_size cs.
Proof.
  induction cs as [|c cs IH]; [simpl; lia|].
  rewrite forest_size_cons. pose proof (tree_size_pos c). cbn [length]. lia.
Qed.

Lemma forest_size_app cs1 cs2 : forest_size (cs1 ++ cs2) = forest_size cs1 + forest_size cs2.
Proof.
  induction cs1 as [|c cs1 IH]; [reflexivity|].
  cbn [app]. rewrite !forest_size_cons, IH. lia.
Qed.

(** [castle_versions_drop] of a child, with fuel for the sibling list. *)
Lemma castle_versions_drop_child h p v vv parent next c1 ds c2 :
  repr_tree h parent next (VNode p (c1 ++ VNode v ds :: c2)) ->
  NoDup (tree_ids (VNode p (c1 ++ VNode v ds :: c2))) ->
  h !! v = Some vv ->
  v_parent_u vv = ParentPtr (Some p) /\
  exists h2, forall fuel, (length (c1 ++ VNode v ds :: c2) <= fuel)%nat ->
    castle_versions_drop fuel h v = Some (Done h2).
Proof.
  intros Hr Hnd Hv. destruct (repr_tree_inv _ _ _ _ _ Hr) as [Hn Hcs].
  destruct Hn as (pv & Hp & _ & _ & _ & _ & Hpfc).
  rewrite tree_ids_node in Hnd. apply NoDup_cons in Hnd as [Hpcs Hndcs].
  pose proof (repr_forest_app_inv _ _ _ _ _ Hcs) as Hvr.
  destruct (repr_tree_inv _ _ _ _ _ Hvr) as [(vv' & Hvv' & _ & _ & Hvpar & Hvnx & _) _].
  rewrite Hv in Hvv'. injection Hvv' as <-.
  split; [exact Hvpar|].
  eexists. intros fuel Hfuel.
  unfold castle_versions_drop. rewrite Hv, Hvpar, Hp, Hpfc.
  rewrite (versions_drop_walk_unlink p v _ (Some p) ds c2 c1);
    [|exact Hcs|exact Hndcs|exact Hpcs|exact Hfuel].
  cbn [fbind fret]. reflexivity.
Qed.

(** [castle_version_delete] of a leaf that is not attached: it ends, gives
    the parent, and the hash holds the parent's tree without the leaf. *)
Lemma castle_version_delete_leaf st p v vv parent next c1 c2 :
  versions_wf st ->
  repr_tree (castle_versions_hash st) parent next (VNode p (c1 ++ VNode v [] :: c2)) ->
  NoDup (tree_ids (VNode p (c1 ++ VNode v [] :: c2))) ->
  castle_versions_hash st !! v = Some vv -> v_attached vv = false ->
  exists st',
    (forall fuel, (length (c1 ++ VNode v [] :: c2) <= fuel)%nat ->
       castle_version_delete fuel st v = Some (Done (st', Some p))) /\
    versions_wf st' /\
    castle_versions_init_list st' = castle_versions_init_list st /\
    repr_tree (castle_versions_hash st') parent next (VNode p (c1 ++ c2)) /\
    flags_kept (castle_versions_hash st) (castle_versions_hash st') /\
    (forall y, y ∉ tree_ids (VNode p (c1 ++ VNode v [] :: c2)) ->
       castle_versions_hash st' !! y = castle_versions_hash st !! y) /\
    castle_versions_hash st' !! v = None.
Proof.
  intros [t Hwf] Hr Hnd Hv Hat.
  destruct (castle_versions_drop_child _ _ _ _ _ _ _ _ _ Hr Hnd Hv)
    as (Hpar & h2 & Hdrop).
  pose proof (Hdrop _ (Nat.le_refl _)) as Hdrop0.
  pose proof (repr_forest_app_inv _ _ _ _ _ (proj2 (repr_tree_inv _ _ _ _ _ Hr))) as Hvr.
  destruct (repr_tree_inv _ _ _ _ _ Hvr) as [(vv' & Hvv' & _ & Hvi & _ & _ & Hvfc) _].
  rewrite Hv in Hvv'. injection Hvv' as <-. cbn [head_id head fmap option_fmap option_map] in Hvfc.
  destruct (versions_drop_delete_wf t _ _ v vv p _ h2 Hwf Hv Hvi Hvfc Hpar Hdrop0)
    as (t' & Hwf' & _ & Hflags).
  destruct (delete_local _ h2 p v vv _ Hv Hvfc Hpar Hdrop0 _ _ _ _ _ Hr Hnd)
    as (_ & slot & tv & Hslot_in & Htv & Hl_slot & Hother & Hrp').
  eexists. split.
  { intros fuel Hfuel. unfold castle_version_delete. rewrite Hv, Hat, Hvi, Hpar. cbn [negb].
    cbn [castle_versions_hash v_emit]. rewrite (Hdrop fuel Hfuel). cbn [fbind fret].
    reflexivity. }
  cbn [castle_versions_hash castle_versions_init_list v_emit set_hash].
  split; [exists t'; exact Hwf'|]. split; [reflexivity|]. split; [exact Hrp'|].
  split; [exact Hflags|]. split; [|apply lookup_delete_eq].
  intros y Hy. rewrite tree_ids_node, forest_ids_middle in Hy.
  apply Hother.
  - intros ->. apply Hy, list_elem_of_further, list_elem_of_here.
  - intros ->. apply Hy. rewrite tree_ids_node in Hslot_in.
    apply elem_of_cons in Hslot_in as [Heq|Hin];
      [rewrite Heq; apply list_elem_of_here|do 2 apply list_elem_of_further; exact Hin].
Qed.

Lemma version_tree_delete_loop_down fuel st v cur cv child :
  castle_versions_hash st !! cur = Some cv -> v_first_child cv = Some child ->
  version_tree_delete_loop (S fuel) st v cur = version_tree_delete_loop fuel st v child.
Proof. intros Hc Hfc. cbn [version_tree_delete_loop]. rewrite Hc, Hfc. reflexivity. Qed.

Lemma version_tree_delete_loop_leaf fuel st v cur cv :
  castle_versions_hash st !! cur = Some cv -> v_first_child cv = None ->
  version_tree_delete_loop (S fuel) st v cur
  = run r <- castle_version_delete (S fuel) st cur;
    match r with
    | (st, None) => fret (st, - EINVAL)
    | (st, Some parent) =>
        if cur =? v then fret (st, 0) else version_tree_delete_loop fuel st v parent
    end.
Proof. intros Hc Hfc. cbn [version_tree_delete_loop]. rewrite Hc, Hfc. reflexivity. Qed.

Lemma children_deleted_nil v : children_deleted v [].
Proof.
  intros N a pa na st Hwf Hr Hnd Hv HN. cbn [forest_ids flat_map attached_any existsb].
  exists 0%nat, st. split; [reflexivity|]. split; [exact Hwf|]. split; [reflexivity|].
  split; [exact Hr|]. split; [apply flags_kept_refl|]. split; [reflexivity|].
  intros y Hy. apply elem_of_nil in Hy. contradiction.
Qed.

Lemma children_deleted_cons v c cs :
  subtree_deleted v c -> children_deleted v cs -> children_deleted v (c :: cs).
Proof.
  intros HP HQ N a pa na st Hwf Hr Hnd Hv HN.
  rewrite forest_ids_cons in Hv. apply not_elem_of_app in Hv as [Hvc Hvcs].
  rewrite forest_ids_cons, attached_any_app.
  destruct (repr_tree_inv _ _ _ _ _ Hr) as [(av & Ha & _ & _ & _ & _ & Hafc) _].
  change (head_id (c :: cs)) with (Some (tree_root c)) in Hafc.
  assert (Hnd' : NoDup (tree_ids (VNode a cs))).
  { rewrite !tree_ids_node, forest_ids_cons in *.
    apply NoDup_cons in Hnd as [Ha' Hnd]. apply NoDup_app in Hnd as (_ & _ & Hnd).
    apply NoDup_cons. split; [|exact Hnd]. intros Hin. apply Ha'.
    apply elem_of_app. auto. }
  assert (HN' : tree_size (VNode a cs) <= Z.of_nat N).
  { rewrite !tree_size_node, forest_size_cons in *. pose proof (tree_size_pos c). lia. }
  specialize (HP N a pa na cs st Hwf Hr Hnd Hvc HN).
  destruct (attached_any (castle_versions_hash st) (tree_ids c)).
  - destruct HP as [n1 Hbug]. exists (S n1). intros fuel Hfuel.
    change (S n1 + fuel)%nat with (S (n1 + fuel)).
    rewrite (version_tree_delete_loop_down _ _ _ _ _ _ Ha Hafc). apply Hbug, Hfuel.
  - destruct HP as (n1 & st1 & Hloop1 & Hwf1 & Hil1 & Hr1 & Hk1 & Hfr1 & Hgone1).
    cbn [orb].
    specialize (HQ N a pa na st1 Hwf1 Hr1 Hnd' Hvcs HN').
    rewrite (attached_any_kept _ _ _ Hk1) in HQ.
    2: { intros y Hy.
         destruct (proj1 (repr_ids_inited _) _ _ _ Hr1 y) as (yv & -> & _); [|eauto].
         rewrite tree_ids_node. apply list_elem_of_further, Hy. }
    destruct (attached_any (castle_versions_hash st) (forest_ids cs)).
    + destruct HQ as [n2 Hbug]. exists (S (n1 + n2)). intros fuel Hfuel.
      change (S (n1 + n2) + fuel)%nat with (S (n1 + n2 + fuel)).
      rewrite (version_tree_delete_loop_down _ _ _ _ _ _ Ha Hafc).
      rewrite <- Nat.add_assoc, Hloop1 by lia. apply Hbug, Hfuel.
    + destruct HQ as (n2 & st2 & Hloop2 & Hwf2 & Hil2 & Hr2 & Hk2 & Hfr2 & Hgone2).
      exists (S (n1 + n2)), st2. split; [|split; [exact Hwf2|split; [congruence|]]].
      * intros fuel Hfuel. change (S (n1 + n2) + fuel)%nat with (S (n1 + n2 + fuel)).
        rewrite (version_tree_delete_loop_down _ _ _ _ _ _ Ha Hafc).
        rewrite <- Nat.add_assoc, Hloop1 by lia. apply Hloop2, Hfuel.
      * split; [exact Hr2|]. split; [eapply flags_kept_trans; eauto|]. split.
        -- intros y Hy. rewrite Hfr2, Hfr1; [reflexivity|exact Hy|].
           intros Hin. apply Hy. rewrite !tree_ids_node, forest_ids_cons in *.
           apply elem_of_cons in Hin as [->|Hin]; [apply list_elem_of_here|].
           apply list_elem_of_further, elem_of_app. auto.
        -- intros y Hy. apply elem_of_app in Hy as [Hy|Hy]; [|apply Hgone2, Hy].
           rewrite Hfr2; [apply Hgone1, Hy|].
           rewrite !tree_ids_node, forest_ids_cons in *.
           apply NoDup_cons in Hnd as [Ha' Hnd]. apply NoDup_app in Hnd as (_ & Hdisj & _).
           intros Hin. apply elem_of_cons in Hin as [->|Hin].
           ++ apply Ha', elem_of_app. auto.
           ++ exact (Hdisj y Hy Hin).
Qed.

Lemma subtree_deleted_node v a ds :
  children_deleted v ds -> subtree_deleted v (VNode a ds).
Proof.
  intros HQ N p pp pn cs st Hwf Hr Hnd Hv HN. cbn [tree_root].
  rewrite tree_ids_node in Hv. apply not_elem_of_cons in Hv as [Hva Hvds].
  destruct (repr_tree_inv _ _ _ _ _ Hr) as [(pv & Hp & Hpver & Hpi & Hppar & Hpnx & Hpfc) Hf].
  apply repr_forest_cons_inv in Hf as [Hra Hrcs].
  pose proof Hnd as Hnd0.
  rewrite tree_ids_node, forest_ids_cons in Hnd.
  apply NoDup_cons in Hnd as [Hpnot Hnd]. apply NoDup_app in Hnd as (Hnda & Hdisj & Hndcs).
  assert (HNa : tree_size (VNode a ds) <= Z.of_nat N).
  { rewrite (tree_size_node p), forest_size_cons in HN.
    pose proof (forest_size_nonneg cs). lia. }
  assert (Hlen : (length (VNode a [] :: cs) <= N)%nat).
  { rewrite (tree_size_node p), forest_size_cons in HN.
    pose proof (length_le_forest_size cs). pose proof (tree_size_pos (VNode a ds)).
    cbn [length]. lia. }
  specialize (HQ N a (Some p) (head_id cs) st Hwf Hra Hnda Hvds HNa).
  destruct (repr_tree_inv _ _ _ _ _ Hra) as [(av & Ha & _) _].
  change (attached_any (castle_versions_hash st) (tree_ids (VNode a ds)))
    with (match castle_versions_hash st !! a with
          | Some yv => v_attached yv
          | None => false
          end || attached_any (castle_versions_hash st) (forest_ids ds)).
  rewrite Ha.
  destruct (attached_any (castle_versions_hash st) (forest_ids ds)).
  - rewrite orb_true_r. exact HQ.
  - rewrite orb_false_r.
    destruct HQ as (n1 & st1 & Hloop1 & Hwf1 & Hil1 & Hr1 & Hk1 & Hfr1 & Hgone1).
    destruct (repr_tree_inv _ _ _ _ _ Hr1) as [(av1 & Ha1 & _ & Hai1 & _ & _ & Hafc1) _].
    cbn [head_id head fmap option_fmap option_map] in Hafc1.
    assert (Hat1 : v_attached av1 = v_attached av).
    { destruct (Hk1 _ _ Ha1) as (av' & Ha' & Hfl). rewrite Ha in Ha'. injection Ha' as <-.
      unfold v_attached. rewrite Hfl. reflexivity. }
    destruct (v_attached av) eqn:Hat.
    + exists (n1 + 1)%nat. intros fuel Hfuel.
      rewrite <- Nat.add_assoc, Hloop1 by lia. cbn [Nat.add].
      rewrite (version_tree_delete_loop_leaf _ _ _ _ _ Ha1 Hafc1).
      unfold castle_version_delete. rewrite Ha1, Hat1. reflexivity.
    + assert (Hr1p : repr_tree (castle_versions_hash st1) pp pn
                       (VNode p ([] ++ VNode a [] :: cs))).
      { cbn [app]. constructor.
        - exists pv. rewrite Hfr1; [repeat split; assumption|].
          intros Hin. apply Hpnot, elem_of_app. left. exact Hin.
        - constructor; [exact Hr1|].
          apply (proj2 (repr_frame (castle_versions_hash st) _)); [|exact Hrcs].
          intros y Hy. apply Hfr1. intros Hin. exact (Hdisj y Hin Hy). }
      assert (Hnd1 : NoDup (tree_ids (VNode p ([] ++ VNode a [] :: cs)))).
      { cbn [app]. rewrite tree_ids_node, forest_ids_cons. cbn [tree_ids flat_map app].
        apply NoDup_cons. split.
        - intros Hin. apply Hpnot. apply elem_of_cons in Hin as [->|Hin].
          + apply elem_of_app. left. apply list_elem_of_here.
          + apply elem_of_app. right. exact Hin.
        - apply NoDup_cons. split; [|exact Hndcs].
          intros Hin. exact (Hdisj a (list_elem_of_here _ _) Hin). }
      destruct (castle_version_delete_leaf st1 p a av1 pp pn [] cs Hwf1 Hr1p Hnd1 Ha1)
        as (st2 & Hdel & Hwf2 & Hil2 & Hr2 & Hk2 & Hfr2 & Hgone2); [congruence|].
      exists (n1 + 1)%nat, st2. split; [|split; [exact Hwf2|split; [congruence|]]].
      * intros fuel Hfuel. rewrite <- Nat.add_assoc, Hloop1 by lia. cbn [Nat.add].
        rewrite (version_tree_delete_loop_leaf _ _ _ _ _ Ha1 Hafc1).
        rewrite Hdel by (cbn [app]; lia). cbn [fbind].
        rewrite (proj2 (Z.eqb_neq a v)) by congruence. reflexivity.
      * split; [exact Hr2|]. split; [eapply flags_kept_trans; eauto|]. split.
        -- intros y Hy. rewrite Hfr2, Hfr1; [reflexivity| |].
           ++ intros Hin. apply Hy. rewrite tree_ids_node, forest_ids_cons.
              apply list_elem_of_further, elem_of_app. left. exact Hin.
           ++ intros Hin. apply Hy. cbn [app] in Hin.
              rewrite !tree_ids_node, !forest_ids_cons in *.
              cbn [tree_ids flat_map app] in Hin.
              apply elem_of_cons in Hin as [->|Hin]; [apply list_elem_of_here|].
              apply list_elem_of_further.
              apply elem_of_cons in Hin as [->|Hin].
              ** apply elem_of_app. left. apply list_elem_of_here.
              ** apply elem_of_app. right. exact Hin.
        -- intros y Hy. rewrite tree_ids_node in Hy.
           apply elem_of_cons in Hy as [->|Hy]; [exact Hgone2|].
           rewrite Hfr2; [apply Hgone1, Hy|].
           cbn [app]. rewrite tree_ids_node, forest_ids_cons. cbn [tree_ids flat_map app].
           rewrite tree_ids_node in Hnda. apply NoDup_cons in Hnda as [Hads _].
           intros Hin. apply elem_of_cons in Hin as [->|Hin].
           ++ apply Hpnot, elem_of_app. left. apply list_elem_of_further, Hy.
           ++ apply elem_of_cons in Hin as [->|Hin]; [contradiction|].
              apply (Hdisj y); [apply list_elem_of_further, Hy|exact Hin].
Qed.

(** The loop of [castle_version_tree_delete] deletes whole subtrees, or
    stops in [BUG] at an attached version. *)
Lemma version_tree_delete_loop_subtrees v :
  (forall c, subtree_deleted v c) /\ (forall cs, children_deleted v cs).
Proof.
  apply vtree_forest_ind.
  - intros a ds. apply subtree_deleted_node.
  - apply children_deleted_nil.
  - intros c cs. apply children_deleted_cons.
Qed.

(** With an empty init list and fuel enough, [castle_versions_process]
    runs to its end: it numbers the tree and returns 0. *)
Lemma castle_versions_process_total sysfs st :
  versions_wf st -> castle_versions_init_list st = [] ->
  exists n st',
    (forall fuel, (n <= fuel)%nat ->
       castle_versions_process sysfs fuel st = Some (Done (0, st'))) /\
    versions_wf st' /\ orders_nested (castle_versions_hash st') /\
    flags_kept (castle_versions_hash st) (castle_versions_hash st') /\
    (forall y, castle_versions_hash st' !! y = None <-> castle_versions_hash st !! y = None).
Proof.
  intros [t Hwf] Hil. rewrite Hil in Hwf.
  destruct (versions_wf_with_root _ _ _ Hwf) as (rv & Hr & Hri & Hrp).
  destruct (versions_order_loop_wf t _ _ Hwf) as (n & h' & _ & Hloop & Hwf' & Hnest & Hs).
  exists (S n), (set_init_list (set_hash st h') []).
  split; [|split; [exists t; exact Hwf'|split; [exact Hnest|split]]].
  - intros fuel Hfuel. unfold castle_versions_process. rewrite Hil.
    destruct fuel as [|fuel]; [lia|]. cbn [versions_process_init head fbind fret].
    rewrite Hr, Hri, Hrp. cbn [negb].
    replace (S fuel) with (n + (S fuel - n))%nat by lia. rewrite Hloop. reflexivity.
  - intros y yv' Hy. cbn [castle_versions_hash set_hash set_init_list] in Hy.
    destruct (same_links_lookup _ _ _ _ Hs Hy) as (yv & Hyv & Hl).
    exists yv. split; [exact Hyv|]. unfold v_links in Hl. congruence.
  - intros y. cbn [castle_versions_hash set_hash set_init_list].
    pose proof (same_links_keys _ _ y Hs) as Hk.
    rewrite !eq_None_not_Some. rewrite Hk. reflexivity.
Qed.

(** A child of a sibling list replaced by a tree with the same root. *)
Lemma repr_forest_replace h h1 parent c c' c2 : forall c1,
  repr_forest h parent (c1 ++ c :: c2) ->
  repr_tree h1 parent (head_id c2) c' -> tree_root c' = tree_root c ->
  (forall y, y ∈ forest_ids (c1 ++ c2) -> h1 !! y = h !! y) ->
  repr_forest h1 parent (c1 ++ c' :: c2).
Proof.
  induction c1 as [|c0 c1 IH]; intros Hr Hc' Hroot Hag; cbn [app] in *;
    apply repr_forest_cons_inv in Hr as [Hc Hrest].
  - constructor; [exact Hc'|].
    apply (proj2 (repr_frame h h1)); [exact Hag|exact Hrest].
  - constructor.
    + replace (head_id (c1 ++ c' :: c2)) with (head_id (c1 ++ c :: c2))
        by (destruct c1; [cbn [app]; unfold head_id; simpl; congruence|reflexivity]).
      apply (proj1 (repr_frame h h1)); [|exact Hc].
      intros y Hy. apply Hag. rewrite forest_ids_cons. apply elem_of_app. auto.
    + apply IH; [exact Hrest|exact Hc'|exact Hroot|].
      intros y Hy. apply Hag. rewrite forest_ids_cons. apply elem_of_app. auto.
Qed.

Section VersionTreeDeleteTotal.

Variable castle_sysfs_version_add : Z -> Z.

(** [castle_version_tree_delete] of a version that is not the root, on a
    well-formed registry with nothing left to init and with fuel enough:
    it stops in [BUG] if the version or a version below it is attached;
    else it deletes the version and all the versions below it, runs
    [castle_versions_process] and returns 0. *)
Lemma castle_version_tree_delete_total st version pa na ds :
  versions_wf st -> castle_versions_init_list st = [] -> version <> 0 ->
  repr_tree (castle_versions_hash st) pa na (VNode version ds) ->
  if attached_any (castle_versions_hash st) (tree_ids (VNode version ds))
  then exists n, forall fuel, (n <= fuel)%nat ->
         castle_version_tree_delete castle_sysfs_version_add fuel st version = Some BUG
  else exists n st',
         (forall fuel, (n <= fuel)%nat ->
            castle_version_tree_delete castle_sysfs_version_add fuel st version
            = Some (Done (st', 0))) /\
         versions_wf st' /\ orders_nested (castle_versions_hash st') /\
         (forall y, y ∈ tree_ids (VNode version ds) ->
            castle_versions_hash st' !! y = None) /\
         (forall y, y ∉ tree_ids (VNode version ds) ->
            is_Some (castle_versions_hash st' !! y)
            <-> is_Some (castle_versions_hash st !! y)).
Proof.
  intros Hwf Hil Hv0 Hrv. pose proof Hwf as [t Hwft].
  pose proof Hwft as (Hroot & Hrep & Hnd & _ & _ & Hinit & _).
  destruct (repr_tree_inv _ _ _ _ _ Hrv) as [(vv & Hv & _ & Hvi & _) _].
  pose proof (Hinit _ _ Hv Hvi) as Hvt.
  destruct (proj1 (child_split _ version) _ _ _ Hrep Hnd Hvt)
    as (p & pp & pn & c1 & ds0 & c2 & Hrp & _ & Hndp); [congruence|].
  destruct (repr_tree_inv _ _ _ _ _ Hrp) as [Hpn Hrcs].
  pose proof (repr_forest_app_inv _ _ _ _ _ Hrcs) as Hrv0.
  pose proof (proj1 (repr_tree_forest_det _) _ _ _ _ _ _ Hrv0 Hrv eq_refl) as Heq.
  injection Heq as ->. clear Hrv.
  set (N := Z.to_nat (tree_size (VNode p (c1 ++ VNode version ds :: c2)))).
  pose proof Hndp as Hndp0.
  rewrite tree_ids_node in Hndp. apply NoDup_cons in Hndp as [Hpnot Hndcs].
  assert (Hndv : NoDup (tree_ids (VNode version ds))).
  { unfold forest_ids in Hndcs. rewrite flat_map_app in Hndcs.
    apply NoDup_app in Hndcs as (_ & _ & Hndcs). cbn [flat_map] in Hndcs.
    apply NoDup_app in Hndcs as (Hndv & _). exact Hndv. }
  assert (Hvds : version ∉ forest_ids ds).
  { rewrite tree_ids_node in Hndv. apply NoDup_cons in Hndv as [Hn _]. exact Hn. }
  assert (HNv : tree_size (VNode version ds) <= Z.of_nat N).
  { subst N. rewrite Z2Nat.id by (pose proof (tree_size_pos (VNode p (c1 ++ VNode version ds :: c2))); lia).
    rewrite (tree_size_node p), forest_size_app, forest_size_cons.
    pose proof (forest_size_nonneg c1). pose proof (forest_size_nonneg c2). lia. }
  assert (Hlen : (length (c1 ++ VNode version [] :: c2) <= N)%nat).
  { subst N. apply Nat2Z.inj_le.
    rewrite Z2Nat.id by (pose proof (tree_size_pos (VNode p (c1 ++ VNode version ds :: c2))); lia).
    rewrite (tree_size_node p).
    pose proof (length_le_forest_size (c1 ++ VNode version ds :: c2)) as Hl.
    rewrite !length_app in *. cbn [length] in *. lia. }
  pose proof (proj2 (version_tree_delete_loop_subtrees version) ds N version (Some p)
                (head_id c2) st Hwf Hrv0 Hndv Hvds HNv) as HQ.
  change (attached_any (castle_versions_hash st) (tree_ids (VNode version ds)))
    with (match castle_versions_hash st !! version with
          | Some yv => v_attached yv
          | None => false
          end || attached_any (castle_versions_hash st) (forest_ids ds)).
  rewrite Hv.
  assert (Hpre : forall fuel,
            castle_version_tree_delete castle_sysfs_version_add fuel st version
            = run r <- version_tree_delete_loop fuel st version version;
              match r with
              | (st, 0) =>
                  run r' <- castle_versions_process castle_sysfs_version_add fuel st;
                  fret (r'.2, 0)
              | (st, ret) => fret (st, ret)
              end).
  { intros fuel. unfold castle_version_tree_delete. rewrite Hv, Hvi. reflexivity. }
  destruct (attached_any (castle_versions_hash st) (forest_ids ds)).
  - rewrite orb_true_r. destruct HQ as [n1 Hbug]. exists (n1 + N)%nat.
    intros fuel Hfuel. rewrite Hpre.
    replace fuel with (n1 + (fuel - n1))%nat by lia. rewrite Hbug by lia. reflexivity.
  - rewrite orb_false_r.
    destruct HQ as (n1 & st1 & Hloop1 & Hwf1 & Hil1 & Hr1 & Hk1 & Hfr1 & Hgone1).
    destruct (repr_tree_inv _ _ _ _ _ Hr1) as [(av1 & Ha1 & _ & Hai1 & _ & _ & Hafc1) _].
    cbn [head_id head fmap option_fmap option_map] in Hafc1.
    assert (Hat1 : v_attached av1 = v_attached vv).
    { destruct (Hk1 _ _ Ha1) as (av' & Ha' & Hfl). rewrite Hv in Ha'. injection Ha' as <-.
      unfold v_attached. rewrite Hfl. reflexivity. }
    destruct (v_attached vv) eqn:Hat.
    + exists (n1 + 1 + N)%nat. intros fuel Hfuel. rewrite Hpre.
      replace fuel with (n1 + S (fuel - n1 - 1))%nat by lia. rewrite Hloop1 by lia.
      rewrite (version_tree_delete_loop_leaf _ _ _ _ _ Ha1 Hafc1).
      unfold castle_version_delete. rewrite Ha1, Hat1. reflexivity.
    + assert (Hdisj : forall y, y ∈ tree_ids (VNode version ds) ->
                        y <> p /\ y ∉ forest_ids (c1 ++ c2)).
      { intros y Hy. split.
        - intros ->. apply Hpnot. apply elem_of_forest_ids. exists (VNode version ds).
          split; [apply elem_of_app; right; apply list_elem_of_here|exact Hy].
        - unfold forest_ids in *. rewrite flat_map_app in *. cbn [flat_map] in Hndcs.
          apply NoDup_app in Hndcs as (_ & Hd1 & Hndcs).
          apply NoDup_app in Hndcs as (_ & Hd2 & _).
          intros Hin. apply elem_of_app in Hin as [Hin|Hin].
          + apply (Hd1 y Hin). apply elem_of_app. auto.
          + exact (Hd2 y Hy Hin). }
      assert (Hr1p : repr_tree (castle_versions_hash st1) pp pn
                       (VNode p (c1 ++ VNode version [] :: c2))).
      { destruct Hpn as (pv & Hp & Hpver & Hpi & Hppar & Hpnx & Hpfc). constructor.
        - exists pv. rewrite Hfr1.
          + replace (head_id (c1 ++ VNode version [] :: c2))
              with (head_id (c1 ++ VNode version ds :: c2)) by (destruct c1; reflexivity).
            repeat split; assumption.
          + intros Hin. apply (proj1 (Hdisj p Hin)). reflexivity.
        - apply (repr_forest_replace (castle_versions_hash st) _ _ (VNode version ds));
            [exact Hrcs|exact Hr1|reflexivity|].
          intros y Hy. apply Hfr1. intros Hin. exact (proj2 (Hdisj y Hin) Hy). }
      assert (Hnd1 : NoDup (tree_ids (VNode p (c1 ++ VNode version [] :: c2)))).
      { rewrite tree_ids_node, forest_ids_middle.
        apply NoDup_cons. split.
        - intros Hin. apply Hpnot. apply elem_of_cons in Hin as [->|Hin].
          + exfalso. apply (proj1 (Hdisj version (list_elem_of_here _ _))). reflexivity.
          + unfold forest_ids in *. rewrite flat_map_app in *. cbn [flat_map].
            apply elem_of_app in Hin as [Hin|Hin]; apply elem_of_app; [auto|].
            right. apply elem_of_app. auto.
        - apply NoDup_cons. split.
          + exact (proj2 (Hdisj version (list_elem_of_here _ _))).
          + unfold forest_ids in *. rewrite flat_map_app in *. cbn [flat_map] in Hndcs.
            apply NoDup_app in Hndcs as (Hn1 & Hd1 & Hndcs).
            apply NoDup_app in Hndcs as (_ & _ & Hn2).
            apply NoDup_app. split; [exact Hn1|]. split; [|exact Hn2].
            intros y Hy1 Hy2. apply (Hd1 y Hy1). apply elem_of_app. auto. }
      destruct (castle_version_delete_leaf st1 p version av1 pp pn c1 c2 Hwf1 Hr1p Hnd1 Ha1)
        as (st2 & Hdel & Hwf2 & Hil2 & Hr2 & Hk2 & Hfr2 & Hgone2); [congruence|].
      destruct (castle_versions_process_total castle_sysfs_version_add st2 Hwf2)
        as (n3 & st3 & Hproc & Hwf3 & Hnest3 & Hk3 & Hnone3); [congruence|].
      exists (n1 + 1 + N + n3)%nat, st3.
      split; [|split; [exact Hwf3|split; [exact Hnest3|split]]].
      * intros fuel Hfuel. rewrite Hpre.
        replace fuel with (n1 + S (fuel - n1 - 1))%nat at 1 by lia. rewrite Hloop1 by lia.
        rewrite (version_tree_delete_loop_leaf _ _ _ _ _ Ha1 Hafc1).
        rewrite Hdel by lia. cbn [fbind]. rewrite Z.eqb_refl. cbn [fret fbind].
        rewrite Hproc by lia. reflexivity.
      * intros y Hy. apply Hnone3. rewrite tree_ids_node in Hy.
        apply elem_of_cons in Hy as [->|Hy]; [exact Hgone2|].
        rewrite Hfr2; [apply Hgone1, Hy|].
        rewrite tree_ids_node, forest_ids_middle. intros Hin.
        assert (Hyt : y ∈ tree_ids (VNode version ds))
          by (rewrite tree_ids_node; apply list_elem_of_further, Hy).
        destruct (Hdisj y Hyt) as [Hyp Hy12].
        rewrite tree_ids_node in Hndv. apply NoDup_cons in Hndv as [Hvn _].
        apply elem_of_cons in Hin as [->|Hin]; [congruence|].
        apply elem_of_cons in Hin as [->|Hin]; contradiction.
      * intros y Hy. rewrite <- !not_eq_None_Some, Hnone3.
        destruct (decide (y ∈ tree_ids (VNode p (c1 ++ c2)))) as [Hyin|Hyout].
        -- destruct (proj1 (repr_ids_inited _) _ _ _ Hr2 y Hyin) as (yv2 & Hy2 & _).
           destruct (proj1 (repr_ids_inited _) _ _ _ Hrp y) as (yv0 & Hy0 & _).
           { rewrite tree_ids_node in *. apply elem_of_cons in Hyin as [->|Hyin];
               [apply list_elem_of_here|apply list_elem_of_further].
             unfold forest_ids in *. rewrite flat_map_app in *. cbn [flat_map].
             apply elem_of_app in Hyin as [?|?]; apply elem_of_app; [auto|].
             right. apply elem_of_app. auto. }
           rewrite Hy2, Hy0. split; discriminate.
        -- assert (Hy1 : y ∉ tree_ids (VNode p (c1 ++ VNode version [] :: c2))).
           { rewrite tree_ids_node, forest_ids_middle. rewrite tree_ids_node in Hyout.
             intros Hin. apply elem_of_cons in Hin as [->|Hin];
               [apply Hyout, list_elem_of_here|].
             apply elem_of_cons in Hin as [->|Hin];
               [apply Hy, list_elem_of_here|apply Hyout, list_elem_of_further, Hin]. }
           rewrite Hfr2, Hfr1 by assumption. reflexivity.
Qed.

End VersionTreeDeleteTotal.

(** *** Attaching a version *)

Lemma repr_alter_shape h v (f : castle_version -> castle_version) :
  (forall x, v_version (f x) = v_version x /\ v_parent_u (f x) = v_parent_u x /\
             v_first_child (f x) = v_first_child x /\
             v_next_sybling (f x) = v_next_sybling x /\ v_inited (f x) = v_inited x) ->
  (forall t parent next, repr_tree h parent next t -> repr_tree (alter f v h) parent next t) /\
  (forall cs parent, repr_forest h parent cs -> repr_forest (alter f v h) parent cs).
Proof.
  intros Hf. apply vtree_forest_ind.
  - intros x cs IH parent next Hr. apply repr_tree_inv in Hr as [Hn Hcs].
    constructor; [|apply IH, Hcs].
    destruct Hn as (xv & Hx & Hver & Hi & Hp & Hnx & Hfc).
    destruct (Hf xv) as (Hfv & Hfp & Hffc & Hfn & Hfi).
    unfold node_linked. rewrite lookup_alter_orders.
    destruct (decide (v = x)) as [->|Hne].
    + exists (f xv). rewrite Hx. split; [reflexivity|].
      repeat split; congruence.
    + exists xv. repeat split; assumption.
  - intros parent _. constructor.
  - intros c cs IHc IHcs parent Hr. apply repr_forest_cons_inv in Hr as [Hc Hcs].
    constructor; auto.
Qed.

Lemma versions_wf_with_alter_shape t h il v (f : castle_version -> castle_version) :
  (forall x, v_version (f x) = v_version x /\ v_parent_u (f x) = v_parent_u x /\
             v_first_child (f x) = v_first_child x /\
             v_next_sybling (f x) = v_next_sybling x /\ v_inited (f x) = v_inited x) ->
  versions_wf_with t h il -> versions_wf_with t (alter f v h) il.
Proof.
  intros Hf (Hroot & Hrep & Hnd & Hsz & Hkey & Hin & Hun & Hndil & Hil).
  assert (Hcases : forall y yv', alter f v h !! y = Some yv' ->
            exists yv, h !! y = Some yv /\ v_version yv' = v_version yv /\
              v_parent_u yv' = v_parent_u yv /\ v_first_child yv' = v_first_child yv /\
              v_inited yv' = v_inited yv).
  { intros y yv' Hy. rewrite lookup_alter_orders in Hy.
    destruct (decide (v = y)) as [<-|Hne].
    - destruct (h !! v) as [vv|] eqn:Hv; [|discriminate]. injection Hy as <-.
      exists vv. split; [reflexivity|]. destruct (Hf vv) as (? & ? & ? & ? & ?). auto.
    - exists yv'. auto. }
  split; [exact Hroot|].
  split; [apply (proj1 (repr_alter_shape h v f Hf)), Hrep|].
  split; [exact Hnd|].
  split; [rewrite size_alter_hash; exact Hsz|].
  split.
  { intros y yv' Hy. destruct (Hcases _ _ Hy) as (yv & Hyv & -> & _). eauto. }
  split.
  { intros y yv' Hy Hi. destruct (Hcases _ _ Hy) as (yv & Hyv & _ & _ & _ & Hi').
    rewrite Hi' in Hi. eauto. }
  split.
  { intros y yv' Hy Hi. destruct (Hcases _ _ Hy) as (yv & Hyv & _ & -> & -> & Hi').
    rewrite Hi' in Hi. eauto. }
  split; [exact Hndil|].
  intros y Hy. destruct (Hil _ Hy) as (yv & Hyv & Hi).
  rewrite lookup_alter_orders. destruct (decide (v = y)) as [<-|Hne]; [|eauto].
  rewrite Hyv. eexists. split; [reflexivity|].
  destruct (Hf yv) as (_ & _ & _ & _ & ->). exact Hi.
Qed.

(** [castle_version_attach] keeps the registry well formed. *)
Lemma castle_version_attach_wf st version :
  versions_wf st -> versions_wf (castle_version_attach st version).1.
Proof.
  intros [t Hwf]. unfold castle_version_attach.
  destruct (castle_versions_hash st !! version) as [v|]; [|exists t; exact Hwf].
  destruct (v_attached v); [exists t; exact Hwf|].
  exists t. cbn [fst castle_versions_hash castle_versions_init_list set_hash].
  apply versions_wf_with_alter_shape; [|exact Hwf].
  intros x. repeat split. unfold v_inited, test_mask. cbn [v_flags set_flags].
  rewrite Z.land_lor_distr_l. change (Z.land CV_ATTACHED_MASK CV_INITED_MASK) with 0.
  rewrite Z.lor_0_r. reflexivity.
Qed.

Lemma sample_attached_below_wf : versions_wf sample_attached_below.
Proof. apply castle_version_attach_wf, sample_processed_wf. Qed.

Lemma sample_attached_below_subtree :
  repr_tree (castle_versions_hash sample_attached_below) (Some 0) None
    (VNode 1 [VNode 3 []]).
Proof.
  constructor.
  - exists (mk_version 1 (ParentPtr (Some 0)) (Some 3) None 3 4 7 0 1).
    split; [vm_compute; reflexivity|]. repeat split.
  - constructor; [|constructor]. constructor; [|constructor].
    exists (mk_version 3 (ParentPtr (Some 1)) None None 4 4 7 0 3).
    split; [vm_compute; reflexivity|]. repeat split.
Qed.

(** *** The failures of [castle_version_tree_delete] *)

Section TreeDeleteFailures.

Variable castle_sysfs_version_add : Z -> Z.

Local Abbreviation version_tree_delete :=
  (castle_version_tree_delete castle_sysfs_version_add).

(** C6, as the code has it. [castle_version_tree_delete] returns [-EINVAL]
    and leaves the registry as it was when the version is not in the hash,
    and on a well-formed registry this is the only error it returns. When
    the version, an inited version other than the root, or a version below
    it is attached, on a well-formed registry with nothing on the init list,
    there is no error to return: with fuel enough the deletion walk stops
    in the [BUG_ON] of [castle_version_delete]. *)
Theorem castle_version_tree_delete_failures st version :
  (castle_versions_hash st !! version = None ->
   forall fuel, version_tree_delete fuel st version = Some (Done (st, - EINVAL))) /\
  (forall pa na ds,
     versions_wf st -> castle_versions_init_list st = [] -> version <> 0 ->
     repr_tree (castle_versions_hash st) pa na (VNode version ds) ->
     attached_any (castle_versions_hash st) (tree_ids (VNode version ds)) = true ->
     exists n, forall fuel, (n <= fuel)%nat ->
       version_tree_delete fuel st version = Some BUG) /\
  (forall fuel st' ret,
     versions_wf st ->
     version_tree_delete fuel st version = Some (Done (st', ret)) -> ret <> 0 ->
     castle_versions_hash st !! version = None /\ ret = - EINVAL /\ st' = st).
Proof.
  split; [|split].
  - intros Hnone fuel. unfold castle_version_tree_delete. rewrite Hnone. reflexivity.
  - intros pa na ds Hwf Hil Hv0 Hr Hat.
    pose proof (castle_version_tree_delete_total castle_sysfs_version_add
                  st version pa na ds Hwf Hil Hv0 Hr) as Htot.
    rewrite Hat in Htot. exact Htot.
  - intros fuel st' ret Hwf Hrun Hret.
    destruct (castle_version_tree_delete_orders_nested _ _ _ _ _ _ Hwf Hrun)
      as [Hnf|(-> & _)]; [exact Hnf|congruence].
Qed.

End TreeDeleteFailures.

Lemma castle_version_tree_delete_failures_witness :
  (forall fuel, castle_version_tree_delete (fun _ => 0) fuel sample_registry 5
                = Some (Done (sample_registry, - EINVAL))) /\
  (exists n, forall fuel, (n <= fuel)%nat ->
     castle_version_tree_delete (fun _ => 0) fuel sample_attached_below 1 = Some BUG).
Proof.
  split.
  - apply (proj1 (castle_version_tree_delete_failures (fun _ => 0) sample_registry 5)).
    vm_compute. reflexivity.
  - apply (proj1 (proj2 (castle_version_tree_delete_failures (fun _ => 0)
                           sample_attached_below 1))
             (Some 0) None [VNode 3 []]).
    + exact sample_attached_below_wf.
    + vm_compute. reflexivity.
    + discriminate.
    + exact sample_attached_below_subtree.
    + vm_compute. reflexivity.
Defined.

(** C6 as stated does not hold: deleting the attached version 1 of the
    sample registry gives no error back to the caller, whatever the fuel. *)
Lemma castle_version_tree_delete_attached_counterexample :
  castle_versions_hash sample_attached_registry !! 1
    = Some (mk_version 1 (ParentPtr (Some 0)) None None 2 2 7 0 3) /\
  forall fuel, ~ exists st' e,
    castle_version_tree_delete (fun _ => 0) fuel sample_attached_registry 1
    = Some (Done (st', e)).
Proof.
  split; [vm_compute; reflexivity|].
  intros [|fuel] (st' & e & Hrun); [discriminate Hrun|].
  rewrite (castle_version_tree_delete_attached_leaf (fun _ => 0) fuel
             sample_attached_registry 1
             (mk_version 1 (ParentPtr (Some 0)) None None 2 2 7 0 3)) in Hrun;
    [discriminate Hrun|vm_compute; reflexivity..].
Qed.

(* ===================================================================== *)
(** * Further properties of the key codec and the range iterator *)
(* ===================================================================== *)

(** ** Key codec: the comparison as an order *)

Lemma dim_compare_antisym a al af b bl bf :
  castle_object_key_dim_compare b bl bf a al af
  = match castle_object_key_dim_compare a al af b bl bf with
    | Done c => Done (- c)
    | BUG => BUG
    end.
Proof.
  unfold castle_object_key_dim_compare.
  rewrite (memcmp_antisym a b).
  replace (if bl >? al then al else bl) with (if al >? bl then bl else al)
    by (destruct (Z.gtb_spec bl al), (Z.gtb_spec al bl); lia).
  set (c := memcmp a b _).
  destruct (Z.eqb_spec c 0) as [Hc|Hc];
    destruct (Z.eqb_spec (- c) 0) as [Hc'|Hc']; try lia; cbn [negb]; [|reflexivity].
  rewrite (Z.eqb_sym bl al).
  destruct (Z.eqb_spec al bl) as [Hl|Hl]; cbn [negb].
  2:{ destruct (Z.gtb_spec al bl), (Z.gtb_spec bl al); try lia; reflexivity. }
  destruct (Z.land af KEY_DIMENSION_NEXT_FLAG =? 0),
           (Z.land bf KEY_DIMENSION_NEXT_FLAG =? 0); reflexivity.
Qed.

Lemma compare_dims_antisym k1 k2 n : forall dim,
  btree_key_compare_dims k2 k1 dim n
  = match btree_key_compare_dims k1 k2 dim n with
    | Done c => Done (- c)
    | BUG => BUG
    end.
Proof.
  induction n as [|n IH]; intros dim; cbn [btree_key_compare_dims]; [reflexivity|].
  rewrite dim_compare_antisym.
  destruct (castle_object_key_dim_compare
              (castle_object_btree_key_dim_get k1 dim) _ _ _ _ _) as [c|];
    cbn [obind]; [|reflexivity].
  destruct (Z.eqb_spec c 0) as [Hc|Hc]; destruct (Z.eqb_spec (- c) 0) as [Hc'|Hc'];
    try lia; cbn [negb]; [apply IH|reflexivity].
Qed.

(** X1: the key comparison is antisymmetric: with the two keys swapped,
    [castle_object_btree_key_compare] gives the opposite number, and it stops
    in [BUG] for the one order exactly when it does for the other. *)
Theorem btree_key_compare_antisym (k1 k2 : c_vl_bkey) :
  castle_object_btree_key_compare k2 k1
  = match castle_object_btree_key_compare k1 k2 with
    | Done c => Done (- c)
    | BUG => BUG
    end.
Proof.
  unfold castle_object_btree_key_compare.
  rewrite (Z.eqb_sym (bk_nr_dims k2)).
  destruct (Z.eqb_spec (bk_nr_dims k1) (bk_nr_dims k2)) as [Hn|Hn]; cbn [negb].
  - rewrite <- Hn. apply compare_dims_antisym.
  - destruct (Z.gtb_spec (bk_nr_dims k1) (bk_nr_dims k2)),
             (Z.gtb_spec (bk_nr_dims k2) (bk_nr_dims k1)); try lia; reflexivity.
Qed.

Lemma dim_compare_same d l f :
  castle_object_key_dim_compare d l f d l f
  = if Z.land f KEY_DIMENSION_NEXT_FLAG =? 0 then Done 0 else BUG.
Proof.
  unfold castle_object_key_dim_compare.
  rewrite memcmp_refl, !Z.eqb_refl. cbn [negb].
  destruct (Z.land f KEY_DIMENSION_NEXT_FLAG =? 0); reflexivity.
Qed.

Lemma compare_dims_same K n : forall i,
  btree_key_compare_dims K K (Z.of_nat i) n
  = if existsb (fun d => dim_has_next K (Z.of_nat d)) (seq i n) then BUG else Done 0.
Proof.
  induction n as [|n IH]; intros i; cbn [btree_key_compare_dims seq existsb];
    [reflexivity|].
  rewrite dim_compare_same. unfold dim_has_next at 1.
  destruct (Z.land (castle_object_btree_key_dim_flags_get K (Z.of_nat i))
                   KEY_DIMENSION_NEXT_FLAG =? 0); cbn [negb orb obind]; [|reflexivity].
  cbn [Z.eqb negb]. replace (Z.of_nat i + 1) with (Z.of_nat (S i)) by lia. apply IH.
Qed.

(** X2: a key compared with itself gives 0 when none of its dimensions
    carries the NEXT flag; when one does, the comparison stops in
    [BUG_ON(dim_a_next_flag && dim_b_next_flag)]. *)
Theorem btree_key_compare_self (K : c_vl_bkey) :
  castle_object_btree_key_compare K K
  = if bkey_next_flagged K then BUG else Done 0.
Proof.
  unfold castle_object_btree_key_compare, bkey_next_flagged.
  rewrite Z.eqb_refl. cbn [negb]. apply (compare_dims_same K _ 0%nat).
Qed.

(** ** Key codec: the layout of an encoded key *)

Lemma payload_size_app ds1 ds2 :
  payload_size (ds1 ++ ds2) = payload_size ds1 + payload_size ds2.
Proof. induction ds1 as [|d ds1 IH]; simpl; [reflexivity|]. rewrite IH. lia. Qed.

Lemma payload_size_take_le ds i :
  Forall dim_wf ds -> 0 <= payload_size (take i ds) <= payload_size ds.
Proof.
  intros Hwf. rewrite <- (take_drop i ds) at 3. rewrite payload_size_app.
  pose proof (payload_size_nonneg (take i ds) (Forall_take _ i _ Hwf)).
  pose proof (payload_size_nonneg (drop i ds) (Forall_drop _ i _ Hwf)). lia.
Qed.

Lemma payload_size_take_S ds i d :
  ds !! i = Some d -> payload_size (take (S i) ds) = payload_size (take i ds) + vk_length d.
Proof.
  intros Hd. rewrite (take_S_r _ _ _ Hd), payload_size_app. simpl. lia.
Qed.

Lemma dim_offsets_lookup ds : forall off i d,
  ds !! i = Some d -> dim_offsets off ds !! i = Some (off + payload_size (take i ds)).
Proof.
  induction ds as [|d0 ds IH]; intros off [|i] d Hd; try discriminate; simpl.
  - f_equal. lia.
  - rewrite (IH _ _ _ Hd). f_equal. lia.
Qed.

Lemma payload_length ds :
  Forall dim_wf ds -> Z.of_nat (length (concat (map vk_key ds))) = payload_size ds.
Proof.
  induction 1 as [|d ds Hd _ IH]; simpl; [reflexivity|].
  rewrite length_app. unfold dim_wf in Hd. lia.
Qed.

Lemma payload_drop ds : forall i,
  Forall dim_wf ds ->
  drop (Z.to_nat (payload_size (take i ds))) (concat (map vk_key ds))
  = concat (map vk_key (drop i ds)).
Proof.
  induction ds as [|d ds IH]; intros [|i] Hwf; simpl; try reflexivity.
  inversion Hwf as [|? ? Hd Hds]; subst. unfold dim_wf in Hd.
  pose proof (payload_size_nonneg _ (Forall_take _ i _ Hds)).
  replace (Z.to_nat (vk_length d + payload_size (take i ds)))
    with (length (vk_key d) + Z.to_nat (payload_size (take i ds)))%nat by lia.
  rewrite drop_app_add. apply IH, Hds.
Qed.

Lemma dim_header_flags off :
  0 <= off < 2 ^ 24 -> KEY_DIMENSION_FLAGS (KEY_DIMENSION_HEADER off 0) = 0.
Proof.
  intros Hoff. unfold KEY_DIMENSION_FLAGS, KEY_DIMENSION_HEADER,
    KEY_DIMENSION_FLAGS_MASK, KEY_DIMENSION_FLAGS_SHIFT.
  rewrite Z.land_0_l, Z.lor_0_r, Z.shiftl_mul_pow2 by lia.
  rewrite wrap32_small by lia.
  change (Z.shiftl 1 8 - 1) with (Z.ones 8). rewrite Z.land_ones by lia.
  apply Z.mod_mul. lia.
Qed.

Section Encoding.

Variable O : c_vl_okey.
Hypothesis O_valid : okey_valid O.

Lemma encoding_dim_head i d :
  ok_dims O !! i = Some d ->
  dim_head_at (okey_encoding O) (Z.of_nat i)
  = KEY_DIMENSION_HEADER
      (bkey_header_size (ok_nr_dims O) + payload_size (take i (ok_dims O))) 0.
Proof.
  intros Hd. unfold dim_head_at.
  destruct (Z.ltb_spec (Z.of_nat i) 0); [lia|]. rewrite Nat2Z.id.
  cbn [okey_encoding bk_dim_head].
  apply nth_lookup_Some with (d := 0).
  rewrite list_lookup_fmap, (dim_offsets_lookup _ _ _ _ Hd). reflexivity.
Qed.

Lemma encoding_offset_range i :
  0 <= bkey_header_size (ok_nr_dims O) + payload_size (take i (ok_dims O)) < 2 ^ 24.
Proof.
  destruct O_valid as (Hn & Hlen & Hwf & Hb).
  pose proof (payload_size_take_le (ok_dims O) i Hwf).
  unfold bkey_header_size, sizeof_c_vl_bkey_t in *. lia.
Qed.

Lemma encoding_dim_offset i d :
  ok_dims O !! i = Some d ->
  KEY_DIMENSION_OFFSET (dim_head_at (okey_encoding O) (Z.of_nat i))
  = bkey_header_size (ok_nr_dims O) + payload_size (take i (ok_dims O)).
Proof.
  intros Hd. rewrite (encoding_dim_head i d Hd).
  apply dim_header_offset, encoding_offset_range.
Qed.

Lemma encoding_dim_length i d :
  ok_dims O !! i = Some d ->
  castle_object_btree_key_dim_length (okey_encoding O) (Z.of_nat i) = vk_length d.
Proof.
  intros Hd. pose proof O_valid as (Hn & Hlen & Hwf & Hb).
  unfold castle_object_btree_key_dim_length.
  rewrite (encoding_dim_offset i d Hd).
  pose proof (lookup_lt_Some _ _ _ Hd) as Hi.
  pose proof (encoding_offset_range i) as Hr.
  pose proof (encoding_offset_range (S i)) as Hr'.
  rewrite (payload_size_take_S _ _ _ Hd) in Hr'.
  assert (Hdl : 0 <= vk_length d).
  { rewrite Forall_forall in Hwf. specialize (Hwf d (list_elem_of_lookup_2 _ _ _ Hd)).
    unfold dim_wf in Hwf. lia. }
  cbn [okey_encoding bk_nr_dims bk_length].
  destruct (Z.ltb_spec (Z.of_nat i + 1) (ok_nr_dims O)) as [Hlt|Hge].
  - destruct (lookup_lt_is_Some_2 (ok_dims O) (S i)) as [d' Hd']; [lia|].
    replace (Z.of_nat i + 1) with (Z.of_nat (S i)) by lia.
    change (mk_vl_bkey (okey_encoded_size O - 4) (ok_nr_dims O) _ _)
      with (okey_encoding O).
    rewrite (encoding_dim_offset (S i) d' Hd'), (payload_size_take_S _ _ _ Hd).
    rewrite wrap32_small by lia. lia.
  - assert (Hlast : take (S i) (ok_dims O) = ok_dims O) by (apply take_ge; lia).
    pose proof (payload_size_take_S _ _ _ Hd) as Hs. rewrite Hlast in Hs.
    unfold okey_encoded_size.
    rewrite (wrap32_small (_ - 4 + 4)) by lia.
    rewrite wrap32_small by lia. lia.
Qed.

Lemma encoding_dim_get i d :
  ok_dims O !! i = Some d ->
  castle_object_btree_key_dim_get (okey_encoding O) (Z.of_nat i)
  = vk_key d ++ concat (map vk_key (drop (S i) (ok_dims O))).
Proof.
  intros Hd. pose proof O_valid as (Hn & Hlen & Hwf & Hb).
  unfold castle_object_btree_key_dim_get.
  rewrite (encoding_dim_offset i d Hd).
  cbn [okey_encoding bk_dim_head bk_payload].
  rewrite length_map, length_dim_offsets, <- Hlen.
  replace (bkey_header_size (ok_nr_dims O) + payload_size (take i (ok_dims O))
           - bkey_header_size (ok_nr_dims O))
    with (payload_size (take i (ok_dims O))) by lia.
  rewrite payload_drop by exact Hwf.
  rewrite (drop_S _ _ _ Hd). reflexivity.
Qed.

Lemma encoding_dim_flags i d :
  ok_dims O !! i = Some d ->
  castle_object_btree_key_dim_flags_get (okey_encoding O) (Z.of_nat i) = 0.
Proof.
  intros Hd. unfold castle_object_btree_key_dim_flags_get.
  rewrite (encoding_dim_head i d Hd). apply dim_header_flags, encoding_offset_range.
Qed.

Lemma key_convert_encoding (kmalloc_ok : Z -> bool) :
  castle_object_key_convert kmalloc_ok (Some O)
  = Done (if kmalloc_ok (okey_encoded_size O) then Some (okey_encoding O) else None).
Proof.
  pose proof O_valid as (Hn & Hlen & Hwf & Hb).
  pose proof (payload_size_nonneg _ Hwf) as Hnn.
  unfold okey_encoded_size, okey_encoding.
  unfold bkey_header_size, sizeof_c_vl_bkey_t in *.
  unfold castle_object_key_convert, castle_object_btree_key_construct.
  change (wrap32 0) with 0.
  simpl is_null. rewrite andb_true_r, andb_false_r. simpl negb.
  destruct (Z.ltb_spec 0 0) as [?|_]; [lia|].
  destruct (Z.leb_spec (ok_nr_dims O) 0) as [?|_]; [lia|].
  rewrite Z.sub_0_r. change (Z.to_nat 0) with 0%nat. rewrite drop_0.
  rewrite firstn_all2 by lia.
  unfold sizeof_c_vl_bkey_t.
  rewrite (wrap32_small (16 + 4 * ok_nr_dims O)) by lia.
  rewrite key_len_fold by (auto; lia).
  destruct (kmalloc_ok (16 + 4 * ok_nr_dims O + payload_size (ok_dims O)));
    cbn [negb]; [|reflexivity].
  unfold bkey_header_size, sizeof_c_vl_bkey_t.
  set (hsz := 16 + 4 * ok_nr_dims O).
  replace (replicate (Z.to_nat (hsz + payload_size (ok_dims O) - hsz)) x00)
    with ([] ++ replicate (Z.to_nat (payload_size (ok_dims O))) x00)
    by (simpl; f_equal; lia).
  rewrite construct_dims_fresh; auto; simpl length;
    rewrite ?length_replicate; try lia.
  rewrite Z.eqb_refl. simpl negb. cbv iota.
  rewrite take_0, drop_ge by (rewrite length_replicate; lia).
  rewrite drop_ge by (rewrite length_replicate; lia).
  rewrite !app_nil_l, !app_nil_r.
  rewrite wrap32_small by lia. reflexivity.
Qed.

End Encoding.

(** X3: the accessors on an encoded key. For a schema-valid object key,
    [castle_object_key_convert] never stops in [BUG] and returns [NULL] only
    when [kzalloc] fails; on the key it returns, whose length field is the
    header size plus the dimension lengths less 4, dimension [i] has the
    length of the [i]-th dimension of the object key, starts with its bytes
    and carries no flag. *)
Theorem key_convert_accessors (kmalloc_ok : Z -> bool) (O : c_vl_okey) :
  okey_valid O ->
  exists B,
    castle_object_key_convert kmalloc_ok (Some O)
      = Done (if kmalloc_ok (okey_encoded_size O) then Some B else None) /\
    bk_nr_dims B = ok_nr_dims O /\
    bk_length B = bkey_header_size (ok_nr_dims O) + payload_size (ok_dims O) - 4 /\
    forall i d, ok_dims O !! i = Some d ->
      castle_object_btree_key_dim_length B (Z.of_nat i) = vk_length d /\
      take (Z.to_nat (vk_length d)) (castle_object_btree_key_dim_get B (Z.of_nat i))
        = vk_key d /\
      castle_object_btree_key_dim_flags_get B (Z.of_nat i) = 0.
Proof.
  intros Hv. exists (okey_encoding O).
  split; [apply key_convert_encoding, Hv|].
  split; [reflexivity|]. split; [reflexivity|].
  intros i d Hd.
  split; [apply encoding_dim_length; assumption|].
  split; [|apply (encoding_dim_flags O Hv i d Hd)].
  rewrite (encoding_dim_get O Hv i d Hd).
  destruct Hv as (_ & _ & Hwf & _). rewrite Forall_forall in Hwf.
  specialize (Hwf d (list_elem_of_lookup_2 _ _ _ Hd)). unfold dim_wf in Hwf.
  replace (Z.to_nat (vk_length d)) with (length (vk_key d)) by lia.
  apply take_app_length.
Qed.

Lemma key_convert_accessors_witness :
  okey_valid sample_okey1 /\
  exists B,
    castle_object_key_convert kmalloc_always (Some sample_okey1)
      = Done (if kmalloc_always (okey_encoded_size sample_okey1) then Some B else None) /\
    bk_nr_dims B = ok_nr_dims sample_okey1 /\
    bk_length B = bkey_header_size (ok_nr_dims sample_okey1)
                  + payload_size (ok_dims sample_okey1) - 4 /\
    forall i d, ok_dims sample_okey1 !! i = Some d ->
      castle_object_btree_key_dim_length B (Z.of_nat i) = vk_length d /\
      take (Z.to_nat (vk_length d)) (castle_object_btree_key_dim_get B (Z.of_nat i))
        = vk_key d /\
      castle_object_btree_key_dim_flags_get B (Z.of_nat i) = 0.
Proof.
  split; [exact sample_okey1_valid|].
  apply (key_convert_accessors kmalloc_always sample_okey1 sample_okey1_valid).
Defined.

(** ** Key codec: distinct object keys compare as different *)

Lemma byte_val_inj x y : byte_val x = byte_val y -> x = y.
Proof.
  unfold byte_val. intros Hxy. apply N2Z.inj in Hxy.
  apply (f_equal Byte.of_N) in Hxy. rewrite !Byte.of_to_N in Hxy. congruence.
Qed.

Lemma memcmp_app a b x y : forall n,
  (n <= length a)%nat -> (n <= length b)%nat ->
  memcmp (a ++ x) (b ++ y) n = memcmp a b n.
Proof.
  revert b. induction a as [|c a IH]; intros [|e b] [|n] Ha Hb; simpl in *;
    try reflexivity; try (exfalso; lia); try (destruct x; reflexivity).
  destruct (byte_val c =? byte_val e); [|reflexivity]. apply IH; lia.
Qed.

Lemma memcmp_zero_iff a : forall b,
  length a = length b -> memcmp a b (length a) = 0 <-> a = b.
Proof.
  induction a as [|c a IH]; intros [|e b] Hlen; simpl in *; try lia.
  - split; reflexivity.
  - destruct (Z.eqb_spec (byte_val c) (byte_val e)) as [Hce|Hce].
    + apply byte_val_inj in Hce. subst e. rewrite IH by lia.
      split; [intros ->; reflexivity|intros [= ->]; reflexivity].
    + split; [lia|]. intros [= -> _]. contradiction.
Qed.

Lemma dim_compare_encoded d1 d2 r1 r2 :
  dim_wf d1 -> dim_wf d2 ->
  exists c, castle_object_key_dim_compare (vk_key d1 ++ r1) (vk_length d1) 0
              (vk_key d2 ++ r2) (vk_length d2) 0 = Done c /\
            (c = 0 <-> d1 = d2).
Proof.
  unfold dim_wf. intros H1 H2. unfold castle_object_key_dim_compare.
  rewrite memcmp_app by (destruct (Z.gtb_spec (vk_length d1) (vk_length d2)); lia).
  rewrite Z.land_0_l. cbn [Z.eqb negb andb].
  destruct (Z.eqb_spec (memcmp (vk_key d1) (vk_key d2)
              (Z.to_nat (if vk_length d1 >? vk_length d2
                         then vk_length d2 else vk_length d1))) 0) as [Hc|Hc];
    cbn [negb].
  - destruct (Z.eqb_spec (vk_length d1) (vk_length d2)) as [Hl|Hl]; cbn [negb].
    + eexists. split; [reflexivity|]. split; [intros _|reflexivity].
      destruct (Z.gtb_spec (vk_length d1) (vk_length d2)) as [?|_]; [lia|].
      replace (Z.to_nat (vk_length d1)) with (length (vk_key d1)) in Hc by lia.
      apply memcmp_zero_iff in Hc; [|lia].
      destruct d1, d2. simpl in *. congruence.
    + eexists. split; [reflexivity|]. split.
      * destruct (vk_length d1 >? vk_length d2); lia.
      * intros ->. contradiction.
  - eexists. split; [reflexivity|]. split; [intros H0; contradiction|].
    intros ->. exfalso. apply Hc.
    destruct (Z.gtb_spec (vk_length d2) (vk_length d2)) as [?|_]; [lia|].
    apply memcmp_refl.
Qed.

Lemma compare_dims_encoded O1 O2 :
  okey_valid O1 -> okey_valid O2 -> ok_nr_dims O1 = ok_nr_dims O2 ->
  forall n i, (i + n = length (ok_dims O1))%nat ->
  exists c, btree_key_compare_dims (okey_encoding O1) (okey_encoding O2) (Z.of_nat i) n
            = Done c /\
            (c = 0 <-> drop i (ok_dims O1) = drop i (ok_dims O2)).
Proof.
  intros Hv1 Hv2 Hn.
  assert (Hlen : length (ok_dims O1) = length (ok_dims O2)).
  { destruct Hv1 as (_ & Hl1 & _), Hv2 as (_ & Hl2 & _). lia. }
  induction n as [|n IH]; intros i Hi; cbn [btree_key_compare_dims].
  - exists 0. split; [reflexivity|]. split; [intros _|reflexivity].
    rewrite !drop_ge by lia. reflexivity.
  - destruct (lookup_lt_is_Some_2 (ok_dims O1) i) as [d1 Hd1]; [lia|].
    destruct (lookup_lt_is_Some_2 (ok_dims O2) i) as [d2 Hd2]; [lia|].
    rewrite (encoding_dim_get O1 Hv1 i d1 Hd1), (encoding_dim_get O2 Hv2 i d2 Hd2).
    rewrite (encoding_dim_length O1 Hv1 i d1 Hd1), (encoding_dim_length O2 Hv2 i d2 Hd2).
    rewrite (encoding_dim_flags O1 Hv1 i d1 Hd1), (encoding_dim_flags O2 Hv2 i d2 Hd2).
    assert (Hw1 : dim_wf d1).
    { destruct Hv1 as (_ & _ & Hwf & _). rewrite Forall_forall in Hwf.
      apply Hwf, (list_elem_of_lookup_2 _ _ _ Hd1). }
    assert (Hw2 : dim_wf d2).
    { destruct Hv2 as (_ & _ & Hwf & _). rewrite Forall_forall in Hwf.
      apply Hwf, (list_elem_of_lookup_2 _ _ _ Hd2). }
    destruct (dim_compare_encoded d1 d2
                (concat (map vk_key (drop (S i) (ok_dims O1))))
                (concat (map vk_key (drop (S i) (ok_dims O2)))) Hw1 Hw2)
      as (c & Hcmp & Hc).
    rewrite Hcmp.
    cbn [obind]. rewrite (drop_S _ _ _ Hd1), (drop_S _ _ _ Hd2).
    destruct (Z.eqb_spec c 0) as [Hc0|Hc0]; cbn [negb].
    + replace (Z.of_nat i + 1) with (Z.of_nat (S i)) by lia.
      destruct (IH (S i)) as (c' & Hcmp' & Hc'); [lia|].
      exists c'. split; [exact Hcmp'|]. rewrite Hc'.
      apply Hc in Hc0. subst d2.
      split; [intros ->; reflexivity|intros [= ->]; reflexivity].
    + exists c. split; [reflexivity|]. split; [intros; contradiction|].
      intros [= Hd _]. exfalso. apply Hc0, Hc, Hd.
Qed.

(** X4: the encoding is faithful to the comparison. The B-tree keys that
    [castle_object_key_convert] returns for two schema-valid object keys are
    compared without [BUG], and [castle_object_btree_key_compare] gives 0
    exactly when the two object keys are the same. *)
Theorem key_convert_compare_faithful (kmalloc_ok : Z -> bool)
    (O1 O2 : c_vl_okey) (B1 B2 : c_vl_bkey) :
  okey_valid O1 -> okey_valid O2 ->
  castle_object_key_convert kmalloc_ok (Some O1) = Done (Some B1) ->
  castle_object_key_convert kmalloc_ok (Some O2) = Done (Some B2) ->
  exists c, castle_object_btree_key_compare B1 B2 = Done c /\ (c = 0 <-> O1 = O2).
Proof.
  intros Hv1 Hv2 Hc1 Hc2.
  rewrite (key_convert_encoding O1 Hv1) in Hc1.
  rewrite (key_convert_encoding O2 Hv2) in Hc2.
  destruct (kmalloc_ok (okey_encoded_size O1)); [|discriminate].
  destruct (kmalloc_ok (okey_encoded_size O2)); [|discriminate].
  injection Hc1 as <-. injection Hc2 as <-.
  unfold castle_object_btree_key_compare. cbn [okey_encoding bk_nr_dims].
  change (mk_vl_bkey (okey_encoded_size O1 - 4) _ _ _) with (okey_encoding O1).
  change (mk_vl_bkey (okey_encoded_size O2 - 4) _ _ _) with (okey_encoding O2).
  destruct (Z.eqb_spec (ok_nr_dims O1) (ok_nr_dims O2)) as [Hn|Hn]; cbn [negb].
  - destruct (compare_dims_encoded O1 O2 Hv1 Hv2 Hn (Z.to_nat (ok_nr_dims O1)) 0%nat)
      as (c & Hc & Hiff).
    { destruct Hv1 as (_ & Hl & _). lia. }
    exists c. split; [exact Hc|]. rewrite Hiff, !drop_0.
    destruct O1, O2. simpl in *. split; [intros ->; congruence|intros [= _ ->]; reflexivity].
  - eexists. split; [reflexivity|]. split.
    + destruct (ok_nr_dims O1 >? ok_nr_dims O2); lia.
    + intros ->. contradiction.
Qed.

Lemma sample_okey2_valid : okey_valid sample_okey2.
Proof.
  unfold okey_valid, sample_okey2, dim_wf. cbn.
  repeat split; try lia; repeat constructor.
Qed.

Lemma key_convert_compare_faithful_witness :
  exists c, castle_object_btree_key_compare
              (okey_encoding sample_okey1) (okey_encoding sample_okey2) = Done c /\
            (c = 0 <-> sample_okey1 = sample_okey2).
Proof.
  apply (key_convert_compare_faithful kmalloc_always sample_okey1 sample_okey2
           (okey_encoding sample_okey1) (okey_encoding sample_okey2)
           sample_okey1_valid sample_okey2_valid); reflexivity.
Defined.

(** ** Key codec: the bounds check *)

Lemma bounds_check_dims_spec key start end_ n : forall i,
  match bounds_check_dims key start end_ (Z.of_nat i) n with
  | Done (r, None) =>
      r = 0 /\
      forall dim, Z.of_nat i <= dim < Z.of_nat (i + n) -> dim_in_bounds key start end_ dim
  | Done (r, Some d) =>
      Z.of_nat i <= d < Z.of_nat (i + n) /\
      (forall dim, Z.of_nat i <= dim < d -> dim_in_bounds key start end_ dim) /\
      ((r = -1 /\ dim_below_start key start d) \/
       (r = 1 /\ dim_above_end key start end_ d))
  | BUG => True
  end.
Proof.
  induction n as [|n IH]; intros i; cbn [bounds_check_dims].
  - split; [reflexivity|]. intros dim Hd. lia.
  - fold (dim_vs_bound key start (Z.of_nat i)).
    fold (dim_vs_bound key end_ (Z.of_nat i)).
    destruct (dim_vs_bound key start (Z.of_nat i)) as [c|] eqn:Hc; cbn [obind]; [|exact I].
    destruct (Z.ltb_spec c 0) as [Hlt|Hge].
    { split; [lia|]. split; [intros dim Hd; lia|]. left. split; [reflexivity|].
      exists c. auto. }
    destruct (dim_vs_bound key end_ (Z.of_nat i)) as [c'|] eqn:Hc'; cbn [obind]; [|exact I].
    destruct (Z.gtb_spec c' 0) as [Hgt|Hle].
    { split; [lia|]. split; [intros dim Hd; lia|]. right. split; [reflexivity|].
      exists c, c'. auto. }
    assert (Hhere : dim_in_bounds key start end_ (Z.of_nat i)) by (exists c, c'; auto).
    replace (Z.of_nat i + 1) with (Z.of_nat (S i)) by lia.
    specialize (IH (S i)).
    destruct (bounds_check_dims key start end_ (Z.of_nat (S i)) n) as [[r [d|]]|];
      [| |exact I].
    + destruct IH as (Hd & Hbefore & Hcase). split; [lia|]. split; [|exact Hcase].
      intros dim Hdim. destruct (decide (dim = Z.of_nat i)) as [->|Hne]; [exact Hhere|].
      apply Hbefore. lia.
    + destruct IH as (Hr & Hall). split; [exact Hr|].
      intros dim Hdim. destruct (decide (dim = Z.of_nat i)) as [->|Hne]; [exact Hhere|].
      apply Hall. lia.
Qed.

(** X5: what the bounds check answers. When
    [castle_object_btree_key_bounds_check] returns 0 every dimension of the
    key is within the start and the end key; when it names an offending
    dimension, this is the first (most significant) dimension out of bounds,
    and the value is -1 if that dimension is below the start, 1 if it is
    above the end. *)
Theorem bounds_check_first_offender (key : c_vl_bkey) (start end_ : c_vl_okey)
    (r : Z) (od : option Z) :
  castle_object_btree_key_bounds_check key start end_ = Done (r, od) ->
  match od with
  | None =>
      r = 0 /\
      forall dim, 0 <= dim < bk_nr_dims key -> dim_in_bounds key start end_ dim
  | Some d =>
      0 <= d < bk_nr_dims key /\
      (forall dim, 0 <= dim < d -> dim_in_bounds key start end_ dim) /\
      ((r = -1 /\ dim_below_start key start d) \/
       (r = 1 /\ dim_above_end key start end_ d))
  end.
Proof.
  unfold castle_object_btree_key_bounds_check.
  destruct (_ || _); [discriminate|]. intros Hb.
  pose proof (bounds_check_dims_spec key start end_ (Z.to_nat (bk_nr_dims key)) 0%nat)
    as Hspec.
  change (Z.of_nat 0) with 0 in Hspec. rewrite Hb in Hspec.
  destruct od as [d|].
  - destruct Hspec as (Hd & Hbefore & Hcase). split; [lia|]. split; assumption.
  - destruct Hspec as (Hr & Hall). split; [exact Hr|]. intros dim Hdim. apply Hall. lia.
Qed.

Lemma bounds_check_first_offender_witness :
  0 <= 1 < bk_nr_dims (sample_bkey2d x02 x09) /\
  (forall dim, 0 <= dim < 1 ->
     dim_in_bounds (sample_bkey2d x02 x09) (sample_okey2d x02 x04)
       (sample_okey2d x03 x06) dim) /\
  ((1 = -1 /\ dim_below_start (sample_bkey2d x02 x09) (sample_okey2d x02 x04) 1) \/
   (1 = 1 /\ dim_above_end (sample_bkey2d x02 x09) (sample_okey2d x02 x04)
               (sample_okey2d x03 x06) 1)).
Proof.
  apply (bounds_check_first_offender (sample_bkey2d x02 x09) (sample_okey2d x02 x04)
           (sample_okey2d x03 x06) 1 (Some 1)).
  vm_compute. reflexivity.
Defined.

(** ** The range-query iterator: edges *)

Section RangeIteratorEdges.

Context {I : Type} `{DaRqIter I}.
Variable kmalloc_ok : Z -> bool.

(** X6: a key out of bounds in dimension 0 stops the range iterator. When
    the next entry of the inner iterator is out of bounds with offending
    dimension 0, [castle_objects_rq_iter_has_next] calls
    [castle_object_btree_key_skip] with dimension 0, whose constructor stops
    in [BUG_ON(okey_first_dim == 0 && src_bkey)]. *)
Theorem rq_iter_has_next_first_dim_bug (fuel : nat) (iter : c_obj_rq_iter I)
    (start end_ : c_vl_okey) (e : rq_entry) (rest : list rq_entry) (bigger : Z) :
  rq_start_okey iter = Some start -> rq_end_okey iter = Some end_ ->
  rq_cached iter = 0 ->
  da_rq_iter_pending (rq_da_rq_iter iter) = e :: rest ->
  castle_object_btree_key_bounds_check (entry_key e) start end_ = Done (bigger, Some 0) ->
  castle_objects_rq_iter_has_next kmalloc_ok (S fuel) iter = Some BUG.
Proof.
  intros Hs He Hc Hp Hb.
  cbn [castle_objects_rq_iter_has_next].
  rewrite Hc. cbn [Z.eqb negb]. cbv iota.
  rewrite da_rq_iter_has_next_pending, negb_involutive, Hp.
  rewrite bool_decide_eq_false_2 by discriminate.
  destruct (da_rq_iter_next_pending _ _ _ Hp) as [Hfst Hsnd].
  destruct (da_rq_iter_next (rq_da_rq_iter iter)) as [[[k v] cvt] da] eqn:Hnx.
  simpl in Hfst. subst e. cbn [rq_set_da_rq_iter rq_start_okey rq_end_okey].
  rewrite Hs, He. unfold entry_key in Hb. cbn [fst] in Hb. rewrite Hb.
  destruct (Z.eqb_spec bigger 0) as [->|Hbig].
  { apply bounds_check_zero in Hb. discriminate. }
  cbn [negb default]. reflexivity.
Qed.

(** X7: asking twice is safe. Once [castle_objects_rq_iter_has_next] has
    answered, asking again (with no [next] in between) gives the same answer
    and leaves the iterator as it is: no entry of the inner iterator is
    consumed. *)
Theorem rq_iter_has_next_idempotent (fuel fuel' : nat) (iter iter' : c_obj_rq_iter I)
    (r : Z) :
  castle_objects_rq_iter_has_next kmalloc_ok fuel iter = Some (Done (r, iter')) ->
  castle_objects_rq_iter_has_next kmalloc_ok (S fuel') iter' = Some (Done (r, iter')).
Proof.
  revert iter. induction fuel as [|fuel IH]; intros iter Hn; [discriminate|].
  cbn [castle_objects_rq_iter_has_next] in Hn.
  destruct (Z.eqb_spec (rq_cached iter) 0) as [Hc|Hc]; cbn [negb] in Hn.
  2:{ injection Hn as <- <-. cbn [castle_objects_rq_iter_has_next].
      destruct (Z.eqb_spec (rq_cached iter) 0); [contradiction|]. reflexivity. }
  destruct (da_rq_iter_has_next (rq_da_rq_iter iter)) eqn:Hhn; cbn [negb] in Hn.
  2:{ injection Hn as <- <-. cbn [castle_objects_rq_iter_has_next].
      rewrite Hc, Hhn. reflexivity. }
  destruct (da_rq_iter_next (rq_da_rq_iter iter)) as [[[k v] cvt] da].
  cbn [rq_set_da_rq_iter rq_start_okey rq_end_okey] in Hn.
  destruct (rq_start_okey iter) as [start|]; [|discriminate].
  destruct (rq_end_okey iter) as [end_|]; [|discriminate].
  destruct (castle_object_btree_key_bounds_check k start end_)
    as [[bigger od]|]; [|discriminate].
  destruct (negb (bigger =? 0)).
  - destruct (castle_object_btree_key_skip kmalloc_ok k start (default 0 od) bigger)
      as [next_key|]; [|discriminate].
    eapply IH, Hn.
  - eapply IH, Hn.
Qed.

End RangeIteratorEdges.

Lemma rq_iter_has_next_first_dim_bug_witness :
  castle_objects_rq_iter_has_next (H := list_da_rq_iter sample_low_contents)
    kmalloc_always 1 sample_low_rq_iter = Some BUG.
Proof.
  apply (rq_iter_has_next_first_dim_bug (H := list_da_rq_iter sample_low_contents)
           kmalloc_always 0 sample_low_rq_iter (sample_okey2d x02 x04)
           (sample_okey2d x03 x06) (sample_bkey2d x01 x05, 1, sample_cvt)
           [(sample_bkey2d x02 x05, 1, sample_cvt)] (-1));
    reflexivity.
Defined.

Lemma rq_iter_has_next_idempotent_witness :
  exists iter',
    castle_objects_rq_iter_has_next (H := list_da_rq_iter sample_contents)
      kmalloc_always 5 sample_rq_iter = Some (Done (1, iter')) /\
    castle_objects_rq_iter_has_next (H := list_da_rq_iter sample_contents)
      kmalloc_always 1 iter' = Some (Done (1, iter')).
Proof.
  eexists. split; [vm_compute; reflexivity|].
  eapply (rq_iter_has_next_idempotent (H := list_da_rq_iter sample_contents)
            kmalloc_always 5 0 sample_rq_iter).
  vm_compute. reflexivity.
Defined.

(** ** Key codec: skipping *)

(** ** Key codec: the key that the range iterator skips to *)

Lemma dim_offsets_app ds1 : forall off ds2,
  dim_offsets off (ds1 ++ ds2)
  = dim_offsets off ds1 ++ dim_offsets (off + payload_size ds1) ds2.
Proof.
  induction ds1 as [|d ds1 IH]; intros off ds2; simpl.
  - f_equal. lia.
  - rewrite IH. do 3 f_equal. lia.
Qed.

Lemma dim_offsets_take ds : forall off i,
  take i (dim_offsets off ds) = dim_offsets off (take i ds).
Proof.
  induction ds as [|d ds IH]; intros off [|i]; simpl; try reflexivity.
  rewrite IH. reflexivity.
Qed.

Lemma header_range off f : 0 <= KEY_DIMENSION_HEADER off f < 2 ^ 32.
Proof.
  unfold KEY_DIMENSION_HEADER, KEY_DIMENSION_FLAGS_MASK, KEY_DIMENSION_FLAGS_SHIFT.
  change (Z.shiftl 1 8 - 1) with (Z.ones 8). rewrite Z.land_ones by lia.
  pose proof (Z.mod_pos_bound (Z.shiftl off 8) (2 ^ 32) ltac:(lia)) as Hw.
  pose proof (Z.mod_pos_bound f (2 ^ 8) ltac:(lia)) as Hf.
  unfold wrap32. split.
  - apply Z.lor_nonneg. lia.
  - change (2 ^ 32) with (2 ^ 32)%Z.
    assert (Hlog : forall z, 0 <= z < 2 ^ 32 -> forall n, 32 <= n -> Z.testbit z n = false).
    { intros z Hz n Hn. destruct (Z.eq_dec z 0) as [->|Hz0]; [apply Z.bits_0|].
      apply Z.bits_above_log2; [lia|].
      assert (Z.log2 z < 32); [|lia]. apply Z.log2_lt_pow2; lia. }
    destruct (Z.eq_dec (Z.lor (Z.shiftl off 8 mod 2 ^ 32) (f mod 2 ^ 8)) 0) as [->|Hne];
      [lia|].
    apply Z.log2_lt_pow2; [apply Z.le_neq; split; [apply Z.lor_nonneg; lia|congruence]|].
    rewrite Z.log2_lor by lia.
    apply Z.max_lub_lt.
    + destruct (Z.eq_dec (Z.shiftl off 8 mod 2 ^ 32) 0) as [->|?]; [reflexivity|].
      apply Z.log2_lt_pow2; lia.
    + destruct (Z.eq_dec (f mod 2 ^ 8) 0) as [->|?]; [reflexivity|].
      apply Z.log2_lt_pow2; lia.
Qed.

Section DimInc.

Variable K : c_vl_bkey.
Variable d : Z.
Hypothesis d_range : 0 <= d < Z.of_nat (length (bk_dim_head K)).
Hypothesis heads_range : Forall (fun h => 0 <= h < 2 ^ 32) (bk_dim_head K).

Let K' := castle_object_btree_key_dim_inc K d.

Lemma dim_inc_at_head_other j : j <> d -> dim_head_at K' j = dim_head_at K j.
Proof.
  intros Hj. unfold K', castle_object_btree_key_dim_inc, dim_head_at.
  destruct (Z.ltb_spec d 0); [lia|]. cbn [bk_dim_head].
  destruct (Z.ltb_spec j 0); [reflexivity|].
  rewrite !nth_lookup, list_lookup_insert_ne by lia. reflexivity.
Qed.

Lemma dim_inc_at_head :
  dim_head_at K' d
  = KEY_DIMENSION_HEADER (KEY_DIMENSION_OFFSET (dim_head_at K d))
      (Z.lor (KEY_DIMENSION_FLAGS (dim_head_at K d)) KEY_DIMENSION_NEXT_FLAG).
Proof.
  unfold K', castle_object_btree_key_dim_inc.
  destruct (Z.ltb_spec d 0); [lia|].
  unfold dim_head_at at 1. cbn [bk_dim_head].
  destruct (Z.ltb_spec d 0); [lia|].
  rewrite nth_lookup, list_lookup_insert_eq by lia. reflexivity.
Qed.

Lemma dim_head_in_range j : 0 <= dim_head_at K j < 2 ^ 32.
Proof.
  unfold dim_head_at. destruct (Z.ltb_spec j 0); [lia|].
  destruct (nth_in_or_default (Z.to_nat j) (bk_dim_head K) 0) as [Hin | ->]; [|lia].
  rewrite Forall_forall in heads_range. apply heads_range. apply list_elem_of_In.
  exact Hin.
Qed.

Lemma dim_inc_at_offset j :
  KEY_DIMENSION_OFFSET (dim_head_at K' j) = KEY_DIMENSION_OFFSET (dim_head_at K j).
Proof.
  destruct (Z.eq_dec j d) as [-> | Hj].
  - rewrite dim_inc_at_head. apply dim_head_offset_keep, dim_head_in_range.
  - rewrite dim_inc_at_head_other by exact Hj. reflexivity.
Qed.

Lemma dim_inc_at_dim_get j :
  castle_object_btree_key_dim_get K' j = castle_object_btree_key_dim_get K j.
Proof.
  unfold castle_object_btree_key_dim_get. rewrite dim_inc_at_offset.
  unfold K', castle_object_btree_key_dim_inc.
  destruct (d <? 0); [reflexivity|]. cbn [bk_dim_head bk_payload].
  rewrite length_insert. reflexivity.
Qed.

Lemma dim_inc_at_dim_length j :
  castle_object_btree_key_dim_length K' j = castle_object_btree_key_dim_length K j.
Proof.
  unfold castle_object_btree_key_dim_length. rewrite !dim_inc_at_offset.
  unfold K', castle_object_btree_key_dim_inc.
  destruct (d <? 0); reflexivity.
Qed.

Lemma dim_inc_at_nr_dims : bk_nr_dims K' = bk_nr_dims K.
Proof.
  unfold K', castle_object_btree_key_dim_inc. destruct (d <? 0); reflexivity.
Qed.

Lemma dim_inc_at_flags_other j :
  j <> d ->
  castle_object_btree_key_dim_flags_get K' j = castle_object_btree_key_dim_flags_get K j.
Proof.
  intros Hj. unfold castle_object_btree_key_dim_flags_get.
  rewrite dim_inc_at_head_other by exact Hj. reflexivity.
Qed.

Lemma dim_inc_at_flags :
  Z.land (castle_object_btree_key_dim_flags_get K' d) KEY_DIMENSION_NEXT_FLAG <> 0.
Proof.
  unfold castle_object_btree_key_dim_flags_get. rewrite dim_inc_at_head.
  apply dim_head_next_set.
Qed.

End DimInc.

Lemma encoding_heads_range O :
  Forall (fun h => 0 <= h < 2 ^ 32) (bk_dim_head (okey_encoding O)).
Proof.
  cbn [okey_encoding bk_dim_head]. apply Forall_fmap, Forall_true.
  intros off. apply header_range.
Qed.

Lemma dim_compare_bytes a : forall b r1 r2 f,
  castle_object_key_dim_compare (a ++ r1) (Z.of_nat (length a)) 0
    (b ++ r2) (Z.of_nat (length b)) f
  = Done (if bytes_compare a b =? 0
          then (if Z.land f KEY_DIMENSION_NEXT_FLAG =? 0 then 0 else -1)
          else bytes_compare a b).
Proof.
  intros b r1 r2 f. unfold castle_object_key_dim_compare.
  rewrite memcmp_app by (destruct (Z.gtb_spec (Z.of_nat (length a)) (Z.of_nat (length b))); lia).
  rewrite Z.land_0_l. cbn [Z.eqb negb andb].
  revert b. induction a as [|x a IH]; intros [|y b].
  - cbn. destruct (Z.land f KEY_DIMENSION_NEXT_FLAG =? 0); reflexivity.
  - cbn [length bytes_compare].
    destruct (Z.gtb_spec (Z.of_nat 0) (Z.of_nat (S (length b)))) as [?|_]; [lia|].
    cbn [Nat2Z.id Z.of_nat Z.to_nat memcmp Z.eqb negb].
    destruct (Z.eqb_spec 0 (Z.of_nat (S (length b)))) as [?|_]; [lia|]. reflexivity.
  - cbn [length bytes_compare].
    destruct (Z.gtb_spec (Z.of_nat (S (length a))) (Z.of_nat 0)) as [_|?]; [|lia].
    cbn [Nat2Z.id Z.of_nat Z.to_nat memcmp Z.eqb negb].
    destruct (Z.eqb_spec (Z.of_nat (S (length a))) 0) as [?|_]; [lia|]. reflexivity.
  - specialize (IH b). cbn [length bytes_compare].
    replace (Z.to_nat (if Z.of_nat (S (length a)) >? Z.of_nat (S (length b))
                       then Z.of_nat (S (length b)) else Z.of_nat (S (length a))))
      with (S (Z.to_nat (if Z.of_nat (length a) >? Z.of_nat (length b)
                         then Z.of_nat (length b) else Z.of_nat (length a))))
      by (destruct (Z.gtb_spec (Z.of_nat (S (length a))) (Z.of_nat (S (length b)))),
                   (Z.gtb_spec (Z.of_nat (length a)) (Z.of_nat (length b))); lia).
    cbn [memcmp].
    destruct (Z.eqb_spec (byte_val x) (byte_val y)) as [Hxy|Hxy].
    + replace (Z.of_nat (S (length a)) =? Z.of_nat (S (length b)))
        with (Z.of_nat (length a) =? Z.of_nat (length b))
        by (destruct (Z.eqb_spec (Z.of_nat (length a)) (Z.of_nat (length b))),
                     (Z.eqb_spec (Z.of_nat (S (length a))) (Z.of_nat (S (length b)))); lia).
      replace (Z.of_nat (S (length a)) >? Z.of_nat (S (length b)))
        with (Z.of_nat (length a) >? Z.of_nat (length b))
        by (destruct (Z.gtb_spec (Z.of_nat (length a)) (Z.of_nat (length b))),
                     (Z.gtb_spec (Z.of_nat (S (length a))) (Z.of_nat (S (length b)))); lia).
      exact IH.
    + destruct (Z.eqb_spec (byte_val x - byte_val y) 0) as [?|_]; [lia|]. reflexivity.
Qed.

Lemma bytes_compare_trans k : forall s e,
  0 < bytes_compare k e -> bytes_compare s e <= 0 -> 0 < bytes_compare k s.
Proof.
  induction k as [|x k IH]; intros [|y s] [|z e]; cbn [bytes_compare]; try lia.
  destruct (Z.eqb_spec (byte_val x) (byte_val z)), (Z.eqb_spec (byte_val y) (byte_val z)),
           (Z.eqb_spec (byte_val x) (byte_val y)); try lia.
  apply IH.
Qed.

Section Skip.

Variable kmalloc_ok : Z -> bool.
Variables O start : c_vl_okey.
Variable d : Z.
Hypothesis O_valid : okey_valid O.
Hypothesis start_valid : okey_valid start.
Hypothesis same_dims : ok_nr_dims O = ok_nr_dims start.
Hypothesis d_range : 0 < d < ok_nr_dims start.
Hypothesis splice_valid : okey_valid (okey_splice O start d).

Lemma splice_lookup_below i x :
  (i < Z.to_nat d)%nat -> ok_dims O !! i = Some x ->
  ok_dims (okey_splice O start d) !! i = Some x.
Proof.
  intros Hi Hx. cbn [okey_splice ok_dims].
  rewrite lookup_app_l by (rewrite length_take; apply lookup_lt_Some in Hx; lia).
  rewrite lookup_take_lt by exact Hi. exact Hx.
Qed.

Lemma splice_lookup_from i x :
  (Z.to_nat d <= i)%nat -> ok_dims start !! i = Some x ->
  ok_dims (okey_splice O start d) !! i = Some x.
Proof.
  intros Hi Hx. cbn [okey_splice ok_dims].
  destruct O_valid as (_ & HlO & _), start_valid as (_ & Hls & _).
  assert (Hlen : length (take (Z.to_nat d) (ok_dims O)) = Z.to_nat d)
    by (rewrite length_take; lia).
  rewrite lookup_app_r by lia. rewrite Hlen, lookup_drop.
  replace (Z.to_nat d + (i - Z.to_nat d))%nat with i by lia. exact Hx.
Qed.

(** The constructor called by [castle_object_btree_key_skip] on an encoded
    key builds the encoding of the spliced object key. *)
Lemma construct_splice :
  castle_object_btree_key_construct kmalloc_ok (Some (okey_encoding O)) (Some start) d
  = Done (if kmalloc_ok (okey_encoded_size (okey_splice O start d))
          then Some (okey_encoding (okey_splice O start d)) else None).
Proof.
  pose proof O_valid as (HnO & HlO & HwfO & HbO).
  pose proof start_valid as (Hns & Hls & Hwfs & Hbs).
  pose proof splice_valid as (_ & _ & Hwfx & Hbx).
  cbn [okey_splice ok_nr_dims ok_dims] in Hwfx, Hbx.
  rewrite payload_size_app in Hbx.
  pose proof d_range as Hd. pose proof same_dims as Hsame.
  set (n := ok_nr_dims start) in *.
  set (dn := Z.to_nat d) in *.
  assert (Hdn : (0 < dn < length (ok_dims O))%nat). { unfold dn. clear -Hd Hsame HlO. lia. }
  destruct (lookup_lt_is_Some_2 (ok_dims O) dn) as [od Hod]; [lia|].
  pose proof (encoding_dim_offset O O_valid dn od Hod) as Hoff.
  replace (Z.of_nat dn) with d in Hoff by (unfold dn; lia).
  pose proof (payload_size_nonneg _ (Forall_take _ dn _ HwfO)) as Hpt.
  pose proof (payload_size_nonneg _ (Forall_drop _ dn _ Hwfs)) as Hpd.
  unfold castle_object_btree_key_construct. cbn [is_null negb].
  rewrite andb_false_r. rewrite andb_true_r.
  destruct (Z.eqb_spec d 0) as [?|_]; [lia|].
  cbn [okey_encoding bk_nr_dims]. fold n. rewrite same_dims. fold n.
  rewrite Z.eqb_refl. cbn [negb].
  rewrite (wrap32_small d)
    by (pose proof (payload_size_nonneg _ Hwfs); unfold bkey_header_size, sizeof_c_vl_bkey_t in Hbs; lia).
  destruct (Z.leb_spec n d) as [?|_]; [lia|].
  destruct (Z.ltb_spec 0 d) as [_|?]; [|lia].
  change (mk_vl_bkey (okey_encoded_size O - 4) (ok_nr_dims O) _ _) with (okey_encoding O).
  rewrite Hoff. rewrite same_dims. fold n. fold dn.
  assert (Htk : take (Z.to_nat (n - d)) (drop dn (ok_dims start)) = drop dn (ok_dims start)).
  { apply take_ge. rewrite length_drop. unfold dn. lia. }
  rewrite Htk.
  unfold bkey_header_size, sizeof_c_vl_bkey_t in *.
  rewrite key_len_fold by (try (apply Forall_drop; exact Hwfs); lia).
  unfold okey_encoded_size. cbn [okey_splice ok_nr_dims ok_dims]. fold n dn.
  rewrite payload_size_app. unfold bkey_header_size, sizeof_c_vl_bkey_t.
  replace (16 + 4 * n + (payload_size (take dn (ok_dims O))
                         + payload_size (drop dn (ok_dims start))))
    with (16 + 4 * n + payload_size (take dn (ok_dims O))
          + payload_size (drop dn (ok_dims start))) by lia.
  destruct (kmalloc_ok _); cbn [negb]; [|reflexivity].
  cbn [okey_encoding bk_dim_head bk_payload].
  set (hsz := 16 + 4 * n).
  set (pt := payload_size (take dn (ok_dims O))) in *.
  set (pd := payload_size (drop dn (ok_dims start))) in *.
  assert (Hpre : memcpy (replicate (Z.to_nat (hsz + pt + pd - hsz)) x00) 0
                   (concat (map vk_key (ok_dims O))) (Z.to_nat (hsz + pt - hsz))
                 = concat (map vk_key (take dn (ok_dims O)))
                   ++ replicate (Z.to_nat pd) x00).
  { unfold memcpy. rewrite take_0. cbn [app Nat.add].
    replace (hsz + pt - hsz) with pt by lia.
    rewrite drop_replicate.
    replace (Z.to_nat (hsz + pt + pd - hsz) - Z.to_nat pt)%nat with (Z.to_nat pd) by lia.
    f_equal.
    rewrite <- (take_drop dn (ok_dims O)) at 1. rewrite map_app, concat_app.
    rewrite take_app_length'; [reflexivity|].
    apply Nat2Z.inj. rewrite (payload_length _ (Forall_take _ dn _ HwfO)). fold pt. lia. }
  rewrite Hpre.
  rewrite construct_dims_fresh;
    [|apply Forall_drop, Hwfs
     |rewrite (payload_length _ (Forall_take _ dn _ HwfO)); fold pt; lia
     |rewrite length_map, length_dim_offsets, length_drop; lia
     |rewrite length_replicate; fold pd; lia
     |lia|fold pd; lia].
  fold pd. rewrite Z.eqb_refl. cbn [negb].
  rewrite (drop_ge (map _ _)) by (rewrite length_map, length_dim_offsets, length_drop; lia).
  rewrite (drop_ge (replicate _ _)) by (rewrite length_replicate; lia).
  rewrite !app_nil_r.
  rewrite wrap32_small by lia.
  rewrite firstn_map, dim_offsets_take.
  unfold okey_encoding, okey_encoded_size. cbn [okey_splice ok_nr_dims ok_dims].
  fold n dn. rewrite payload_size_app, dim_offsets_app, !map_app, concat_app.
  rewrite Hsame. unfold bkey_header_size, sizeof_c_vl_bkey_t. fold hsz pt pd.
  do 2 f_equal. f_equal. lia.
Qed.

Lemma splice_nr_dims : ok_nr_dims (okey_splice O start d) = ok_nr_dims start.
Proof. reflexivity. Qed.

Lemma skip_encoding bigger :
  bigger <> 0 ->
  castle_object_btree_key_skip kmalloc_ok (okey_encoding O) start d bigger
  = Done (if kmalloc_ok (okey_encoded_size (okey_splice O start d))
          then Some (castle_object_btree_key_dim_inc
                       (okey_encoding (okey_splice O start d)) d)
          else None).
Proof.
  intros Hb. unfold castle_object_btree_key_skip. rewrite construct_splice.
  cbn [obind]. destruct (kmalloc_ok _); [|reflexivity].
  rewrite (proj2 (Z.eqb_neq _ _) Hb). reflexivity.
Qed.

(** X22: the key skipped to, in terms of the encoder. For a stored key,
    which is the encoding of a schema-valid object key [O], and an offending
    dimension that is not the first, [castle_object_btree_key_skip] called
    with [bigger] not 0 (the range iterator passes the -1 or 1 of the bounds
    check) returns what [castle_object_key_convert] returns for the object
    key that has the dimensions of [O] below the offending one and those of
    the start key from it on, with the NEXT flag set on the offending
    dimension: also when the key was below the start. *)
Theorem key_skip_is_splice (K : c_vl_bkey) (bigger : Z) :
  bigger <> 0 ->
  castle_object_key_convert kmalloc_ok (Some O) = Done (Some K) ->
  castle_object_btree_key_skip kmalloc_ok K start d bigger
  = match castle_object_key_convert kmalloc_ok (Some (okey_splice O start d)) with
    | Done (Some K') => Done (Some (castle_object_btree_key_dim_inc K' d))
    | r => r
    end.
Proof.
  intros Hb Hc. rewrite (key_convert_encoding O O_valid) in Hc.
  destruct (kmalloc_ok (okey_encoded_size O)); [|discriminate].
  injection Hc as <-. rewrite (skip_encoding bigger Hb).
  rewrite (key_convert_encoding _ splice_valid).
  destruct (kmalloc_ok _); reflexivity.
Qed.

Lemma skip_dim_below i x :
  (i < Z.to_nat d)%nat -> ok_dims O !! i = Some x ->
  castle_object_key_dim_compare
    (castle_object_btree_key_dim_get (okey_encoding O) (Z.of_nat i))
    (castle_object_btree_key_dim_length (okey_encoding O) (Z.of_nat i))
    (castle_object_btree_key_dim_flags_get (okey_encoding O) (Z.of_nat i))
    (castle_object_btree_key_dim_get
       (castle_object_btree_key_dim_inc (okey_encoding (okey_splice O start d)) d)
       (Z.of_nat i))
    (castle_object_btree_key_dim_length
       (castle_object_btree_key_dim_inc (okey_encoding (okey_splice O start d)) d)
       (Z.of_nat i))
    (castle_object_btree_key_dim_flags_get
       (castle_object_btree_key_dim_inc (okey_encoding (okey_splice O start d)) d)
       (Z.of_nat i))
  = Done 0.
Proof.
  intros Hi Hx. pose proof (splice_lookup_below i x Hi Hx) as Hx'.
  assert (Hdr : 0 <= d < Z.of_nat (length (bk_dim_head (okey_encoding (okey_splice O start d))))).
  { cbn [okey_encoding bk_dim_head]. rewrite length_map, length_dim_offsets.
    destruct splice_valid as (_ & Hl & _). rewrite <- Hl. cbn [okey_splice ok_nr_dims].
    pose proof d_range. lia. }
  rewrite (dim_inc_at_dim_get _ d Hdr (encoding_heads_range _)).
  rewrite (dim_inc_at_dim_length _ d Hdr (encoding_heads_range _)).
  rewrite (dim_inc_at_flags_other _ d) by lia.
  rewrite (encoding_dim_get O O_valid i x Hx), (encoding_dim_length O O_valid i x Hx),
    (encoding_dim_flags O O_valid i x Hx).
  rewrite (encoding_dim_get _ splice_valid i x Hx'),
    (encoding_dim_length _ splice_valid i x Hx'),
    (encoding_dim_flags _ splice_valid i x Hx').
  assert (Hw : dim_wf x).
  { destruct O_valid as (_ & _ & Hwf & _). rewrite Forall_forall in Hwf.
    apply Hwf, (list_elem_of_lookup_2 _ _ _ Hx). }
  unfold dim_wf in Hw. rewrite Hw, dim_compare_bytes.
  assert (Hrefl : forall a, bytes_compare a a = 0).
  { induction a as [|b a IH]; cbn [bytes_compare]; [reflexivity|].
    rewrite Z.eqb_refl. exact IH. }
  rewrite Hrefl. reflexivity.
Qed.

Lemma skip_dim_at od sd :
  ok_dims O !! Z.to_nat d = Some od -> ok_dims start !! Z.to_nat d = Some sd ->
  castle_object_key_dim_compare
    (castle_object_btree_key_dim_get (okey_encoding O) d)
    (castle_object_btree_key_dim_length (okey_encoding O) d)
    (castle_object_btree_key_dim_flags_get (okey_encoding O) d)
    (castle_object_btree_key_dim_get
       (castle_object_btree_key_dim_inc (okey_encoding (okey_splice O start d)) d) d)
    (castle_object_btree_key_dim_length
       (castle_object_btree_key_dim_inc (okey_encoding (okey_splice O start d)) d) d)
    (castle_object_btree_key_dim_flags_get
       (castle_object_btree_key_dim_inc (okey_encoding (okey_splice O start d)) d) d)
  = Done (if bytes_compare (vk_key od) (vk_key sd) =? 0 then -1
          else bytes_compare (vk_key od) (vk_key sd)) /\
  dim_vs_bound (okey_encoding O) start d = Done (bytes_compare (vk_key od) (vk_key sd)).
Proof.
  intros Hod Hsd.
  pose proof (splice_lookup_from (Z.to_nat d) sd (Nat.le_refl _) Hsd) as Hsd'.
  assert (Hdr : 0 <= d < Z.of_nat (length (bk_dim_head (okey_encoding (okey_splice O start d))))).
  { cbn [okey_encoding bk_dim_head]. rewrite length_map, length_dim_offsets.
    destruct splice_valid as (_ & Hl & _). rewrite <- Hl. cbn [okey_splice ok_nr_dims].
    pose proof d_range. lia. }
  assert (Hwo : dim_wf od).
  { destruct O_valid as (_ & _ & Hwf & _). rewrite Forall_forall in Hwf.
    apply Hwf, (list_elem_of_lookup_2 _ _ _ Hod). }
  assert (Hws : dim_wf sd).
  { destruct start_valid as (_ & _ & Hwf & _). rewrite Forall_forall in Hwf.
    apply Hwf, (list_elem_of_lookup_2 _ _ _ Hsd). }
  unfold dim_wf in Hwo, Hws.
  assert (Hdz : Z.of_nat (Z.to_nat d) = d) by (pose proof d_range; lia).
  pose proof (encoding_dim_get O O_valid _ od Hod) as Hg.
  pose proof (encoding_dim_length O O_valid _ od Hod) as Hl.
  pose proof (encoding_dim_flags O O_valid _ od Hod) as Hf.
  pose proof (encoding_dim_get _ splice_valid _ sd Hsd') as Hg'.
  pose proof (encoding_dim_length _ splice_valid _ sd Hsd') as Hl'.
  rewrite Hdz in Hg, Hl, Hf, Hg', Hl'.
  split.
  - rewrite (dim_inc_at_dim_get _ d Hdr (encoding_heads_range _)).
    rewrite (dim_inc_at_dim_length _ d Hdr (encoding_heads_range _)).
    rewrite Hg, Hl, Hf, Hg', Hl', Hwo, Hws, dim_compare_bytes.
    pose proof (dim_inc_at_flags _ d Hdr) as Hnx.
    destruct (Z.eqb_spec (Z.land (castle_object_btree_key_dim_flags_get
                (castle_object_btree_key_dim_inc (okey_encoding (okey_splice O start d)) d) d)
                KEY_DIMENSION_NEXT_FLAG) 0) as [H0|_]; [contradiction|].
    reflexivity.
  - unfold dim_vs_bound, okey_dim_at.
    rewrite (nth_lookup_Some _ _ _ _ Hsd), Hg, Hl, Hf, Hwo, Hws.
    rewrite <- (app_nil_r (vk_key sd)) at 1. rewrite dim_compare_bytes.
    rewrite Z.land_0_l. cbn [Z.eqb].
    destruct (bytes_compare (vk_key od) (vk_key sd) =? 0) eqn:E; [|reflexivity].
    apply Z.eqb_eq in E. rewrite E. reflexivity.
Qed.

Lemma skip_compare_dims m : forall i,
  (i + m = Z.to_nat d)%nat ->
  forall rest,
  btree_key_compare_dims (okey_encoding O)
    (castle_object_btree_key_dim_inc (okey_encoding (okey_splice O start d)) d)
    (Z.of_nat i) (m + rest)
  = btree_key_compare_dims (okey_encoding O)
      (castle_object_btree_key_dim_inc (okey_encoding (okey_splice O start d)) d)
      d rest.
Proof.
  induction m as [|m IH]; intros i Hi rest.
  - cbn [Nat.add]. f_equal. pose proof d_range. lia.
  - cbn [Nat.add btree_key_compare_dims].
    destruct (lookup_lt_is_Some_2 (ok_dims O) i) as [x Hx].
    { destruct O_valid as (_ & Hl & _). pose proof d_range. pose proof same_dims. lia. }
    rewrite (skip_dim_below i x) by (auto; lia). cbn [obind Z.eqb negb].
    replace (Z.of_nat i + 1) with (Z.of_nat (S i)) by lia. apply IH. lia.
Qed.

(** X23: which way the skip goes. For a stored key [K], the encoding of a
    schema-valid object key, that the bounds check finds out of bounds in a
    dimension [d] that is not the first, let [K2] be the key that
    [castle_object_btree_key_skip] returns as the range iterator calls it.
    The comparison of [K] with [K2] does not stop in [BUG]; when [K] is
    below the start in dimension [d], [K2] is greater than [K]; when [K] is
    above the end in dimension [d], and the start is not above the end in
    this dimension, [K2] is smaller than [K]: the iterator skips to a key
    that is behind the key at hand. *)
Theorem key_skip_direction (end_ : c_vl_okey) (K K2 : c_vl_bkey) (r : Z) :
  okey_valid end_ ->
  castle_object_key_convert kmalloc_ok (Some O) = Done (Some K) ->
  castle_object_btree_key_bounds_check K start end_ = Done (r, Some d) ->
  castle_object_btree_key_skip kmalloc_ok K start d r = Done (Some K2) ->
  exists x,
    castle_object_btree_key_compare K K2 = Done x /\
    (r = -1 -> x < 0) /\
    (r = 1 ->
     forall ce,
       castle_object_key_dim_compare
         (vk_key (okey_dim_at start d)) (vk_length (okey_dim_at start d)) 0
         (vk_key (okey_dim_at end_ d)) (vk_length (okey_dim_at end_ d)) 0 = Done ce ->
       ce <= 0 -> 0 < x).
Proof.
  intros Hev Hc Hb Hs. rewrite (key_convert_encoding O O_valid) in Hc.
  destruct (kmalloc_ok (okey_encoded_size O)); [|discriminate].
  injection Hc as <-.
  pose proof d_range as Hd. pose proof same_dims as Hsame.
  pose proof O_valid as (_ & HlO & _). pose proof start_valid as (_ & Hls & Hwfs & _).
  assert (Hne : r <> 0).
  { intros ->. apply bounds_check_zero in Hb. discriminate. }
  rewrite (skip_encoding r Hne) in Hs.
  destruct (kmalloc_ok _); [|discriminate]. injection Hs as <-.
  unfold castle_object_btree_key_bounds_check in Hb.
  destruct (_ || _) eqn:Hdims; [discriminate|].
  apply orb_false_iff in Hdims as [_ Hde]. apply negb_false_iff, Z.eqb_eq in Hde.
  cbn [okey_encoding bk_nr_dims] in Hde.
  pose proof (bounds_check_dims_spec (okey_encoding O) start end_
                (Z.to_nat (bk_nr_dims (okey_encoding O))) 0%nat) as Hspec.
  change (Z.of_nat 0) with 0 in Hspec. rewrite Hb in Hspec.
  destruct Hspec as (_ & _ & Hcase).
  destruct (lookup_lt_is_Some_2 (ok_dims O) (Z.to_nat d)) as [od Hod]; [lia|].
  destruct (lookup_lt_is_Some_2 (ok_dims start) (Z.to_nat d)) as [sd Hsd]; [lia|].
  destruct (skip_dim_at od sd Hod Hsd) as [Hat Hvs].
  set (c := bytes_compare (vk_key od) (vk_key sd)) in *.
  exists (if c =? 0 then -1 else c). split; [|split].
  - unfold castle_object_btree_key_compare.
    rewrite (dim_inc_at_nr_dims _ d). cbn [okey_encoding bk_nr_dims okey_splice ok_nr_dims].
    rewrite Hsame, Z.eqb_refl. cbn [negb].
    change (mk_vl_bkey (okey_encoded_size O - 4) (ok_nr_dims O) _ _) with (okey_encoding O).
    change (mk_vl_bkey _ (ok_nr_dims start) _ _) with (okey_encoding (okey_splice O start d)).
    replace (Z.to_nat (ok_nr_dims start))
      with (Z.to_nat d + S (Z.to_nat (ok_nr_dims start - d - 1)))%nat by lia.
    rewrite (skip_compare_dims (Z.to_nat d) 0%nat) by lia.
    cbn [btree_key_compare_dims]. rewrite Hat. cbn [obind].
    destruct (Z.eqb_spec c 0) as [Hc0|Hc0]; [reflexivity|].
    rewrite (proj2 (Z.eqb_neq _ _) Hc0). reflexivity.
  - intros ->. destruct Hcase as [[_ (c0 & Hc0 & Hlt)]|[Habs _]]; [|lia].
    rewrite Hvs in Hc0. injection Hc0 as <-.
    destruct (Z.eqb_spec c 0); lia.
  - intros -> ce Hce Hle. destruct Hcase as [[Habs _]|[_ (c0 & c0' & Hc0 & Hge & Hc0' & Hgt)]];
      [lia|].
    pose proof Hev as (_ & Hle' & Hwfe & _).
    destruct (lookup_lt_is_Some_2 (ok_dims end_) (Z.to_nat d)) as [ed Hed]; [lia|].
    assert (Hwo : dim_wf od).
    { destruct O_valid as (_ & _ & Hwf & _). rewrite Forall_forall in Hwf.
      apply Hwf, (list_elem_of_lookup_2 _ _ _ Hod). }
    assert (Hws : dim_wf sd).
    { rewrite Forall_forall in Hwfs. apply Hwfs, (list_elem_of_lookup_2 _ _ _ Hsd). }
    assert (Hwe : dim_wf ed).
    { rewrite Forall_forall in Hwfe. apply Hwfe, (list_elem_of_lookup_2 _ _ _ Hed). }
    unfold dim_wf in Hwo, Hws, Hwe.
    unfold okey_dim_at in Hce.
    rewrite (nth_lookup_Some _ _ _ _ Hsd), (nth_lookup_Some _ _ _ _ Hed), Hws, Hwe in Hce.
    rewrite <- (app_nil_r (vk_key sd)), <- (app_nil_r (vk_key ed)) in Hce at 1.
    rewrite dim_compare_bytes in Hce. rewrite Z.land_0_l in Hce. cbn [Z.eqb] in Hce.
    assert (Hce' : ce = bytes_compare (vk_key sd) (vk_key ed)).
    { destruct (Z.eqb_spec (bytes_compare (vk_key sd) (vk_key ed)) 0) as [E|E];
        injection Hce as <-; congruence. }
    unfold dim_vs_bound, okey_dim_at in Hc0'.
    assert (Hdz : Z.of_nat (Z.to_nat d) = d) by lia.
    pose proof (encoding_dim_get O O_valid _ od Hod) as Hg.
    pose proof (encoding_dim_length O O_valid _ od Hod) as Hl.
    pose proof (encoding_dim_flags O O_valid _ od Hod) as Hf.
    rewrite Hdz in Hg, Hl, Hf.
    rewrite (nth_lookup_Some _ _ _ _ Hed), Hg, Hl, Hf, Hwo, Hwe in Hc0'.
    rewrite <- (app_nil_r (vk_key ed)) in Hc0' at 1.
    rewrite dim_compare_bytes in Hc0'. rewrite Z.land_0_l in Hc0'. cbn [Z.eqb] in Hc0'.
    assert (Hc0'' : c0' = bytes_compare (vk_key od) (vk_key ed)).
    { destruct (Z.eqb_spec (bytes_compare (vk_key od) (vk_key ed)) 0) as [E|E];
        injection Hc0' as <-; congruence. }
    assert (Hpos : 0 < c) by (apply (bytes_compare_trans _ _ (vk_key ed)); lia).
    destruct (Z.eqb_spec c 0); lia.
Qed.

End Skip.

Lemma sample_okey2d_valid a b : okey_valid (sample_okey2d a b).
Proof.
  unfold okey_valid, sample_okey2d, dim_wf. cbn.
  repeat split; try lia; repeat constructor.
Qed.

Lemma key_skip_is_splice_witness :
  castle_object_btree_key_skip kmalloc_always (sample_bkey2d x02 x09)
    (sample_okey2d x02 x04) 1 (-1)
  = match castle_object_key_convert kmalloc_always
            (Some (okey_splice (sample_okey2d x02 x09) (sample_okey2d x02 x04) 1)) with
    | Done (Some K') => Done (Some (castle_object_btree_key_dim_inc K' 1))
    | r => r
    end.
Proof.
  apply (key_skip_is_splice kmalloc_always (sample_okey2d x02 x09) (sample_okey2d x02 x04) 1
           (sample_okey2d_valid x02 x09) (sample_okey2d_valid x02 x04) eq_refl).
  - cbn. lia.
  - exact (sample_okey2d_valid x02 x04).
  - discriminate.
  - vm_compute. reflexivity.
Defined.

Lemma key_skip_direction_witness :
  exists x,
    castle_object_btree_key_compare (sample_bkey2d x02 x09)
      (mk_vl_bkey 22 2 [6144; 6401] [x02; x04]) = Done x /\
    0 < x.
Proof.
  destruct (key_skip_direction kmalloc_always (sample_okey2d x02 x09)
              (sample_okey2d x02 x04) 1
              (sample_okey2d_valid x02 x09) (sample_okey2d_valid x02 x04) eq_refl
              ltac:(cbn; lia) (sample_okey2d_valid x02 x04)
              (sample_okey2d x03 x06) (sample_bkey2d x02 x09)
              (mk_vl_bkey 22 2 [6144; 6401] [x02; x04]) 1
              (sample_okey2d_valid x03 x06) eq_refl eq_refl eq_refl)
    as (x & Hx & _ & Hpos).
  exists x. split; [exact Hx|].
  apply (Hpos eq_refl (-2)); [reflexivity|lia].
Defined.

(* ===================================================================== *)
(** * Further properties of the streaming of values *)
(* ===================================================================== *)

(** ** Streaming of out-of-line values: one window *)

Lemma store_bytes_lookup_below bytes : forall blocks slave addr a,
  a < addr ->
  store_bytes blocks slave addr bytes !! (slave, a) = blocks !! (slave, a).
Proof.
  induction bytes as [|b bytes IH]; intros blocks slave addr a Ha; simpl; [reflexivity|].
  rewrite IH by lia. apply lookup_insert_ne. intros [= ?]. lia.
Qed.

Lemma load_store_bytes bytes : forall blocks slave addr,
  load_bytes (store_bytes blocks slave addr bytes) slave addr (length bytes) = bytes.
Proof.
  induction bytes as [|b bytes IH]; intros blocks slave addr; simpl; [reflexivity|].
  rewrite store_bytes_lookup_below by lia.
  rewrite lookup_insert_eq. simpl. f_equal. apply IH.
Qed.

Section OneWindow.

Variable C_BLK_SIZE : Z.
Hypothesis blk_pos : 0 < C_BLK_SIZE.
Hypothesis blk_small : OBJ_IO_MAX_BUFFER_SIZE * C_BLK_SIZE < 2 ^ 31.

Lemma one_window_blocks len :
  0 < len <= OBJ_IO_MAX_BUFFER_SIZE * C_BLK_SIZE ->
  write_buffer_nr_blocks C_BLK_SIZE len = (len - 1) / C_BLK_SIZE + 1 /\
  1 <= (len - 1) / C_BLK_SIZE + 1 <= OBJ_IO_MAX_BUFFER_SIZE /\
  len <= ((len - 1) / C_BLK_SIZE + 1) * C_BLK_SIZE.
Proof.
  intros Hlen. unfold OBJ_IO_MAX_BUFFER_SIZE in *.
  assert (Hq : 0 <= (len - 1) / C_BLK_SIZE <= 9).
  { split; [apply Z.div_pos; lia|].
    assert ((len - 1) / C_BLK_SIZE < 10); [|lia].
    apply Z.div_lt_upper_bound; lia. }
  split.
  { rewrite write_buffer_nr_blocks_spec by (unfold OBJ_IO_MAX_BUFFER_SIZE; lia).
    unfold OBJ_IO_MAX_BUFFER_SIZE. lia. }
  split; [lia|].
  pose proof (Z.mul_succ_div_gt (len - 1) C_BLK_SIZE blk_pos). lia.
Qed.

(** X8: a value that fits one buffer is stored and read back as it is. A
    replace of an out-of-line value of at most [OBJ_IO_MAX_BUFFER_SIZE]
    blocks, whose first packet carries the whole value, completes with code
    0 after one buffer of ceil(length / C_BLK_SIZE) blocks at the value's
    block; a get of that value then replies with one frame, first and last,
    holding the bytes written. *)
Theorem replace_get_one_window (fuel fuel' : nat) (st : obj_io_state)
    (cdb : c_disk_blk) (payload packet : list byte) :
  0 < Z.of_nat (length payload) <= OBJ_IO_MAX_BUFFER_SIZE * C_BLK_SIZE ->
  payload `prefix_of` packet ->
  Z.of_nat (length packet) < 2 ^ 32 ->
  exists st' call st'',
    castle_object_replace_complete_ondisk C_BLK_SIZE (S fuel) st cdb
      (Z.of_nat (length payload)) packet
      = Some (Done (st', call, ReplaceComplete 0)) /\
    io_windows st'
      = io_windows st ++ [(cdb, (Z.of_nat (length payload) - 1) / C_BLK_SIZE + 1)] /\
    castle_object_get_ondisk C_BLK_SIZE (S fuel') st' cdb (Z.of_nat (length payload))
      = Some (Done (st'', [mk_get_frame true true payload])).
Proof.
  intros Hlen [tail ->] Hpl.
  set (len := Z.of_nat (length payload)) in *.
  destruct (one_window_blocks len Hlen) as (Hnr & Hnrb & Hfit).
  set (nr := (len - 1) / C_BLK_SIZE + 1) in *.
  unfold OBJ_IO_MAX_BUFFER_SIZE in *.
  assert (Hpk : len <= Z.of_nat (length (payload ++ tail)))
    by (rewrite length_app; lia).
  unfold castle_object_replace_complete_ondisk, castle_object_write_buffer_alloc.
  rewrite Hnr. unfold castle_object_data_write.
  cbn [rc_data_c2b rc_data_c2b_offset rc_data_length rc_packet c2b_nr_pages].
  rewrite (wrap32_small (nr * C_BLK_SIZE)) by nia.
  rewrite (wrap32_small (Z.of_nat (length (payload ++ tail)))) by lia.
  destruct (Z.leb_spec (Z.of_nat (length (payload ++ tail))) 0) as [?|_]; [lia|].
  cbn [data_write_loop].
  destruct (Z.geb_spec 0 (nr * C_BLK_SIZE)) as [?|_]; [nia|].
  rewrite Z.sub_0_r, (wrap32_small (nr * C_BLK_SIZE)) by nia.
  assert (Hlast : ((if nr * C_BLK_SIZE >=? Z.of_nat (length (payload ++ tail))
                    then Z.of_nat (length (payload ++ tail))
                    else nr * C_BLK_SIZE) >=? len) = true).
  { destruct (nr * C_BLK_SIZE >=? Z.of_nat (length (payload ++ tail))); lia. }
  rewrite Hlast. rewrite Z.sub_diag, Z.add_0_l.
  change (wrap32 0) with 0. rewrite (wrap32_small len) by lia.
  cbn [Z.gtb Z.compare andb]. rewrite !andb_false_r.
  cbn [rc_data_length Z.eqb].
  do 3 eexists. split; [reflexivity|]. split.
  { unfold io_windows, release_dirty_c2b, io_emit, str_copy_to_c2b.
    cbn [io_events]. rewrite !omap_app. cbn. rewrite !app_nil_r. reflexivity. }
  unfold castle_object_get_ondisk. cbn [castle_object_get_continue].
  rewrite Z.eqb_refl. cbn [negb].
  rewrite (wrap32_small (len - 1)) by lia.
  fold nr. rewrite (wrap32_small nr) by lia. rewrite wrap_int32_small by lia.
  destruct (Z.gtb_spec nr OBJ_IO_MAX_BUFFER_SIZE) as [Hgt|_];
    [unfold OBJ_IO_MAX_BUFFER_SIZE in Hgt; lia|].
  rewrite Z.sub_diag. change (wrap32 0) with 0. cbn [Z.eqb].
  do 3 f_equal.
  unfold release_dirty_c2b, io_emit, str_copy_to_c2b.
  cbn [io_blocks rc_data_c2b c2b_cdb].
  rewrite Z.add_0_r.
  replace (Z.to_nat len) with (length payload) by lia.
  rewrite take_app_length. rewrite load_store_bytes. reflexivity.
Qed.

(** X9: the last packet must bring the end of the value. When
    [castle_object_replace_continue] is called with [last] set on a packet
    that is shorter than what is left of the value (and fits the buffer at
    hand), the bytes are copied and then the call stops in
    [BUG_ON(data_length != 0)]: a replace is never completed with bytes
    missing. *)
Theorem replace_continue_last_short (fuel : nat) (st : obj_io_state)
    (call : replace_call) (packet : list byte) :
  0 < Z.of_nat (length packet) < rc_data_length call ->
  rc_data_length call < 2 ^ 32 ->
  0 <= rc_data_c2b_offset call ->
  0 <= c2b_nr_pages (rc_data_c2b call) ->
  c2b_nr_pages (rc_data_c2b call) * C_BLK_SIZE < 2 ^ 32 ->
  rc_data_c2b_offset call + Z.of_nat (length packet)
    <= c2b_nr_pages (rc_data_c2b call) * C_BLK_SIZE ->
  castle_object_replace_continue C_BLK_SIZE (S fuel) st call packet true = Some BUG.
Proof.
  intros Hpl Hdl Ho Hnr Hdcl Hfit.
  unfold castle_object_replace_continue, castle_object_data_write.
  cbn [rc_data_c2b rc_data_c2b_offset rc_data_length rc_packet].
  set (dcl := c2b_nr_pages (rc_data_c2b call) * C_BLK_SIZE) in *.
  set (pl := Z.of_nat (length packet)) in *.
  set (o := rc_data_c2b_offset call) in *.
  set (dl := rc_data_length call) in *.
  rewrite (wrap32_small dcl) by nia. rewrite (wrap32_small pl) by lia.
  destruct (Z.leb_spec pl 0) as [?|_]; [lia|].
  cbn [data_write_loop].
  destruct (Z.geb_spec o dcl) as [?|_]; [lia|].
  rewrite (wrap32_small (dcl - o)) by lia.
  destruct (Z.geb_spec (dcl - o) pl) as [_|?]; [|lia].
  destruct (Z.geb_spec pl dl) as [?|_]; [lia|].
  rewrite Z.sub_diag. change (wrap32 0) with 0.
  cbn [Z.gtb Z.compare andb].
  rewrite (wrap32_small (dl - pl)) by lia.
  destruct (_ && _); unfold castle_object_write_buffer_alloc; cbn [rc_data_length];
    (destruct (Z.eqb_spec (dl - pl) 0) as [?|_]; [lia|reflexivity]).
Qed.

End OneWindow.

Lemma replace_get_one_window_witness :
  exists st' call st'',
    castle_object_replace_complete_ondisk sample_blk_size 1 sample_io_state
      sample_value_cdb 20 (sample_payload 20)
      = Some (Done (st', call, ReplaceComplete 0)) /\
    io_windows st' = io_windows sample_io_state ++ [(sample_value_cdb, 3)] /\
    castle_object_get_ondisk sample_blk_size 1 st' sample_value_cdb 20
      = Some (Done (st'', [mk_get_frame true true (sample_payload 20)])).
Proof.
  apply (replace_get_one_window sample_blk_size eq_refl eq_refl 0 0 sample_io_state
           sample_value_cdb (sample_payload 20) (sample_payload 20)).
  - vm_compute. split; [reflexivity|discriminate].
  - reflexivity.
  - vm_compute. reflexivity.
Defined.

Lemma replace_continue_last_short_witness :
  castle_object_replace_continue sample_blk_size 1 sample_io_state
    (mk_replace_call (mk_c2b sample_value_cdb 3) 0 20 []) (sample_payload 8) true
  = Some BUG.
Proof.
  apply (replace_continue_last_short sample_blk_size 0 sample_io_state
           (mk_replace_call (mk_c2b sample_value_cdb 3) 0 20 []) (sample_payload 8));
    vm_compute; try (split; reflexivity); try reflexivity; discriminate.
Defined.

(* ===================================================================== *)
(** * Further properties of the mount and of the transfers *)
(* ===================================================================== *)

(** ** Mount: return codes *)

Section MountCodes.

Variable castle_slaves : list castle_slave.
Variable kmalloc_ok : Z -> bool.
Variable sizeof_castle_vtree_node : Z.
Variable VTREE_NODE_SLOTS : Z.

Local Abbreviation fs_init :=
  (castle_fs_init castle_slaves kmalloc_ok sizeof_castle_vtree_node VTREE_NODE_SLOTS).

(** X10: what a mount returns and leaves. [castle_fs_init] returns 0,
    [-EEXIST], [-ENOENT] or [-EINVAL]; [-EEXIST] exactly when the file
    system is inited already, and then nothing is touched; the inited flag is
    set exactly when 0 is returned; and after a mount that returned 0 every
    further mount returns [-EEXIST] and changes nothing. *)
Theorem castle_fs_init_codes (fuel : nat) (st st' : castle_main_state) (ret : Z) :
  fs_init fuel st = Some (Done (ret, st')) ->
  (ret = 0 \/ ret = - EEXIST \/ ret = - ENOENT \/ ret = - EINVAL) /\
  (ret = - EEXIST <-> castle_fs_inited st <> 0) /\
  (ret = - EEXIST -> st' = st) /\
  castle_fs_inited st' = (if ret =? 0 then 1 else castle_fs_inited st) /\
  (ret = 0 -> forall fuel', fs_init fuel' st' = Some (Done (- EEXIST, st'))).
Proof.
  intros Hrun.
  assert (Hagain : forall s, castle_fs_inited s <> 0 ->
            forall fuel', fs_init fuel' s = Some (Done (- EEXIST, s))).
  { intros s Hs fuel'. unfold castle_fs_init.
    destruct (Z.eqb_spec (castle_fs_inited s) 0); [contradiction|reflexivity]. }
  unfold castle_fs_init in Hrun.
  destruct (Z.eqb_spec (castle_fs_inited st) 0) as [Hi|Hi]; cbn [negb] in Hrun.
  2:{ injection Hrun as <- <-.
      split; [auto|]. split; [tauto|]. split; [reflexivity|]. split; [reflexivity|].
      discriminate. }
  assert (Hfail : forall r s, r = - ENOENT \/ r = - EINVAL ->
            castle_fs_inited s = castle_fs_inited st ->
            (r = 0 \/ r = - EEXIST \/ r = - ENOENT \/ r = - EINVAL) /\
            (r = - EEXIST <-> castle_fs_inited st <> 0) /\
            (r = - EEXIST -> s = st) /\
            castle_fs_inited s = (if r =? 0 then 1 else castle_fs_inited st) /\
            (r = 0 -> forall fuel', fs_init fuel' s = Some (Done (- EEXIST, s)))).
  { intros r s Hr Hs.
    split; [tauto|].
    split; [split; [intros ->; destruct Hr; discriminate|intros H; contradiction]|].
    split; [intros ->; destruct Hr; discriminate|].
    split; [destruct Hr as [-> | ->]; exact Hs|].
    intros ->. destruct Hr; discriminate. }
  destruct (bool_decide (castle_slaves = [])).
  { injection Hrun as <- <-. apply Hfail; auto. }
  destruct (fs_init_slaves castle_slaves 1 (castle_fs_super st))
    as [[returned first] fs_super] eqn:Hloop.
  assert (Hret : returned = None \/ returned = Some (- EINVAL)).
  { rewrite fs_init_slaves_first in Hloop by lia.
    destruct (valid_fs_superblocks castle_slaves) as [|s0 rest].
    - injection Hloop as <- _ _. auto.
    - destruct (bool_decide _); injection Hloop as <- _ _; auto. }
  destruct Hret as [-> | ->].
  2:{ injection Hrun as <- <-. apply Hfail; auto. }
  destruct (negb (first =? 0)).
  { injection Hrun as <- <-. apply Hfail; auto. }
  destruct (castle_version_tree_read _ _ _ _ _ _) as [[[r v_node]|]|];
    try discriminate.
  destruct (negb (r =? 0)); injection Hrun as <- <-.
  { apply Hfail; auto. }
  split; [auto|].
  split; [split; [discriminate|intros H; contradiction]|].
  split; [discriminate|]. split; [reflexivity|].
  intros _ fuel'. apply Hagain. discriminate.
Qed.

(** X11: a version tree root with an invalid header is accepted. When the
    slaves' valid FS superblocks agree and the node at the tree root they
    name reads with a capacity above [VTREE_NODE_SLOTS], or with more slots
    used than its capacity, [castle_version_tree_read] returns the code of
    the read, 0, and the mount succeeds. *)
Theorem castle_fs_init_invalid_root_header (fuel : nat) (st : castle_main_state)
    (s0 : castle_fs_superblock) (rest : list castle_fs_superblock)
    (cs : castle_slave) (capacity used : Z) :
  castle_fs_inited st = 0 ->
  valid_fs_superblocks castle_slaves = s0 :: rest -> Forall (eq s0) rest ->
  kmalloc_ok sizeof_castle_vtree_node = true ->
  find (fun slave => cs_uuid slave =? fwd_tree_disk1 s0) castle_slaves = Some cs ->
  bd_vtree_header (cs_bdev cs) (fwd_tree_block1 s0) = (0, (capacity, used)) ->
  VTREE_NODE_SLOTS < capacity \/ capacity < used ->
  fs_init (S fuel) st = Some (Done (0, mk_main_state 1 s0)).
Proof.
  intros Hi Hvalid Hall Hk Hfind Hhdr Hbad. unfold castle_fs_init.
  rewrite Hi. cbn [Z.eqb negb].
  destruct (bool_decide_reflect (castle_slaves = [])) as [Hnil|_].
  { rewrite Hnil in Hvalid. discriminate. }
  rewrite fs_init_slaves_first by lia. rewrite Hvalid.
  rewrite bool_decide_eq_true_2 by exact Hall. cbn [Z.eqb negb].
  cbn [castle_version_tree_read disk block]. rewrite Hk. cbn [negb].
  rewrite Hfind, Hhdr. cbn [Z.eqb negb].
  assert (Hb : (capacity >? VTREE_NODE_SLOTS) || (used >? capacity) = true).
  { apply orb_true_iff. destruct Hbad; [left|right]; lia. }
  rewrite Hb. reflexivity.
Qed.

End MountCodes.

Lemma castle_fs_init_codes_witness :
  castle_fs_init sample_mount_slaves kmalloc_always 64 8 1 sample_main_state
    = Some (Done (0, mk_main_state 1 sample_fs_sb)) /\
  forall fuel',
    castle_fs_init sample_mount_slaves kmalloc_always 64 8 fuel'
      (mk_main_state 1 sample_fs_sb)
    = Some (Done (- EEXIST, mk_main_state 1 sample_fs_sb)).
Proof.
  assert (Hrun : castle_fs_init sample_mount_slaves kmalloc_always 64 8 1
                   sample_main_state = Some (Done (0, mk_main_state 1 sample_fs_sb)))
    by (vm_compute; reflexivity).
  split; [exact Hrun|].
  exact (proj2 (proj2 (proj2 (proj2
           (castle_fs_init_codes sample_mount_slaves kmalloc_always 64 8 1
              sample_main_state (mk_main_state 1 sample_fs_sb) 0 Hrun)))) eq_refl).
Defined.

Lemma castle_fs_init_invalid_root_header_witness :
  castle_fs_init sample_bad_root_slaves kmalloc_always 64 8 1 sample_main_state
  = Some (Done (0, mk_main_state 1 sample_fs_sb)).
Proof.
  apply (castle_fs_init_invalid_root_header sample_bad_root_slaves kmalloc_always 64 8
           0 sample_main_state sample_fs_sb [] (mk_slave 0 1 0 sample_bad_root_bdev) 4 9);
    try reflexivity.
  - constructor.
  - right. reflexivity.
Defined.

(** The clean-up of [castle_version_tree_read] at work: the read of the
    child fails with [-ENODEV], and the clean-up hands the [NULL] child of
    the leaf slot before it to [castle_version_node_destroy]: the mount
    does not return. *)
Lemma castle_fs_init_lost_child_sample :
  castle_fs_init sample_lost_child_slaves kmalloc_always 64 8 2 sample_main_state
  = Some BUG.
Proof. vm_compute. reflexivity. Qed.

(** ** The transfer engine: destinations, copies and the node barrier *)

Section TransferMoves.

Variable castle_slaves : list castle_slave.
Variable CASTLE_SLAVE_TARGET : Z.
Variable INVAL_DISK_BLK : c_disk_blk.
Variable castle_freespace_block_get : Z -> c_disk_blk.
Variable castle_freespace_blks_for_version_get : castle_slave -> Z -> Z.
Variable castle_freespace_slave_block_get : castle_slave -> Z -> c_disk_blk.

Local Abbreviation move_block :=
  (castle_move_block castle_slaves CASTLE_SLAVE_TARGET INVAL_DISK_BLK
     castle_freespace_block_get castle_freespace_blks_for_version_get
     castle_freespace_slave_block_get).
Local Abbreviation move :=
  (block_move castle_slaves CASTLE_SLAVE_TARGET INVAL_DISK_BLK
     castle_freespace_block_get castle_freespace_blks_for_version_get
     castle_freespace_slave_block_get).
Local Abbreviation get_destination :=
  (castle_transfer_get_destination INVAL_DISK_BLK
     castle_freespace_block_get castle_freespace_blks_for_version_get
     castle_freespace_slave_block_get).
Local Abbreviation destination_regions :=
  (get_destination_regions INVAL_DISK_BLK
     castle_freespace_blks_for_version_get castle_freespace_slave_block_get).
Local Abbreviation on_correct_disk :=
  (castle_transfer_is_block_on_correct_disk castle_slaves CASTLE_SLAVE_TARGET).
Local Abbreviation has_room := (region_has_room castle_freespace_blks_for_version_get).
Local Abbreviation region_block :=
  (fun region => castle_freespace_slave_block_get
                   (region_slave region) (region_version region)).
Local Abbreviation inval := (DISK_BLK_INVAL INVAL_DISK_BLK).

Lemma ts_events_update_page (st : transfer_state) cdb f :
  ts_events (update_page st cdb f) = ts_events st.
Proof. reflexivity. Qed.

Lemma destination_regions_valid regions : forall cdb,
  inval cdb = false -> destination_regions regions cdb = cdb.
Proof.
  induction regions as [|region regions IH]; intros cdb Hv; [reflexivity|].
  cbn [get_destination_regions]. rewrite Hv. reflexivity.
Qed.

Lemma inval_inval : inval INVAL_DISK_BLK = true.
Proof. unfold DISK_BLK_INVAL. rewrite !Z.eqb_refl. reflexivity. Qed.

Lemma inval_eq cdb : inval cdb = true -> cdb = INVAL_DISK_BLK.
Proof.
  unfold DISK_BLK_INVAL. intros H. apply andb_true_iff in H as [Hd Hb].
  apply Z.eqb_eq in Hd, Hb. destruct cdb as [d b]. cbn [disk block] in *. subst.
  destruct INVAL_DISK_BLK; reflexivity.
Qed.

(** X12: where a block goes in a transfer to regions. The destination is
    the block that the allocator gives for the first region of the transfer
    that has room left for its version and for which it gives a valid
    block; the regions before it are full or gave the invalid block. When
    there is no such region the destination is invalid. A full region is
    never allocated from. *)
Theorem get_destination_first_region (regions : list castle_region) :
  let cdb := destination_regions regions INVAL_DISK_BLK in
  if inval cdb
  then Forall (fun region => has_room region = false \/
                             inval (region_block region) = true) regions
  else exists before region after,
         regions = before ++ region :: after /\
         has_room region = true /\ cdb = region_block region /\
         Forall (fun region => has_room region = false \/
                               inval (region_block region) = true) before.
Proof.
  cbn zeta. induction regions as [|region regions IH].
  { cbn [get_destination_regions]. rewrite inval_inval. constructor. }
  cbn [get_destination_regions]. rewrite inval_inval. cbn [negb].
  unfold region_has_room in *.
  destruct (castle_freespace_blks_for_version_get _ _ >=? region_length region) eqn:Hfull.
  - destruct (inval (destination_regions regions INVAL_DISK_BLK)).
    + constructor; [left; rewrite Hfull; reflexivity|exact IH].
    + destruct IH as (before & r & after & -> & Hroom & Hcdb & Hbefore).
      exists (region :: before), r, after. split; [reflexivity|].
      split; [exact Hroom|]. split; [exact Hcdb|].
      constructor; [left; rewrite Hfull; reflexivity|exact Hbefore].
  - destruct (inval (region_block region)) eqn:Hinv.
    + rewrite (inval_eq _ Hinv).
      destruct (inval (destination_regions regions INVAL_DISK_BLK)).
      * constructor; [right; exact Hinv|exact IH].
      * destruct IH as (before & r & after & -> & Hroom & Hcdb & Hbefore).
        exists (region :: before), r, after. split; [reflexivity|].
        split; [exact Hroom|]. split; [exact Hcdb|].
        constructor; [right; exact Hinv|exact Hbefore].
    + rewrite destination_regions_valid by exact Hinv. rewrite Hinv.
      exists [], region, regions. split; [reflexivity|].
      split; [rewrite Hfull; reflexivity|]. split; [reflexivity|constructor].
Qed.

(** X13: what a successful block move does. For a block that is not on the
    right disk, with a valid destination other than the block itself, once
    the source is up to date (at once, or after its read): the destination
    buffer holds the bytes of the source buffer and is dirty, the source
    block is given back to the free space, the progress counter is one up,
    and the iterator is not cancelled. *)
Theorem block_move_copies (st : transfer_state) (src dest : c_disk_blk)
    (read_uptodate : bool) :
  on_correct_disk (ts_transfer st) src = Done false ->
  get_destination (ts_transfer st) = Done dest ->
  inval dest = false ->
  cdb_key src <> cdb_key dest ->
  read_uptodate = true \/ c2p_uptodate st src = true ->
  exists st' evs,
    move st src read_uptodate = Done st' /\
    c2p_buffer (cache_page (ts_cache st') dest)
      = c2p_buffer (cache_page (ts_cache st) src) /\
    c2p_dirty_bit (cache_page (ts_cache st') dest) = true /\
    c2p_buffer (cache_page (ts_cache st') src)
      = c2p_buffer (cache_page (ts_cache st) src) /\
    tr_progress (ts_transfer st')
      = wrap_int32 (tr_progress (ts_transfer st) + 1) /\
    ts_events st' = ts_events st ++ evs /\
    EvBlockFree src ∈ evs /\ cancel_errors evs = [].
Proof.
  intros Hdisk Hdest Hvalid Hne Hup.
  set (pinned := transfer_phase_add
    (set_c2p_private
       (set_c2p_private
          (lock_c2p (castle_cache_page_get
                       (lock_c2p (castle_cache_page_get st src) src) dest) dest)
          dest (PrivTransfer (tr_id (ts_transfer st))))
       src (PrivPage dest)) 1).
  assert (Hpriv : c2p_priv (cache_page (ts_cache pinned) src) = PrivPage dest)
    by (unfold pinned; page_simpl; reflexivity).
  assert (Hupd : c2p_uptodate pinned src = c2p_uptodate st src)
    by (unfold pinned, c2p_uptodate; page_simpl; reflexivity).
  assert (Hmove : move_block st src =
    if c2p_uptodate st src
    then do st' <- castle_do_transfer_callback pinned src true; Done (st', None)
    else Done (emit_event pinned (EvSubmitRead src), Some src)).
  { unfold castle_move_block. rewrite Hdisk. cbn [obind].
    change (ts_transfer (lock_c2p (castle_cache_page_get st src) src))
      with (ts_transfer st).
    rewrite Hdest. cbn [obind]. rewrite Hvalid.
    change (ts_transfer (lock_c2p (castle_cache_page_get
              (lock_c2p (castle_cache_page_get st src) src) dest) dest))
      with (ts_transfer st).
    fold pinned. rewrite Hupd.
    destruct (c2p_uptodate st src); reflexivity. }
  assert (Hcb : forall sta pre,
    ts_cache sta = ts_cache pinned -> ts_transfer sta = ts_transfer pinned ->
    ts_events sta = ts_events st ++ pre -> cancel_errors pre = [] ->
    exists st' evs, castle_do_transfer_callback sta src true = Done st' /\
      c2p_buffer (cache_page (ts_cache st') dest)
        = c2p_buffer (cache_page (ts_cache st) src) /\
      c2p_dirty_bit (cache_page (ts_cache st') dest) = true /\
      c2p_buffer (cache_page (ts_cache st') src)
        = c2p_buffer (cache_page (ts_cache st) src) /\
      tr_progress (ts_transfer st')
        = wrap_int32 (tr_progress (ts_transfer st) + 1) /\
      ts_events st' = ts_events st ++ evs /\
      EvBlockFree src ∈ evs /\ cancel_errors evs = []).
  { intros sta pre Hca Htr Hev Hpre. unfold castle_do_transfer_callback.
    rewrite Hca, Hpriv. cbn [negb].
    match goal with |- context [if ?c then _ else _] => destruct c end.
    - exists (castle_ftree_iter_continue
               (transfer_phase_add (transfer_progress_inc (emit_event
                 (put_c2p (unlock_c2p (put_c2p (unlock_c2p (dirty_c2p
                   (set_c2p_buffer sta dest
                      (c2p_buffer (cache_page (ts_cache pinned) src))) dest) src) src)
                   dest) dest) (EvBlockFree src))) (-1))),
             (pre ++ [EvBlockFree src; EvIterContinue]).
      split; [reflexivity|].
      repeat split;
        try (page_simpl; cbn [tr_progress];
             rewrite ?ts_events_update_page, ?Hca, ?Htr, ?Hev;
             unfold pinned; page_simpl; cbn [tr_progress];
             rewrite <- ?app_assoc; reflexivity).
      + apply elem_of_app. right. apply list_elem_of_here.
      + unfold cancel_errors in *. rewrite omap_app, Hpre. reflexivity.
    - exists (transfer_phase_add (transfer_progress_inc (emit_event
                 (put_c2p (unlock_c2p (put_c2p (unlock_c2p (dirty_c2p
                   (set_c2p_buffer sta dest
                      (c2p_buffer (cache_page (ts_cache pinned) src))) dest) src) src)
                   dest) dest) (EvBlockFree src))) (-1)),
             (pre ++ [EvBlockFree src]).
      split; [reflexivity|].
      repeat split;
        try (page_simpl; cbn [tr_progress];
             rewrite ?ts_events_update_page, ?Hca, ?Htr, ?Hev;
             unfold pinned; page_simpl; cbn [tr_progress];
             rewrite <- ?app_assoc; reflexivity).
      + apply elem_of_app. right. apply list_elem_of_here.
      + unfold cancel_errors in *. rewrite omap_app, Hpre. reflexivity. }
  assert (Hpev : ts_events pinned = ts_events st)
    by (unfold pinned; page_simpl; reflexivity).
  unfold block_move. rewrite Hmove.
  destruct (c2p_uptodate st src) eqn:Hu.
  - destruct (Hcb pinned [] eq_refl eq_refl) as (st' & evs & Hst' & Hrest);
      [rewrite app_nil_r; exact Hpev|reflexivity|].
    rewrite Hst'. cbn [obind]. eauto.
  - destruct Hup as [-> | Hup]; [|discriminate]. cbn [obind].
    apply (Hcb _ [EvSubmitRead src]); reflexivity.
Qed.

Lemma continue_count_app evs1 evs2 :
  continue_count (evs1 ++ evs2) = (continue_count evs1 + continue_count evs2)%nat.
Proof. unfold continue_count. rewrite omap_app, length_app. reflexivity. Qed.

(** The copy callback on an up-to-date source: one block freed, the phase one
    down, and the iterator continued when the phase comes to 0. *)
Lemma transfer_callback_phase (st st' : transfer_state) (src : c_disk_blk) :
  castle_do_transfer_callback st src true = Done st' ->
  1 <= tr_phase (ts_transfer st) < 2 ^ 31 ->
  tr_phase (ts_transfer st') = tr_phase (ts_transfer st) - 1 /\
  ts_events st' = ts_events st ++ EvBlockFree src ::
                    (if tr_phase (ts_transfer st) =? 1 then [EvIterContinue] else []).
Proof.
  unfold castle_do_transfer_callback.
  destruct (c2p_priv (cache_page (ts_cache st) src)) as [|dest|]; try discriminate.
  cbn [negb]. intros Hrun Hph.
  assert (Hp : tr_phase (ts_transfer (transfer_phase_add (transfer_progress_inc
                 (emit_event (put_c2p (unlock_c2p (put_c2p (unlock_c2p (dirty_c2p
                    (set_c2p_buffer st dest (c2p_buffer (cache_page (ts_cache st) src)))
                    dest) src) src) dest) dest) (EvBlockFree src))) (-1)))
               = tr_phase (ts_transfer st) - 1).
  { page_simpl. cbn [tr_phase]. apply wrap_int32_small. lia. }
  rewrite Hp in Hrun.
  destruct (Z.eqb_spec (tr_phase (ts_transfer st) - 1) 0) as [H0|H0];
    injection Hrun as <-.
  - split; [page_simpl; cbn [tr_phase]; rewrite wrap_int32_small by lia; reflexivity|].
    destruct (Z.eqb_spec (tr_phase (ts_transfer st)) 1); [|lia].
    page_simpl. rewrite !ts_events_update_page, <- app_assoc. reflexivity.
  - split; [exact Hp|].
    destruct (Z.eqb_spec (tr_phase (ts_transfer st)) 1); [lia|].
    page_simpl. rewrite !ts_events_update_page. reflexivity.
Qed.

(** While a node is open [castle_move_block] does not continue the iterator:
    it leaves the phase as it was, plus one when it submitted a read. *)
Lemma move_block_phase (st st' : transfer_state) (cdb : c_disk_blk)
    (r : option c_disk_blk) :
  move_block st cdb = Done (st', r) ->
  1 <= tr_phase (ts_transfer st) < 2 ^ 31 - 1 ->
  tr_phase (ts_transfer st')
    = tr_phase (ts_transfer st) + match r with Some _ => 1 | None => 0 end /\
  exists evs, ts_events st' = ts_events st ++ evs /\ continue_count evs = 0%nat.
Proof.
  unfold castle_move_block. intros Hrun Hph.
  destruct (on_correct_disk (ts_transfer st) cdb) as [[|]|]; cbn [obind] in Hrun;
    try discriminate.
  { injection Hrun as <- <-. split; [cbn; lia|]. exists []. rewrite app_nil_r. auto. }
  destruct (get_destination _) as [dest|]; cbn [obind] in Hrun; [|discriminate].
  destruct (inval dest).
  { injection Hrun as <- <-. split; [page_simpl; lia|].
    exists [EvIterCancel (- ENOMEM)]. split; [|reflexivity].
    page_simpl. rewrite !ts_events_update_page. reflexivity. }
  match type of Hrun with
  | context [transfer_phase_add ?s 1] => set (pinned := transfer_phase_add s 1) in *
  end.
  assert (Hpp : tr_phase (ts_transfer pinned) = tr_phase (ts_transfer st) + 1).
  { unfold pinned. page_simpl. cbn [tr_phase]. apply wrap_int32_small. lia. }
  assert (Hpe : ts_events pinned = ts_events st).
  { unfold pinned. page_simpl. rewrite !ts_events_update_page. reflexivity. }
  destruct (negb (c2p_uptodate pinned cdb)).
  { injection Hrun as <- <-. cbn [emit_event ts_transfer ts_events].
    split; [exact Hpp|]. exists [EvSubmitRead cdb]. rewrite Hpe. auto. }
  destruct (castle_do_transfer_callback pinned cdb true) as [st1|] eqn:Hcb;
    cbn [obind] in Hrun; [|discriminate].
  injection Hrun as <- <-.
  apply transfer_callback_phase in Hcb as [Hp1 He1]; [|lia].
  split; [lia|].
  destruct (Z.eqb_spec (tr_phase (ts_transfer pinned)) 1); [lia|].
  exists [EvBlockFree cdb]. rewrite He1, Hpe. auto.
Qed.

Local Abbreviation each_entries :=
  (transfer_each_entries castle_slaves CASTLE_SLAVE_TARGET INVAL_DISK_BLK
     castle_freespace_block_get castle_freespace_blks_for_version_get
     castle_freespace_slave_block_get).

Lemma transfer_each_entries_phase entries : forall st index st' reads,
  each_entries st index entries = Done (st', reads) ->
  1 <= tr_phase (ts_transfer st) ->
  tr_phase (ts_transfer st) + Z.of_nat (length entries) < 2 ^ 31 ->
  tr_phase (ts_transfer st')
    = tr_phase (ts_transfer st) + Z.of_nat (length reads) /\
  (length reads <= length entries)%nat /\
  exists evs, ts_events st' = ts_events st ++ evs /\ continue_count evs = 0%nat.
Proof.
  induction entries as [|cdb entries IH]; intros st index st' reads Hrun Hlo Hhi.
  { injection Hrun as <- <-. cbn [length]. split; [lia|]. split; [lia|].
    exists []. rewrite app_nil_r. auto. }
  cbn [transfer_each_entries] in Hrun. unfold castle_transfer_each in Hrun.
  cbn [length] in Hhi.
  destruct (move_block st cdb) as [[st1 r]|] eqn:Hmove; cbn [obind] in Hrun;
    [|discriminate].
  apply move_block_phase in Hmove as (Hp1 & evs1 & He1 & Hc1); [|lia].
  cbn [fst snd] in Hrun.
  destruct (each_entries st1 (index + 1) entries) as [[st2 reads2]|] eqn:Hrest;
    cbn [obind] in Hrun; [|discriminate].
  injection Hrun as <- <-. cbn [fst snd].
  apply IH in Hrest as (Hp2 & Hlen2 & evs2 & He2 & Hc2);
    [|destruct r; lia|destruct r; lia].
  split; [destruct r; cbn [length]; lia|].
  split; [destruct r; cbn [length]; lia|].
  exists (evs1 ++ evs2). rewrite He2, He1, <- app_assoc.
  split; [reflexivity|]. rewrite continue_count_app. lia.
Qed.

Lemma transfer_reads_done_phase reads : forall st st',
  transfer_reads_done st reads = Done st' ->
  tr_phase (ts_transfer st) = Z.of_nat (length reads) ->
  reads <> [] -> Z.of_nat (length reads) < 2 ^ 31 ->
  tr_phase (ts_transfer st') = 0 /\
  exists evs, ts_events st' = ts_events st ++ evs ++ [EvIterContinue] /\
              continue_count evs = 0%nat.
Proof.
  induction reads as [|src reads IH]; intros st st' Hrun Hph Hne Hhi; [contradiction|].
  cbn [transfer_reads_done] in Hrun. cbn [length] in Hph, Hhi.
  destruct (castle_do_transfer_callback st src true) as [st1|] eqn:Hcb;
    cbn [obind] in Hrun; [|discriminate].
  apply transfer_callback_phase in Hcb as [Hp1 He1]; [|lia].
  destruct reads as [|src2 reads].
  - injection Hrun as <-. cbn [length] in Hph.
    split; [lia|]. exists [EvBlockFree src]. rewrite He1.
    destruct (Z.eqb_spec (tr_phase (ts_transfer st)) 1); [|lia]. auto.
  - apply IH in Hrun as (Hp2 & evs2 & He2 & Hc2);
      [|cbn [length] in *; lia|discriminate|cbn [length] in *; lia].
    split; [exact Hp2|].
    destruct (Z.eqb_spec (tr_phase (ts_transfer st)) 1); [cbn [length] in Hph; lia|].
    exists (EvBlockFree src :: evs2). rewrite He2, He1, <- app_assoc.
    split; [reflexivity|]. exact Hc2.
Qed.

(** X14: the barrier of a node. The calls for one node of the tree
    ([castle_transfer_node_start], [castle_transfer_each] for every entry,
    [castle_transfer_node_end], then the completion of the reads that were
    submitted) continue the tree iterator exactly once, with the last of
    them, and leave the phase at 0: the iterator is not continued while a
    block of the node is still to be moved. *)
Theorem transfer_node_continues_once (st st' : transfer_state)
    (entries : list c_disk_blk) :
  Z.of_nat (length entries) < 2 ^ 31 - 1 ->
  transfer_node castle_slaves CASTLE_SLAVE_TARGET INVAL_DISK_BLK
    castle_freespace_block_get castle_freespace_blks_for_version_get
    castle_freespace_slave_block_get st entries = Done st' ->
  tr_phase (ts_transfer st) = 0 /\ tr_phase (ts_transfer st') = 0 /\
  exists evs, ts_events st' = ts_events st ++ evs ++ [EvIterContinue] /\
              continue_count evs = 0%nat.
Proof.
  intros Hlen. unfold transfer_node, castle_transfer_node_start.
  destruct (Z.eqb_spec (tr_phase (ts_transfer st)) 0) as [H0|H0]; cbn [negb obind];
    [|discriminate].
  intros Hrun. split; [exact H0|].
  set (st1 := transfer_phase_add st 1) in *.
  assert (Hp1 : tr_phase (ts_transfer st1) = 1).
  { unfold st1. cbn. rewrite H0. reflexivity. }
  destruct (each_entries st1 0 entries) as [[st2 reads]|] eqn:Heach;
    cbn [obind fst snd] in Hrun; [|discriminate].
  apply transfer_each_entries_phase in Heach as (Hp2 & Hlen2 & evs2 & He2 & Hc2);
    [|lia|lia].
  assert (Hp3 : tr_phase (ts_transfer (transfer_phase_add st2 (-1)))
                = Z.of_nat (length reads)).
  { page_simpl. cbn [tr_phase]. rewrite wrap_int32_small by lia. lia. }
  unfold castle_transfer_node_end in Hrun. rewrite Hp3 in Hrun.
  destruct reads as [|src reads].
  - cbn [length Z.of_nat Z.eqb transfer_reads_done] in Hrun. injection Hrun as <-.
    split; [exact Hp3|].
    exists evs2. cbn [castle_ftree_iter_continue emit_event ts_events transfer_phase_add
                      set_transfer].
    rewrite He2, <- app_assoc. auto.
  - destruct (Z.eqb_spec (Z.of_nat (length (src :: reads))) 0) as [Hz|_];
      [cbn [length] in Hz; lia|].
    apply transfer_reads_done_phase in Hrun as (Hp4 & evs4 & He4 & Hc4);
      [|exact Hp3|discriminate|lia].
    split; [exact Hp4|].
    exists (evs2 ++ evs4). rewrite He4. cbn [transfer_phase_add set_transfer ts_events].
    rewrite He2, <- !app_assoc. split; [reflexivity|].
    rewrite continue_count_app. lia.
Qed.

End TransferMoves.

Lemma block_move_copies_witness :
  exists st' evs,
    block_move sample_slaves 1 sample_inval freespace_some
      freespace_blks_none freespace_slave_none sample_transfer_state sample_src true
      = Done st' /\
    c2p_buffer (cache_page (ts_cache st') sample_dest)
      = c2p_buffer (cache_page (ts_cache sample_transfer_state) sample_src) /\
    c2p_dirty_bit (cache_page (ts_cache st') sample_dest) = true /\
    c2p_buffer (cache_page (ts_cache st') sample_src)
      = c2p_buffer (cache_page (ts_cache sample_transfer_state) sample_src) /\
    tr_progress (ts_transfer st')
      = wrap_int32 (tr_progress (ts_transfer sample_transfer_state) + 1) /\
    ts_events st' = ts_events sample_transfer_state ++ evs /\
    EvBlockFree sample_src ∈ evs /\ cancel_errors evs = [].
Proof.
  apply (block_move_copies sample_slaves 1 sample_inval freespace_some
           freespace_blks_none freespace_slave_none
           sample_transfer_state sample_src sample_dest true);
    try reflexivity.
  - discriminate.
  - left. reflexivity.
Defined.

Lemma transfer_node_continues_once_witness :
  tr_phase (ts_transfer sample_idle_transfer) = 0 /\
  tr_phase (ts_transfer sample_node_done) = 0 /\
  exists evs,
    ts_events sample_node_done
      = ts_events sample_idle_transfer ++ evs ++ [EvIterContinue] /\
    continue_count evs = 0%nat.
Proof.
  apply (transfer_node_continues_once sample_slaves 1 sample_inval freespace_some
           freespace_blks_none freespace_slave_none
           sample_idle_transfer sample_node_done [sample_src; mk_cdb 2 9]).
  - vm_compute. reflexivity.
  - vm_compute. reflexivity.
Defined.

(* ===================================================================== *)
(** * Further properties of the version registry *)
(* ===================================================================== *)

(** ** The version registry: attaching and detaching *)

Lemma attached_flag_set f : test_mask (Z.lor f CV_ATTACHED_MASK) CV_ATTACHED_MASK = true.
Proof.
  unfold test_mask. apply negb_true_iff, Z.eqb_neq. intros H0.
  assert (Hb : Z.testbit (Z.land (Z.lor f CV_ATTACHED_MASK) CV_ATTACHED_MASK) 1 = true).
  { rewrite Z.land_spec, Z.lor_spec. change (Z.testbit CV_ATTACHED_MASK 1) with true.
    rewrite orb_true_r. reflexivity. }
  rewrite H0 in Hb. discriminate.
Qed.

Lemma attached_flag_clear f :
  test_mask (Z.land f (Z.lnot CV_ATTACHED_MASK)) CV_ATTACHED_MASK = false.
Proof.
  unfold test_mask. apply negb_false_iff, Z.eqb_eq.
  rewrite <- Z.land_assoc. replace (Z.land (Z.lnot CV_ATTACHED_MASK) CV_ATTACHED_MASK) with 0.
  - apply Z.land_0_r.
  - symmetry. rewrite Z.land_comm. apply Z.land_lnot_diag.
Qed.

Lemma attached_flag_restore f :
  test_mask f CV_ATTACHED_MASK = false ->
  Z.land (Z.lor f CV_ATTACHED_MASK) (Z.lnot CV_ATTACHED_MASK) = f.
Proof.
  unfold test_mask. intros H0. apply negb_false_iff, Z.eqb_eq in H0.
  apply Z.bits_inj'. intros n Hn.
  rewrite Z.land_spec, Z.lor_spec, Z.lnot_spec by exact Hn.
  apply (f_equal (fun z => Z.testbit z n)) in H0.
  rewrite Z.land_spec, Z.bits_0 in H0.
  destruct (Z.testbit f n), (Z.testbit CV_ATTACHED_MASK n); try reflexivity;
    discriminate.
Qed.

(** X15: attaching is exclusive and detaching undoes it. After
    [castle_version_attach] has returned 0 for a version, a second attach of
    it returns [-EAGAIN] and changes nothing; [castle_version_detach] gives
    back the registry exactly as it was before the attach; and a detach of
    the version once detached stops in [BUG_ON]. *)
Theorem castle_version_attach_detach (st st1 : versions_state) (version : Z) :
  castle_version_attach st version = (st1, 0) ->
  castle_version_attach st1 version = (st1, - EAGAIN) /\
  castle_version_detach st1 version = Done st /\
  castle_version_detach st version = BUG.
Proof.
  unfold castle_version_attach, castle_version_detach.
  destruct (castle_versions_hash st !! version) as [v|] eqn:Hv; [|discriminate].
  destruct (v_attached v) eqn:Hat; [discriminate|]. cbn [negb].
  intros [= <-]. cbn [castle_versions_hash set_hash].
  rewrite lookup_alter_eq, Hv. cbn [fmap option_fmap option_map].
  unfold v_attached at 1 2. cbn [v_flags set_flags]. rewrite attached_flag_set.
  cbn [negb]. split; [reflexivity|]. split; [|reflexivity].
  f_equal. destruct st as [h il last cnt evs]. unfold set_hash.
  cbn [castle_versions_hash castle_versions_init_list castle_versions_last
       version_cnt v_events] in *.
  f_equal. apply map_eq. intros y. rewrite !lookup_alter_orders.
  destruct (decide (version = y)) as [<-|Hne]; [|reflexivity].
  rewrite Hv. cbn [fmap option_fmap option_map]. f_equal.
  destruct v as [ver pu fc ns oo ro da sz fl]. unfold set_flags. cbn.
  f_equal. apply attached_flag_restore. exact Hat.
Qed.

Lemma castle_version_attach_detach_witness :
  castle_version_attach sample_attached_registry 1
    = (sample_attached_registry, - EAGAIN) /\
  castle_version_detach sample_attached_registry 1
    = Done (sample_process (sample_add sample_root_registry 1 0)) /\
  castle_version_detach (sample_process (sample_add sample_root_registry 1 0)) 1 = BUG.
Proof.
  apply (castle_version_attach_detach
           (sample_process (sample_add sample_root_registry 1 0))
           sample_attached_registry 1).
  vm_compute. reflexivity.
Defined.

(** ** The version registry: deleting the root, deleting twice *)

Section VersionTreeDeleteEdges.

Variable castle_sysfs_version_add : Z -> Z.

(** X16: the root is never deleted. On a well-formed registry
    [castle_version_tree_delete] of version 0 does not return: with fuel
    enough it stops in [BUG], at an attached version on its way through the
    tree or, when it comes to the root itself with all other versions
    deleted, in [castle_versions_drop], which reads [p->first_child] of the
    parent the root does not have. *)
Theorem castle_version_tree_delete_root (st : versions_state) :
  versions_wf st ->
  exists n, forall fuel, (n <= fuel)%nat ->
    castle_version_tree_delete castle_sysfs_version_add fuel st 0 = Some BUG.
Proof.
  intros Hwf. pose proof Hwf as [t Hwft].
  pose proof Hwft as (Hroot & Hrep & Hnd & _).
  destruct t as [r cs]. cbn [tree_root] in Hroot. subst r.
  destruct (repr_tree_inv _ _ _ _ _ Hrep) as [(rv & Hr & _ & Hri & _) _].
  set (N := Z.to_nat (tree_size (VNode 0 cs))).
  assert (H0 : 0 ∉ forest_ids cs).
  { rewrite tree_ids_node in Hnd. apply NoDup_cons in Hnd as [H0 _]. exact H0. }
  pose proof (proj2 (version_tree_delete_loop_subtrees 0) cs N 0 None None st
                Hwf Hrep Hnd H0) as Hloop.
  assert (HN : tree_size (VNode 0 cs) <= Z.of_nat N).
  { unfold N. pose proof (tree_size_pos (VNode 0 cs)). lia. }
  specialize (Hloop HN).
  assert (Hdel : forall n, (forall fuel, (N <= fuel)%nat ->
              version_tree_delete_loop (n + fuel) st 0 0 = Some BUG) ->
            forall fuel, (n + N <= fuel)%nat ->
              castle_version_tree_delete castle_sysfs_version_add fuel st 0 = Some BUG).
  { intros n Hbug fuel Hfuel. unfold castle_version_tree_delete.
    rewrite Hr, Hri. cbn [negb].
    replace fuel with (n + (fuel - n))%nat by lia. rewrite Hbug by lia. reflexivity. }
  destruct (attached_any (castle_versions_hash st) (forest_ids cs)).
  - destruct Hloop as [n Hbug]. exists (n + N)%nat. apply Hdel, Hbug.
  - destruct Hloop as (n & st' & Hrun & _ & _ & Hrep' & _).
    destruct (repr_tree_inv _ _ _ _ _ Hrep') as [(rv' & Hr' & _ & Hri' & Hrp' & _ & Hfc') _].
    cbn [head_id head fmap option_fmap option_map] in Hfc'.
    exists (n + S N)%nat. intros fuel Hfuel.
    assert (Hbug : forall fuel, (S N <= fuel)%nat ->
              version_tree_delete_loop (n + fuel) st 0 0 = Some BUG).
    { intros f Hf. rewrite Hrun by lia. destruct f as [|f]; [lia|].
      rewrite (version_tree_delete_loop_leaf _ _ _ _ _ Hr' Hfc').
      unfold castle_version_delete. rewrite Hr', Hri', Hrp'.
      destruct (v_attached rv'); [reflexivity|]. cbn [negb].
      unfold castle_versions_drop. cbn [castle_versions_hash v_emit].
      rewrite Hr', Hrp'. reflexivity. }
    unfold castle_version_tree_delete. rewrite Hr, Hri. cbn [negb].
    replace fuel with (n + (fuel - n))%nat by lia. rewrite Hbug by lia. reflexivity.
Qed.

(** X17: a deleted subtree is gone. On a well-formed registry with nothing
    left to init, [castle_version_tree_delete] of a version other than the
    root, with nothing attached in its subtree, returns 0 (with fuel
    enough); a second delete of the version then returns [-EINVAL] and
    changes nothing, and every version of the subtree is unknown to
    [castle_version_attach], which returns [-EINVAL]. *)
Theorem castle_version_tree_delete_twice (st : versions_state) (version : Z)
    (pa na : option Z) (ds : list vtree) :
  versions_wf st -> castle_versions_init_list st = [] -> version <> 0 ->
  repr_tree (castle_versions_hash st) pa na (VNode version ds) ->
  attached_any (castle_versions_hash st) (tree_ids (VNode version ds)) = false ->
  exists n st',
    (forall fuel, (n <= fuel)%nat ->
       castle_version_tree_delete castle_sysfs_version_add fuel st version
       = Some (Done (st', 0))) /\
    (forall fuel,
       castle_version_tree_delete castle_sysfs_version_add fuel st' version
       = Some (Done (st', - EINVAL))) /\
    (forall y, y ∈ tree_ids (VNode version ds) ->
       castle_version_attach st' y = (st', - EINVAL)).
Proof.
  intros Hwf Hil Hv0 Hrep Hat.
  pose proof (castle_version_tree_delete_total castle_sysfs_version_add st version
                pa na ds Hwf Hil Hv0 Hrep) as Htotal.
  rewrite Hat in Htotal. destruct Htotal as (n & st' & Hrun & _ & _ & Hgone & _).
  exists n, st'. split; [exact Hrun|]. split.
  - intros fuel. unfold castle_version_tree_delete.
    rewrite (Hgone version) by (rewrite tree_ids_node; apply list_elem_of_here).
    reflexivity.
  - intros y Hy. unfold castle_version_attach. rewrite (Hgone y Hy). reflexivity.
Qed.

End VersionTreeDeleteEdges.

Lemma castle_version_tree_delete_root_witness :
  exists n, forall fuel, (n <= fuel)%nat ->
    castle_version_tree_delete (fun _ => 0) fuel (sample_process sample_registry) 0
    = Some BUG.
Proof.
  apply (castle_version_tree_delete_root (fun _ => 0) (sample_process sample_registry)).
  exact sample_processed_wf.
Defined.

Lemma sample_processed_subtree :
  repr_tree (castle_versions_hash (sample_process sample_registry)) (Some 0) None
    (VNode 1 [VNode 3 []]).
Proof.
  constructor.
  - exists (mk_version 1 (ParentPtr (Some 0)) (Some 3) None 3 4 7 0 1).
    split; [vm_compute; reflexivity|]. repeat split.
  - constructor; [|constructor]. constructor; [|constructor].
    exists (mk_version 3 (ParentPtr (Some 1)) None None 4 4 7 0 1).
    split; [vm_compute; reflexivity|]. repeat split.
Qed.

Lemma castle_version_tree_delete_twice_witness :
  exists n st',
    (forall fuel, (n <= fuel)%nat ->
       castle_version_tree_delete (fun _ => 0) fuel (sample_process sample_registry) 1
       = Some (Done (st', 0))) /\
    (forall fuel,
       castle_version_tree_delete (fun _ => 0) fuel st' 1
       = Some (Done (st', - EINVAL))) /\
    (forall y, y ∈ tree_ids (VNode 1 [VNode 3 []]) ->
       castle_version_attach st' y = (st', - EINVAL)).
Proof.
  apply (castle_version_tree_delete_twice (fun _ => 0) (sample_process sample_registry)
           1 (Some 0) None [VNode 3 []]).
  - exact sample_processed_wf.
  - vm_compute. reflexivity.
  - discriminate.
  - exact sample_processed_subtree.
  - vm_compute. reflexivity.
Defined.

(** ** The version registry: the order numbers, exactly *)

Lemma tree_ordered_node h id x cs :
  tree_ordered h id (VNode x cs) <->
  (exists xv, h !! x = Some xv /\ v_o_order xv = id + 1 /\
              v_r_order xv = id + 1 + forest_size cs) /\
  forest_ordered h (id + 1) cs.
Proof.
  cbn [tree_ordered]. apply and_iff_compat_l.
  generalize (id + 1). induction cs as [|c cs IH]; intros i; [reflexivity|].
  cbn [forest_ordered]. rewrite <- IH. reflexivity.
Qed.

Lemma ordered_frame h h' :
  (forall t id, (forall y, y ∈ tree_ids t -> h' !! y = h !! y) ->
     tree_ordered h id t -> tree_ordered h' id t) /\
  (forall cs id, (forall y, y ∈ forest_ids cs -> h' !! y = h !! y) ->
     forest_ordered h id cs -> forest_ordered h' id cs).
Proof.
  apply vtree_forest_ind.
  - intros x cs IH id Hag Ho. apply tree_ordered_node in Ho as [(xv & Hx & Hxo) Hf].
    apply tree_ordered_node. split.
    + exists xv. rewrite Hag by apply list_elem_of_here. auto.
    + apply IH; [|exact Hf]. intros y Hy. apply Hag. rewrite tree_ids_node.
      apply list_elem_of_further, Hy.
  - intros id _ _. exact I.
  - intros c cs IHc IHcs id Hag [Hc Hcs]. split.
    + apply IHc; [|exact Hc]. intros y Hy. apply Hag.
      rewrite forest_ids_cons. apply elem_of_app. auto.
    + apply IHcs; [|exact Hcs]. intros y Hy. apply Hag.
      rewrite forest_ids_cons. apply elem_of_app. auto.
Qed.

Lemma tree_numbered_exact_leaf x : tree_numbered_exact (VNode x []).
Proof.
  intros h parent next id Hr Hnd Hid Hb. inversion Hr as [? ? ? ? Hn _]; subst.
  destruct Hn as (xv & Hx & Hver & Hin & Hpar & Hnx & Hfc).
  rewrite tree_size_node in *. change (forest_size []) with 0 in *.
  cbn [tree_root tree_ids flat_map] in *.
  eexists 1%nat, _. split; [|split; [|split]].
  - apply order_steps_one.
    rewrite (order_step_down_leaf h x xv id parent next) by (auto; lia).
    rewrite Z.add_0_r. reflexivity.
  - eapply same_links_trans; apply same_links_alter_orders; intros; reflexivity.
  - intros y Hy. rewrite !lookup_alter_orders.
    destruct (decide (x = y)) as [->|]; [|reflexivity].
    exfalso. apply Hy, list_elem_of_here.
  - apply tree_ordered_node. split; [|exact I].
    rewrite !lookup_alter_orders. destruct (decide (x = x)); [|congruence].
    rewrite Hx. eexists. split; [reflexivity|].
    cbn [v_o_order v_r_order set_r_order set_o_order]. change (forest_size []) with 0. lia.
Qed.

Lemma tree_numbered_exact_node x cs :
  forest_numbered_exact cs -> tree_numbered_exact (VNode x cs).
Proof.
  intros IH. destruct cs as [|c0 cs0]; [apply tree_numbered_exact_leaf|].
  set (cs := c0 :: cs0) in *.
  intros h parent next id Hr Hnd Hid Hb. inversion Hr as [? ? ? ? Hn Hf]; subst.
  destruct Hn as (xv & Hx & Hver & Hin & Hpar & Hnx & Hfc).
  rewrite tree_size_node in *. rewrite tree_ids_node in *.
  cbn [tree_root] in *.
  apply NoDup_cons in Hnd as [Hxnot Hndf].
  pose proof (forest_size_nonneg cs) as Hfs.
  set (h1 := alter (set_o_order (id + 1)) x h).
  assert (Hs1 : same_links h h1)
    by (apply same_links_alter_orders; intros; reflexivity).
  assert (Hstep1 : versions_order_step h x true id
                   = Done (h1, Some (tree_root c0), true, id + 1)).
  { apply (order_step_down_inner h x xv); auto; lia. }
  destruct (IH h1 x (id + 1)) as (n & h2 & Hsteps & Hs2 & Hfr2 & Ho2);
    [apply (proj2 (repr_same_links h h1 Hs1)), Hf|discriminate|exact Hndf|lia|lia|].
  assert (Hx2 : h2 !! x = Some (set_o_order (id + 1) xv)).
  { rewrite Hfr2 by exact Hxnot. unfold h1. rewrite lookup_alter_eq, Hx. reflexivity. }
  set (id' := id + 1 + forest_size cs) in *.
  set (h3 := alter (set_r_order id') x h2).
  assert (Hs3 : same_links h2 h3)
    by (apply same_links_alter_orders; intros; reflexivity).
  assert (Hstep3 : versions_order_step h2 x false id'
                   = Done (h3, (order_cont next parent).1,
                           (order_cont next parent).2, id')).
  { apply (order_step_up h2 x (set_o_order (id + 1) xv)); auto. }
  assert (Hx3 : h3 !! x = Some (set_r_order id' (set_o_order (id + 1) xv))).
  { unfold h3. rewrite lookup_alter_eq, Hx2. reflexivity. }
  exists (1 + (n + 1))%nat, h3. split; [|split; [|split]].
  - apply (order_steps_trans 1 (n + 1) _ (h1, Some (tree_root c0), true, id + 1));
      [apply order_steps_one, Hstep1|].
    eapply order_steps_trans; [exact Hsteps|].
    replace (id + (1 + forest_size cs)) with id' by (unfold id'; lia).
    apply order_steps_one, Hstep3.
  - eapply same_links_trans; [|exact Hs3].
    eapply same_links_trans; [exact Hs1|exact Hs2].
  - intros y Hy. apply not_elem_of_cons in Hy as [Hyx Hyf].
    unfold h3. rewrite lookup_alter_ne by congruence.
    rewrite Hfr2 by exact Hyf. unfold h1.
    rewrite lookup_alter_ne by congruence. reflexivity.
  - apply tree_ordered_node. split.
    + eexists. split; [exact Hx3|].
      cbn [v_o_order v_r_order set_r_order set_o_order]. unfold id'. lia.
    + apply (proj2 (ordered_frame h2 h3)); [|exact Ho2].
      intros y Hy. unfold h3. rewrite lookup_alter_ne; [reflexivity|].
      intros ->. contradiction.
Qed.

Lemma forest_numbered_exact_cons c cs :
  tree_numbered_exact c -> forest_numbered_exact cs -> forest_numbered_exact (c :: cs).
Proof.
  intros IHc IHcs h p id Hr _ Hnd Hid Hb.
  inversion Hr as [|? ? ? Hc Hcs]; subst.
  rewrite forest_size_cons in *. rewrite forest_ids_cons in *.
  apply NoDup_app in Hnd as (Hndc & Hdisj & Hndcs).
  pose proof (forest_size_nonneg cs) as Hfs. pose proof (tree_size_pos c) as Hts.
  destruct (IHc h (Some p) (head_id cs) id Hc Hndc Hid)
    as (n1 & h1 & Hsteps1 & Hs1 & Hfr1 & Ho1); [lia|].
  cbn [head_id head fmap option_fmap option_map].
  destruct cs as [|c1 cs1].
  - change (forest_size []) with 0 in *. change (forest_ids []) with (@nil Z) in *.
    rewrite app_nil_r, Z.add_0_r in *. cbn in Hsteps1.
    exists n1, h1. split; [exact Hsteps1|]. split; [exact Hs1|]. split; [exact Hfr1|].
    split; [exact Ho1|exact I].
  - set (cs := c1 :: cs1) in *.
    destruct (IHcs h1 p (id + tree_size c)) as (n2 & h2 & Hsteps2 & Hs2 & Hfr2 & Ho2);
      [apply (proj2 (repr_same_links h h1 Hs1)), Hcs|discriminate|exact Hndcs|lia|lia|].
    exists (n1 + n2)%nat, h2. split; [|split; [|split]].
    + eapply order_steps_trans; [exact Hsteps1|].
      replace (id + (tree_size c + forest_size cs))
        with (id + tree_size c + forest_size cs) by lia.
      exact Hsteps2.
    + eapply same_links_trans; eauto.
    + intros y Hy. apply not_elem_of_app in Hy as [Hyc Hycs].
      rewrite Hfr2 by exact Hycs. apply Hfr1, Hyc.
    + split; [|exact Ho2].
      apply (proj1 (ordered_frame h1 h2)); [|exact Ho1].
      intros y Hy. apply Hfr2. intros Hy'. exact (Hdisj y Hy Hy').
Qed.

Lemma tree_numbered_exact_all t : tree_numbered_exact t.
Proof.
  apply (vtree_forest_ind tree_numbered_exact forest_numbered_exact).
  - apply tree_numbered_exact_node.
  - intros h p id _ Hne. contradiction.
  - apply forest_numbered_exact_cons.
Qed.

(** The numbering loop on a well-formed registry leaves the tree ordered
    from 0 on. *)
Lemma versions_order_loop_ordered t h il :
  versions_wf_with t h il ->
  exists n h',
    (forall fuel, versions_order_loop (n + fuel) h (Some 0) true 0 = Some (Done h')) /\
    same_links h h' /\ tree_ordered h' 0 t.
Proof.
  intros Hwf. pose proof Hwf as (Hroot & Hrep & Hnd & Hsz & _).
  destruct (tree_numbered_exact_all t h None None 0 Hrep Hnd) as
    (n & h' & Hsteps & Hs & _ & Ho).
  { lia. }
  { pose proof (tree_size_le_hash _ _ _ _ Hrep Hnd). lia. }
  exists n, h'. rewrite Hroot in Hsteps. split; [|auto].
  intros fuel. rewrite (order_loop_steps n _ _ _ _ _ _ _ _ fuel Hsteps).
  destruct fuel; reflexivity.
Qed.

(** A completed run of [castle_versions_process] on a well-formed registry
    leaves a well-formed registry whose tree is ordered from 0 on. *)
Lemma versions_process_ordered sysfs fuel st err st' :
  versions_wf st ->
  castle_versions_process sysfs fuel st = Some (Done (err, st')) ->
  exists t, versions_wf_with t (castle_versions_hash st') (castle_versions_init_list st') /\
            tree_ordered (castle_versions_hash st') 0 t.
Proof.
  intros Hwf Hrun. unfold castle_versions_process in Hrun.
  destruct (versions_process_init fuel (castle_versions_hash st)
              (castle_versions_init_list st) [] 0 None)
    as [[[[[h1 il1] sl1] err1]|]|] eqn:Hinit; try discriminate.
  cbn [fbind] in Hrun.
  destruct (versions_process_init_wf _ _ _ _ _ _ _ _ _ _ Hwf Hinit) as [t Hwf1].
  destruct (versions_wf_with_root _ _ _ Hwf1) as (rv & Hr & Hri & Hrp).
  rewrite Hr, Hri, Hrp in Hrun. cbn [negb] in Hrun.
  destruct (versions_order_loop fuel h1 (Some 0) true 0) as [[h2|]|] eqn:Hloop;
    try discriminate.
  cbn [fbind] in Hrun.
  destruct (versions_order_loop_ordered t h1 il1 Hwf1) as (n & h2' & Hn & Hs & Ho).
  assert (h2' = h2) as ->.
  { pose proof (versions_order_loop_mono _ _ _ _ _ _ n Hloop) as H1.
    rewrite Nat.add_comm, Hn in H1. congruence. }
  pose proof (versions_process_sysfs_registry sysfs sl1
                (set_init_list (set_hash st h2) il1) err1) as (Hh & Hil & _).
  destruct (versions_process_sysfs sysfs
              (set_init_list (set_hash st h2) il1) sl1 err1) as [st2 err2].
  injection Hrun as <- <-. simpl in Hh, Hil.
  exists t. rewrite Hh, Hil. split; [|exact Ho].
  apply (versions_wf_with_same_links t h1 h2 il1 Hs Hwf1).
Qed.

(** *** What the order numbers say *)

Lemma ordered_range h :
  (forall t id y yv, tree_ordered h id t -> y ∈ tree_ids t -> h !! y = Some yv ->
     id + 1 <= v_o_order yv /\ v_o_order yv <= v_r_order yv /\
     v_r_order yv <= id + tree_size t) /\
  (forall cs id y yv, forest_ordered h id cs -> y ∈ forest_ids cs -> h !! y = Some yv ->
     id + 1 <= v_o_order yv /\ v_o_order yv <= v_r_order yv /\
     v_r_order yv <= id + forest_size cs).
Proof.
  apply vtree_forest_ind.
  - intros x cs IH id y yv Ho Hy Hyv.
    apply tree_ordered_node in Ho as [(xv & Hx & Hxo & Hxr) Hf].
    pose proof (forest_size_nonneg cs). rewrite tree_size_node.
    rewrite tree_ids_node in Hy. apply elem_of_cons in Hy as [->|Hy].
    + rewrite Hx in Hyv. injection Hyv as <-. lia.
    + specialize (IH _ _ _ Hf Hy Hyv). lia.
  - intros id y yv _ Hy. apply elem_of_nil in Hy. contradiction.
  - intros c cs IHc IHcs id y yv [Hc Hcs] Hy Hyv.
    pose proof (forest_size_nonneg cs). pose proof (tree_size_pos c).
    rewrite forest_size_cons. rewrite forest_ids_cons in Hy.
    apply elem_of_app in Hy as [Hy|Hy].
    + specialize (IHc _ _ _ Hc Hy Hyv). lia.
    + specialize (IHcs _ _ _ Hcs Hy Hyv). lia.
Qed.

Lemma subtree_ids_self c :
  (forall t, c ∈ tree_ids t -> c ∈ subtree_ids c t) /\
  (forall cs, c ∈ forest_ids cs -> c ∈ flat_map (subtree_ids c) cs).
Proof.
  apply vtree_forest_ind.
  - intros a cs IH Hc. cbn [subtree_ids].
    destruct (Z.eqb_spec a c) as [->|Hne]; [apply list_elem_of_here|].
    rewrite tree_ids_node in Hc. apply elem_of_cons in Hc as [->|Hc]; [congruence|].
    apply IH, Hc.
  - intros Hc. exact Hc.
  - intros t cs IHt IHcs Hc. rewrite forest_ids_cons in Hc. cbn [flat_map].
    apply elem_of_app. apply elem_of_app in Hc as [Hc|Hc]; auto.
Qed.

(** The order numbers of a node enclose exactly the pre-order numbers of
    the nodes of its subtree. *)
Lemma ordered_subtree h c cv :
  h !! c = Some cv ->
  (forall t id, tree_ordered h id t -> NoDup (tree_ids t) ->
     forall v vv, c ∈ tree_ids t -> v ∈ tree_ids t -> h !! v = Some vv ->
       (v_o_order cv <= v_o_order vv /\ v_o_order vv <= v_r_order cv)
       <-> v ∈ subtree_ids c t) /\
  (forall cs id, forest_ordered h id cs -> NoDup (forest_ids cs) ->
     forall v vv, c ∈ forest_ids cs -> v ∈ forest_ids cs -> h !! v = Some vv ->
       (v_o_order cv <= v_o_order vv /\ v_o_order vv <= v_r_order cv)
       <-> v ∈ flat_map (subtree_ids c) cs).
Proof.
  intros Hc. apply vtree_forest_ind.
  - intros a cs IH id Ho Hnd v vv Hct Hvt Hv.
    pose proof (proj1 (ordered_range h) _ _ _ _ Ho Hvt Hv) as Hrv.
    pose proof (proj1 (ordered_range h) _ _ _ _ Ho Hct Hc) as Hrc.
    apply tree_ordered_node in Ho as [(av & Ha & Hao & Har) Hf].
    rewrite tree_ids_node in Hnd, Hct, Hvt. apply NoDup_cons in Hnd as [Hanot Hndf].
    rewrite tree_size_node in *. cbn [subtree_ids].
    destruct (Z.eqb_spec a c) as [->|Hne].
    + rewrite Ha in Hc. injection Hc as <-.
      split; [intros _; exact Hvt|intros _; lia].
    + apply elem_of_cons in Hct as [->|Hcf]; [congruence|].
      pose proof (proj2 (ordered_range h) _ _ _ _ Hf Hcf Hc) as Hrc'.
      apply elem_of_cons in Hvt as [->|Hvf].
      * rewrite Ha in Hv. injection Hv as <-. split; [lia|].
        intros Hin. exfalso. apply Hanot, (proj2 (subtree_ids_sub c)), Hin.
      * apply (IH _ Hf Hndf); assumption.
  - intros id _ _ v vv Hcf. apply elem_of_nil in Hcf. contradiction.
  - intros t cs IHt IHcs id [Ht Hcs] Hnd v vv Hcf Hvf Hv.
    rewrite forest_ids_cons in Hnd, Hcf, Hvf.
    apply NoDup_app in Hnd as (Hndt & Hdisj & Hndcs). cbn [flat_map].
    pose proof (tree_size_pos t) as Hts.
    apply elem_of_app in Hcf as [Hct|Hccs]; apply elem_of_app in Hvf as [Hvt|Hvcs].
    + rewrite (proj2 (subtree_ids_notin c) cs), app_nil_r
        by (intros Hin; exact (Hdisj c Hct Hin)).
      apply (IHt _ Ht Hndt); assumption.
    + pose proof (proj1 (ordered_range h) _ _ _ _ Ht Hct Hc) as Hrc.
      pose proof (proj2 (ordered_range h) _ _ _ _ Hcs Hvcs Hv) as Hrv.
      split; [lia|]. intros Hin. exfalso.
      rewrite (proj2 (subtree_ids_notin c) cs), app_nil_r in Hin
        by (intros Hin'; exact (Hdisj c Hct Hin')).
      apply (Hdisj v); [apply (proj1 (subtree_ids_sub c)), Hin|exact Hvcs].
    + pose proof (proj2 (ordered_range h) _ _ _ _ Hcs Hccs Hc) as Hrc.
      pose proof (proj1 (ordered_range h) _ _ _ _ Ht Hvt Hv) as Hrv.
      split; [lia|]. intros Hin. exfalso.
      rewrite (proj1 (subtree_ids_notin c) t) in Hin
        by (intros Hin'; exact (Hdisj c Hin' Hccs)).
      cbn [app] in Hin.
      apply (Hdisj v Hvt), (proj2 (subtree_ids_sub c)), Hin.
    + rewrite (proj1 (subtree_ids_notin c) t)
        by (intros Hin'; exact (Hdisj c Hin' Hccs)).
      cbn [app]. apply (IHcs _ Hcs Hndcs); assumption.
Qed.

(** *** Ancestors along the parent pointers *)

Lemma version_ancestor_trans h a b c :
  version_ancestor h a b -> version_ancestor h b c -> version_ancestor h a c.
Proof.
  intros Hab Hbc. induction Hbc as [|b c cv p Hc Hp Hbp IH]; [exact Hab|].
  eapply ancestor_parent; eauto.
Qed.

(** The root of a tree the hash holds is an ancestor of all its nodes. *)
Lemma repr_root_ancestor h :
  (forall t parent next, repr_tree h parent next t ->
     forall v, v ∈ tree_ids t -> version_ancestor h (tree_root t) v) /\
  (forall cs p, repr_forest h (Some p) cs ->
     forall v, v ∈ forest_ids cs -> version_ancestor h p v).
Proof.
  apply vtree_forest_ind.
  - intros a cs IH parent next Hr v Hv. apply repr_tree_inv in Hr as [_ Hf].
    cbn [tree_root]. rewrite tree_ids_node in Hv.
    apply elem_of_cons in Hv as [->|Hv]; [constructor|]. apply (IH _ Hf), Hv.
  - intros p _ v Hv. apply elem_of_nil in Hv. contradiction.
  - intros t cs IHt IHcs p Hr v Hv. apply repr_forest_cons_inv in Hr as [Ht Hcs].
    rewrite forest_ids_cons in Hv. apply elem_of_app in Hv as [Hv|Hv];
      [|apply (IHcs _ Hcs), Hv].
    apply (version_ancestor_trans h p (tree_root t)); [|apply (IHt _ _ Ht), Hv].
    destruct (repr_tree_root_lookup _ _ _ _ Ht) as (tv & Htv & _ & Htp & _).
    eapply ancestor_parent; [exact Htv|exact Htp|constructor].
Qed.

Lemma subtree_ids_trans p c :
  (forall t, NoDup (tree_ids t) -> p ∈ subtree_ids c t ->
     forall v, v ∈ subtree_ids p t -> v ∈ subtree_ids c t) /\
  (forall cs, NoDup (forest_ids cs) -> p ∈ flat_map (subtree_ids c) cs ->
     forall v, v ∈ flat_map (subtree_ids p) cs -> v ∈ flat_map (subtree_ids c) cs).
Proof.
  apply vtree_forest_ind.
  - intros a cs IH Hnd Hp v Hv. rewrite tree_ids_node in Hnd.
    apply NoDup_cons in Hnd as [Hanot Hndf]. cbn [subtree_ids] in *.
    destruct (Z.eqb_spec a c) as [->|Hac].
    + apply (proj1 (subtree_ids_sub p) (VNode c cs)). exact Hv.
    + destruct (Z.eqb_spec a p) as [->|Hap].
      * exfalso. apply Hanot, (proj2 (subtree_ids_sub c)), Hp.
      * apply (IH Hndf Hp), Hv.
  - intros _ Hp. apply elem_of_nil in Hp. contradiction.
  - intros t cs IHt IHcs Hnd Hp v Hv. rewrite forest_ids_cons in Hnd.
    apply NoDup_app in Hnd as (Hndt & Hdisj & Hndcs). cbn [flat_map] in *.
    apply elem_of_app in Hp as [Hp|Hp].
    + assert (Hpt : p ∈ tree_ids t) by (apply (proj1 (subtree_ids_sub c)), Hp).
      rewrite (proj2 (subtree_ids_notin p) cs), app_nil_r in Hv
        by (intros Hin; exact (Hdisj p Hpt Hin)).
      apply elem_of_app. left. apply (IHt Hndt Hp), Hv.
    + assert (Hpcs : p ∈ forest_ids cs) by (apply (proj2 (subtree_ids_sub c)), Hp).
      rewrite (proj1 (subtree_ids_notin p) t) in Hv
        by (intros Hin; exact (Hdisj p Hin Hpcs)).
      cbn [app] in Hv. apply elem_of_app. right. apply (IHcs Hndcs Hp), Hv.
Qed.

(** In a tree that the hash holds from its root, whose parent is [NULL], a
    version is an ancestor of another (or the same) exactly when the other
    is in its subtree. *)
Lemma ancestor_subtree h t :
  repr_tree h None None t -> NoDup (tree_ids t) ->
  forall c v, c ∈ tree_ids t -> v ∈ tree_ids t ->
    version_ancestor h c v <-> v ∈ subtree_ids c t.
Proof.
  intros Hrep Hnd c v Hct Hvt. split.
  - intros Hanc. revert Hvt.
    induction Hanc as [v|c v vv p Hv Hpar Hanc IH]; intros Hvt.
    + apply (proj1 (subtree_ids_self v)), Hvt.
    + assert (Hvr : v <> tree_root t).
      { intros ->. destruct (repr_tree_root_lookup _ _ _ _ Hrep) as (rv & Hrv & _ & Hrp & _).
        congruence. }
      destruct (proj1 (child_split h v) _ _ _ Hrep Hnd Hvt Hvr)
        as (p' & pp & pn & c1 & ds & c2 & Hrp & Hsub & Hndp).
      pose proof (repr_forest_app_inv _ _ _ _ _ (proj2 (repr_tree_inv _ _ _ _ _ Hrp))) as Hrv.
      destruct (repr_tree_root_lookup _ _ _ _ Hrv) as (vv' & Hvv' & _ & Hvp & _).
      cbn [tree_root] in Hvv'. rewrite Hv in Hvv'. injection Hvv' as <-.
      assert (p' = p) as -> by congruence.
      assert (Hpt : p ∈ tree_ids t).
      { apply (proj1 (subtree_ids_sub p)). rewrite Hsub. apply list_elem_of_here. }
      apply (proj1 (subtree_ids_trans p c) t Hnd (IH Hct Hpt)).
      rewrite Hsub, tree_ids_node. apply list_elem_of_further.
      unfold forest_ids. rewrite flat_map_app. apply elem_of_app. right.
      cbn [flat_map]. apply elem_of_app. left. apply list_elem_of_here.
  - intros Hsub.
    destruct (proj1 (subtree_repr h c) _ _ _ Hrep Hnd Hct)
      as (pa & na & cs & Hrc & Heq & _).
    rewrite Heq in Hsub.
    exact (proj1 (repr_root_ancestor h) _ _ _ Hrc v Hsub).
Qed.

(** In a tree ordered from [id] on, the node at place [i] of the pre-order
    listing has the [o_order] [id + 1 + i]. *)
Lemma ordered_index h :
  (forall t id i v vv, tree_ordered h id t -> tree_ids t !! i = Some v ->
     h !! v = Some vv -> v_o_order vv = id + 1 + Z.of_nat i) /\
  (forall cs id i v vv, forest_ordered h id cs -> forest_ids cs !! i = Some v ->
     h !! v = Some vv -> v_o_order vv = id + 1 + Z.of_nat i).
Proof.
  apply vtree_forest_ind.
  - intros x cs IH id i v vv Ho Hi Hv.
    apply tree_ordered_node in Ho as [(xv & Hx & Hxo & _) Hf].
    rewrite tree_ids_node in Hi. destruct i as [|j].
    + injection Hi as <-. rewrite Hx in Hv. injection Hv as <-. lia.
    + cbn in Hi. rewrite (IH _ _ _ _ Hf Hi Hv). lia.
  - intros id i v vv _ Hi. change (forest_ids []) with (@nil Z) in Hi.
    rewrite lookup_nil in Hi. discriminate.
  - intros c cs IHc IHcs id i v vv [Hc Hcs] Hi Hv.
    rewrite forest_ids_cons in Hi.
    destruct (decide (i < length (tree_ids c))%nat) as [Hlt|Hge].
    + rewrite lookup_app_l in Hi by exact Hlt. exact (IHc _ _ _ _ Hc Hi Hv).
    + rewrite lookup_app_r in Hi by lia.
      rewrite (IHcs _ _ _ _ Hcs Hi Hv), (proj1 tree_size_length c). lia.
Qed.

Lemma wrap_difference z : - 2 ^ 31 <= z < 2 ^ 31 -> wrap_int32 (wrap32 z) = z.
Proof.
  intros Hz. unfold wrap_int32, wrap32.
  rewrite Z.add_mod_idemp_l by lia. rewrite Z.mod_small; lia.
Qed.

Section VersionOrders.

Variable INVAL_VERSION : Z.
Variable castle_sysfs_version_add : Z -> Z.

(** X18: the ancestor test is right. After a completed run of
    [castle_versions_process] on a well-formed registry whose versions are
    fewer than [INVAL_VERSION], [castle_version_is_ancestor] on two inited
    versions does not stop in [BUG], and it returns 1 exactly when the
    candidate is the version itself or is reached from it along the parent
    pointers; else it returns 0. *)
Theorem castle_version_is_ancestor_correct (fuel : nat) (st st' : versions_state)
    (err : Z) (candidate version : Z) (cv vv : castle_version) :
  versions_wf st ->
  castle_versions_process castle_sysfs_version_add fuel st = Some (Done (err, st')) ->
  Z.of_nat (size (castle_versions_hash st')) < INVAL_VERSION ->
  castle_versions_hash st' !! candidate = Some cv -> v_inited cv = true ->
  castle_versions_hash st' !! version = Some vv -> v_inited vv = true ->
  exists r,
    castle_version_is_ancestor INVAL_VERSION st' candidate version = Done r /\
    (r = 0 \/ r = 1) /\
    (r = 1 <-> version_ancestor (castle_versions_hash st') candidate version).
Proof.
  intros Hwf Hrun Hsz Hc Hci Hv Hvi.
  destruct (versions_process_ordered _ _ _ _ _ Hwf Hrun) as (t & Hwft & Ho).
  pose proof Hwft as (Hroot & Hrep & Hnd & _ & _ & Hin & _).
  pose proof (Hin _ _ Hc Hci) as Hct. pose proof (Hin _ _ Hv Hvi) as Hvt.
  pose proof (tree_size_le_hash _ _ _ _ Hrep Hnd) as Hts.
  pose proof (proj1 (ordered_range _) _ _ _ _ Ho Hct Hc) as Hrc.
  pose proof (proj1 (ordered_range _) _ _ _ _ Ho Hvt Hv) as Hrv.
  unfold castle_version_is_ancestor, VERSION_INVAL. rewrite Hv, Hc, Hvi, Hci.
  cbn [negb].
  destruct (Z.eqb_spec (v_o_order vv) INVAL_VERSION) as [?|_]; [lia|].
  destruct (Z.eqb_spec (v_o_order cv) INVAL_VERSION) as [?|_]; [lia|].
  destruct (Z.eqb_spec (v_r_order cv) INVAL_VERSION) as [?|_]; [lia|].
  eexists. split; [reflexivity|].
  rewrite (ancestor_subtree _ t Hrep Hnd candidate version Hct Hvt).
  rewrite <- (proj1 (ordered_subtree _ candidate cv Hc) t 0 Ho Hnd version vv Hct Hvt Hv).
  destruct (Z.geb_spec (v_o_order vv) (v_o_order cv));
    destruct (Z.leb_spec (v_o_order vv) (v_r_order cv)); cbn [andb];
    (split; [auto|]); split; try lia; try discriminate; auto.
Qed.

(** X19: the comparison of versions follows the depth-first walk. After a
    completed run of [castle_versions_process] on a well-formed registry
    with fewer than 2^31 versions, fewer than [INVAL_VERSION], the inited
    versions are the nodes of a tree, and [castle_version_compare] on two of
    them returns the difference of their places in the pre-order listing of
    this tree: 0 exactly for a version and itself, and a negative number
    when the first is met before the second in the depth-first walk. *)
Theorem castle_version_compare_preorder (fuel : nat) (st st' : versions_state)
    (err : Z) :
  versions_wf st ->
  castle_versions_process castle_sysfs_version_add fuel st = Some (Done (err, st')) ->
  Z.of_nat (size (castle_versions_hash st')) < INVAL_VERSION ->
  Z.of_nat (size (castle_versions_hash st')) < 2 ^ 31 ->
  exists t,
    versions_wf_with t (castle_versions_hash st') (castle_versions_init_list st') /\
    (forall i1 i2 v1 v2,
       tree_ids t !! i1 = Some v1 -> tree_ids t !! i2 = Some v2 ->
       castle_version_compare INVAL_VERSION st' v1 v2
       = Done (Z.of_nat i1 - Z.of_nat i2)) /\
    (forall v1 v2 x1 x2,
       castle_versions_hash st' !! v1 = Some x1 -> v_inited x1 = true ->
       castle_versions_hash st' !! v2 = Some x2 -> v_inited x2 = true ->
       exists r, castle_version_compare INVAL_VERSION st' v1 v2 = Done r /\
                 (r = 0 <-> v1 = v2)).
Proof.
  intros Hwf Hrun Hsz Hsz31.
  destruct (versions_process_ordered _ _ _ _ _ Hwf Hrun) as (t & Hwft & Ho).
  pose proof Hwft as (Hroot & Hrep & Hnd & _ & _ & Hin & _).
  pose proof (tree_size_le_hash _ _ _ _ Hrep Hnd) as Hts.
  rewrite (proj1 tree_size_length t) in Hts.
  assert (Hidx : forall i1 i2 v1 v2,
            tree_ids t !! i1 = Some v1 -> tree_ids t !! i2 = Some v2 ->
            castle_version_compare INVAL_VERSION st' v1 v2
            = Done (Z.of_nat i1 - Z.of_nat i2)).
  { intros i1 i2 v1 v2 H1 H2.
    pose proof (lookup_lt_Some _ _ _ H1) as Hl1.
    pose proof (lookup_lt_Some _ _ _ H2) as Hl2.
    destruct (proj1 (repr_ids_inited _) _ _ _ Hrep v1) as (x1 & Hx1 & Hi1);
      [eapply list_elem_of_lookup_2, H1|].
    destruct (proj1 (repr_ids_inited _) _ _ _ Hrep v2) as (x2 & Hx2 & Hi2);
      [eapply list_elem_of_lookup_2, H2|].
    pose proof (proj1 (ordered_index _) _ _ _ _ _ Ho H1 Hx1) as Ho1.
    pose proof (proj1 (ordered_index _) _ _ _ _ _ Ho H2 Hx2) as Ho2.
    unfold castle_version_compare, VERSION_INVAL. rewrite Hx1, Hx2, Hi1, Hi2.
    cbn [negb].
    destruct (Z.eqb_spec (v_o_order x1) INVAL_VERSION) as [?|_]; [lia|].
    destruct (Z.eqb_spec (v_o_order x2) INVAL_VERSION) as [?|_]; [lia|].
    rewrite wrap_difference by lia. f_equal. lia. }
  exists t. split; [exact Hwft|]. split; [exact Hidx|].
  intros v1 v2 x1 x2 Hx1 Hi1 Hx2 Hi2.
  destruct (proj1 (list_elem_of_lookup _ _) (Hin _ _ Hx1 Hi1)) as [i1 H1].
  destruct (proj1 (list_elem_of_lookup _ _) (Hin _ _ Hx2 Hi2)) as [i2 H2].
  eexists. split; [exact (Hidx _ _ _ _ H1 H2)|]. split.
  - intros Hz. assert (i1 = i2) as -> by lia. congruence.
  - intros ->. rewrite (NoDup_lookup _ _ _ _ Hnd H1 H2). lia.
Qed.

End VersionOrders.

Lemma castle_version_is_ancestor_correct_witness :
  exists r,
    castle_version_is_ancestor sample_inval_version (sample_process sample_registry) 1 3
    = Done r /\
    (r = 0 \/ r = 1) /\
    (r = 1 <-> version_ancestor (castle_versions_hash (sample_process sample_registry)) 1 3).
Proof.
  apply (castle_version_is_ancestor_correct sample_inval_version (fun _ => 0) 20
           sample_registry (sample_process sample_registry) 0 1 3
           (mk_version 1 (ParentPtr (Some 0)) (Some 3) None 3 4 7 0 1)
           (mk_version 3 (ParentPtr (Some 1)) None None 4 4 7 0 1)).
  - exact sample_registry_wf.
  - vm_compute. reflexivity.
  - vm_compute. reflexivity.
  - vm_compute. reflexivity.
  - reflexivity.
  - vm_compute. reflexivity.
  - reflexivity.
Defined.

Lemma castle_version_compare_preorder_witness :
  exists t,
    versions_wf_with t (castle_versions_hash (sample_process sample_registry))
      (castle_versions_init_list (sample_process sample_registry)) /\
    (forall i1 i2 v1 v2,
       tree_ids t !! i1 = Some v1 -> tree_ids t !! i2 = Some v2 ->
       castle_version_compare sample_inval_version (sample_process sample_registry) v1 v2
       = Done (Z.of_nat i1 - Z.of_nat i2)) /\
    (forall v1 v2 x1 x2,
       castle_versions_hash (sample_process sample_registry) !! v1 = Some x1 ->
       v_inited x1 = true ->
       castle_versions_hash (sample_process sample_registry) !! v2 = Some x2 ->
       v_inited x2 = true ->
       exists r, castle_version_compare sample_inval_version
                   (sample_process sample_registry) v1 v2 = Done r /\
                 (r = 0 <-> v1 = v2)).
Proof.
  apply (castle_version_compare_preorder sample_inval_version (fun _ => 0) 20
           sample_registry (sample_process sample_registry) 0).
  - exact sample_registry_wf.
  - vm_compute. reflexivity.
  - vm_compute. reflexivity.
  - vm_compute. reflexivity.
Defined.

(** ** The version registry: [castle_version_new] *)

(** ** The version registry: new versions *)

Lemma v_fixed_fields v v' :
  v_fixed v' = v_fixed v ->
  v_version v' = v_version v /\ v_parent_u v' = v_parent_u v /\
  v_da_id v' = v_da_id v /\ v_size v' = v_size v /\ v_flags v' = v_flags v.
Proof. unfold v_fixed. intros [= -> -> -> -> ->]. auto. Qed.

Lemma lookup_alter_fixed (h : gmap Z castle_version) x f y :
  (forall v, v_fixed (f v) = v_fixed v) ->
  v_fixed <$> alter f x h !! y = v_fixed <$> h !! y.
Proof.
  intros Hf. rewrite lookup_alter_orders. destruct (decide (x = y)); [|reflexivity].
  destruct (h !! y); cbn; [rewrite Hf|]; reflexivity.
Qed.

Lemma versions_order_step_fixed h x cf id h' n cf' id' :
  versions_order_step h x cf id = Done (h', n, cf', id') ->
  forall y, v_fixed <$> h' !! y = v_fixed <$> h !! y.
Proof.
  unfold versions_order_step. destruct (h !! x) as [xv|]; [|discriminate].
  intros Hstep y.
  destruct cf; destruct (is_null (v_first_child xv)); cbn [is_null] in Hstep;
    destruct (is_null _) in Hstep;
    try (destruct (v_parent_u xv); [discriminate|]);
    injection Hstep as <- _ _ _;
    rewrite ?lookup_alter_fixed by reflexivity; reflexivity.
Qed.

(** The numbering loop changes the order numbers only. *)
Lemma versions_order_loop_fixed fuel : forall h v cf id h',
  versions_order_loop fuel h v cf id = Some (Done h') ->
  forall y, v_fixed <$> h' !! y = v_fixed <$> h !! y.
Proof.
  induction fuel as [|fuel IH]; intros h v cf id h' Hrun y.
  - destruct v; [discriminate|]. injection Hrun as <-. reflexivity.
  - destruct v as [x|]; [|injection Hrun as <-; reflexivity].
    cbn [versions_order_loop] in Hrun.
    destruct (versions_order_step h x cf id) as [[[[h1 n] cf1] id1]|] eqn:Hstep;
      [|discriminate].
    rewrite (IH _ _ _ _ _ Hrun y). exact (versions_order_step_fixed _ _ _ _ _ _ _ _ Hstep y).
Qed.

(** The walk of [castle_versions_insert] ends within as many turns as the
    parent has children. *)
Lemma versions_insert_walk_total h parent v cs : forall slot,
  repr_forest h parent cs ->
  exists r, forall fuel, (length cs <= fuel)%nat ->
    versions_insert_walk fuel h v slot (head_id cs) = Some (Done r).
Proof.
  induction cs as [|c cs IH]; intros slot Hr.
  - exists (slot, None). intros fuel _. destruct fuel; reflexivity.
  - apply repr_forest_cons_inv in Hr as [Hc Hcs].
    destruct (repr_tree_root_lookup _ _ _ _ Hc) as (cv & Hcv & Hnx & _).
    change (head_id (c :: cs)) with (Some (tree_root c)).
    destruct (v_version cv >? v) eqn:Hgt.
    + destruct (IH (SlotNextSybling (tree_root c)) Hcs) as [r Hw]. exists r.
      intros fuel Hfuel. cbn [length] in Hfuel. destruct fuel as [|fuel]; [lia|].
      cbn [versions_insert_walk]. rewrite Hcv, Hgt, Hnx. apply Hw. lia.
    + exists (slot, Some (tree_root c)). intros fuel _.
      destruct fuel; cbn [versions_insert_walk]; rewrite Hcv, Hgt; reflexivity.
Qed.

Lemma castle_versions_insert_total h p x xv pp pn cs :
  h !! x = Some xv -> repr_tree h pp pn (VNode p cs) -> x ∉ tree_ids (VNode p cs) ->
  exists h1, forall fuel, (length cs <= fuel)%nat ->
    castle_versions_insert fuel h p x = Some (Done h1).
Proof.
  intros Hx Hr Hxt.
  apply repr_tree_inv in Hr as [(pv & Hp & _ & _ & _ & _ & Hfc) Hcs].
  destruct (versions_insert_walk_total
              (alter (set_parent_u (ParentPtr (Some p))) x h) (Some p) (v_version xv) cs
              (SlotFirstChild p)) as [[slot rest] Hw].
  - apply (proj2 (repr_frame h _)); [|exact Hcs].
    intros y Hy. apply lookup_alter_ne. intros <-. apply Hxt.
    rewrite tree_ids_node. apply list_elem_of_further, Hy.
  - eexists. intros fuel Hfuel. unfold castle_versions_insert.
    rewrite Hp, Hx, Hfc, (Hw fuel Hfuel). reflexivity.
Qed.

Lemma versions_insert_walk_slot h v : forall fuel slot sl slot' rest,
  versions_insert_walk fuel h v slot sl = Some (Done (slot', rest)) ->
  slot' = slot \/ exists s, slot' = SlotNextSybling s.
Proof.
  induction fuel as [|fuel IH]; intros slot sl slot' rest Hw;
    destruct sl as [s|]; cbn [versions_insert_walk] in Hw;
    try (injection Hw as <- <-; left; reflexivity);
    (destruct (h !! s) as [sv|]; [|discriminate]);
    (destruct (v_version sv >? v); [|injection Hw as <- <-; left; reflexivity]).
  - discriminate.
  - destruct (IH _ _ _ _ Hw) as [->|Hs]; [right; eauto|right; exact Hs].
Qed.

(** [castle_versions_insert] links the new version to its parent; of the
    other versions it changes sibling links only. *)
Lemma castle_versions_insert_fixed h p x xv fuel h1 :
  h !! x = Some xv -> p <> x ->
  castle_versions_insert fuel h p x = Some (Done h1) ->
  (exists xv1, h1 !! x = Some xv1 /\ v_parent_u xv1 = ParentPtr (Some p) /\
     v_first_child xv1 = v_first_child xv /\ v_version xv1 = v_version xv /\
     v_da_id xv1 = v_da_id xv /\ v_size xv1 = v_size xv /\ v_flags xv1 = v_flags xv) /\
  (forall y, y <> x -> v_fixed <$> h1 !! y = v_fixed <$> h !! y).
Proof.
  intros Hx Hpx. unfold castle_versions_insert. rewrite Hx.
  destruct (h !! p) as [pv|]; [|discriminate].
  destruct (versions_insert_walk _ _ _ _ _) as [[[slot rest]|]|] eqn:Hw; try discriminate.
  cbn [fbind fret]. intros [= <-].
  apply versions_insert_walk_slot in Hw. split.
  - destruct Hw as [->|[s ->]]; cbn [slot_store]; rewrite !lookup_alter_orders, Hx.
    + destruct (decide (p = x)); [congruence|]. destruct (decide (x = x)); [|congruence].
      cbn. eexists. split; [reflexivity|]. repeat split.
    + destruct (decide (x = x)); [|congruence].
      destruct (decide (s = x)); cbn; eexists; (split; [reflexivity|]); repeat split.
  - intros y Hy. destruct Hw as [->|[s ->]]; cbn [slot_store];
      rewrite lookup_alter_fixed by reflexivity;
      rewrite !lookup_alter_ne by congruence; reflexivity.
Qed.

Lemma versions_process_sysfs_last sysfs sl : forall st err,
  castle_versions_last (versions_process_sysfs sysfs st sl err).1 = castle_versions_last st.
Proof.
  induction sl as [|v sl IH]; intros st err; [reflexivity|].
  cbn [versions_process_sysfs].
  destruct (negb (sysfs v =? 0)); apply (IH (v_emit st (EvSysfsVersionAdd v))).
Qed.

Lemma filter_single_ne (x : Z) : filter (fun y => y <> x) [x] = [].
Proof. rewrite filter_cons. destruct (decide (x <> x)); [congruence|reflexivity]. Qed.

(** [castle_versions_process] with one version waiting whose parent must
    not get it (a snapshot of a version that has a child, a clone of an
    attached leaf): the version is taken off the init list and left as it
    is, and the tree is numbered. *)
Lemma castle_versions_process_refused sysfs st x xv parent pv :
  versions_wf st -> castle_versions_init_list st = [x] ->
  castle_versions_hash st !! x = Some xv -> v_parent_u xv = ParentV parent ->
  castle_versions_hash st !! parent = Some pv ->
  (v_snap xv && negb (is_null (v_first_child pv)))
  || (negb (v_snap xv) && v_attached pv && is_null (v_first_child pv)) = true ->
  exists n h2 err,
    (forall fuel, (n <= fuel)%nat ->
       castle_versions_process sysfs fuel st
       = Some (Done (err, set_init_list (set_hash st h2) []))) /\
    same_links (castle_versions_hash st) h2 /\
    (forall y, v_fixed <$> h2 !! y = v_fixed <$> castle_versions_hash st !! y).
Proof.
  intros [t Hwf] Hil Hx Hpar Hp Hcond. rewrite Hil in Hwf.
  assert (Hxi : v_inited xv = false).
  { destruct Hwf as (_ & _ & _ & _ & _ & _ & _ & _ & Hinl).
    destruct (Hinl x (list_elem_of_here _ _)) as (xv' & Hx' & Hi). congruence. }
  destruct (versions_wf_with_root _ _ _ Hwf) as (rv & Hr & Hri & Hrp).
  destruct (versions_order_loop_wf t _ _ Hwf) as (n & h2 & _ & Hloop & _ & _ & Hs).
  assert (Hinit : exists err, forall k,
            versions_process_init (S (S k)) (castle_versions_hash st) [x] [] 0 None
            = Some (Done (castle_versions_hash st, [], [], err))).
  { exists (if v_snap xv && negb (is_null (v_first_child pv)) then -1 else -2).
    intros k. cbn [versions_process_init head].
    rewrite (bool_decide_eq_true_2 _ (list_elem_of_here x [])). cbn [negb].
    rewrite filter_single_ne, Hx, Hxi, Hpar, Hp.
    destruct (v_snap xv && negb (is_null (v_first_child pv))); [reflexivity|].
    cbn [orb] in Hcond. rewrite Hcond. reflexivity. }
  destruct Hinit as [err Hinit].
  exists (n + 2)%nat, h2, err. split; [|split; [exact Hs|]].
  - intros fuel Hfuel. unfold castle_versions_process. rewrite Hil.
    destruct fuel as [|[|k]]; [lia..|]. rewrite Hinit. cbn [fbind].
    rewrite Hr, Hri, Hrp. cbn [negb].
    replace (S (S k)) with (n + (S (S k) - n))%nat by lia. rewrite Hloop. reflexivity.
  - intros y. apply (versions_order_loop_fixed _ _ _ _ _ _ (Hloop 0%nat)).
Qed.

(** [castle_versions_process] with one version waiting that its inited
    parent may get: the version is linked below its parent and flagged
    INITED, the tree is numbered and the version goes to sysfs. The other
    versions keep their parent, their data and their flags. *)
Lemma castle_versions_process_linked sysfs st x xv parent pv :
  versions_wf st -> castle_versions_init_list st = [x] ->
  castle_versions_hash st !! x = Some xv -> v_parent_u xv = ParentV parent ->
  castle_versions_hash st !! parent = Some pv -> v_inited pv = true ->
  (v_snap xv && negb (is_null (v_first_child pv)))
  || (negb (v_snap xv) && v_attached pv && is_null (v_first_child pv)) = false ->
  exists n h2 err,
    (forall fuel, (n <= fuel)%nat ->
       castle_versions_process sysfs fuel st
       = Some (Done (err, v_emit (set_init_list (set_hash st h2) [])
                            (EvSysfsVersionAdd x)))) /\
    (exists t2, versions_wf_with t2 h2 []) /\
    (exists xv2, h2 !! x = Some xv2 /\ v_parent_u xv2 = ParentPtr (Some parent) /\
       v_first_child xv2 = None /\ v_version xv2 = x /\
       v_da_id xv2 = v_da_id xv /\ v_size xv2 = v_size xv /\
       v_flags xv2 = Z.lor (v_flags xv) CV_INITED_MASK) /\
    (forall y, y <> x -> v_fixed <$> h2 !! y = v_fixed <$> castle_versions_hash st !! y).
Proof.
  intros [t Hwf] Hil Hx Hpar Hp Hpi Hcond. rewrite Hil in Hwf.
  apply orb_false_iff in Hcond as [Hc1 Hc2].
  pose proof Hwf as (Hroot & Hrep & Hnd & _ & Hkey & Hin & Hun & _ & Hinl).
  assert (Hxi : v_inited xv = false).
  { destruct (Hinl x (list_elem_of_here _ _)) as (xv' & Hx' & Hi). congruence. }
  destruct (Hun _ _ Hx Hxi) as [Hxfc _].
  pose proof (Hkey _ _ Hx) as Hxver.
  assert (Hpx : parent <> x) by (intros ->; congruence).
  assert (Hxt : x ∉ tree_ids t).
  { intros Hxin. destruct (proj1 (repr_ids_inited _) _ _ _ Hrep _ Hxin) as (yv & Hy & Hi).
    congruence. }
  destruct (proj1 (subtree_repr _ parent) _ _ _ Hrep Hnd (Hin _ _ Hp Hpi))
    as (pp & pn & cs & Hrp & Hsub & _).
  destruct (castle_versions_insert_total (castle_versions_hash st) parent x xv pp pn cs
              Hx Hrp) as [h1 Hins].
  { intros Hxin. apply Hxt, (proj1 (subtree_ids_sub parent)). rewrite Hsub. exact Hxin. }
  set (hi := alter (fun y => set_flags (Z.lor (v_flags y) CV_INITED_MASK) y) x h1).
  pose proof (versions_insert_wf t _ _ x xv parent pv _ h1 Hwf Hx Hxi Hp Hpi
                (Hins _ (Nat.le_refl _))) as Hwfi.
  rewrite filter_single_ne in Hwfi. fold hi in Hwfi.
  destruct (castle_versions_insert_fixed _ _ _ _ _ _ Hx Hpx (Hins _ (Nat.le_refl _)))
    as [(xv1 & Hx1 & Hx1p & Hx1fc & Hx1v & Hx1da & Hx1sz & Hx1fl) Hothers].
  destruct (versions_wf_with_root _ _ _ Hwfi) as (rv & Hr & Hri & Hrpar).
  destruct (versions_order_loop_wf _ _ _ Hwfi) as (n & h2 & _ & Hloop & Hwf2 & _ & Hs).
  pose proof (versions_order_loop_fixed _ _ _ _ _ _ (Hloop 0%nat)) as Hfix.
  exists (n + length cs + 2)%nat, h2,
    (if negb (sysfs x =? 0) then -3 else 0).
  split; [|split; [eauto|split]].
  - intros fuel Hfuel. unfold castle_versions_process. rewrite Hil.
    destruct fuel as [|[|k]]; [lia..|].
    cbn [versions_process_init head].
    rewrite (bool_decide_eq_true_2 _ (list_elem_of_here x [])). cbn [negb].
    rewrite filter_single_ne, Hx, Hxi, Hpar, Hp, Hc1, Hc2, Hpi. cbn [negb].
    rewrite (Hins (S (S k))) by lia. cbn [fbind fret head]. fold hi.
    rewrite Hr, Hri, Hrpar. cbn [negb].
    replace (S (S k)) with (n + (S (S k) - n))%nat by lia. rewrite Hloop.
    cbn [versions_process_sysfs].
    destruct (negb (sysfs x =? 0)); reflexivity.
  - assert (Hxi1 : hi !! x = Some (set_flags (Z.lor (v_flags xv1) CV_INITED_MASK) xv1))
      by (unfold hi; rewrite lookup_alter_eq, Hx1; reflexivity).
    assert (Hsome : is_Some (h2 !! x)) by (apply (same_links_keys _ _ x Hs); eauto).
    destruct Hsome as [xv2 Hx2]. exists xv2. split; [exact Hx2|].
    destruct (same_links_lookup _ _ _ _ Hs Hx2) as (xvi & Hxvi & Hl).
    rewrite Hxi1 in Hxvi. injection Hxvi as <-.
    unfold v_links in Hl. injection Hl as Hlv Hlp Hlf _ Hlfl.
    cbn [set_flags v_version v_parent_u v_first_child v_flags] in *.
    specialize (Hfix x). rewrite Hx2, Hxi1 in Hfix. cbn in Hfix.
    injection Hfix as _ _ Hda Hsz _.
    repeat split; congruence.
  - intros y Hy. rewrite Hfix. unfold hi. rewrite lookup_alter_ne by congruence.
    apply Hothers, Hy.
Qed.

Section VersionNewPolicy.

Variable INVAL_VERSION : Z.
Variable INVAL_DA : Z.
Variable kmem_cache_alloc_ok : Z -> bool.
Variable castle_sysfs_version_add : Z -> Z.

Local Abbreviation version_new :=
  (castle_version_new INVAL_VERSION INVAL_DA kmem_cache_alloc_ok castle_sysfs_version_add).
Local Abbreviation versions_process := (castle_versions_process castle_sysfs_version_add).

(** The start of [castle_version_new] on a well-formed registry with room
    for one version more: the new version waits on the init list, with the
    data-array id and the size it inherits and with its SNAP flag, and
    [castle_versions_process] is run. *)
Lemma castle_version_new_start st snap_or_clone parent da_id size p :
  versions_wf st ->
  castle_versions_hash st !! parent = Some p ->
  castle_versions_last st <> INVAL_VERSION ->
  wrap32 (castle_versions_last st + 1) <> INVAL_VERSION ->
  castle_versions_hash st !! wrap32 (castle_versions_last st + 1) = None ->
  Z.of_nat (base.size (castle_versions_hash st)) + 1 < 2 ^ 32 ->
  da_id = INVAL_DA \/ v_da_id p = INVAL_DA ->
  0 <= version_cnt st < 900 ->
  kmem_cache_alloc_ok (wrap32 (castle_versions_last st + 1)) = true ->
  let version := wrap32 (castle_versions_last st + 1) in
  exists st1 nv,
    (forall fuel,
       version_new fuel st snap_or_clone parent da_id size
       = (run r <- versions_process fuel st1;
          match castle_versions_hash r.2 !! version with
          | None => fbug
          | Some vv =>
              if negb (v_inited vv)
              then fret (set_hash r.2 (delete version (castle_versions_hash r.2)),
                         INVAL_VERSION)
              else fret (v_emit r.2 (EvVersionCreate version), v_version vv)
          end)) /\
    versions_wf st1 /\
    castle_versions_hash st1 !! version = Some nv /\
    nv = mk_version version (ParentV parent) None None INVAL_VERSION INVAL_VERSION
           (if da_id =? INVAL_DA then v_da_id p else da_id)
           (if v_size p =? 0 then size else v_size p)
           (if snap_or_clone =? 0 then 0 else CV_SNAP_MASK) /\
    (forall y, y <> version ->
       castle_versions_hash st1 !! y = castle_versions_hash st !! y) /\
    castle_versions_init_list st1 = version :: castle_versions_init_list st /\
    castle_versions_last st1 = version /\
    version_cnt st1 = version_cnt st + 1 /\
    v_events st1 = v_events st.
Proof.
  intros Hwf Hp Hlast Hver Hfree Hsz Hda Hcnt Hmem version.
  change (version <> INVAL_VERSION) in Hver.
  change (castle_versions_hash st !! version = None) in Hfree.
  change (kmem_cache_alloc_ok version = true) in Hmem.
  assert (Hdab : negb (DA_INVAL INVAL_DA da_id) && negb (DA_INVAL INVAL_DA (v_da_id p))
                 = false).
  { unfold DA_INVAL. destruct Hda as [->| ->]; rewrite Z.eqb_refl;
      [reflexivity|apply andb_false_r]. }
  set (da := if DA_INVAL INVAL_DA da_id then v_da_id p else da_id).
  destruct (castle_version_add INVAL_VERSION kmem_cache_alloc_ok castle_sysfs_version_add
              (set_last st version) version parent da size) as [st1 r] eqn:Hadd.
  assert (Hr : r = Some version /\ castle_versions_last st1 = version /\
               version_cnt st1 = version_cnt st + 1 /\ v_events st1 = v_events st).
  { assert (Hv0 : version <> 0).
    { intros H0. destruct Hwf as [t Hwf]. apply versions_wf_with_root in Hwf
        as (rv & Hrv & _). congruence. }
    revert Hadd. unfold castle_version_add.
    cbn [version_cnt set_last set_version_cnt].
    rewrite wrap_int32_small by lia.
    destruct (Z.gtb_spec (version_cnt st + 1) 900) as [?|_]; [lia|].
    rewrite Hmem. cbn [negb]. rewrite (proj2 (Z.eqb_neq _ _) Hv0).
    intros [= <- <-]. repeat split. }
  destruct Hr as (-> & Hl1 & Hc1 & He1).
  pose proof Hadd as Hadd'.
  apply castle_version_add_wf in Hadd' as (_ & Hnew & Hother & Hil1 & [t Hwf1]);
    [|apply (versions_wf_ext st); [reflexivity..|exact Hwf]|exact Hfree|exact Hsz].
  cbn [castle_versions_init_list set_last] in Hil1.
  cbn [castle_versions_hash set_last] in Hother.
  set (nv0 := mk_version version (ParentV parent) None None INVAL_VERSION
                INVAL_VERSION da size 0) in *.
  set (f1 := set_size (v_size p)).
  set (f2 := fun x => set_flags (if negb (snap_or_clone =? 0)
                                 then Z.lor (v_flags x) CV_SNAP_MASK
                                 else Z.land (v_flags x) (Z.lnot CV_SNAP_MASK)) x).
  set (h1 := if negb (v_size p =? 0) then alter f1 version (castle_versions_hash st1)
             else castle_versions_hash st1).
  assert (Hh1 : h1 !! version
                = Some (set_size (if v_size p =? 0 then size else v_size p) nv0) /\
                (forall y, y <> version -> h1 !! y = castle_versions_hash st !! y) /\
                versions_wf_with t h1 (castle_versions_init_list st1)).
  { subst h1. destruct (v_size p =? 0); cbn [negb].
    - split; [exact Hnew|]. split; [exact Hother|exact Hwf1].
    - split; [rewrite lookup_alter_eq, Hnew; reflexivity|].
      split; [intros y Hy; rewrite lookup_alter_ne by congruence; auto|].
      apply (versions_wf_with_alter_uninited t _ _ version nv0); auto. }
  destruct Hh1 as (Hnv1 & Hother1 & Hwf_h1).
  exists (set_hash st1 (alter f2 version h1)).
  eexists. split; [|split; [|split; [|split; [|split; [|split; [|split; [|split]]]]]]].
  3: { cbn [castle_versions_hash set_hash]. rewrite lookup_alter_eq, Hnv1. reflexivity. }
  - intros fuel. unfold castle_version_new, castle_version_new_create. rewrite Hp.
    unfold VERSION_INVAL at 1. rewrite (proj2 (Z.eqb_neq _ _) Hlast).
    cbn [castle_versions_last set_last]. fold version.
    unfold VERSION_INVAL at 1. rewrite (proj2 (Z.eqb_neq _ _) Hver).
    rewrite Hdab. fold da. rewrite Hadd. fold f1 f2 h1.
    destruct (versions_process fuel (set_hash st1 (alter f2 version h1)))
      as [[[err st2]|]|]; try reflexivity.
    cbn [fbind snd]. destruct (castle_versions_hash st2 !! version) as [vv|] eqn:Hvv;
      [|reflexivity].
    destruct (negb (v_inited vv)); cbn [fret]; [reflexivity|].
    cbn [fbind fret castle_versions_hash v_emit]. rewrite Hvv. reflexivity.
  - exists t. cbn [castle_versions_hash castle_versions_init_list set_hash].
    apply (versions_wf_with_alter_uninited t _ _ version _ f2 Hwf_h1 Hnv1);
      [reflexivity|].
    intros x. repeat split. unfold f2. apply v_inited_snap_flag.
  - unfold f2, nv0, da, DA_INVAL, set_size, set_flags. cbn.
    destruct (snap_or_clone =? 0); reflexivity.
  - intros y Hy. cbn [castle_versions_hash set_hash].
    rewrite lookup_alter_ne by congruence. auto.
  - exact Hil1.
  - exact Hl1.
  - exact Hc1.
  - exact He1.
Qed.

(** X20: what [castle_version_new] refuses. On a well-formed registry with
    nothing left to init, with room and quota for one version more, a
    snapshot of a version that has a child already, and a clone of a leaf
    that is attached, return [INVAL_VERSION] (with fuel enough). The
    registry then holds the versions it held, each as it was but for its
    order numbers, which are computed anew; the version number and the unit
    of quota taken for the version are not given back. *)
Theorem castle_version_new_refused (st : versions_state)
    (snap_or_clone parent da_id size : Z) (p : castle_version) :
  versions_wf st -> castle_versions_init_list st = [] ->
  castle_versions_hash st !! parent = Some p ->
  castle_versions_last st <> INVAL_VERSION ->
  wrap32 (castle_versions_last st + 1) <> INVAL_VERSION ->
  castle_versions_hash st !! wrap32 (castle_versions_last st + 1) = None ->
  Z.of_nat (base.size (castle_versions_hash st)) + 1 < 2 ^ 32 ->
  da_id = INVAL_DA \/ v_da_id p = INVAL_DA ->
  0 <= version_cnt st < 900 ->
  kmem_cache_alloc_ok (wrap32 (castle_versions_last st + 1)) = true ->
  (snap_or_clone <> 0 /\ v_first_child p <> None) \/
  (snap_or_clone = 0 /\ v_attached p = true /\ v_first_child p = None) ->
  exists n st',
    (forall fuel, (n <= fuel)%nat ->
       version_new fuel st snap_or_clone parent da_id size
       = Some (Done (st', INVAL_VERSION))) /\
    versions_wf st' /\
    (forall y, match castle_versions_hash st' !! y with
               | None => castle_versions_hash st !! y = None
               | Some v' =>
                   exists v, castle_versions_hash st !! y = Some v /\
                     v' = set_r_order (v_r_order v') (set_o_order (v_o_order v') v)
               end) /\
    castle_versions_init_list st' = [] /\
    castle_versions_last st' = wrap32 (castle_versions_last st + 1) /\
    version_cnt st' = version_cnt st + 1 /\
    v_events st' = v_events st.
Proof.
  intros Hwf Hil Hp Hlast Hver Hfree Hsz Hda Hcnt Hmem Hcase.
  destruct (castle_version_new_start st snap_or_clone parent da_id size p
              Hwf Hp Hlast Hver Hfree Hsz Hda Hcnt Hmem)
    as (st1 & nv & Hnew & Hwf1 & Hnv & Hnv_eq & Hother & Hil1 & Hl1 & Hc1 & He1).
  set (version := wrap32 (castle_versions_last st + 1)) in *.
  rewrite Hil in Hil1.
  assert (Hpv : parent <> version) by (intros ->; congruence).
  assert (Hp1 : castle_versions_hash st1 !! parent = Some p)
    by (rewrite Hother by exact Hpv; exact Hp).
  assert (Hsnap : v_snap nv = negb (snap_or_clone =? 0)).
  { rewrite Hnv_eq. unfold v_snap. cbn [v_flags].
    destruct (snap_or_clone =? 0); reflexivity. }
  destruct (castle_versions_process_refused castle_sysfs_version_add st1 version nv
              parent p Hwf1 Hil1 Hnv) as (n & h2 & err & Hproc & Hs & Hfix);
    [rewrite Hnv_eq; reflexivity|exact Hp1| |].
  { rewrite Hsnap.
    destruct Hcase as [[Hsn Hfc]|(-> & Hat & Hfc)].
    - rewrite (proj2 (Z.eqb_neq _ _) Hsn). destruct (v_first_child p); [reflexivity|].
      congruence.
    - rewrite Hat, Hfc. reflexivity. }
  assert (Hsome : is_Some (h2 !! version)) by (apply (same_links_keys _ _ _ Hs); eauto).
  destruct Hsome as [vv Hvv].
  assert (Hvi : v_inited vv = false).
  { destruct (same_links_lookup _ _ _ _ Hs Hvv) as (nv' & Hnv' & Hl).
    apply v_links_fields in Hl as (_ & _ & _ & _ & ->).
    rewrite Hnv in Hnv'. injection Hnv' as <-. rewrite Hnv_eq. unfold v_inited.
    cbn [v_flags]. destruct (snap_or_clone =? 0); reflexivity. }
  assert (Hsame : forall y, match delete version h2 !! y with
               | None => castle_versions_hash st !! y = None
               | Some v' =>
                   exists v, castle_versions_hash st !! y = Some v /\
                     v' = set_r_order (v_r_order v') (set_o_order (v_o_order v') v)
               end).
  { intros y. destruct (decide (y = version)) as [->|Hy].
    - rewrite lookup_delete_eq. exact Hfree.
    - rewrite lookup_delete_ne by congruence.
      specialize (Hs y). specialize (Hfix y). rewrite (Hother y Hy) in Hs, Hfix.
      destruct (h2 !! y) as [v'|], (castle_versions_hash st !! y) as [v|];
        try discriminate; [|reflexivity].
      exists v. split; [reflexivity|].
      cbn in Hs, Hfix. unfold v_links in Hs. unfold v_fixed in Hfix.
      injection Hs as Hv Hpu Hfc Hns Hfl. injection Hfix as _ _ Hdi Hsi _.
      destruct v as [a1 a2 a3 a4 a5 a6 a7 a8 a9], v' as [b1 b2 b3 b4 b5 b6 b7 b8 b9].
      cbn in *. subst. reflexivity. }
  exists n, (set_hash (set_init_list (set_hash st1 h2) []) (delete version h2)).
  split; [|split; [|split; [exact Hsame|split; [reflexivity|split; [exact Hl1|
    split; [exact Hc1|exact He1]]]]]].
  - intros fuel Hfuel. rewrite Hnew, (Hproc fuel Hfuel).
    cbn [fbind snd castle_versions_hash set_hash set_init_list]. fold version.
    rewrite Hvv, Hvi. reflexivity.
  - destruct Hwf as [t Hwf]. exists t.
    cbn [castle_versions_hash castle_versions_init_list set_hash set_init_list].
    rewrite Hil in Hwf.
    apply (versions_wf_with_same_links t (castle_versions_hash st) _ []); [|exact Hwf].
    intros y. specialize (Hsame y). destruct (delete version h2 !! y) as [v'|].
    + destruct Hsame as (v & -> & Hv'). rewrite Hv' at 1. reflexivity.
    + rewrite Hsame. reflexivity.
Qed.

(** X21: what [castle_version_new] creates. On a well-formed registry with
    nothing left to init, with room and quota for one version more, a
    snapshot of an inited leaf, and a clone of an inited version that is not
    an attached leaf, return the number after the last one handed out (with
    fuel enough). The new version is inited, a leaf below the parent asked
    for, not attached, a snapshot or a clone as asked; it has the parent's
    data array when none is given (and [castle_version_da_id_get] returns
    it), and the parent's size unless that is 0, when it has the size given.
    The versions there were keep their parent,
    their data array, their size and their flags; sysfs and the event
    channel are told of the new version, in this order. *)
Theorem castle_version_new_child (st : versions_state)
    (snap_or_clone parent da_id size : Z) (p : castle_version) :
  versions_wf st -> castle_versions_init_list st = [] ->
  castle_versions_hash st !! parent = Some p -> v_inited p = true ->
  castle_versions_last st <> INVAL_VERSION ->
  wrap32 (castle_versions_last st + 1) <> INVAL_VERSION ->
  castle_versions_hash st !! wrap32 (castle_versions_last st + 1) = None ->
  Z.of_nat (base.size (castle_versions_hash st)) + 1 < 2 ^ 32 ->
  da_id = INVAL_DA \/ v_da_id p = INVAL_DA ->
  0 <= version_cnt st < 900 ->
  kmem_cache_alloc_ok (wrap32 (castle_versions_last st + 1)) = true ->
  (snap_or_clone <> 0 /\ v_first_child p = None) \/
  (snap_or_clone = 0 /\ (v_attached p = false \/ v_first_child p <> None)) ->
  let version := wrap32 (castle_versions_last st + 1) in
  exists n st',
    (forall fuel, (n <= fuel)%nat ->
       version_new fuel st snap_or_clone parent da_id size
       = Some (Done (st', version))) /\
    versions_wf st' /\
    (exists vv, castle_versions_hash st' !! version = Some vv /\
       v_inited vv = true /\ v_parent_u vv = ParentPtr (Some parent) /\
       v_first_child vv = None /\ v_attached vv = false /\
       v_snap vv = negb (snap_or_clone =? 0) /\
       v_da_id vv = (if da_id =? INVAL_DA then v_da_id p else da_id) /\
       v_size vv = (if v_size p =? 0 then size else v_size p)) /\
    castle_version_da_id_get st' version
      = Done (if da_id =? INVAL_DA then v_da_id p else da_id) /\
    (forall y v, y <> version -> castle_versions_hash st !! y = Some v ->
       exists v', castle_versions_hash st' !! y = Some v' /\
         v_parent_u v' = v_parent_u v /\ v_da_id v' = v_da_id v /\
         v_size v' = v_size v /\ v_flags v' = v_flags v) /\
    castle_versions_init_list st' = [] /\
    castle_versions_last st' = version /\
    version_cnt st' = version_cnt st + 1 /\
    v_events st' = v_events st ++ [EvSysfsVersionAdd version; EvVersionCreate version].
Proof.
  intros Hwf Hil Hp Hpi Hlast Hver Hfree Hsz Hda Hcnt Hmem Hcase version.
  destruct (castle_version_new_start st snap_or_clone parent da_id size p
              Hwf Hp Hlast Hver Hfree Hsz Hda Hcnt Hmem)
    as (st1 & nv & Hnew & Hwf1 & Hnv & Hnv_eq & Hother & Hil1 & Hl1 & Hc1 & He1).
  fold version in Hnew, Hnv, Hnv_eq, Hother, Hil1, Hl1.
  change (castle_versions_hash st !! version = None) in Hfree.
  rewrite Hil in Hil1.
  assert (Hpv : parent <> version) by (intros ->; congruence).
  assert (Hp1 : castle_versions_hash st1 !! parent = Some p)
    by (rewrite Hother by exact Hpv; exact Hp).
  assert (Hsnap : v_snap nv = negb (snap_or_clone =? 0)).
  { rewrite Hnv_eq. unfold v_snap. cbn [v_flags].
    destruct (snap_or_clone =? 0); reflexivity. }
  destruct (castle_versions_process_linked castle_sysfs_version_add st1 version nv
              parent p Hwf1 Hil1 Hnv)
    as (n & h2 & err & Hproc & [t2 Hwf2] & (vv & Hvv & Hvp & Hvfc & Hvver & Hvda & Hvsz & Hvfl)
        & Hfix);
    [rewrite Hnv_eq; reflexivity|exact Hp1|exact Hpi| |].
  { rewrite Hsnap.
    destruct Hcase as [[Hsn Hfc]|(-> & [Hat|Hfc])].
    - rewrite (proj2 (Z.eqb_neq _ _) Hsn), Hfc. reflexivity.
    - rewrite Hat. reflexivity.
    - destruct (v_first_child p); [|congruence]. cbn. apply andb_false_r. }
  assert (Hflags : v_flags vv = Z.lor (if snap_or_clone =? 0 then 0 else CV_SNAP_MASK)
                                  CV_INITED_MASK)
    by (rewrite Hvfl, Hnv_eq; reflexivity).
  assert (Hvi : v_inited vv = true).
  { unfold v_inited. rewrite Hflags. destruct (snap_or_clone =? 0); reflexivity. }
  exists n, (v_emit (v_emit (set_init_list (set_hash st1 h2) [])
                       (EvSysfsVersionAdd version)) (EvVersionCreate version)).
  cbn [castle_versions_hash castle_versions_init_list castle_versions_last version_cnt
       v_events v_emit set_hash set_init_list].
  split; [|split; [exists t2; exact Hwf2|split; [|split; [|split; [|split; [reflexivity|
    split; [exact Hl1|split; [exact Hc1|]]]]]]]].
  - intros fuel Hfuel. rewrite Hnew, (Hproc fuel Hfuel).
    cbn [fbind snd castle_versions_hash v_emit set_hash set_init_list].
    rewrite Hvv, Hvi, Hvver. reflexivity.
  - exists vv. split; [exact Hvv|]. split; [exact Hvi|]. split; [exact Hvp|].
    split; [exact Hvfc|].
    split; [unfold v_attached; rewrite Hflags; destruct (snap_or_clone =? 0); reflexivity|].
    split; [unfold v_snap; rewrite Hflags; destruct (snap_or_clone =? 0); reflexivity|].
    rewrite Hvda, Hvsz, Hnv_eq. split; reflexivity.
  - unfold castle_version_da_id_get.
    cbn [castle_versions_hash v_emit set_hash set_init_list].
    rewrite Hvv, Hvi, Hvda, Hnv_eq. reflexivity.
  - intros y v Hy Hv. specialize (Hfix y Hy). rewrite (Hother y Hy), Hv in Hfix.
    destruct (h2 !! y) as [v'|]; [|discriminate]. exists v'. split; [reflexivity|].
    apply (inj Some), v_fixed_fields in Hfix.
    destruct Hfix as (_ & ? & ? & ? & ?). auto.
  - rewrite He1, <- app_assoc. reflexivity.
Qed.

End VersionNewPolicy.

Lemma castle_version_new_refused_witness :
  exists n st',
    (forall fuel, (n <= fuel)%nat ->
       castle_version_new sample_inval_version sample_inval_version (fun _ => true)
         (fun _ => 0) fuel (sample_process sample_registry) 1 1 sample_inval_version 0
       = Some (Done (st', sample_inval_version))) /\
    versions_wf st' /\
    castle_versions_last st' = 4 /\ version_cnt st' = 5.
Proof.
  destruct (castle_version_new_refused sample_inval_version sample_inval_version
              (fun _ => true) (fun _ => 0) (sample_process sample_registry)
              1 1 sample_inval_version 0
              (mk_version 1 (ParentPtr (Some 0)) (Some 3) None 3 4 7 0 1))
    as (n & st' & Hrun & Hwf & _ & _ & Hlast & Hcnt & _).
  - exact sample_processed_wf.
  - vm_compute. reflexivity.
  - vm_compute. reflexivity.
  - vm_compute. discriminate.
  - vm_compute. discriminate.
  - vm_compute. reflexivity.
  - vm_compute. reflexivity.
  - left. reflexivity.
  - vm_compute. split; [discriminate|reflexivity].
  - reflexivity.
  - left. split; discriminate.
  - exists n, st'. repeat split; assumption.
Defined.

Lemma castle_version_new_child_witness :
  exists n st',
    (forall fuel, (n <= fuel)%nat ->
       castle_version_new sample_inval_version sample_inval_version (fun _ => true)
         (fun _ => 0) fuel (sample_process sample_registry) 1 3 sample_inval_version 0
       = Some (Done (st', 4))) /\
    versions_wf st' /\
    castle_version_da_id_get st' 4 = Done 7 /\
    exists vv, castle_versions_hash st' !! 4 = Some vv /\
      v_inited vv = true /\ v_parent_u vv = ParentPtr (Some 3) /\ v_da_id vv = 7.
Proof.
  destruct (castle_version_new_child sample_inval_version sample_inval_version
              (fun _ => true) (fun _ => 0) (sample_process sample_registry)
              1 3 sample_inval_version 0
              (mk_version 3 (ParentPtr (Some 1)) None None 4 4 7 0 1))
    as (n & st' & Hrun & Hwf & (vv & Hvv & Hvi & Hvp & _ & _ & _ & Hda & _) & Hget & _).
  - exact sample_processed_wf.
  - vm_compute. reflexivity.
  - vm_compute. reflexivity.
  - reflexivity.
  - vm_compute. discriminate.
  - vm_compute. discriminate.
  - vm_compute. reflexivity.
  - vm_compute. reflexivity.
  - left. reflexivity.
  - vm_compute. split; [discriminate|reflexivity].
  - reflexivity.
  - left. split; [discriminate|reflexivity].
  - exists n, st'. split; [exact Hrun|]. split; [exact Hwf|]. split; [exact Hget|].
    exists vv. repeat split; assumption.
Defined.
